(** * wikiparse: the backtracking engine (parser.js) and the wiki grammar
      (wikiparser.js), embedded as executable Rocq functions.

    Strings are sequences of UTF-16 code units, the cursor is an offset into
    them, the parser object's mutable fields are a state record threaded by a
    small state-and-exception monad, and the recursion between [next], [node]
    and the productions is cut by a fuel argument. *)

From Stdlib Require Import String Ascii DecimalString.
From Stdlib Require Import List ZArith NArith Bool Lia Arith PeanoNat.
Import ListNotations.

Set Implicit Arguments.
Set Warnings "-register-all".

(* ================================================================== *)
(** ** JavaScript strings *)

(** A JS string: its UTF-16 code units. *)
Definition jsstring := list N.

(** A literal of the source, written in ASCII. *)
Definition js (s : string) : jsstring :=
  map N_of_ascii (list_ascii_of_string s).

Fixpoint jsstring_eqb (a b : jsstring) : bool :=
  match a, b with
  | [], [] => true
  | x :: a', y :: b' => N.eqb x y && jsstring_eqb a' b'
  | _, _ => false
  end.

Definition inRange (lo hi c : N) : bool := (N.leb lo c && N.leb c hi)%bool.

(** WhiteSpace and LineTerminator code points: what [String.prototype.trim],
    [trimLeft], [trimRight] strip and what [\s] matches. *)
Definition isWhiteSpace (c : N) : bool :=
  (inRange 9 13 c || N.eqb c 32 || N.eqb c 160 || N.eqb c 5760
   || inRange 8192 8202 c || N.eqb c 8232 || N.eqb c 8233 || N.eqb c 8239
   || N.eqb c 8287 || N.eqb c 12288 || N.eqb c 65279)%bool.

Fixpoint dropWhile (p : N -> bool) (s : jsstring) : jsstring :=
  match s with
  | [] => []
  | c :: s' => if p c then dropWhile p s' else s
  end.

Fixpoint takeWhile (p : N -> bool) (s : jsstring) : jsstring :=
  match s with
  | [] => []
  | c :: s' => if p c then c :: takeWhile p s' else []
  end.

Definition dropWhileEnd (p : N -> bool) (s : jsstring) : jsstring :=
  rev (dropWhile p (rev s)).

Definition trimLeft (s : jsstring) : jsstring := dropWhile isWhiteSpace s.
Definition trimRight (s : jsstring) : jsstring := dropWhileEnd isWhiteSpace s.
Definition strTrim (s : jsstring) : jsstring := trimRight (trimLeft s).

(** [/^\w/] without the [u] flag: ASCII letters, digits and underscore. *)
Definition isWordChar (c : N) : bool :=
  (inRange 65 90 c || inRange 97 122 c || inRange 48 57 c || N.eqb c 95)%bool.

(** ASCII case folding: what a case-insensitive regular expression without
    the [u] flag does to a pattern of ASCII characters (a character above
    127 is never canonicalised to an ASCII one). *)
Definition asciiLower (c : N) : N :=
  if inRange 65 90 c then (c + 32)%N else c.

(** [/^[a-z-]/i] *)
Definition isTagNameStart (c : N) : bool :=
  (inRange 97 122 (asciiLower c) || N.eqb c 45)%bool.

(** [/^[\s-]+|[\s-]+$/g] replaced by the empty string: the leading and the
    trailing run of whitespace and dashes are removed. *)
Definition isSpaceOrDash (c : N) : bool := (isWhiteSpace c || N.eqb c 45)%bool.
Definition stripSpaceDash (s : jsstring) : jsstring :=
  dropWhileEnd isSpaceOrDash (dropWhile isSpaceOrDash s).

(** [s.split('#')]: the pieces between the separators. *)
Fixpoint splitOn (sep : N) (s : jsstring) : list jsstring :=
  match s with
  | [] => [[]]
  | c :: s' =>
      if N.eqb c sep then [] :: splitOn sep s'
      else match splitOn sep s' with
           | p :: ps => (c :: p) :: ps
           | [] => [[c]]
           end
  end.

(** Prefix test between plain strings, ASCII case-insensitive on the text:
    the building block of the sticky [/.../yi] expression of externalLink. *)
Fixpoint prefixCI (prefix text : jsstring) : bool :=
  match prefix, text with
  | [], _ => true
  | p :: prefix', c :: text' => N.eqb (asciiLower c) p && prefixCI prefix' text'
  | _ :: _, [] => false
  end.

(* ================================================================== *)
(** ** JavaScript numbers, as far as the parser uses them *)

(** A Number value: not-a-number, an infinity, or the finite double
    [m * 2^e] kept exactly ([m] odd, or [m = 0] and [e = 0]). *)
Inductive jsnum :=
| NaN
| Infinity (negative : bool)
| Fin (m e : Z).

Definition jsnum_eqb (a b : jsnum) : bool :=
  match a, b with
  | NaN, NaN => true
  | Infinity x, Infinity y => Bool.eqb x y
  | Fin m e, Fin m' e' => (Z.eqb m m' && Z.eqb e e')%bool
  | _, _ => false
  end.

Fixpoint normFuel (fuel : nat) (m e : Z) : Z * Z :=
  match fuel with
  | O => (m, e)
  | S f => if Z.even m then normFuel f (m / 2)%Z (e + 1)%Z else (m, e)
  end.

Definition normalize (m e : Z) : jsnum :=
  if Z.eqb m 0 then Fin 0 0
  else let (m', e') := normFuel (Z.to_nat (Z.log2 (Z.abs m))) m e in Fin m' e'.

(** Round the positive rational [p/q] to the nearest double, ties to even. *)
Definition roundPos (p q : Z) : jsnum :=
  let e0 := (Z.log2 p - Z.log2 q - 52)%Z in
  let below (e : Z) :=   (* p/q < 2^(52+e) ? *)
    if (0 <=? 52 + e)%Z then (p <? q * 2 ^ (52 + e))%Z
    else (p * 2 ^ (- (52 + e)) <? q)%Z in
  let e1 := if below e0 then (e0 - 1)%Z else e0 in
  let e := Z.max e1 (-1074) in
  let num := if (e <? 0)%Z then (p * 2 ^ (- e))%Z else p in
  let den := if (e <? 0)%Z then q else (q * 2 ^ e)%Z in
  let m0 := (num / den)%Z in
  let r := (num mod den)%Z in
  let m := if ((den <? 2 * r) || ((den =? 2 * r) && Z.odd m0))%Z%bool
           then (m0 + 1)%Z else m0 in
  if (1024 <? Z.log2 m + 1 + e)%Z then Infinity false
  else normalize m e.

(** Round the rational [p/q] ([q > 0]) to a double. *)
Definition roundQ (p q : Z) : jsnum :=
  if (p =? 0)%Z then Fin 0 0
  else if (0 <? p)%Z then roundPos p q
  else match roundPos (- p) q with
       | Fin m e => Fin (- m) e
       | Infinity _ => Infinity true
       | NaN => NaN
       end.

(** [x - 1] on Numbers. *)
Definition jsMinusOne (x : jsnum) : jsnum :=
  match x with
  | NaN => NaN
  | Infinity b => Infinity b
  | Fin m e =>
      if (0 <=? e)%Z then roundQ (m * 2 ^ e - 1) 1
      else roundQ (m - 2 ^ (- e)) (2 ^ (- e))
  end.

Definition isDigit (c : N) : bool := inRange 48 57 c.

(** The value of a digit in the given radix, if it is one. *)
Definition digitValue (radix : Z) (c : N) : option Z :=
  let v := if inRange 48 57 c then Some (Z.of_N c - 48)%Z
           else if inRange 97 122 c then Some (Z.of_N c - 87)%Z
           else if inRange 65 90 c then Some (Z.of_N c - 55)%Z
           else None in
  match v with
  | Some d => if (d <? radix)%Z then Some d else None
  | None => None
  end.

(** Longest prefix of digits of the radix: its value, how many digits were
    read, and the rest of the string. *)
Fixpoint readDigits (radix : Z) (acc : Z) (n : nat) (s : jsstring)
  : Z * nat * jsstring :=
  match s with
  | [] => (acc, n, [])
  | c :: s' =>
      match digitValue radix c with
      | Some d => readDigits radix (acc * radix + d)%Z (S n) s'
      | None => (acc, n, s)
      end
  end.

(** The decimal number [mant * 10^ex] as a double; exponents far outside the
    range of doubles are decided without computing the power. *)
Definition decimalToDouble (neg : bool) (mant : Z) (ex : Z) : jsnum :=
  if (mant =? 0)%Z then Fin 0 0
  else
    let digits := (Z.log2 mant / 3 + 1)%Z in  (* at least the digit count *)
    if (400 <? ex)%Z then Infinity neg
    else if (ex + digits <? -400)%Z then Fin 0 0
    else
      let sgn := if neg then (-1)%Z else 1%Z in
      if (0 <=? ex)%Z then roundQ (sgn * mant * 10 ^ ex) 1
      else roundQ (sgn * mant) (10 ^ (- ex)).

(** Optional exponent part [e[+-]digits] of a decimal literal; [None] when
    what follows is not one (the whole string is then not numeric). *)
Definition readExponent (s : jsstring) : option Z :=
  match s with
  | [] => Some 0%Z
  | 101%N :: s1 =>
      let '(neg, s2) := match s1 with
                        | 45%N :: t => (true, t)
                        | 43%N :: t => (false, t)
                        | _ => (false, s1)
                        end in
      match readDigits 10 0 0 s2 with
      | (_, O, _) => None
      | (v, _, []) => Some (if neg then (- v)%Z else v)
      | _ => None
      end
  | _ => None
  end.

(** StrDecimalLiteral without its sign, on a lower-cased string (so that
    "Infinity" cannot occur). *)
Definition unsignedDecimal (neg : bool) (s : jsstring) : jsnum :=
  let '(ip, ni, s1) := readDigits 10 0 0 s in
  match s1 with
  | 46%N :: s2 =>
      let '(fp, nf, s3) := readDigits 10 ip 0 s2 in
      if (Nat.eqb ni 0 && Nat.eqb nf 0)%bool then NaN
      else match readExponent s3 with
           | Some ex => decimalToDouble neg fp (ex - Z.of_nat nf)
           | None => NaN
           end
  | _ =>
      if Nat.eqb ni 0 then NaN
      else match readExponent s1 with
           | Some ex => decimalToDouble neg ip ex
           | None => NaN
           end
  end.

Definition nonDecimal (radix : Z) (s : jsstring) : jsnum :=
  match readDigits radix 0 0 s with
  | (_, O, _) => NaN
  | (v, _, []) => roundQ v 1
  | _ => NaN
  end.

(** ToNumber on a string that is trimmed, non-empty and lower-cased, which
    is what [isNaN(name)] and [name - 1] receive. *)
Definition toNumber (s : jsstring) : jsnum :=
  match s with
  | 48%N :: 120%N :: t => nonDecimal 16 t
  | 48%N :: 111%N :: t => nonDecimal 8 t
  | 48%N :: 98%N :: t => nonDecimal 2 t
  | 45%N :: t => unsignedDecimal true t
  | 43%N :: t => unsignedDecimal false t
  | _ => unsignedDecimal false s
  end.

Definition isNaN (x : jsnum) : bool :=
  match x with NaN => true | _ => false end.

(** [parseInt(s, radix)] for radix 10 or 16. *)
Definition parseInt (s : jsstring) (radix : Z) : jsnum :=
  let s0 := trimLeft s in
  let '(neg, s1) := match s0 with
                    | 45%N :: t => (true, t)
                    | 43%N :: t => (false, t)
                    | _ => (false, s0)
                    end in
  let s2 := if (radix =? 16)%Z then
              match s1 with
              | 48%N :: 120%N :: t => t
              | 48%N :: 88%N :: t => t
              | _ => s1
              end
            else s1 in
  match readDigits radix 0 0 s2 with
  | (_, O, _) => NaN
  | (v, _, _) => roundQ (if neg then (- v)%Z else v) 1
  end.

(** ToUint16, the conversion inside [String.fromCharCode]. *)
Definition toUint16 (x : jsnum) : N :=
  match x with
  | NaN | Infinity _ => 0%N
  | Fin m e =>
      if (0 <=? e)%Z then
        if (16 <=? e)%Z then 0%N else Z.to_N ((m * 2 ^ e) mod 65536)
      else Z.to_N ((Z.quot m (2 ^ (- e))) mod 65536)
  end.

Definition fromCharCode (x : jsnum) : jsstring := [toUint16 x].

(** Is the Number an array index (an integer in [0, 2^32 - 2])? *)
Definition arrayIndex (x : jsnum) : option N :=
  match x with
  | Fin m e =>
      if ((0 <=? e) && (0 <=? m) && (e <? 32)
          && (m * 2 ^ e <? 4294967295))%Z%bool
      then Some (Z.to_N (m * 2 ^ e)) else None
  | _ => None
  end.


(* ================================================================== *)
(** ** Values of the AST *)

(** What the parser builds and passes around: strings, arrays (a JS array
    may carry extra, non-index properties; a hole reads as [undefined]),
    objects built by the code with field names of its own ([VObj]), and
    objects used as dictionaries, [parameters] and [attributes], whose keys
    come from the input ([VDict]). *)
Inductive value :=
| VUndefined
| VNull
| VBool (b : bool)
| VNum (n : Z)
| VStr (s : jsstring)
| VArr (elems : list value) (props : list (jsnum * value))
| VObj (fields : list (jsstring * value))
| VDict (entries : list (jsstring * value)).

(** A plain array literal. *)
Definition arr (l : list value) : value := VArr l [].

(** JS truthiness: [if (x)], [!x], [x || y]. *)
Definition truthy (v : value) : bool :=
  match v with
  | VUndefined | VNull => false
  | VBool b => b
  | VNum n => negb (Z.eqb n 0)
  | VStr s => match s with [] => false | _ => true end
  | _ => true
  end.

(** [x == null] *)
Definition isNullish (v : value) : bool :=
  match v with VUndefined | VNull => true | _ => false end.

Fixpoint joinWith (sep : jsstring) (l : list jsstring) : jsstring :=
  match l with
  | [] => []
  | [x] => x
  | x :: rest => x ++ sep ++ joinWith sep rest
  end.

(** ToString, which property keys and [parseInt] apply to their argument. *)
Fixpoint toStr (v : value) : jsstring :=
  match v with
  | VUndefined => js "undefined"
  | VNull => js "null"
  | VBool true => js "true"
  | VBool false => js "false"
  | VNum n => js (NilEmpty.string_of_int (Z.to_int n))
  | VStr s => s
  | VArr l _ =>
      joinWith (js ",")
        (map (fun x => match x with
                       | VUndefined | VNull => []
                       | _ => toStr x
                       end) l)
  | VObj _ | VDict _ => js "[object Object]"
  end.

(** Reading and writing fields of a node object; [setField] keeps the
    position of a field that exists, as [Object.assign] does. *)
Fixpoint getField (k : jsstring) (fs : list (jsstring * value)) : value :=
  match fs with
  | [] => VUndefined
  | (k', v) :: rest => if jsstring_eqb k k' then v else getField k rest
  end.

Fixpoint setField (k : jsstring) (v : value) (fs : list (jsstring * value))
  : list (jsstring * value) :=
  match fs with
  | [] => [(k, v)]
  | (k', v') :: rest =>
      if jsstring_eqb k k' then (k, v) :: rest else (k', v') :: setField k v rest
  end.

Fixpoint removeField (k : jsstring) (fs : list (jsstring * value))
  : list (jsstring * value) :=
  match fs with
  | [] => []
  | (k', v') :: rest =>
      if jsstring_eqb k k' then removeField k rest else (k', v') :: removeField k rest
  end.

(** [Object.assign(target, source)] on the fields of two objects. *)
Definition assignFields (target source : list (jsstring * value))
  : list (jsstring * value) :=
  fold_left (fun acc kv => setField (fst kv) (snd kv) acc) source target.

(** [dict[key] = v] on an object created by [{}]. Writing [__proto__] goes to
    the prototype setter and creates no own property. *)
Fixpoint dictSetOwn (k : jsstring) (v : value) (d : list (jsstring * value))
  : list (jsstring * value) :=
  match d with
  | [] => [(k, v)]
  | (k', v') :: rest =>
      if jsstring_eqb k k' then (k, v) :: rest else (k', v') :: dictSetOwn k v rest
  end.

Definition dictSet (k : jsstring) (v : value) (d : list (jsstring * value))
  : list (jsstring * value) :=
  if jsstring_eqb k (js "__proto__") then d else dictSetOwn k v d.

Fixpoint dictGet (k : jsstring) (d : list (jsstring * value)) : value :=
  match d with
  | [] => VUndefined
  | (k', v) :: rest => if jsstring_eqb k k' then v else dictGet k rest
  end.

(** *** Arrays with holes: [a[i] = v], [a.push(v)], [a.pop()] *)

Record jsarray := mkArray {
  elems : list value;
  props : list (jsnum * value);
}.

Definition emptyArray : jsarray := mkArray [] [].

Fixpoint setNth (i : nat) (v : value) (l : list value) : list value :=
  match i, l with
  | O, [] => [v]
  | O, _ :: rest => v :: rest
  | S i', [] => VUndefined :: setNth i' v []
  | S i', x :: rest => x :: setNth i' v rest
  end.

Fixpoint propSet (k : jsnum) (v : value) (ps : list (jsnum * value))
  : list (jsnum * value) :=
  match ps with
  | [] => [(k, v)]
  | (k', v') :: rest =>
      if jsnum_eqb k k' then (k, v) :: rest else (k', v') :: propSet k v rest
  end.

(** [a[key] = v] for a numeric key: an array index extends the array, any
    other number names an ordinary property. *)
Definition arraySet (key : jsnum) (v : value) (a : jsarray) : jsarray :=
  match arrayIndex key with
  | Some i => mkArray (setNth (N.to_nat i) v (elems a)) (props a)
  | None => mkArray (elems a) (propSet key v (props a))
  end.


Definition arrayPush (v : value) (a : jsarray) : jsarray :=
  mkArray (elems a ++ [v]) (props a).

Definition arrayPop (a : jsarray) : value * jsarray :=
  match rev (elems a) with
  | [] => (VUndefined, a)
  | x :: r => (x, mkArray (rev r) (props a))
  end.

Definition arrayValue (a : jsarray) : value := VArr (elems a) (props a).

(** *** [append] and [trim] of parser.js *)

(** One step of [append]'s loop: a string chunk is concatenated to a final
    string of [content], anything else is pushed. *)
Fixpoint appendChunk (content : list value) (chunk : value) : list value :=
  match content with
  | [] => [chunk]
  | x :: rest =>
      match rest with
      | [] => match x, chunk with
              | VStr t, VStr s => [VStr (t ++ s)]
              | _, _ => [x; chunk]
              end
      | _ :: _ => x :: appendChunk rest chunk
      end
  end.

Definition append (content chunks : list value) : list value :=
  fold_left appendChunk chunks content.

(** The first half of [trim]: the first element. *)
Definition trimFirst (content : list value) : list value :=
  match content with
  | VStr s :: rest =>
      match trimLeft s with
      | [] => rest
      | s' => VStr s' :: rest
      end
  | _ => content
  end.

(** The second half of [trim]: the last element. *)
Fixpoint trimLast (content : list value) : list value :=
  match content with
  | [] => []
  | x :: rest =>
      match rest with
      | [] => match x with
              | VStr s => match trimRight s with
                          | [] => []
                          | s' => [VStr s']
                          end
              | _ => [x]
              end
      | _ :: _ => x :: trimLast rest
      end
  end.

(** [trim(content)]; [None] stands for [null]. *)
Definition trim (content : option (list value)) : option (list value) :=
  match content with
  | None => None
  | Some [] => Some []
  | Some l => Some (trimLast (trimFirst l))
  end.

(* ================================================================== *)
(** ** The parser object's mutable state *)

Record Pos := mkPos { offset : nat; lineNumber : nat }.

(** [this.pos], [this.backtrackOn], [this.backtrackingCount], [this.stack].
    The predicates pushed on [backtrackOn] read the cursor only. *)
Record State := mkState {
  pos : Pos;
  backtrackOn : list (Pos -> bool);
  backtrackingCount : Z;
  stack : list Pos;
}.

(** What can be thrown: the limit error of [next] and [node], a TypeError of
    the runtime (a method called on [null], [undefined] or an object that
    lacks it), the error of [error()] with its annotated stack, and the error
    of [node] for a post-processor that returns nothing. *)
Inductive Fault :=
| BacktrackingLimitExceededError
| TypeError
| ExpectedError (chunks : list jsstring) (line : nat) (annotated : list Pos)
| PostProcessError (type : option jsstring).

Inductive Result (A : Type) :=
| Ok (a : A) (s : State)
| Throw (e : Fault) (s : State)
| OutOfFuel.

Arguments Throw {A} e s.
Arguments OutOfFuel {A}.

Definition M (A : Type) := State -> Result A.

Definition ret {A} (a : A) : M A := fun s => Ok a s.

Definition bind {A B} (m : M A) (k : A -> M B) : M B :=
  fun s => match m s with
           | Ok a s' => k a s'
           | Throw e s' => Throw e s'
           | OutOfFuel => OutOfFuel
           end.

Definition throw {A} (e : Fault) : M A := fun s => Throw e s.
Definition outOfFuel {A} : M A := fun _ => OutOfFuel.

Declare Scope monad_scope.
Delimit Scope monad_scope with monad.
Notation "x <- m ;; k" := (bind m (fun x => k))
  (at level 100, m at next level, right associativity) : monad_scope.
Notation "m ;; k" := (bind m (fun _ => k))
  (at level 100, right associativity) : monad_scope.
Open Scope monad_scope.

Definition getPos : M Pos := fun s => Ok (pos s) s.

Definition setPos (p : Pos) : M unit :=
  fun s => Ok tt (mkState p (backtrackOn s) (backtrackingCount s) (stack s)).

Definition pushBacktrackOn (f : Pos -> bool) : M unit :=
  fun s => Ok tt (mkState (pos s) (backtrackOn s ++ [f]) (backtrackingCount s) (stack s)).

Definition popBacktrackOn : M unit :=
  fun s => Ok tt (mkState (pos s) (removelast (backtrackOn s)) (backtrackingCount s) (stack s)).

Definition pushStack (p : Pos) : M unit :=
  fun s => Ok tt (mkState (pos s) (backtrackOn s) (backtrackingCount s) (stack s ++ [p])).

Definition popStack : M unit :=
  fun s => Ok tt (mkState (pos s) (backtrackOn s) (backtrackingCount s) (removelast (stack s))).

Definition when (b : bool) (m : M unit) : M unit := if b then m else ret tt.

(** Options of [next]; [None] for [allow] is [null] (everything allowed). *)
Record NextOpts := mkNextOpts {
  opt_end : list jsstring;
  opt_endAtEos : bool;
  opt_notEnd : list jsstring;
  opt_endBefore : list jsstring;
  opt_endBeforeRegex : option (Pos -> bool);
  opt_endOn : option (Pos -> bool);
  opt_backtrack : list jsstring;
  opt_allow : option (list jsstring);
  opt_disallow : list jsstring;
  opt_backtrackOn : option (Pos -> bool);
}.

(** The defaults of [next]'s destructured parameter. *)
Definition noOpts : NextOpts :=
  mkNextOpts [] false [] [] None None [] None [] None.

Definition withEnd (l : list jsstring) (o : NextOpts) : NextOpts :=
  mkNextOpts l (opt_endAtEos o) (opt_notEnd o) (opt_endBefore o)
    (opt_endBeforeRegex o) (opt_endOn o) (opt_backtrack o) (opt_allow o)
    (opt_disallow o) (opt_backtrackOn o).
Definition withEndAtEos (b : bool) (o : NextOpts) : NextOpts :=
  mkNextOpts (opt_end o) b (opt_notEnd o) (opt_endBefore o)
    (opt_endBeforeRegex o) (opt_endOn o) (opt_backtrack o) (opt_allow o)
    (opt_disallow o) (opt_backtrackOn o).
Definition withNotEnd (l : list jsstring) (o : NextOpts) : NextOpts :=
  mkNextOpts (opt_end o) (opt_endAtEos o) l (opt_endBefore o)
    (opt_endBeforeRegex o) (opt_endOn o) (opt_backtrack o) (opt_allow o)
    (opt_disallow o) (opt_backtrackOn o).
Definition withEndBefore (l : list jsstring) (o : NextOpts) : NextOpts :=
  mkNextOpts (opt_end o) (opt_endAtEos o) (opt_notEnd o) l
    (opt_endBeforeRegex o) (opt_endOn o) (opt_backtrack o) (opt_allow o)
    (opt_disallow o) (opt_backtrackOn o).
Definition withAllow (a : option (list jsstring)) (o : NextOpts) : NextOpts :=
  mkNextOpts (opt_end o) (opt_endAtEos o) (opt_notEnd o) (opt_endBefore o)
    (opt_endBeforeRegex o) (opt_endOn o) (opt_backtrack o) a
    (opt_disallow o) (opt_backtrackOn o).
Definition withDisallow (l : list jsstring) (o : NextOpts) : NextOpts :=
  mkNextOpts (opt_end o) (opt_endAtEos o) (opt_notEnd o) (opt_endBefore o)
    (opt_endBeforeRegex o) (opt_endOn o) (opt_backtrack o) (opt_allow o)
    l (opt_backtrackOn o).
Definition withBacktrackOn (f : Pos -> bool) (o : NextOpts) : NextOpts :=
  mkNextOpts (opt_end o) (opt_endAtEos o) (opt_notEnd o) (opt_endBefore o)
    (opt_endBeforeRegex o) (opt_endOn o) (opt_backtrack o) (opt_allow o)
    (opt_disallow o) (Some f).

(** A descriptor of the grammar table. The options that [next(nodeType)]
    reads from the descriptor are in [nt_opts]. *)
Inductive NodeType := mkNodeType {
  nt_type : option jsstring;
  nt_start : jsstring;
  nt_keepStart : bool;
  nt_preCondition : option (Pos -> bool);
  nt_postCondition : option (Pos -> bool);
  nt_group : option (list NodeType);
  nt_func : option (M value);
  nt_replaceWith : option jsstring;
  nt_postProcess : option (value -> M value);
  nt_opts : NextOpts;
}.

Definition includes (x : jsstring) (l : list jsstring) : bool :=
  existsb (jsstring_eqb x) l.

(* ================================================================== *)
(** ** The engine (class Parser) *)

Section Engine.

(** [this.str], [this.lowercaseStr] (one lower-cased string per code unit of
    [str]) and [this.options.backtrackingLimit]: fixed during a parse. *)
Variable str : jsstring.
Variable lowercaseStr : list jsstring.
Variable backtrackingLimit : Z.

(** [String.prototype.toLowerCase], a built-in of the language. *)
Variable toLowerCase : jsstring -> jsstring.

Definition isStart (p : Pos) : bool := Nat.eqb (offset p) 0.

Definition isEnd (p : Pos) : bool := Nat.leb (length str) (offset p).

Definition charIs (i : nat) (c : N) : bool :=
  match nth_error str i with
  | Some d => N.eqb d c
  | None => false
  end.

Definition isStartOfLine (p : Pos) : bool :=
  (negb (Nat.eqb (length str) 0)
   && match offset p with
      | O => false
      | S k => charIs k 10
      end)
  || isStart p.

Definition isEndOfLine (p : Pos) : bool :=
  isEnd p || charIs (offset p) 10.

(** [startsWith]: the prefix is compared unit by unit with the lower-case
    view; past the end of the input the comparison fails. *)
Fixpoint startsWithAt (prefix : jsstring) (i : nat) : bool :=
  match prefix with
  | [] => true
  | c :: prefix' =>
      match nth_error lowercaseStr i with
      | Some u => if jsstring_eqb u [c] then startsWithAt prefix' (S i) else false
      | None => false
      end
  end.

Definition startsWithP (prefix : jsstring) (p : Pos) : bool :=
  startsWithAt prefix (offset p).

Definition startsWithAnyP (prefixes : list jsstring) (p : Pos) : bool :=
  existsb (fun prefix => startsWithP prefix p) prefixes.

Definition startsWith (prefix : jsstring) : M bool :=
  p <- getPos;; ret (startsWithP prefix p).

Definition startsWithAny (prefixes : list jsstring) : M bool :=
  p <- getPos;; ret (startsWithAnyP prefixes p).

(** [str.substr(start, len)] *)
Definition substr (start len : nat) : jsstring := firstn len (skipn start str).

Definition countNewlines (chunk : jsstring) : nat :=
  length (filter (N.eqb 10) chunk).

Definition advance (chunk : jsstring) : M jsstring :=
  fun s =>
    Ok chunk
       (mkState (mkPos (offset (pos s) + length chunk)
                       (lineNumber (pos s) + countNewlines chunk))
                (backtrackOn s) (backtrackingCount s) (stack s)).

(** [this.advance(this.str[this.pos.offset])]: past the end the argument is
    [undefined] and reading its [length] throws. *)
Definition advanceChar : M jsstring :=
  p <- getPos;;
  match nth_error str (offset p) with
  | Some c => advance [c]
  | None => throw TypeError
  end.

Definition error {A} (chunks : list jsstring) : M A :=
  fun s => Throw (ExpectedError chunks (lineNumber (pos s)) (rev (stack s ++ [pos s]))) s.

Definition eat (chunk : jsstring) (err : bool) : M bool :=
  b <- startsWith chunk;;
  if b then advance chunk;; ret true
  else if err then error [chunk]
  else ret false.

Fixpoint eatAnyFrom (all chunks : list jsstring) (err : bool) : M bool :=
  match chunks with
  | [] => if err then error all else ret false
  | chunk :: rest =>
      b <- startsWith chunk;;
      if b then advance chunk;; ret true
      else eatAnyFrom all rest err
  end.

Definition eatAny (chunks : list jsstring) (err : bool) : M bool :=
  eatAnyFrom chunks chunks err.

Fixpoint eatCountLoop (fuel : nat) (chunk : jsstring) (count : nat) : M nat :=
  match fuel with
  | O => outOfFuel
  | S f =>
      b <- startsWith chunk;;
      if b then advance chunk;; eatCountLoop f chunk (S count)
      else ret count
  end.

Definition eatCount (chunk : jsstring) : M nat :=
  eatCountLoop (S (length str)) chunk 0.

Fixpoint eatWhitespaceLoop (fuel : nat) (newLine : bool) : M unit :=
  match fuel with
  | O => outOfFuel
  | S f =>
      b <- eatAny ([js " "; [9%N]] ++ (if newLine then [[10%N]] else [])) false;;
      if b then eatWhitespaceLoop f newLine else ret tt
  end.

Definition eatWhitespace (newLine : bool) : M unit :=
  eatWhitespaceLoop (S (length str)) newLine.

(** [if (++this.backtrackingCount > this.options.backtrackingLimit) throw] *)
Definition countBacktrack : M unit :=
  fun s =>
    let s' := mkState (pos s) (backtrackOn s) (backtrackingCount s + 1) (stack s) in
    if (backtrackingLimit <? backtrackingCount s + 1)%Z
    then Throw BacktrackingLimitExceededError s'
    else Ok tt s'.

Definition someBacktrackOn : M bool :=
  fun s => Ok (existsb (fun x => x (pos s)) (backtrackOn s)) s.

(** [[].concat(node)] *)
Definition concatNode (node : value) : list value :=
  match node with
  | VArr l _ => l
  | _ => [node]
  end.

Definition ofNullable (r : option (list value)) : value :=
  match r with
  | Some l => arr l
  | None => VNull
  end.

Definition isSome {A} (o : option A) : bool :=
  match o with Some _ => true | None => false end.

Definition holds (c : option (Pos -> bool)) (p : Pos) : bool :=
  match c with Some f => f p | None => false end.

Section Next.

(** [this.node(allow, disallow)], as seen from [next]. *)
Variable node : option (list jsstring) -> list jsstring -> M value.

(** The code after the loop of [next]. *)
Definition nextFinish (o : NextOpts) (chunkStart chunkLength : nat)
    (content : list value) : M (option (list value)) :=
  let content' := if Nat.eqb chunkLength 0 then content
                  else append content [VStr (substr chunkStart chunkLength)] in
  when (isSome (opt_backtrackOn o)) popBacktrackOn;;
  ret (Some content').

(** The loop [for (;;)] of [next]; one unit of fuel per iteration. *)
Fixpoint nextLoop (fuel : nat) (o : NextOpts) (originalPos : Pos)
    (chunkStart chunkLength : nat) (content : list value)
  : M (option (list value)) :=
  match fuel with
  | O => outOfFuel
  | S f =>
      p <- getPos;;
      let eos := isEnd p in
      if eos && opt_endAtEos o then nextFinish o chunkStart chunkLength content
      else
        bt <- someBacktrackOn;;
        if bt || startsWithAnyP (opt_backtrack o) p || eos then
          countBacktrack;;
          setPos originalPos;;
          when (isSome (opt_backtrackOn o)) popBacktrackOn;;
          ret None
        else if startsWithAnyP (opt_end o) p && negb (startsWithAnyP (opt_notEnd o) p) then
          eatAny (opt_end o) true;;
          nextFinish o chunkStart chunkLength content
        else if startsWithAnyP (opt_endBefore o) p then
          nextFinish o chunkStart chunkLength content
        else if holds (opt_endBeforeRegex o) p then
          nextFinish o chunkStart chunkLength content
        else if holds (opt_endOn o) p then
          nextFinish o chunkStart chunkLength content
        else
          pushStack p;;
          n <- node (opt_allow o) (opt_disallow o);;
          popStack;;
          if truthy n then
            p' <- getPos;;
            let flushed := negb (Nat.eqb chunkLength 0) in
            let content1 := if flushed
                            then append content [VStr (substr chunkStart chunkLength)]
                            else content in
            let chunkStart1 := if flushed then offset p' else chunkStart in
            nextLoop f o originalPos chunkStart1 0 (append content1 (concatNode n))
          else
            p' <- getPos;;
            let chunkStart1 := if Nat.eqb chunkLength 0 then offset p' else chunkStart in
            c <- advanceChar;;
            nextLoop f o originalPos chunkStart1 (chunkLength + length c) content
  end.

Definition nextImpl (fuel : nat) (o : NextOpts) : M (option (list value)) :=
  match opt_end o, opt_endBefore o, opt_endBeforeRegex o, opt_endOn o,
        opt_backtrack o, opt_endAtEos o with
  | [], [], None, None, [], false => ret (Some [])
  | _, _, _, _, _, _ =>
      p <- getPos;;
      match opt_backtrackOn o with
      | Some f => pushBacktrackOn f
      | None => ret tt
      end;;
      nextLoop fuel o p (offset p) 0 []
  end.

End Next.

Section Node.

(** [this.next(opts)], as seen from [node]. *)
Variable next : NextOpts -> M (option (list value)).

(** [nodeType.type && (allow && !allow.includes(type) || disallow.includes(type))] *)
Definition typeFiltered (t : option jsstring) (allow : option (list jsstring))
    (disallow : list jsstring) : bool :=
  match t with
  | Some t =>
      match allow with
      | Some a => negb (includes t a) || includes t disallow
      | None => includes t disallow
      end
  | None => false
  end.

Definition typeValue (t : option jsstring) : value :=
  match t with Some t => VStr t | None => VUndefined end.

(** The wrapping of a production's result into a node of the descriptor's
    type: an array becomes the [content], an object gets the [type] merged
    in (a [type] of its own wins). *)
Definition wrapContent (t : option jsstring) (content : value) : value :=
  match content with
  | VArr _ _ => VObj [(js "type", typeValue t); (js "content", content)]
  | VObj fs => VObj (assignFields [(js "type", typeValue t)] fs)
  | VDict d => VObj (assignFields [(js "type", typeValue t)] d)
  | _ => content
  end.

(** The body of the loop [for (const nodeType of grammar)] of [node] for one
    descriptor; [continue_] is the rest of the loop, which every [continue]
    of the source runs. The recursive call for a group is a loop of its own
    over the group, entered at the cursor it finds. *)
Fixpoint nodeEntry (allow : option (list jsstring)) (disallow : list jsstring)
    (nodeType : NodeType) (originalPos : Pos) (continue_ : M value)
    {struct nodeType} : M value :=
  p <- getPos;;
  if negb (startsWithP (nt_start nodeType) p)
     || typeFiltered (nt_type nodeType) allow disallow
  then continue_
  else if match nt_preCondition nodeType with
          | Some pre => negb (pre p)
          | None => false
          end
  then setPos originalPos;; continue_
  else
    (if nt_keepStart nodeType then ret true else eat (nt_start nodeType) true);;
    p1 <- getPos;;
    if match nt_postCondition nodeType with
       | Some post => negb (post p1)
       | None => false
       end
    then setPos originalPos;; continue_
    else
      match nodeType with
      | mkNodeType _ _ _ _ _ (Some grp) _ _ _ _ =>
          result <- fold_right (fun nt k => nodeEntry allow disallow nt p1 k)
                               (ret VNull) grp;;
          if isNullish result then setPos originalPos;; continue_
          else ret result
      | mkNodeType _ _ _ _ _ None _ _ _ _ =>
          content <- match nt_func nodeType with
                     | Some func => func
                     | None => r <- next (nt_opts nodeType);; ret (ofNullable r)
                     end;;
          match nt_replaceWith nodeType with
          | Some r => ret (VStr r)
          | None =>
              if isNullish content then
                countBacktrack;;
                setPos originalPos;;
                continue_
              else
                let wrapped := wrapContent (nt_type nodeType) content in
                processed <- match nt_postProcess nodeType with
                             | Some f => f wrapped
                             | None => ret wrapped
                             end;;
                if isNullish processed
                then throw (PostProcessError (nt_type nodeType))
                else ret processed
          end
      end.

(** The whole loop over a table, from the cursor [originalPos] of the call. *)
Definition nodeLoop (allow : option (list jsstring)) (disallow : list jsstring)
    (originalPos : Pos) (grammar : list NodeType) : M value :=
  fold_right (fun nt k => nodeEntry allow disallow nt originalPos k)
             (ret VNull) grammar.

(** [node(allow, disallow, grammar)] *)
Definition nodeImpl (allow : option (list jsstring)) (disallow : list jsstring)
    (grammar : list NodeType) : M value :=
  originalPos <- getPos;;
  nodeLoop allow disallow originalPos grammar.

End Node.

(* ================================================================== *)
(** ** The wiki productions (class WikiParser) *)

Section Productions.

(** [this.next] and [this.node] as the productions call them, and the fuel
    of their own loops. *)
Variable next : NextOpts -> M (option (list value)).
Variable node : option (list jsstring) -> list jsstring -> M value.
Variable fuel : nat.

Definition kEmpty : list jsstring := [].

(** [part.type === 'comment'] on an element of a list built by [next]
    (such an element is never [null] or [undefined]). *)
Definition isComment (part : value) : bool :=
  match part with
  | VObj fs => match getField (js "type") fs with
               | VStr t => jsstring_eqb t (js "comment")
               | _ => false
               end
  | VDict d => match dictGet (js "type") d with
               | VStr t => jsstring_eqb t (js "comment")
               | _ => false
               end
  | _ => false
  end.

(** [x.trim().toLowerCase()], which throws unless [x] is a string. *)
Definition trimLower (x : value) : M jsstring :=
  match x with
  | VStr s => ret (toLowerCase (strTrim s))
  | _ => throw TypeError
  end.

Definition head (l : list value) : value :=
  match l with
  | x :: _ => x
  | [] => VUndefined
  end.

(** The loop [while (this.eat('|', false))] that [template] and [link] both
    contain; they differ in the closing token of [endBefore] and in the
    [allow] list of the values. It returns [parameters] and
    [positionalParameters]. *)
Fixpoint parameterLoop (n : nat) (close : jsstring) (allow : option (list jsstring))
    (parameters : list (jsstring * value)) (positionalParameters : jsarray)
  : M (list (jsstring * value) * jsarray) :=
  match n with
  | O => outOfFuel
  | S n' =>
      more <- eat (js "|") false;;
      if negb more then ret (parameters, positionalParameters)
      else
        originalPos <- getPos;;
        let valueOpts := withDisallow [js "preformatted"]
                           (withAllow allow (withEndBefore [js "|"; close] noOpts)) in
        let positional :=
          setPos originalPos;;
          v <- next valueOpts;;
          parameterLoop n' close allow parameters
            (arrayPush (ofNullable (trim v)) positionalParameters) in
        nameContent <- next (withBacktrackOn isEndOfLine
                               (withAllow (Some [js "comment"])
                                  (withEnd [js "="] noOpts)));;
        match nameContent with
        | Some (first :: _) =>
            name <- trimLower first;;
            match name with
            | [] => positional
            | _ =>
                v <- next valueOpts;;
                let value := ofNullable (trim v) in
                if isNaN (toNumber name)
                then parameterLoop n' close allow
                       (dictSet name value parameters) positionalParameters
                else parameterLoop n' close allow parameters
                       (arraySet (jsMinusOne (toNumber name)) value positionalParameters)
            end
        | _ => positional
        end
  end.

Definition template (allow : option (list jsstring)) : M value :=
  nameContentRaw <- next (withAllow (Some [js "comment"; js "template"])
                            (withEndBefore [js "|"; js "}}"] noOpts));;
  match nameContentRaw with
  | None => ret VNull
  | Some raw =>
      match filter (fun part => negb (isComment part)) raw with
      | [] => ret VNull
      | first :: _ =>
          name <- trimLower first;;
          match name with
          | [] => ret VNull
          | _ =>
              let allow' := if jsstring_eqb name (js "code") then Some kEmpty else allow in
              eatWhitespace true;;
              ps <- parameterLoop fuel (js "}}") allow' [] emptyArray;;
              closed <- eat (js "}}") false;;
              if negb closed then ret VNull
              else ret (VObj [(js "name", VStr name);
                              (js "parameters", VDict (fst ps));
                              (js "positionalParameters", arrayValue (snd ps))])
          end
      end
  end.

(** [this.append(content, chunk)] for a value [content] and a one-unit
    string [chunk]. *)
Definition appendTo (content : value) (chunk : jsstring) : M value :=
  match content with
  | VArr l ps => ret (VArr (append l [VStr chunk]) ps)
  | _ => throw TypeError
  end.

(** The link trail: [while (!this.isEnd() && this.str[this.pos.offset].match(/^\w/))] *)
Fixpoint linkTrail (n : nat) (content : value) : M value :=
  match n with
  | O => outOfFuel
  | S n' =>
      p <- getPos;;
      match nth_error str (offset p) with
      | Some c =>
          if isWordChar c then
            chunk <- advance [c];;
            content' <- appendTo content chunk;;
            linkTrail n' content'
          else ret content
      | None => ret content
      end
  end.

Definition optionalField (present : bool) (k : jsstring) (v : value)
  : list (jsstring * value) :=
  if present then [(k, v)] else [].

Definition link : M value :=
  page <- next (withBacktrackOn isEndOfLine
                  (withAllow (Some [js "nbsp"])
                     (withEndBefore [js "|"; js "]]"] noOpts)));;
  match page with
  | None => ret VNull
  | Some page =>
      ps <- parameterLoop fuel (js "]]") None [] emptyArray;;
      let parameters := fst ps in
      let positionalParameters := snd ps in
      closed <- eat (js "]]") false;;
      if negb closed then ret (VBool false)
      else
        match page with
        | [] => ret VNull
        | VStr page0 :: _ =>
            let parts := splitOn 35 (strTrim page0) in
            let to := nth 0 parts [] in
            let anchor := match parts with
                          | _ :: a :: _ => VStr a
                          | _ => VUndefined
                          end in
            let popped := match elems positionalParameters with
                          | [] => (arr [VStr to], positionalParameters)
                          | _ => arrayPop positionalParameters
                          end in
            content <- linkTrail (S (length str)) (fst popped);;
            ret (VObj ([(js "to", VStr to); (js "content", content)]
                       ++ optionalField (truthy anchor) (js "anchor") anchor
                       ++ optionalField (negb (Nat.eqb (length parameters) 0))
                            (js "parameters") (VDict parameters)
                       ++ optionalField (negb (Nat.eqb (length (elems (snd popped))) 0))
                            (js "positionalParameters") (arrayValue (snd popped))))
        | _ :: _ => throw TypeError
        end
  end.

(** [/((https?|ftps?|sftp|git|svn|ircs?):)?\/\/|(mailto|magnet|tel|urn|xmpp|geo):/yi]
    matched at the cursor. *)
Definition uriSchemeAt (p : Pos) : bool :=
  let text := skipn (offset p) str in
  existsb (fun pre => prefixCI pre text)
    ([js "//"]
     ++ map (fun scheme => js scheme ++ js "://")
          ["http"; "https"; "ftp"; "ftps"; "sftp"; "git"; "svn"; "irc"; "ircs"]%string
     ++ map (fun scheme => js scheme ++ js ":")
          ["mailto"; "magnet"; "tel"; "urn"; "xmpp"; "geo"]%string).

Definition isString (v : value) : bool :=
  match v with VStr _ => true | _ => false end.

Definition externalLink : M value :=
  uri <- next (withAllow (Some [js "comment"])
                 (withEndBefore [js "]"] (withEnd [js " "; [9%N]] noOpts)));;
  match uri with
  | None => ret VNull
  | Some uri =>
      c <- next (withBacktrackOn isEndOfLine (withEnd [js "]"] noOpts));;
      let content := match trim c with
                     | Some l => l
                     | None => []
                     end in
      ret (VObj [(js "uri", VStr (concat (map toStr (filter isString uri))));
                 (js "content", arr content)])
  end.

Definition isAfterTagName (p : Pos) : bool :=
  startsWithAnyP [js " "; js ">"; js "/>"; js "/ >"; [9%N]] p.

Definition quotedString (closeQuoteOnNewline : bool) : M value :=
  eat [34%N] true;;
  content <- next (withAllow (Some kEmpty)
                     (withEndBefore (if closeQuoteOnNewline then [[10%N]] else kEmpty)
                        (withEnd [[34%N]] noOpts)));;
  match content with
  | Some l => ret (if truthy (head l) then head l else VStr [])
  | None => ret VNull
  end.

(** The loop of [attributes]; it returns the dictionary built so far when
    the loop ends or breaks. *)
Fixpoint attributesLoop (n : nat) (endBefore : list jsstring)
    (closeQuoteOnNewline : bool) (attributes : list (jsstring * value))
  : M (list (jsstring * value)) :=
  match n with
  | O => outOfFuel
  | S n' =>
      p <- getPos;;
      if isEnd p || startsWithAnyP endBefore p then ret attributes
      else
        eatWhitespace false;;
        nc <- next (withEndBefore (endBefore ++ [js "="]) (withEnd [js " "; [9%N]] noOpts));;
        let nameContent := trim nc in
        eatWhitespace false;;
        match nameContent with
        | Some (name :: _) =>
            hasValue <- eat (js "=") false;;
            if negb hasValue
            then attributesLoop n' endBefore closeQuoteOnNewline
                   (dictSet (toStr name) (VBool true) attributes)
            else
              eatWhitespace false;;
              quoted <- startsWith [34%N];;
              value <- (if quoted then quotedString closeQuoteOnNewline
                        else
                          v <- next (withEndBefore endBefore (withEnd [js " "; [9%N]] noOpts));;
                          ret match v with
                              | Some l => head l
                              | None => VNull
                              end);;
              if isNullish value then ret attributes
              else attributesLoop n' endBefore closeQuoteOnNewline
                     (dictSet (toStr name) value attributes)
        | _ => ret attributes
        end
  end.

Definition attributes (endBefore : list jsstring) (closeQuoteOnNewline : bool)
  : M value :=
  eatWhitespace false;;
  d <- attributesLoop fuel endBefore closeQuoteOnNewline [];;
  ret (VDict d).

(** The destructured parameter of [tag], with its defaults in [tagDefaults]. *)
Record TagOpts := mkTagOpts {
  tag_only : option (list jsstring);
  tag_hasContent : bool;
  tag_type : jsstring;
  tag_allow : option (list jsstring);
  tag_disallow : list jsstring;
  tag_endBefore : list jsstring;
  tag_trim : bool;
}.

Definition tagDefaults : TagOpts :=
  mkTagOpts None true (js "tag") None [js "preformatted"]
    [10%N :: js "|"; 10%N :: js "!"] true.

(** [type === 'tag' ? {name} : {}] *)
Definition nameField (type name : jsstring) : list (jsstring * value) :=
  if jsstring_eqb type (js "tag") then [(js "name", VStr name)] else [].

Definition tag (t : TagOpts) : M value :=
  eat (js "<") true;;
  p <- getPos;;
  if isEnd p || negb match nth_error str (offset p) with
                     | Some c => isTagNameStart c
                     | None => false
                     end
  then ret VNull
  else
    tg <- next (withBacktrackOn isEndOfLine
                  (withEndBefore [js " "; [9%N]; js ">"; js "/"] noOpts));;
    match tg with
    | Some (VStr tag0 :: _) =>
        let name := toLowerCase tag0 in
        p1 <- getPos;;
        if match name with [] => true | _ => false end
           || negb (isAfterTagName p1)
           || match tag_only t with
              | Some only => negb (includes name only)
              | None => false
              end
        then ret VNull
        else
          attrs <- attributes [js "/>"; js "/ >"; js ">"] false;;
          selfClosing <- eatAny [js "/>"; js "/ >"] false;;
          if selfClosing then
            ret (VObj (assignFields
                         [(js "type", VStr (tag_type t)); (js "attributes", attrs);
                          (js "selfClosing", VBool true)]
                         (nameField (tag_type t) name)))
          else
            opened <- eat (js ">") false;;
            if negb opened then ret VNull
            else if negb (tag_hasContent t) then
              ret (VObj (assignFields
                           [(js "type", VStr (tag_type t)); (js "attributes", attrs)]
                           (nameField (tag_type t) name)))
            else
              c <- next (withDisallow (tag_disallow t)
                           (withAllow (tag_allow t)
                              (withEndBefore (tag_endBefore t
                                                ++ [js "</" ++ name; js "]]"; js "}}"])
                                 (withEndAtEos true noOpts))));;
              match (if tag_trim t then trim c else c) with
              | None => ret VNull
              | Some content =>
                  p2 <- getPos;;
                  let result :=
                    ret (VObj (assignFields
                                 [(js "type", VStr (tag_type t)); (js "content", arr content);
                                  (js "attributes", attrs)]
                                 (nameField (tag_type t) name))) in
                  if isEnd p2 then result
                  else
                    closed <- eat (js "</" ++ name ++ js ">") false;;
                    if closed then result
                    else
                      closing <- eat (js "</" ++ name) false;;
                      if closing then
                        eatWhitespace true;;
                        gt <- eat (js ">") false;;
                        if negb gt then ret VNull else result
                      else result
              end
    | _ => ret VNull
    end.

Definition lineOpts : NextOpts :=
  withEndBefore [js "}}"; js "</"] (withEndAtEos true (withEnd [[10%N]] noOpts)).

Definition item (level : nat) (content : value) : value :=
  VObj [(js "level", VNum (Z.of_nat level)); (js "content", content)].

(** The loop of [indent]; it returns the items. *)
Fixpoint indentLoop (n : nat) (start : bool) (items : list value) : M (list value) :=
  match n with
  | O => outOfFuel
  | S n' =>
      p <- getPos;;
      if (start || isStartOfLine p) && startsWithP (js ":") p then
        level <- eatCount (js ":");;
        c <- next lineOpts;;
        indentLoop n' start (items ++ [item level (ofNullable (trim c))])
      else ret items
  end.

Definition indent (start : bool) : M value :=
  items <- indentLoop fuel start [];;
  ret (VObj [(js "items", arr items)]).

(** [Object.assign({type: 'indent'}, x)] *)
Definition asIndent (x : value) : value :=
  match x with
  | VObj fs => VObj (assignFields [(js "type", VStr (js "indent"))] fs)
  | _ => VObj [(js "type", VStr (js "indent"))]
  end.

(** The loop of [list]; [append(content, null)] throws, [null] not being
    iterable. *)
Fixpoint listLoop (n : nat) (character : jsstring) (items : list value)
  : M (list value) :=
  match n with
  | O => outOfFuel
  | S n' =>
      p <- getPos;;
      if isStartOfLine p && startsWithP character p then
        level <- eatCount character;;
        colon <- startsWith (js ":");;
        content0 <- (if colon then
                       i <- indent true;;
                       ret (append [] [asIndent i])
                     else ret []);;
        rest <- next lineOpts;;
        match rest with
        | None => throw TypeError
        | Some rest =>
            let content := trim (Some (append content0 rest)) in
            listLoop n' character (items ++ [item level (ofNullable content)])
        end
      else ret items
  end.

Definition list_ (character : jsstring) : M value :=
  items <- listLoop fuel character [];;
  ret (VObj [(js "items", arr items)]).

Definition description : M value :=
  t <- next (withEndBefore [js ":"] (withEndAtEos true (withEnd [[10%N]] noOpts)));;
  match trim t with
  | None => ret VNull
  | Some title =>
      colon <- eat (js ":") false;;
      content <- (if colon then
                    c <- next (withEndAtEos true (withEnd [[10%N]] noOpts));;
                    ret (ofNullable (trim c))
                  else ret (arr []));;
      ret (VObj [(js "title", arr title); (js "content", content)])
  end.

(** ['='.repeat(level)] *)
Definition repeatStr (s : jsstring) (n : nat) : jsstring :=
  concat (repeat s n).

Definition heading : M value :=
  level <- eatCount (js "=");;
  c <- next (withBacktrackOn isEndOfLine (withEndBefore [js "="] noOpts));;
  let content := trim c in
  closed <- eat (repeatStr (js "=") level) false;;
  if negb closed then ret VNull
  else
    eat [10%N] false;;
    ret (VObj [(js "level", VNum (Z.of_nat level)); (js "content", ofNullable content)]).

(** The loop of [preformatted]; spreading a [null] line throws. *)
Fixpoint preformattedLoop (n : nat) (content : list value) : M (list value) :=
  match n with
  | O => outOfFuel
  | S n' =>
      p <- getPos;;
      if isStartOfLine p && startsWithP (js " ") p then
        eat (js " ") true;;
        line <- next (withAllow (Some [js "lineBreak"; js "templatePreformatted";
                                       js "comment"; js "link"; js "bold"; js "italics"])
                        (withEndAtEos true (withEnd [[10%N]] noOpts)));;
        line <- match line with
                | Some l => ret (Some l)
                | None => next (withAllow (Some kEmpty)
                                  (withEndAtEos true (withEnd [[10%N]] noOpts)))
                end;;
        match line with
        | Some l => preformattedLoop n' (append content (l ++ [VStr [10%N]]))
        | None => throw TypeError
        end
      else ret content
  end.

Definition preformatted : M value :=
  content <- preformattedLoop fuel [];;
  ret (arr content).

Definition htmlEntity : M value :=
  isHex <- eat (js "x") false;;
  digits <- next (withBacktrackOn isEndOfLine (withEnd [js ";"] noOpts));;
  match digits with
  | None => ret VNull
  | Some digits =>
      ret (VStr (fromCharCode (parseInt (toStr (arr digits)) (if isHex then 16 else 10))))
  end.

(** The loop of [eatComments], which pushes on the array it is given. *)
Fixpoint eatCommentsLoop (n : nat) (comments : list value) : M (list value) :=
  match n with
  | O => outOfFuel
  | S n' =>
      more <- startsWith (js "<!--");;
      if more then
        comment <- node (Some [js "comment"]) kEmpty;;
        if negb (truthy comment) then ret comments
        else
          eatWhitespace true;;
          eatCommentsLoop n' (comments ++ [comment])
      else ret comments
  end.

Definition eatComments (comments : list value) : M (list value) :=
  eatWhitespace true;;
  eatCommentsLoop fuel comments.

(** [while (this.startsWith('\n')) this.eat('\n')] *)
Fixpoint eatNewlines (n : nat) : M unit :=
  match n with
  | O => outOfFuel
  | S n' =>
      b <- startsWith [10%N];;
      if b then eat [10%N] true;; eatNewlines n' else ret tt
  end.

(** The [do ... while] loop of [tableRow] with the [return] that follows
    it; [None] is the [return null] inside the loop. *)
Fixpoint tableCells (n : nat) (content : list value) : M (option (list value)) :=
  match n with
  | O => outOfFuel
  | S n' =>
      eatWhitespace true;;
      p <- getPos;;
      if negb (startsWithAnyP [js "|"; js "!"] p) || startsWithAnyP [js "|-"; js "|}"] p
      then ret (Some content)
      else
        header <- eat (js "!") false;;
        (if header then ret true else eat (js "|") true);;
        eatWhitespace false;;
        originalPos <- getPos;;
        attrs <- attributes [js "|"; js "!!"; [10%N]] false;;
        double <- startsWith (js "||");;
        single <- (if double then ret false else eat (js "|") false);;
        attrs <- (if double || negb single
                  then setPos originalPos;; ret (VDict [])
                  else ret attrs);;
        eatNewlines (S (length str));;
        c <- next (withDisallow [js "preformatted"]
                     (withEndBefore [js "|"; js "!!"] (withEnd [[10%N]] noOpts)));;
        match trim c with
        | None => ret None
        | Some cell =>
            bars <- startsWith (js "||");;
            (if bars then eat (js "|") true
             else
               bangs <- startsWith (js "!!");;
               if bangs then eat (js "!") true else ret false);;
            let content' := content ++ [VObj [(js "type", VStr (js "table-cell"));
                                              (js "header", VBool header);
                                              (js "attributes", attrs);
                                              (js "content", arr cell)]] in
            p' <- getPos;;
            if negb (isEnd p') && negb (startsWithP (js "|}") p')
            then tableCells n' content'
            else ret (Some content')
        end
  end.

Definition tableRow (started : bool) : M value :=
  let cells (attrs : value) (comments : list value) :=
    content <- tableCells fuel [];;
    match content with
    | None => ret VNull
    | Some content =>
        ret (VObj ([(js "type", VStr (js "table-row")); (js "attributes", attrs);
                    (js "content", arr content)]
                   ++ optionalField (negb (Nat.eqb (length comments) 0))
                        (js "comments") (arr comments)))
    end in
  if started then cells (VDict []) []
  else
    eat (js "|-") true;;
    eatCount (js "-");;
    attrs <- attributes [[10%N]] true;;
    nl <- eat [10%N] false;;
    if negb nl then ret VNull
    else
      comments <- eatComments [];;
      cells attrs comments.

(** The [do ... while] loop of [table] with the code that follows it. *)
Fixpoint tableRows (n : nat) (attrs caption : value) (content : list value)
  : M value :=
  match n with
  | O => outOfFuel
  | S n' =>
      commentsBefore <- eatComments [];;
      rowStart <- startsWith (js "|-");;
      row <- tableRow (Nat.eqb (length content) 0 && negb rowStart);;
      match row with
      | VObj fs =>
          let rowComments := match getField (js "comments") fs with
                             | VArr l _ => l
                             | _ => []
                             end in
          after <- eatComments [];;
          let comments := commentsBefore ++ rowComments ++ after in
          let row' := match comments with
                      | [] => row
                      | _ => VObj (setField (js "comments") (arr comments) fs)
                      end in
          again <- startsWith (js "|-");;
          if again then tableRows n' attrs caption (content ++ [row'])
          else
            closed <- eat (js "|}") false;;
            if negb closed then ret VNull
            else ret (VObj [(js "type", VStr (js "table")); (js "attributes", attrs);
                            (js "caption", caption);
                            (js "content", arr (content ++ [row']))])
      | _ => ret VNull
      end
  end.

Definition table : M value :=
  attrs <- attributes [[10%N]] false;;
  eat [10%N] false;;
  eatWhitespace true;;
  hasCaption <- eat (js "|+") false;;
  caption <- (if hasCaption then
                c <- next (withEnd [[10%N]] noOpts);;
                ret (ofNullable (trim c))
              else ret (arr []));;
  tableRows fuel attrs caption [].

(** The loop of [gallery] with the code that follows it. *)
Fixpoint galleryLoop (n : nat) (attrs : value) (items : list value) : M value :=
  let finish :=
    closed <- eat (js "</gallery>") false;;
    if negb closed then ret VNull
    else ret (VObj [(js "attributes", attrs); (js "items", arr items)]) in
  match n with
  | O => outOfFuel
  | S n' =>
      p <- getPos;;
      if negb (isStartOfLine p) then finish
      else
        eatWhitespace true;;
        atEnd <- startsWith (js "</gallery>");;
        if atEnd then finish
        else
          toRaw <- next (withEndBefore [js "|"; js "</gallery>"] (withEnd [[10%N]] noOpts));;
          match trim toRaw with
          | None => ret VNull
          | Some l =>
              let to := head l in
              if negb (truthy to) then
                bar <- eat (js "|") false;;
                if negb bar then ret VNull
                else eatWhitespace true;; galleryLoop n' attrs items
              else
                bar <- eat (js "|") false;;
                content <- (if bar then
                              c <- next (withEndBefore [js "</gallery>"]
                                           (withEnd [[10%N]] noOpts));;
                              ret (ofNullable (trim c))
                            else ret (arr []));;
                galleryLoop n' attrs
                  (items ++ [VObj [(js "type", VStr (js "link")); (js "to", to);
                                   (js "content", content)]])
          end
  end.

Definition gallery : M value :=
  attrs <- attributes [js ">"] false;;
  opened <- eat (js ">") false;;
  if negb opened then ret VNull
  else
    eatWhitespace true;;
    galleryLoop fuel attrs [].

(** *** The grammar table of the constructor *)

(** A descriptor with a [func]. *)
Definition production (type start : string) (keepStart : bool)
    (preCondition postCondition : option (Pos -> bool)) (func : M value)
    (postProcess : option (value -> M value)) : NodeType :=
  mkNodeType (Some (js type)) (js start) keepStart preCondition postCondition
    None (Some func) None postProcess noOpts.

(** A descriptor without [func]: [next] runs on the descriptor itself. *)
Definition declarative (type start : string)
    (preCondition postCondition : option (Pos -> bool)) (opts : NextOpts)
    (postProcess : option (value -> M value)) : NodeType :=
  mkNodeType (Some (js type)) (js start) false preCondition postCondition
    None None None postProcess opts.

(** A descriptor with [replaceWith]. *)
Definition replacement (type start : string) (replaceWith : jsstring) : NodeType :=
  mkNodeType (Some (js type)) (js start) false None None None None
    (Some replaceWith) None noOpts.

(** A descriptor with a [group]; it has a [name] and no [type]. *)
Definition group (start : string) (keepStart : bool) (entries : list NodeType)
  : NodeType :=
  mkNodeType None (js start) keepStart None None (Some entries) None None None noOpts.

(** [node => Object.assign({}, node, {type: 'template'})] *)
Definition retypeTemplate (n : value) : M value :=
  match n with
  | VObj fs => ret (VObj (setField (js "type") (VStr (js "template")) fs))
  | _ => ret (VObj [(js "type", VStr (js "template"))])
  end.

(** [x => x.replace(/^[\s-]+|[\s-]+$/g, '')] over [node.content] *)
Fixpoint stripAll (l : list value) : M (list value) :=
  match l with
  | [] => ret []
  | VStr x :: rest => rest' <- stripAll rest;; ret (VStr (stripSpaceDash x) :: rest')
  | _ :: _ => throw TypeError
  end.

Definition stripComment (n : value) : M value :=
  match n with
  | VObj fs =>
      match getField (js "content") fs with
      | VArr l _ =>
          l' <- stripAll l;;
          ret (VObj (setField (js "content") (arr l') fs))
      | _ => throw TypeError
      end
  | _ => throw TypeError
  end.

(** [({content, ...rest}) => rest] *)
Definition dropContent (n : value) : M value :=
  match n with
  | VObj fs => ret (VObj (removeField (js "content") fs))
  | _ => ret (VObj [])
  end.

(** [node => node.content != null ? node : []] *)
Definition nowikiContent (n : value) : M value :=
  match n with
  | VObj fs => ret (if isNullish (getField (js "content") fs) then arr [] else n)
  | _ => ret (arr [])
  end.

Definition rawTag (name : string) : TagOpts :=
  mkTagOpts (Some [js name]) true (js name) (Some kEmpty) [js "preformatted"]
    [10%N :: js "|"; 10%N :: js "!"] true.

Definition grammar : list NodeType :=
  [ production "link" "[[" false None None link None;
    production "externalLink" "[" false None (Some uriSchemeAt) externalLink None;
    declarative "boldItalics" "'''''" None None
      (withBacktrackOn isEndOfLine (withEnd [js "'''''"] noOpts)) None;
    declarative "bold" "'''" None None
      (withBacktrackOn isEndOfLine (withEnd [js "'''"] noOpts)) None;
    declarative "italics" "''" None None
      (withBacktrackOn isEndOfLine
         (withDisallow [js "preformatted"]
            (withNotEnd [js "'''"] (withEnd [js "''"] noOpts)))) None;
    production "template" "{{" false None None (template None) None;
    production "templatePreformatted" "{{" false None None (template (Some kEmpty))
      (Some retypeTemplate);
    production "unorderedList" "*" true (Some isStartOfLine) None (list_ (js "*")) None;
    production "orderedList" "#" true (Some isStartOfLine) None (list_ (js "#")) None;
    production "indent" ":" true (Some isStartOfLine) None (indent false) None;
    production "description" ";" false (Some isStartOfLine) None description None;
    production "heading" "=" true (Some isStartOfLine) None heading None;
    group "&" false
      [ replacement "nbsp" "nbsp;" [160%N];
        replacement "lt" "lt;" (js "<");
        replacement "gt" "gt;" (js ">");
        replacement "mdash" "mdash;" [8212%N];
        replacement "ndash" "ndash;" [8211%N];
        replacement "minus" "minus;" [8722%N];
        replacement "thinsp" "thinsp;" [8201%N];
        production "htmlEntity" "#" false None None htmlEntity None ];
    declarative "toc" "__TOC__" None None (withEnd [[]] noOpts) None;
    declarative "notoc" "__NOTOC__" None None (withEnd [[]] noOpts) None;
    production "preformatted" " " true (Some isStartOfLine) None preformatted None;
    group "<" true
      [ declarative "comment" "<!--" None None
          (withAllow (Some kEmpty) (withEnd [js "-->"] noOpts)) (Some stripComment);
        declarative "lineBreak" "<br" None (Some isAfterTagName)
          (withEnd [js ">"] noOpts) (Some dropContent);
        production "hr" "<hr" true None None
          (tag (mkTagOpts (Some [js "hr"]) false (js "tag") None [js "preformatted"]
                  [10%N :: js "|"; 10%N :: js "!"] true)) None;
        production "source" "<source" true None None (tag (rawTag "source")) None;
        production "math" "<math" true None None
          (tag (mkTagOpts (Some [js "math"]) true (js "math") None
                  [js "template"; js "templatePreformatted"]
                  [10%N :: js "|"; 10%N :: js "!"] true)) None;
        production "ref" "<ref" true None None
          (tag (mkTagOpts (Some [js "ref"]) true (js "ref") None [js "preformatted"]
                  [10%N :: js "|"; 10%N :: js "!"] true)) None;
        production "nowiki" "<nowiki" true None None (tag (rawTag "nowiki"))
          (Some nowikiContent);
        production "pre" "<pre" true None None
          (tag (mkTagOpts (Some [js "pre"]) true (js "pre") (Some kEmpty)
                  [js "preformatted"] [10%N :: js "|"; 10%N :: js "!"] false)) None;
        production "syntaxhighlight" "<syntaxhighlight" true None None
          (tag (rawTag "syntaxhighlight")) None;
        production "code" "<code" true None None (tag (rawTag "code")) None;
        production "gallery" "<gallery" false None (Some isAfterTagName) gallery None;
        production "tag" "<" true None None (tag tagDefaults) None ];
    production "table" "{|" false None None table None;
    declarative "horizontalRule" "----" (Some isStartOfLine) None noOpts None ].

End Productions.

(** *** The recursion between [next] and [node]

    [next] calls [node] and [node] calls the productions, which call [next]
    and [node] again; every such call takes one unit of fuel. *)
Fixpoint next (fuel : nat) (o : NextOpts) {struct fuel} : M (option (list value)) :=
  match fuel with
  | O => outOfFuel
  | S f => nextImpl (node f) f o
  end
with node (fuel : nat) (allow : option (list jsstring)) (disallow : list jsstring)
    {struct fuel} : M value :=
  match fuel with
  | O => outOfFuel
  | S f => nodeImpl (next f) allow disallow (grammar (next f) (node f) f)
  end.

End Engine.

(* ================================================================== *)
(** ** [parse] *)

Record Options := mkOptions {
  backtrackingLimit : Z;
  throwError : bool;
  returnError : bool;
  debug : bool;
}.

Definition kDefaultOptions : Options := mkOptions 50000 false false false.

(** The fields of a parser object: its options and what [parse] assigns. *)
Record Parser := mkParser {
  options : Options;
  this_str : jsstring;
  this_lowercaseStr : list jsstring;
  this_state : State;
}.

(** [new WikiParser(options)], the options already merged with the defaults. *)
Definition newParser (o : Options) : Parser :=
  mkParser o [] [] (mkState (mkPos 0 0) [] 0 []).

(** How a call of [parse] ends: it returns a value, returns the error it
    caught, throws, or (in the model only) runs out of fuel. *)
Inductive Outcome :=
| Returned (v : value)
| ReturnedError (e : Fault)
| Raised (e : Fault)
| Unfinished.

Definition initialState : State := mkState (mkPos 0 1) [] 0 [].

(** The body of the [try] of [parse]: the assignments to the fields and
    [this.next({endAtEos: true})]. *)
Definition run (toLowerCase : jsstring -> jsstring) (fuel : nat) (limit : Z)
    (str : jsstring) : Result (option (list value)) :=
  next str (map (fun c => toLowerCase [c]) str) limit toLowerCase fuel
       (withEndAtEos true noOpts) initialState.

(** [Parser.prototype.parse]; [debug] only writes to the console. *)
Definition Parser_parse (toLowerCase : jsstring -> jsstring) (fuel : nat)
    (this : Parser) (str : jsstring) : Outcome * Parser :=
  let lower := map (fun c => toLowerCase [c]) str in
  let o := options this in
  match run toLowerCase fuel (backtrackingLimit o) str with
  | Ok r s => (Returned (ofNullable r), mkParser o str lower s)
  | Throw e s =>
      (if throwError o then Raised e
       else if returnError o then ReturnedError e
       else Returned VNull,
       mkParser o str lower s)
  | OutOfFuel => (Unfinished, mkParser o str lower initialState)
  end.

(** [parse(str, options)] of wikiparser.js *)
Definition parse (toLowerCase : jsstring -> jsstring) (fuel : nat)
    (str : jsstring) (o : Options) : Outcome :=
  fst (Parser_parse toLowerCase fuel (newParser o) str).

(** *** A table for [toLowerCase]

    The built-in on the characters that the examples use: ASCII, Latin-1,
    basic Greek and Cyrillic capitals; the Kelvin sign, which lower-cases to
    the ASCII letter k; the dotted capital I, which lower-cases to two
    units. Other units are left as they are. *)
Definition lowerUnit (c : N) : jsstring :=
  if inRange 65 90 c then [(c + 32)%N]
  else if (inRange 192 214 c || inRange 216 222 c)%bool then [(c + 32)%N]
  else if N.eqb c 304 then [105%N; 775%N]
  else if (inRange 913 929 c || inRange 931 939 c)%bool then [(c + 32)%N]
  else if inRange 1024 1039 c then [(c + 80)%N]
  else if inRange 1040 1071 c then [(c + 32)%N]
  else if N.eqb c 8490 then [107%N]
  else [c].

Definition lowerTable (s : jsstring) : jsstring := concat (map lowerUnit s).

(* ================================================================== *)
(** ** Plain text of an AST (text.js) *)

(** How a call of [nodeToText] ends: with a string, with the error
    ['Expected object'] or a [TypeError], or (in the model only) out of fuel,
    or on a shape whose coercions the model does not follow. *)
Inductive TextFault := ExpectedObject | TextTypeError.

Inductive TextResult :=
| Text (s : jsstring)
| TextThrow (e : TextFault)
| TextUnfinished
| TextUnmodelled.

(** [key in node] for the keys that the code asks for, none of which is
    inherited. *)
Definition hasKey (k : jsstring) (fs : list (jsstring * value)) : bool :=
  existsb (fun kv => jsstring_eqb k (fst kv)) fs.

(** [v === 'literal'] *)
Definition isStr (v : value) (literal : jsstring) : bool :=
  match v with
  | VStr s => jsstring_eqb s literal
  | _ => false
  end.

Fixpoint stripPrefix (prefix s : jsstring) : option jsstring :=
  match prefix, s with
  | [], _ => Some s
  | c :: prefix', d :: s' => if N.eqb c d then stripPrefix prefix' s' else None
  | _ :: _, [] => None
  end.

Definition isPrefix (prefix s : jsstring) : bool :=
  match stripPrefix prefix s with Some _ => true | None => false end.

Fixpoint isInfix (sub s : jsstring) : bool :=
  (isPrefix sub s
   || match s with
      | [] => false
      | _ :: s' => isInfix sub s'
      end)%bool.

Definition isSuffix (sub s : jsstring) : bool := isPrefix (rev sub) (rev s).

(** [name.match(/^(lang|ipac?)-[a-z]{2}|iast|korean|ipa$/)]: the first
    alternative is anchored at the start, the last at the end, the two in
    the middle are not anchored. *)
Definition langName (name : jsstring) : bool :=
  (existsb (fun prefix =>
              match stripPrefix prefix name with
              | Some (a :: b :: _) => inRange 97 122 a && inRange 97 122 b
              | _ => false
              end) [js "lang-"; js "ipac-"; js "ipa-"]
   || isInfix (js "iast") name
   || isInfix (js "korean") name
   || isSuffix (js "ipa") name)%bool.

(** [array.map(item => f(item) + suffix)]: the elements from left to right,
    the first exception ends the loop. An element [VUndefined] is a hole, as
    everywhere in this model (the parser stores no [undefined] in an array):
    [map] skips it and [join] prints it as the empty string. *)
Definition elemText (f : value -> TextResult) (suffix : jsstring) (x : value)
  : TextResult :=
  match x with
  | VUndefined => Text []
  | _ => match f x with
         | Text t => Text (t ++ suffix)
         | r => r
         end
  end.

(** [array.map(item => f(item) + suffix).join(sep)] *)
Fixpoint mapJoin (f : value -> TextResult) (suffix sep : jsstring)
    (l : list value) : TextResult :=
  match l with
  | [] => Text []
  | x :: rest =>
      match elemText f suffix x with
      | Text t =>
          match rest with
          | [] => Text t
          | _ :: _ =>
              match mapJoin f suffix sep rest with
              | Text ts => Text (t ++ sep ++ ts)
              | r => r
              end
          end
      | r => r
      end
  end.

(** [a || b || c || d] *)
Fixpoint firstTruthy (vs : list value) : value :=
  match vs with
  | [] => VUndefined
  | [v] => v
  | v :: rest => if truthy v then v else firstTruthy rest
  end.

(** [x[0]] and [x[1]] on a value that is neither [null] nor [undefined]. *)
Definition indexOf (i : nat) (x : value) : value :=
  match x with
  | VArr l _ => nth i l VUndefined
  | VStr s => match nth_error s i with
              | Some c => VStr [c]
              | None => VUndefined
              end
  | VObj fs | VDict fs => getField (js (NilEmpty.string_of_uint (Nat.to_uint i))) fs
  | _ => VUndefined
  end.

(** The branch of [nodeToText] for a template; [recur] is [nodeToText] on a
    part of the node. *)
Definition templateText (recur : value -> TextResult) (fs : list (jsstring * value))
  : TextResult :=
  let name := getField (js "name") fs in
  if (isStr name (js "zh") || isStr name (js "lang-zh"))%bool then
    match getField (js "parameters") fs with
    | VUndefined | VNull => TextThrow TextTypeError
    | VObj ps | VDict ps =>
        let content := firstTruthy [getField (js "c") ps; getField (js "t") ps;
                                    getField (js "s") ps; getField (js "p") ps] in
        if truthy content then recur content else Text []
    | _ => Text []
    end
  else
    match name with
    | VStr n =>
        let positional := getField (js "positionalParameters") fs in
        if langName n then
          match positional with
          | VUndefined | VNull => TextThrow TextTypeError
          | _ =>
              let first := indexOf 0 positional in
              if truthy first then
                match first with
                | VArr l _ => mapJoin recur [] [] l
                | _ => TextThrow TextTypeError
                end
              else Text []
          end
        else if jsstring_eqb n (js "bibleverse") then
          match positional with
          | VArr l _ => mapJoin recur [] (js " ") l
          | _ => TextThrow TextTypeError
          end
        else if existsb (jsstring_eqb n) [js "audio"; js "audio-nohelp"; js "lang"] then
          match positional with
          | VUndefined | VNull => TextThrow TextTypeError
          | VArr l _ => if Nat.leb 2 (length l) then recur (indexOf 1 positional)
                        else Text []
          | VStr s => if Nat.leb 2 (length s) then recur (indexOf 1 positional)
                      else Text []
          | VBool _ | VNum _ => Text []
          | VObj ps | VDict ps =>
              match getField (js "length") ps with
              | VUndefined => Text []
              | VNum k => if (2 <=? k)%Z then recur (indexOf 1 positional) else Text []
              | _ => TextUnmodelled
              end
          end
        else Text []
    | _ => TextThrow TextTypeError
    end.

(** [nodeToText(node, opts)]; [headingCallback] is [opts.headingCallback],
    a function from strings to strings when it is given. *)
Fixpoint nodeToText (fuel : nat) (headingCallback : option (jsstring -> jsstring))
    (node : value) : TextResult :=
  match fuel with
  | O => TextUnfinished
  | S f =>
      let recur := nodeToText f headingCallback in
      match node with
      | VStr s => Text s
      | VUndefined | VBool _ | VNum _ => TextThrow ExpectedObject
      | VNull => TextThrow TextTypeError
      | VArr l _ => mapJoin recur [] [] l
      | VObj fs | VDict fs =>
          if hasKey (js "items") fs then
            match getField (js "items") fs with
            | VArr l _ => mapJoin recur [10%N] [] l
            | _ => TextThrow TextTypeError
            end
          else if hasKey (js "content") fs then
            if isStr (getField (js "type") fs) (js "comment") then Text []
            else
              match recur (getField (js "content") fs) with
              | Text text =>
                  let type := getField (js "type") fs in
                  if isStr type (js "heading") then
                    Text (match headingCallback with
                          | Some callback => callback text
                          | None => text
                          end ++ [10%N; 10%N])
                  else if isStr type (js "table-row") then Text (text ++ [10%N])
                  else if isStr type (js "table-cell") then Text (text ++ [9%N])
                  else Text text
              | r => r
              end
          else if isStr (getField (js "type") fs) (js "template") then
            templateText recur fs
          else Text []
      end
  end.

(** The longest match of [\s+\n] at the start of [w]: the index of the last
    newline of the run of white space that is not its first unit. *)
Fixpoint lastNewline (w : jsstring) (index : nat) (best : option nat) : option nat :=
  match w with
  | [] => best
  | c :: rest =>
      if isWhiteSpace c then
        lastNewline rest (S index)
          (if (N.eqb c 10 && Nat.leb 1 index)%bool then Some index else best)
      else best
  end.

(** [text.replace(/\n\s+\n/g, '\n\n')]; [skip] units belong to a match that
    has been replaced. *)
Fixpoint collapseBlank (skip : nat) (text : jsstring) : jsstring :=
  match text with
  | [] => []
  | c :: rest =>
      match skip with
      | S k => collapseBlank k rest
      | O =>
          if N.eqb c 10 then
            match lastNewline rest 0 None with
            | Some j => 10%N :: 10%N :: collapseBlank (S j) rest
            | None => c :: collapseBlank 0 rest
            end
          else c :: collapseBlank 0 rest
      end
  end.

(** [astToText(ast, opts)] *)
Definition astToText (fuel : nat) (headingCallback : option (jsstring -> jsstring))
    (ast : value) : TextResult :=
  match nodeToText fuel headingCallback ast with
  | Text t => Text (collapseBlank 0 t)
  | r => r
  end.

(* ================================================================== *)
(** ** Properties of an AST *)

(** No two adjacent elements of a list are both strings. *)
Fixpoint noAdjacentStrings (l : list value) : Prop :=
  match l with
  | VStr _ :: ((VStr _ :: _) as rest) => False
  | _ :: rest => noAdjacentStrings rest
  | [] => True
  end.

(** A property of single values that holds for a value and for everything
    inside it: the elements and extra properties of an array, the fields of
    an object, the entries of a dictionary. *)
Inductive Everywhere (L : value -> Prop) : value -> Prop :=
| EvUndefined : L VUndefined -> Everywhere L VUndefined
| EvNull : L VNull -> Everywhere L VNull
| EvBool b : L (VBool b) -> Everywhere L (VBool b)
| EvNum n : L (VNum n) -> Everywhere L (VNum n)
| EvStr s : L (VStr s) -> Everywhere L (VStr s)
| EvArr l ps :
    L (VArr l ps) ->
    Forall (Everywhere L) l ->
    Forall (fun kv => Everywhere L (snd kv)) ps ->
    Everywhere L (VArr l ps)
| EvObj fs :
    L (VObj fs) ->
    Forall (fun kv => Everywhere L (snd kv)) fs ->
    Everywhere L (VObj fs)
| EvDict d :
    L (VDict d) ->
    Forall (fun kv => Everywhere L (snd kv)) d ->
    Everywhere L (VDict d).

(** An array whose adjacent elements are not both strings. *)
Definition coalescedHere (v : value) : Prop :=
  match v with
  | VArr l _ => noAdjacentStrings l
  | _ => True
  end.

(** Every list of the AST is coalesced. *)
Definition coalesced (v : value) : Prop := Everywhere coalescedHere v.

(** A heading node (an object whose [type] is ['heading']) has a numeric
    [level] that satisfies [P]. *)
Definition headingHere (P : Z -> Prop) (v : value) : Prop :=
  match v with
  | VObj fs =>
      getField (js "type") fs = VStr (js "heading") ->
      exists n, getField (js "level") fs = VNum n /\ P n
  | _ => True
  end.

(** Every heading node of the AST has a level that satisfies [P]. *)
Definition headingLevels (P : Z -> Prop) (v : value) : Prop :=
  Everywhere (headingHere P) v.

(** Both at once: the invariant that the productions maintain. *)
Definition wfHere (v : value) : Prop :=
  coalescedHere v /\ headingHere (fun n => (1 <= n)%Z) v.

Definition wf (v : value) : Prop := Everywhere wfHere v.

Definition wfList (l : list value) : Prop :=
  noAdjacentStrings l /\ Forall wf l.

Definition wfOpt (r : option (list value)) : Prop :=
  match r with
  | Some l => wfList l
  | None => True
  end.

Definition notString (v : value) : Prop :=
  match v with VStr _ => False | _ => True end.

(** No field called [type] holds ['heading']. *)
Definition typeNotHeading (kv : jsstring * value) : Prop :=
  fst kv = js "type" -> snd kv <> VStr (js "heading").

Definition noHeadingType (fs : list (jsstring * value)) : Prop :=
  Forall typeNotHeading fs.

(** What a production other than [heading] and [htmlEntity] may return: a
    well-formed value that is neither a string nor a dictionary nor an
    object of type ['heading']. *)
Definition plainResult (v : value) : Prop :=
  match v with
  | VStr _ | VDict _ => False
  | VObj fs => noHeadingType fs /\ Forall (fun kv => wf (snd kv)) fs
  | _ => wf v
  end.

(** The descriptor types whose result is a string. *)
Definition stringTypes : list jsstring :=
  map js ["nbsp"; "lt"; "gt"; "mdash"; "ndash"; "minus"; "thinsp"; "htmlEntity"]%string.

(** What [node(allow, disallow)] returns: a well-formed value, and a string
    only when a string type is allowed. *)
Definition nodeResult (allow : option (list jsstring)) (v : value) : Prop :=
  wf v /\
  (forall s, v = VStr s ->
     match allow with
     | Some a => exists t, In t stringTypes /\ includes t a = true
     | None => True
     end).

(** *** The triples of the invariant proofs

    A computation run from a state whose counter is within the limit (within
    zero, should the limit be negative) ends with a result that satisfies
    [Q] in a state whose counter has not decreased and is still within that
    bound, or throws; the limit error is thrown with the counter above the
    limit, by one when the limit is not negative. *)
Definition outcomeOk {A} (limit : Z) (s : State) (r : Result A) (Q : A -> Prop)
  : Prop :=
  match r with
  | Ok a s' =>
      Q a /\ (backtrackingCount s <= backtrackingCount s')%Z
      /\ (backtrackingCount s' <= Z.max limit 0)%Z
  | Throw e s' =>
      e = BacktrackingLimitExceededError ->
      (limit < backtrackingCount s' <= Z.max limit 0 + 1)%Z
  | OutOfFuel => True
  end.

Definition hoareP {A} (limit : Z) (P : State -> Prop) (m : M A) (Q : A -> Prop)
  : Prop :=
  forall s, (backtrackingCount s <= Z.max limit 0)%Z -> P s ->
            outcomeOk limit s (m s) Q.

Definition hoare {A} (limit : Z) (m : M A) (Q : A -> Prop) : Prop :=
  hoareP limit (fun _ => True) m Q.

(* ================================================================== *)
(** ** Lists of values: [append] and [trim] keep them coalesced *)

(* ================================================================== *)
(** ** Definitions of the proofs *)

Definition wfFields {K} (fs : list (K * value)) : Prop :=
  Forall (fun kv => wf (snd kv)) fs.

(** An array of parameter values: well-formed elements, none a string. *)
Definition wfArray (a : jsarray) : Prop :=
  Forall wf (elems a) /\ Forall notString (elems a) /\ wfFields (props a).

(** A list of nodes none of which is a string. *)
Definition objList (l : list value) : Prop := Forall wf l /\ Forall notString l.

(** What [heading] returns: [null], or a level of at least one with a
    well-formed content. *)
Definition headingResult (v : value) : Prop :=
  v = VNull \/
  exists n c, v = VObj [(js "level", VNum n); (js "content", c)]
              /\ (1 <= n)%Z /\ wf c.

Definition objListOpt (r : option (list value)) : Prop :=
  match r with
  | Some l => objList l
  | None => True
  end.

(** What [tableRow] returns: [null], or a row object whose [comments], if
    any, are a list of nodes. *)
Definition rowResult (v : value) : Prop :=
  v = VNull \/
  exists fs, v = VObj fs /\ wfFields fs
             /\ noHeadingType fs
             /\ match getField (js "comments") fs with
                | VArr l _ => objList l
                | _ => True
                end.

Definition postOf (nt : NodeType) (w : value) : M value :=
  match nt_postProcess nt with
  | Some f => f w
  | None => ret w
  end.

(** A node of a descriptor of type [T]: well-formed, and a string only for a
    string type. *)
Definition goodNode (T : jsstring) (p : value) : Prop :=
  wf p /\ (forall s, p = VStr s -> In T stringTypes).

(** A wrapped result: an object that is not a heading, or a value that is
    neither an object nor an array nor a string. *)
Definition wrappedOk (w : value) : Prop :=
  match w with
  | VObj fs => noHeadingType fs /\ wfFields fs
  | VStr _ | VDict _ | VArr _ _ => False
  | _ => True
  end.

Definition nodeOk (p : value) : Prop := wf p /\ notString p.

(** The state after [n] units without a newline have been consumed. *)
Definition advanced (n : nat) (s : State) : State :=
  mkState (mkPos (offset (pos s) + n) (lineNumber (pos s)))
          (backtrackOn s) (backtrackingCount s) (stack s).

(** The Number that is the integer [k]. *)
Definition intNum (k : Z) : jsnum := roundQ k 1.

(** [toLowerCase] on ASCII: capitals are folded, the rest is left alone. *)
Definition asciiFaithful (toLowerCase : jsstring -> jsstring) : Prop :=
  forall c, (c < 128)%N -> toLowerCase [c] = [asciiLower c].

Definition isHexDigit (c : N) : bool :=
  (inRange 48 57 c || inRange 97 102 c || inRange 65 70 c)%bool.

(** The number that a string of digits denotes in a radix. *)
Definition digitsValue (radix : Z) (digits : jsstring) : Z :=
  fold_left (fun acc c => (acc * radix + match digitValue radix c with
                                          | Some d => d
                                          | None => 0
                                          end)%Z) digits 0%Z.

(** The first units of the [start] strings of the grammar. *)
Definition startChars : list N := [91; 39; 123; 42; 35; 58; 59; 61; 38; 95; 32; 60; 45]%N.

Definition startsIn (chars : list N) (nt : NodeType) : Prop :=
  exists c r, nt_start nt = c :: r /\ In c chars.

Fixpoint checkBelow (P : N -> bool) (n : nat) : bool :=
  match n with
  | O => true
  | S k => (P (N.of_nat k) && checkBelow P k)%bool
  end.

Definition hexFacts (d : N) : bool :=
  (negb (N.eqb d 10) && negb (N.eqb (asciiLower d) 59)
   && negb (N.eqb (asciiLower d) 120)
   && negb (existsb (N.eqb (asciiLower d)) startChars)
   && negb (isWhiteSpace d) && negb (N.eqb d 45) && negb (N.eqb d 43)
   && negb (N.eqb d 120) && negb (N.eqb d 88))%bool.

Definition pushed (s : State) : State :=
  mkState (pos s) (backtrackOn s) (backtrackingCount s) (stack s ++ [pos s]).

Definition advancedText (text : jsstring) (s : State) : State :=
  mkState (mkPos (offset (pos s) + length text)
                 (lineNumber (pos s) + countNewlines text))
          (backtrackOn s) (backtrackingCount s) (stack s).

(** The three spellings of a numeric entity: [&#D;], [&#xH;] and [&#XH;]
    (the [x] is matched on the lower-cased view). *)
Inductive EntityKind := Decimal | HexLower | HexUpper.

Definition marker (k : EntityKind) : jsstring :=
  match k with
  | Decimal => []
  | HexLower => [120%N]
  | HexUpper => [88%N]
  end.

Definition isHexKind (k : EntityKind) : bool :=
  match k with Decimal => false | _ => true end.

Definition radixOf (k : EntityKind) : Z := if isHexKind k then 16%Z else 10%Z.

Definition digitOf (k : EntityKind) (c : N) : bool :=
  if isHexKind k then isHexDigit c else inRange 48 57 c.

Definition hexChars : list N :=
  [48; 49; 50; 51; 52; 53; 54; 55; 56; 57; 97; 98; 99; 100; 101; 102;
   65; 66; 67; 68; 69; 70]%N.

Definition afterMarker (k : EntityKind) (s : State) : State :=
  mkState (mkPos (offset (pos s) + length (marker k)) (lineNumber (pos s)))
          (backtrackOn s) (backtrackingCount s) (stack s).

(** The text of a numeric entity. *)
Definition entityText (k : EntityKind) (digits : jsstring) : jsstring :=
  js "&#" ++ marker k ++ digits ++ [59%N].

Section DescriptorInvariants.

Variable lowercaseStr : list jsstring.
Variable limit : Z.
Variable next : NextOpts -> M (option (list value)).

(** What a descriptor computes before the result is wrapped: its [func] or
    [next] on the descriptor. *)
Definition runOf (nt : NodeType) : M value :=
  match nt_func nt with
  | Some func => func
  | None => r <- next (nt_opts nt);; ret (ofNullable r)
  end.

(** A descriptor without a group whose production keeps the invariant. The
    production of a descriptor with [keepStart] may rely on the input
    starting with [start]. *)
Definition leafOk (nt : NodeType) : Prop :=
  nt_group nt = None /\
  exists T, nt_type nt = Some T /\
    match nt_replaceWith nt with
    | Some r => In T stringTypes /\ hoare limit (runOf nt) (fun _ => True)
    | None =>
        exists R,
          hoareP limit
            (fun s => nt_keepStart nt = true ->
                      startsWithP lowercaseStr (nt_start nt) (pos s) = true)
            (runOf nt) R
          /\ forall v, R v -> isNullish v = false ->
               hoare limit (postOf nt (wrapContent (Some T) v))
                 (fun p => isNullish p = false -> goodNode T p)
    end.

Definition groupOk (nt : NodeType) : Prop :=
  nt_type nt = None /\ exists grp, nt_group nt = Some grp /\ Forall leafOk grp.

Definition entryOk (nt : NodeType) : Prop := leafOk nt \/ groupOk nt.

End DescriptorInvariants.

(** The options that [htmlEntity] gives to [next]. *)
Definition entityOpts (str : jsstring) : NextOpts :=
  withBacktrackOn (isEndOfLine str) (withEnd [js ";"] noOpts).

(** Nothing ends or fails the loop of [next] at the position of [s]. *)
Definition quiet (lower : list jsstring) (o : NextOpts) (s : State) : Prop :=
  existsb (fun x => x (pos s)) (backtrackOn s) = false
  /\ startsWithAnyP lower (opt_backtrack o) (pos s) = false
  /\ (startsWithAnyP lower (opt_end o) (pos s)
      && negb (startsWithAnyP lower (opt_notEnd o) (pos s)))%bool = false
  /\ startsWithAnyP lower (opt_endBefore o) (pos s) = false
  /\ holds (opt_endBeforeRegex o) (pos s) = false
  /\ holds (opt_endOn o) (pos s) = false.

(** A unit whose lower-cased form starts no descriptor of the grammar. *)
Definition plainUnit (toLowerCase : jsstring -> jsstring) (c : N) : bool :=
  forallb (fun x => negb (jsstring_eqb (toLowerCase [c]) [x])) startChars.

(** The first units of the descriptors that have no [preCondition], and of
    those that [isStartOfLine] guards. *)
Definition hardChars : list N := [91; 39; 123; 38; 95; 60]%N.

Definition softChars : list N := [42; 35; 58; 59; 61; 32; 45]%N.

Definition unitAvoids (toLowerCase : jsstring -> jsstring) (chars : list N)
    (c : N) : bool :=
  forallb (fun x => negb (jsstring_eqb (toLowerCase [c]) [x])) chars.

(** A unit on which [node] finds nothing: it starts no descriptor, or only
    descriptors for the start of a line while it is not at one. *)
Definition plainUnitAt (toLowerCase : jsstring -> jsstring) (startOfLine : bool)
    (c : N) : bool :=
  (unitAvoids toLowerCase hardChars c
   && (unitAvoids toLowerCase softChars c || negb startOfLine))%bool.

(** Plain text, given whether it begins at the start of a line. *)
Fixpoint plainText (toLowerCase : jsstring -> jsstring) (startOfLine : bool)
    (text : jsstring) : bool :=
  match text with
  | [] => true
  | c :: rest =>
      (plainUnitAt toLowerCase startOfLine c
       && plainText toLowerCase (N.eqb c 10) rest)%bool
  end.

(** A descriptor that starts with a unit of [hardChars], or with one of
    [softChars] under the condition [isStartOfLine]. *)
Definition startGuarded (str : jsstring) (nt : NodeType) : Prop :=
  startsIn hardChars nt
  \/ (startsIn softChars nt /\ nt_preCondition nt = Some (isStartOfLine str)).

(** The replacements of the group of [&]: the type of the descriptor and the
    string it is replaced with; its start is the type followed by [;]. *)
Definition namedEntities : list (string * jsstring) :=
  [ ("nbsp"%string, [160%N]); ("lt"%string, js "<"); ("gt"%string, js ">");
    ("mdash"%string, [8212%N]); ("ndash"%string, [8211%N]);
    ("minus"%string, [8722%N]); ("thinsp"%string, [8201%N]) ].

(** The group of [&] of the grammar. *)
Definition entityGroup (str : jsstring) (lowercaseStr : list jsstring)
    (next : NextOpts -> M (option (list value))) : list NodeType :=
  [ replacement "nbsp" "nbsp;" [160%N];
    replacement "lt" "lt;" (js "<");
    replacement "gt" "gt;" (js ">");
    replacement "mdash" "mdash;" [8212%N];
    replacement "ndash" "ndash;" [8211%N];
    replacement "minus" "minus;" [8722%N];
    replacement "thinsp" "thinsp;" [8201%N];
    production "htmlEntity" "#" false None None (htmlEntity str lowercaseStr next)
      None ].

(** A prefix against a known text: [None] when the text ends before the
    prefix is decided. *)
Fixpoint matchText (prefix text : jsstring) : option bool :=
  match prefix, text with
  | [], _ => Some true
  | c :: prefix', d :: text' =>
      if N.eqb d c then matchText prefix' text' else Some false
  | _ :: _, [] => None
  end.

(** The two ends of a trimmed list: a first element that is a string begins
    with a unit that is not white space, a last element that is a string
    ends with one. *)
Definition trimmedStart (l : list value) : Prop :=
  match l with
  | VStr s :: _ => exists c r, s = c :: r /\ isWhiteSpace c = false
  | _ => True
  end.

Definition trimmedEnd (l : list value) : Prop :=
  match last l VNull with
  | VStr s => exists r c, s = r ++ [c] /\ isWhiteSpace c = false
  | _ => True
  end.

(** What [nodeToText] is on strings, with fuel and without. *)
Definition stringFaithful (f : value -> TextResult) : Prop :=
  (forall s, f (VStr s) = Text s) \/ (forall v, f v = TextUnfinished).

(** The text of two lists one after the other. *)
Definition textThen (a b : TextResult) : TextResult :=
  match a with
  | Text ta => match b with
               | Text tb => Text (ta ++ tb)
               | r => r
               end
  | r => r
  end.

(** The index of the last newline in the run of white space that [w] begins
    with. *)
Fixpoint lastNlIdx (w : jsstring) : option nat :=
  match w with
  | [] => None
  | c :: r =>
      if isWhiteSpace c then
        match lastNlIdx r with
        | Some k => Some (S k)
        | None => if N.eqb c 10 then Some 0 else None
        end
      else None
  end.

(** [toLowerCase] never gives an ASCII capital, which holds of the built-in. *)
Definition noCapitals (toLowerCase : jsstring -> jsstring) : Prop :=
  forall c d, toLowerCase [c] = [d] -> inRange 65 90 d = false.

(** The descriptors of the table of contents. *)
Definition isTocType (nt : NodeType) : bool :=
  match nt_type nt with
  | Some t => (jsstring_eqb t (js "toc") || jsstring_eqb t (js "notoc"))%bool
  | None => false
  end.

(** *** The faults of a parse

    A computation is safe where it leaves [this.backtrackOn] and
    [this.stack] as it found them when it returns, and throws nothing but
    the limit error or a TypeError of the runtime. *)

(** The faults that the grammar leaves possible. *)
Definition okFault (e : Fault) : Prop :=
  e = BacktrackingLimitExceededError \/ e = TypeError.

(** [this.backtrackOn] and [this.stack] are as they were. *)
Definition framed (s s' : State) : Prop :=
  backtrackOn s' = backtrackOn s /\ stack s' = stack s.

Definition safeP {A} (P : State -> Prop) (m : M A) (Q : A -> State -> Prop) : Prop :=
  forall s, P s ->
    match m s with
    | Ok a s' => framed s s' /\ Q a s'
    | Throw e _ => okFault e
    | OutOfFuel => True
    end.

Definition safe {A} (m : M A) : Prop := safeP (fun _ => True) m (fun _ _ => True).

(** What [next] owes its caller when it returns [null]. *)
Definition mayBacktrack (o : NextOpts) (s : State) : Prop :=
  backtrackOn s <> [] \/ opt_backtrackOn o <> None \/ opt_backtrack o <> []
  \/ opt_endAtEos o = false.

Definition nextPost (o : NextOpts) (r : option (list value)) (s : State) : Prop :=
  r = None -> mayBacktrack o s.

Section SafeDescriptors.

Variable lowercaseStr : list jsstring.
Variable next : NextOpts -> M (option (list value)).

(** A descriptor without a group: its production is safe where the input
    starts with [start] if the descriptor keeps it, and its post-processor
    returns a node. *)
Definition leafSafe (nt : NodeType) : Prop :=
  nt_group nt = None
  /\ safeP (fun s => nt_keepStart nt = true ->
                     startsWithP lowercaseStr (nt_start nt) (pos s) = true)
       (runOf next nt) (fun _ _ => True)
  /\ forall w, isNullish w = false ->
       safeP (fun _ => True) (postOf nt w) (fun p _ => isNullish p = false).

Definition groupSafe (nt : NodeType) : Prop :=
  exists grp, nt_group nt = Some grp /\ Forall leafSafe grp.

Definition entrySafe (nt : NodeType) : Prop := leafSafe nt \/ groupSafe nt.

End SafeDescriptors.

(** The inline quote markup of the grammar: the type of the node and the
    number of apostrophes. *)
Definition quoteMarkup : list (string * nat) :=
  [("boldItalics"%string, 5); ("bold"%string, 3); ("italics"%string, 2)].

(** Text in which no descriptor starts and no line ends. *)
Definition inlineText (toLowerCase : jsstring -> jsstring) (text : jsstring) : bool :=
  forallb (fun c => unitAvoids toLowerCase hardChars c && negb (N.eqb c 10)) text.

(** The element that a run of text leaves in a list. *)
Definition textNode (text : jsstring) : list value :=
  match text with
  | [] => []
  | _ :: _ => [VStr text]
  end.

(** [{type, content}] *)
Definition typedNode (type : string) (content : list value) : value :=
  VObj [(js "type", VStr (js type)); (js "content", arr content)].

(** The descriptor has a [type], and so has every descriptor of its
    group. *)
Definition allTyped (nt : NodeType) : Prop :=
  match nt_group nt with
  | Some grp =>
      nt_type nt = None /\ nt_preCondition nt = None /\ nt_postCondition nt = None
      /\ Forall (fun e => nt_type e <> None) grp
  | None => nt_type nt <> None
  end.

(** The text starts with the prefix, in the lower-cased view. *)
Fixpoint startsLower (toLowerCase : jsstring -> jsstring) (prefix text : jsstring)
  : bool :=
  match prefix, text with
  | [], _ => true
  | p :: prefix', c :: text' =>
      (jsstring_eqb (toLowerCase [c]) [p] && startsLower toLowerCase prefix' text')%bool
  | _ :: _, [] => false
  end.

(** The prefix occurs in the text, in the lower-cased view. *)
Fixpoint occursLower (toLowerCase : jsstring -> jsstring) (prefix text : jsstring)
  : bool :=
  match text with
  | [] => false
  | _ :: text' =>
      (startsLower toLowerCase prefix text
       || occursLower toLowerCase prefix text')%bool
  end.

(** The content of a comment node: the text without the white space and the
    dashes at its two ends. *)
Definition commentContent (text : jsstring) : list value :=
  match text with
  | [] => []
  | _ :: _ => [VStr (stripSpaceDash text)]
  end.

(** Text of a link target or of a template name: no descriptor starts in
    it, no line ends in it, and it holds none of the given closing units. *)
Definition nameText (toLowerCase : jsstring -> jsstring) (closers : list N)
    (text : jsstring) : bool :=
  forallb (fun c => unitAvoids toLowerCase hardChars c
                    && unitAvoids toLowerCase closers c
                    && negb (N.eqb c 10)) text.

(** The text does not begin with a word character. *)
Definition noTrail (text : jsstring) : bool :=
  match text with
  | [] => true
  | c :: _ => negb (isWordChar c)
  end.

(** The fields that [link] returns for a link without parameters: the
    target up to [#], the target with the trail as content, and the anchor
    after [#] when it is not empty. *)
Definition linkFields (page trail : jsstring) : list (jsstring * value) :=
  let parts := splitOn 35 (strTrim page) in
  let to := nth 0 parts [] in
  let anchor := match parts with
                | _ :: a :: _ => VStr a
                | _ => VUndefined
                end in
  [(js "to", VStr to); (js "content", arr [VStr (to ++ trail)])]
  ++ optionalField (truthy anchor) (js "anchor") anchor.

Definition linkNode (page trail : jsstring) : value :=
  VObj ((js "type", VStr (js "link")) :: linkFields page trail).

(** The node of a template without parameters. *)
Definition templateNode (name : jsstring) : value :=
  VObj [(js "type", VStr (js "template")); (js "name", VStr name);
        (js "parameters", VDict []);
        (js "positionalParameters", arrayValue emptyArray)].

(** The node of a heading. *)
Definition headingNode (level : nat) (content : list value) : value :=
  VObj [(js "type", VStr (js "heading")); (js "level", VNum (Z.of_nat level));
        (js "content", arr content)].

(** The text ends a line, or is empty: what follows it starts a line. *)
Definition endsLine (text : jsstring) : bool :=
  match rev text with
  | [] => true
  | c :: _ => N.eqb c 10
  end.



(** The list markup of the grammar: the type of the node and the unit that
    marks an item. *)
Definition listMarkup : list (string * N) :=
  [("unorderedList"%string, 42%N); ("orderedList"%string, 35%N)].

(** The text of a list item: no descriptor starts in it, it holds no closing
    brace and no line end, also when lower-cased, and it does not begin with the list marker or
    with a colon. *)
Definition itemText (toLowerCase : jsstring -> jsstring) (marker : N)
    (text : jsstring) : bool :=
  (nameText toLowerCase [125%N; 10%N] text
   && match text with
      | [] => true
      | c :: _ => unitAvoids toLowerCase [marker; 58%N] c
      end)%bool.

(** A list item given by its level and its text. *)
Definition goodItem (toLowerCase : jsstring -> jsstring) (marker : N)
    (it : nat * jsstring) : bool :=
  (Nat.leb 1 (fst it) && itemText toLowerCase marker (snd it))%bool.

(** The line of an item, and the lines of a list. *)
Definition itemSource (marker : N) (it : nat * jsstring) : jsstring :=
  repeat marker (fst it) ++ snd it ++ [10%N].

Definition listSource (marker : N) (items : list (nat * jsstring)) : jsstring :=
  concat (map (itemSource marker) items).

(** [{level, content}] of an item, and the node of a list. *)
Definition itemNode (it : nat * jsstring) : value :=
  VObj [(js "level", VNum (Z.of_nat (fst it)));
        (js "content", arr (textNode (strTrim (snd it))))].

Definition listNode (type : string) (items : list (nat * jsstring)) : value :=
  VObj [(js "type", VStr (js type)); (js "items", arr (map itemNode items))].

(** The text of a list: the trimmed text of each item, on a line. *)
Definition listText (items : list (nat * jsstring)) : jsstring :=
  concat (map (fun it => strTrim (snd it) ++ [10%N]) items).

Lemma wf_str (s : jsstring) : wf (VStr s).
Proof. constructor. split; exact I. Qed.

Lemma wf_null : wf VNull.
Proof. constructor. split; exact I. Qed.

Lemma wf_undefined : wf VUndefined.
Proof. constructor. split; exact I. Qed.

Lemma wf_bool (b : bool) : wf (VBool b).
Proof. constructor. split; exact I. Qed.

Lemma wf_num (n : Z) : wf (VNum n).
Proof. constructor. split; exact I. Qed.

Create HintDb wf.
#[local] Hint Resolve wf_str wf_null wf_undefined wf_bool wf_num : wf.

Lemma noAdjacentStrings_cons (x y : value) (r : list value) :
  noAdjacentStrings (x :: y :: r) <->
  (notString x \/ notString y) /\ noAdjacentStrings (y :: r).
Proof.
  destruct x, y; simpl; tauto.
Qed.

Lemma noAdjacentStrings_tail (x : value) (r : list value) :
  noAdjacentStrings (x :: r) -> noAdjacentStrings r.
Proof.
  destruct r as [|y r]; [intros; exact I|].
  rewrite noAdjacentStrings_cons. tauto.
Qed.

Lemma noAdjacentStrings_single (x : value) : noAdjacentStrings [x].
Proof. destruct x; exact I. Qed.

Lemma appendChunk_head (y : value) (r : list value) (chunk : value) :
  exists y' r', appendChunk (y :: r) chunk = y' :: r' /\ (notString y -> notString y').
Proof.
  destruct r as [|z r'].
  - destruct y, chunk; simpl; eauto.
  - exists y, (appendChunk (z :: r') chunk). split; [reflexivity | auto].
Qed.

Lemma noAdjacentStrings_appendChunk (content : list value) (chunk : value) :
  noAdjacentStrings content -> noAdjacentStrings (appendChunk content chunk).
Proof.
  induction content as [|x rest IH]; intros H.
  - apply noAdjacentStrings_single.
  - destruct rest as [|y rest'].
    + destruct x, chunk; simpl; exact I.
    + change (appendChunk (x :: y :: rest') chunk)
        with (x :: appendChunk (y :: rest') chunk).
      apply noAdjacentStrings_cons in H. destruct H as [Hxy Hr].
      specialize (IH Hr).
      destruct (appendChunk_head y rest' chunk) as (y' & r' & E & Hy).
      rewrite E in *. apply noAdjacentStrings_cons. split; [tauto | assumption].
Qed.

Lemma Forall_wf_appendChunk (content : list value) (chunk : value) :
  Forall wf content -> wf chunk -> Forall wf (appendChunk content chunk).
Proof.
  induction content as [|x rest IH]; intros H Hc.
  - constructor; [assumption | constructor].
  - inversion H; subst. destruct rest as [|y rest'].
    + destruct x, chunk; simpl; auto with wf.
    + change (appendChunk (x :: y :: rest') chunk)
        with (x :: appendChunk (y :: rest') chunk).
      constructor; auto.
Qed.

Lemma wfList_nil : wfList [].
Proof. split; [exact I | constructor]. Qed.

Lemma wfList_appendChunk (content : list value) (chunk : value) :
  wfList content -> wf chunk -> wfList (appendChunk content chunk).
Proof.
  intros [H1 H2] Hc. split.
  - apply noAdjacentStrings_appendChunk; assumption.
  - apply Forall_wf_appendChunk; assumption.
Qed.

Lemma wfList_append (content chunks : list value) :
  wfList content -> Forall wf chunks -> wfList (append content chunks).
Proof.
  unfold append. revert content.
  induction chunks as [|c cs IH]; intros content Hc Hcs; simpl.
  - assumption.
  - inversion Hcs; subst. apply IH; [apply wfList_appendChunk|]; assumption.
Qed.

Lemma wfList_single (x : value) : wf x -> wfList [x].
Proof.
  intros H. split; [apply noAdjacentStrings_single | constructor; [assumption | constructor]].
Qed.

Lemma wfList_tail (x : value) (r : list value) : wfList (x :: r) -> wfList r.
Proof.
  intros [H1 H2]. inversion H2; subst. split; [eapply noAdjacentStrings_tail; eassumption | assumption].
Qed.

Lemma wfList_head_string (s s' : jsstring) (r : list value) :
  wfList (VStr s :: r) -> wfList (VStr s' :: r).
Proof.
  intros [H1 H2]. inversion H2; subst. split.
  - destruct r as [|y r']; [exact I|]. exact H1.
  - constructor; auto with wf.
Qed.

Lemma wfList_trimFirst (l : list value) : wfList l -> wfList (trimFirst l).
Proof.
  intros H. destruct l as [|x r]; [assumption|].
  destruct x as [| | b | n | s | l0 ps | fs | d]; try assumption. simpl.
  destruct (trimLeft s) eqn:E.
  - eapply wfList_tail; eassumption.
  - eapply wfList_head_string; eassumption.
Qed.

Lemma trimLast_head (y : value) (r : list value) :
  trimLast (y :: r) = [] \/
  exists y' r', trimLast (y :: r) = y' :: r' /\ (notString y -> notString y').
Proof.
  destruct r as [|z r'].
  - destruct y as [| | b | n | s | l0 ps | fs | d]; simpl; eauto.
    destruct (trimRight s); eauto.
  - right. exists y, (trimLast (z :: r')). split; [reflexivity | auto].
Qed.

Lemma wfList_trimLast (l : list value) : wfList l -> wfList (trimLast l).
Proof.
  induction l as [|x r IH]; intros H; [assumption|].
  destruct r as [|y r'].
  - destruct x as [| | b | n | s | l0 ps | fs | d]; try assumption. simpl.
    destruct (trimRight s); [apply wfList_nil | apply wfList_single; auto with wf].
  - change (trimLast (x :: y :: r')) with (x :: trimLast (y :: r')).
    pose proof (IH (wfList_tail H)) as [T1 T2].
    destruct H as [H1 H2]. inversion H2; subst.
    split; [|constructor; assumption].
    apply noAdjacentStrings_cons in H1. destruct H1 as [Hxy _].
    destruct (trimLast_head y r') as [E | (y' & r'' & E & Hy)]; rewrite E in *.
    + apply noAdjacentStrings_single.
    + apply noAdjacentStrings_cons. split; [tauto | assumption].
Qed.

Lemma wfOpt_trim (r : option (list value)) : wfOpt r -> wfOpt (trim r).
Proof.
  destruct r as [l|]; [|intros; exact I].
  intros H. destruct l as [|x l']; [assumption|].
  change (wfList (trimLast (trimFirst (x :: l')))).
  apply wfList_trimLast, wfList_trimFirst. assumption.
Qed.

Lemma wf_arr (l : list value) : wfList l -> wf (arr l).
Proof.
  intros [H1 H2]. constructor; [split; [assumption | exact I] | assumption | constructor].
Qed.

Lemma wf_ofNullable (r : option (list value)) : wfOpt r -> wf (ofNullable r).
Proof.
  destruct r; simpl; [apply wf_arr | intros; apply wf_null].
Qed.

Lemma wf_arr_inv (l : list value) (ps : list (jsnum * value)) :
  wf (VArr l ps) -> wfList l.
Proof.
  intros H. inversion H as [ | | | | | l' ps' Hh Hl Hp | | ]; subst.
  destruct Hh as [Hh _]. split; assumption.
Qed.

(* ================================================================== *)
(** ** The invariant of the engine and of the productions *)

Lemma jsstring_eqb_eq (a b : jsstring) : jsstring_eqb a b = true <-> a = b.
Proof.
  revert b. induction a as [|x a IH]; intros [|y b]; simpl;
    try (split; [discriminate | discriminate]); [tauto|].
  rewrite andb_true_iff, N.eqb_eq, IH. split.
  - intros [-> ->]. reflexivity.
  - intros E. injection E as -> ->. auto.
Qed.

Section Invariants.

Variable str : jsstring.
Variable lowercaseStr : list jsstring.
Variable limit : Z.
Variable toLowerCase : jsstring -> jsstring.

Lemma hoareP_bind {A B} (P : State -> Prop) (m : M A) (k : A -> M B)
    (R : A -> Prop) (Q : B -> Prop) :
  hoareP limit P m R ->
  (forall a, R a -> hoare limit (k a) Q) ->
  hoareP limit P (bind m k) Q.
Proof.
  intros Hm Hk s Hs HP. unfold bind.
  specialize (Hm s Hs HP). destruct (m s) as [a s'|e s'|]; simpl in *; auto.
  destruct Hm as (Ha & Hmono & Hs').
  specialize (Hk a Ha s' Hs' I).
  destruct (k a s') as [b s''|e s''|]; simpl in *; auto.
  destruct Hk as (Hb & Hmono' & Hs''). repeat split; auto. lia.
Qed.

Lemma hoare_bind {A B} (m : M A) (k : A -> M B) (R : A -> Prop) (Q : B -> Prop) :
  hoare limit m R ->
  (forall a, R a -> hoare limit (k a) Q) ->
  hoare limit (bind m k) Q.
Proof. apply hoareP_bind. Qed.

Lemma hoare_ret {A} (a : A) (Q : A -> Prop) : Q a -> hoare limit (ret a) Q.
Proof. intros H s Hs _. simpl. repeat split; auto. lia. Qed.

Lemma hoare_throw {A} (e : Fault) (Q : A -> Prop) :
  e <> BacktrackingLimitExceededError -> hoare limit (throw e) Q.
Proof. intros H s Hs _. simpl. intros E. contradiction. Qed.

Lemma hoare_outOfFuel {A} (Q : A -> Prop) : hoare limit outOfFuel Q.
Proof. intros s Hs _. exact I. Qed.

Lemma hoare_weaken {A} (m : M A) (R Q : A -> Prop) :
  hoare limit m R -> (forall a, R a -> Q a) -> hoare limit m Q.
Proof.
  intros Hm HQ s Hs HP. specialize (Hm s Hs HP).
  destruct (m s); simpl in *; auto. destruct Hm as (? & ? & ?); auto.
Qed.

Lemma hoareP_drop {A} (P : State -> Prop) (m : M A) (Q : A -> Prop) :
  hoare limit m Q -> hoareP limit P m Q.
Proof. intros H s Hs _. apply H; auto. Qed.

Lemma hoare_true {A} (m : M A) (Q : A -> Prop) :
  hoare limit m Q -> hoare limit m (fun _ => True).
Proof. intros H. eapply hoare_weaken; [exact H | auto]. Qed.

(** A computation that leaves the counter alone and never throws the limit
    error satisfies every triple whose postcondition it establishes. *)
Lemma hoare_pure {A} (m : M A) (Q : A -> Prop) :
  (forall s, match m s with
             | Ok a s' => Q a /\ backtrackingCount s' = backtrackingCount s
             | Throw e _ => e <> BacktrackingLimitExceededError
             | OutOfFuel => True
             end) ->
  hoare limit m Q.
Proof.
  intros H s Hs _. specialize (H s). destruct (m s); simpl; auto.
  - destruct H as [HQ E]. rewrite E. repeat split; auto. lia.
  - intros E. contradiction.
Qed.

Lemma hoare_getPos : hoare limit getPos (fun _ => True).
Proof. apply hoare_pure. intros s. simpl. auto. Qed.

Lemma hoare_setPos (p : Pos) : hoare limit (setPos p) (fun _ => True).
Proof. apply hoare_pure. intros s. simpl. auto. Qed.

Lemma hoare_pushBacktrackOn (f : Pos -> bool) :
  hoare limit (pushBacktrackOn f) (fun _ => True).
Proof. apply hoare_pure. intros s. simpl. auto. Qed.

Lemma hoare_popBacktrackOn : hoare limit popBacktrackOn (fun _ => True).
Proof. apply hoare_pure. intros s. simpl. auto. Qed.

Lemma hoare_pushStack (p : Pos) : hoare limit (pushStack p) (fun _ => True).
Proof. apply hoare_pure. intros s. simpl. auto. Qed.

Lemma hoare_popStack : hoare limit popStack (fun _ => True).
Proof. apply hoare_pure. intros s. simpl. auto. Qed.

Lemma hoare_someBacktrackOn : hoare limit someBacktrackOn (fun _ => True).
Proof. apply hoare_pure. intros s. simpl. auto. Qed.

Lemma hoare_startsWith (prefix : jsstring) :
  hoare limit (startsWith lowercaseStr prefix) (fun _ => True).
Proof. apply hoare_pure. intros s. simpl. auto. Qed.

Lemma hoare_startsWithAny (prefixes : list jsstring) :
  hoare limit (startsWithAny lowercaseStr prefixes) (fun _ => True).
Proof. apply hoare_pure. intros s. simpl. auto. Qed.

Lemma hoare_advance (chunk : jsstring) :
  hoare limit (advance chunk) (fun _ => True).
Proof. apply hoare_pure. intros s. simpl. auto. Qed.

Lemma hoare_advanceChar : hoare limit (advanceChar str) (fun _ => True).
Proof.
  apply hoare_pure. intros s. unfold advanceChar, bind, getPos.
  destruct (nth_error str (offset (pos s))); simpl; auto. discriminate.
Qed.

Lemma hoare_error {A} (chunks : list jsstring) (Q : A -> Prop) :
  hoare limit (error chunks) Q.
Proof. apply hoare_pure. intros s. simpl. discriminate. Qed.

Lemma hoare_countBacktrack : hoare limit (countBacktrack limit) (fun _ => True).
Proof.
  intros s Hs _. unfold countBacktrack.
  destruct (Z.ltb_spec limit (backtrackingCount s + 1)); simpl.
  - intros _. lia.
  - repeat split; auto; lia.
Qed.

Lemma hoare_when (b : bool) (m : M unit) :
  hoare limit m (fun _ => True) -> hoare limit (when b m) (fun _ => True).
Proof. intros H. destruct b; simpl; [assumption | apply hoare_ret; exact I]. Qed.

Lemma hoare_ret_eq {A} (a : A) : hoare limit (ret a) (fun x => x = a).
Proof. apply hoare_ret. reflexivity. Qed.

Lemma hoare_throw_TypeError {A} (Q : A -> Prop) : hoare limit (throw TypeError) Q.
Proof. apply hoare_throw. discriminate. Qed.

Create HintDb hoare.
#[local] Hint Resolve hoare_ret_eq hoare_throw_TypeError : hoare.
#[local] Hint Resolve hoare_getPos hoare_setPos hoare_pushBacktrackOn
  hoare_popBacktrackOn hoare_pushStack hoare_popStack hoare_someBacktrackOn
  hoare_startsWith hoare_startsWithAny hoare_advance hoare_advanceChar
  hoare_countBacktrack hoare_when hoare_error hoare_outOfFuel : hoare.

(** One step through a computation: the first action of a [bind] is closed
    by a known triple, a conditional or a match is split. *)
Ltac hstep :=
  lazymatch goal with
  | |- hoare _ (bind _ _) _ =>
      eapply hoare_bind; [solve [eauto with hoare] | cbv beta; intros]
  | |- hoare _ (ret _) _ => apply hoare_ret
  | |- hoare _ (throw TypeError) _ => apply hoare_throw; discriminate
  | |- hoare _ outOfFuel _ => apply hoare_outOfFuel
  | |- hoare _ (error _) _ => apply hoare_error
  | |- hoare _ (if ?b then _ else _) _ => destruct b eqn:?
  | |- hoare _ (match ?x with _ => _ end) _ => destruct x eqn:?
  end.

Ltac hsteps := repeat hstep.

Lemma hoare_eat (chunk : jsstring) (err : bool) :
  hoare limit (eat lowercaseStr chunk err) (fun _ => True).
Proof. unfold eat. hsteps; exact I. Qed.

Lemma hoare_eatAnyFrom (all chunks : list jsstring) (err : bool) :
  hoare limit (eatAnyFrom lowercaseStr all chunks err) (fun _ => True).
Proof.
  induction chunks as [|c cs IH]; cbn [eatAnyFrom].
  - hsteps; exact I.
  - hstep. hstep; [hsteps; exact I | exact IH].
Qed.

Lemma hoare_eatAny (chunks : list jsstring) (err : bool) :
  hoare limit (eatAny lowercaseStr chunks err) (fun _ => True).
Proof. apply hoare_eatAnyFrom. Qed.

#[local] Hint Resolve hoare_eat hoare_eatAny : hoare.

Lemma hoare_eatCountLoop (n : nat) (chunk : jsstring) (count : nat) :
  hoare limit (eatCountLoop lowercaseStr n chunk count) (fun _ => True).
Proof.
  revert count. induction n as [|n IH]; intros count; cbn [eatCountLoop].
  - hstep.
  - hstep. hstep; [hstep; apply IH | hstep; exact I].
Qed.

Lemma hoare_eatCount (chunk : jsstring) :
  hoare limit (eatCount str lowercaseStr chunk) (fun _ => True).
Proof. apply hoare_eatCountLoop. Qed.

Lemma hoare_eatWhitespaceLoop (n : nat) (newLine : bool) :
  hoare limit (eatWhitespaceLoop lowercaseStr n newLine) (fun _ => True).
Proof.
  induction n as [|n IH]; cbn [eatWhitespaceLoop].
  - hstep.
  - hstep. hstep; [apply IH | hstep; exact I].
Qed.

Lemma hoare_eatWhitespace (newLine : bool) :
  hoare limit (eatWhitespace str lowercaseStr newLine) (fun _ => True).
Proof. apply hoare_eatWhitespaceLoop. Qed.

#[local] Hint Resolve hoare_eatCount hoare_eatWhitespace : hoare.

(** *** [next] *)

Lemma Forall_wf_concatNode (n : value) : wf n -> Forall wf (concatNode n).
Proof.
  intros H. destruct n; simpl; try (constructor; [assumption | constructor]).
  inversion H; assumption.
Qed.

Lemma wfList_flush (content : list value) (s : jsstring) :
  wfList content -> wfList (append content [VStr s]).
Proof.
  intros H. apply wfList_append; [assumption|]. constructor; [apply wf_str | constructor].
Qed.

Section NextInvariant.

Variable node : option (list jsstring) -> list jsstring -> M value.
Hypothesis Hnode :
  forall allow disallow, hoare limit (node allow disallow) (nodeResult allow).

Lemma hoare_nextFinish (o : NextOpts) (chunkStart chunkLength : nat)
    (content : list value) :
  wfList content ->
  hoare limit (nextFinish str o chunkStart chunkLength content) wfOpt.
Proof.
  intros H. unfold nextFinish. hsteps. simpl.
  destruct (Nat.eqb chunkLength 0); [assumption | apply wfList_flush; assumption].
Qed.

Lemma hoare_nextLoop (n : nat) (o : NextOpts) (originalPos : Pos)
    (chunkStart chunkLength : nat) (content : list value) :
  wfList content ->
  hoare limit
    (nextLoop str lowercaseStr limit node n o originalPos chunkStart chunkLength content)
    wfOpt.
Proof.
  revert chunkStart chunkLength content.
  induction n as [|n IH]; intros chunkStart chunkLength content Hc; cbn [nextLoop].
  - hstep.
  - pose proof (hoare_nextFinish o chunkStart chunkLength Hc) as Hfin.
    hstep. hstep; [exact Hfin|].
    hstep. hstep; [hsteps; exact I|].
    hstep; [hstep; exact Hfin|].
    hstep; [exact Hfin|].
    hstep; [exact Hfin|].
    hstep; [exact Hfin|].
    hstep. hstep. hstep.
    match goal with H : nodeResult _ _ |- _ => destruct H as [Hwf _] end.
    hstep.
    + hstep. apply IH. apply wfList_append.
      * destruct (negb (Nat.eqb chunkLength 0)); [apply wfList_flush|]; assumption.
      * apply Forall_wf_concatNode; assumption.
    + hstep. hstep. apply IH. assumption.
Qed.

Lemma hoare_nextImpl (n : nat) (o : NextOpts) :
  hoare limit (nextImpl str lowercaseStr limit node n o) wfOpt.
Proof.
  assert (Hrun : hoare limit
            (p <- getPos;;
             match opt_backtrackOn o with
             | Some f => pushBacktrackOn f
             | None => ret tt
             end;;
             nextLoop str lowercaseStr limit node n o p (offset p) 0 []) wfOpt).
  { hstep. eapply hoare_bind.
    - destruct (opt_backtrackOn o); [auto with hoare | apply hoare_ret; exact I].
    - intros. apply hoare_nextLoop. apply wfList_nil. }
  unfold nextImpl.
  destruct (opt_end o), (opt_endBefore o), (opt_endBeforeRegex o), (opt_endOn o),
    (opt_backtrack o), (opt_endAtEos o); try exact Hrun.
  apply hoare_ret. apply wfList_nil.
Qed.

End NextInvariant.

(** *** Objects, dictionaries and arrays with holes *)

Lemma wf_obj (fs : list (jsstring * value)) :
  getField (js "type") fs <> VStr (js "heading") -> wfFields fs -> wf (VObj fs).
Proof.
  intros Ht Hf. constructor; [|exact Hf]. split; [exact I|].
  intros E. contradiction.
Qed.

Lemma wf_dict (d : list (jsstring * value)) : wfFields d -> wf (VDict d).
Proof. intros H. constructor; [split; exact I | exact H]. Qed.

Lemma wfFields_dictSetOwn (k : jsstring) (v : value) (d : list (jsstring * value)) :
  wfFields d -> wf v -> wfFields (dictSetOwn k v d).
Proof.
  unfold wfFields. intros Hd Hv. induction d as [|[k' v'] rest IH]; simpl.
  - constructor; [assumption | constructor].
  - inversion Hd; subst. destruct (jsstring_eqb k k'); constructor; auto.
Qed.

Lemma wfFields_dictSet (k : jsstring) (v : value) (d : list (jsstring * value)) :
  wfFields d -> wf v -> wfFields (dictSet k v d).
Proof.
  intros Hd Hv. unfold dictSet.
  destruct (jsstring_eqb k (js "__proto__")); [assumption|].
  apply wfFields_dictSetOwn; assumption.
Qed.

Lemma wfFields_setField (k : jsstring) (v : value) (fs : list (jsstring * value)) :
  wfFields fs -> wf v -> wfFields (setField k v fs).
Proof.
  unfold wfFields. intros Hd Hv. induction fs as [|[k' v'] rest IH]; simpl.
  - constructor; [assumption | constructor].
  - inversion Hd; subst. destruct (jsstring_eqb k k'); constructor; auto.
Qed.

Lemma wfFields_removeField (k : jsstring) (fs : list (jsstring * value)) :
  wfFields fs -> wfFields (removeField k fs).
Proof.
  unfold wfFields. intros Hd. induction fs as [|[k' v'] rest IH]; simpl; [constructor|].
  inversion Hd; subst. destruct (jsstring_eqb k k'); [auto | constructor; auto].
Qed.

Lemma wfFields_getField (k : jsstring) (fs : list (jsstring * value)) :
  wfFields fs -> wf (getField k fs).
Proof.
  unfold wfFields. intros Hd. induction fs as [|[k' v'] rest IH]; simpl; [apply wf_undefined|].
  inversion Hd; subst. destruct (jsstring_eqb k k'); auto.
Qed.

Lemma wf_obj_fields (fs : list (jsstring * value)) : wf (VObj fs) -> wfFields fs.
Proof. intros H. inversion H; assumption. Qed.

Lemma noAdjacentStrings_notString (l : list value) :
  Forall notString l -> noAdjacentStrings l.
Proof.
  induction l as [|x r IH]; intros H; [exact I|].
  inversion H; subst. destruct r as [|y r']; [apply noAdjacentStrings_single|].
  apply noAdjacentStrings_cons. split; [tauto | auto].
Qed.

Lemma wf_arrayValue (a : jsarray) : wfArray a -> wf (arrayValue a).
Proof.
  intros (H1 & H2 & H3). constructor; [split; [|exact I] | assumption | assumption].
  apply noAdjacentStrings_notString. assumption.
Qed.

Lemma wfArray_empty : wfArray emptyArray.
Proof. repeat split; constructor. Qed.

Lemma Forall_setNth (P : value -> Prop) (i : nat) (v : value) (l : list value) :
  P VUndefined -> P v -> Forall P l -> Forall P (setNth i v l).
Proof.
  intros Hu Hv. revert l. induction i as [|i IH]; intros l Hl; destruct l; simpl.
  - constructor; [assumption | constructor].
  - inversion Hl; subst. constructor; assumption.
  - constructor; [assumption | apply IH; constructor].
  - inversion Hl; subst. constructor; auto.
Qed.

Lemma wfFields_propSet (k : jsnum) (v : value) (ps : list (jsnum * value)) :
  wfFields ps -> wf v -> wfFields (propSet k v ps).
Proof.
  unfold wfFields. intros Hd Hv. induction ps as [|[k' v'] rest IH]; simpl.
  - constructor; [assumption | constructor].
  - inversion Hd; subst. destruct (jsnum_eqb k k'); constructor; auto.
Qed.

Lemma wfArray_arraySet (key : jsnum) (v : value) (a : jsarray) :
  wfArray a -> wf v -> notString v -> wfArray (arraySet key v a).
Proof.
  intros (H1 & H2 & H3) Hv Hn. unfold arraySet.
  destruct (arrayIndex key); simpl; repeat split; auto.
  - apply Forall_setNth; auto with wf.
  - apply Forall_setNth; simpl; auto.
  - apply wfFields_propSet; assumption.
Qed.

Lemma wfArray_arrayPush (v : value) (a : jsarray) :
  wfArray a -> wf v -> notString v -> wfArray (arrayPush v a).
Proof.
  intros (H1 & H2 & H3) Hv Hn. unfold arrayPush. simpl.
  repeat split; auto; apply Forall_app; split; auto.
Qed.

Lemma wfArray_arrayPop (a : jsarray) :
  wfArray a ->
  wf (fst (arrayPop a)) /\ notString (fst (arrayPop a)) /\ wfArray (snd (arrayPop a)).
Proof.
  intros (H1 & H2 & H3). unfold arrayPop.
  destruct (rev (elems a)) as [|x r] eqn:E; simpl.
  - repeat split; auto with wf.
  - assert (El : elems a = rev r ++ [x]).
    { rewrite <- (rev_involutive (elems a)), E. reflexivity. }
    rewrite El in H1, H2.
    apply Forall_app in H1. destruct H1 as [H1 H1x]. inversion H1x; subst.
    apply Forall_app in H2. destruct H2 as [H2 H2x]. inversion H2x; subst.
    repeat split; auto.
Qed.

Lemma notString_ofNullable (r : option (list value)) : notString (ofNullable r).
Proof. destruct r; exact I. Qed.

#[local] Hint Resolve wf_ofNullable wfOpt_trim notString_ofNullable wf_arr
  wfList_nil wf_dict wf_arrayValue : wf.

(** *** The productions *)

Section ProductionInvariants.

Variable next : NextOpts -> M (option (list value)).
Variable node : option (list jsstring) -> list jsstring -> M value.
Variable fuel : nat.

Hypothesis Hnext : forall o, hoare limit (next o) wfOpt.
Hypothesis Hnode :
  forall allow disallow, hoare limit (node allow disallow) (nodeResult allow).

Lemma hoare_trimLower (x : value) :
  hoare limit (trimLower toLowerCase x) (fun _ => True).
Proof. unfold trimLower. hsteps; exact I. Qed.

#[local] Hint Resolve hoare_trimLower : hoare.

Lemma hoare_parameterLoop (n : nat) (close : jsstring)
    (allow : option (list jsstring)) (parameters : list (jsstring * value))
    (positionalParameters : jsarray) :
  wfFields parameters -> wfArray positionalParameters ->
  hoare limit
    (parameterLoop str lowercaseStr toLowerCase next n close allow
       parameters positionalParameters)
    (fun ps => wfFields (fst ps) /\ wfArray (snd ps)).
Proof.
  revert parameters positionalParameters.
  induction n as [|n IH]; intros parameters positionalParameters Hp Ha;
    cbn [parameterLoop].
  - hstep.
  - hstep. hstep; [hstep; split; assumption|].
    hstep.
    assert (Hpos : forall o,
      hoare limit
        (setPos a0;;
         v <- next o;;
         parameterLoop str lowercaseStr toLowerCase next n close allow parameters
           (arrayPush (ofNullable (trim v)) positionalParameters))
        (fun ps => wfFields (fst ps) /\ wfArray (snd ps))).
    { intros o. hstep. hstep. apply IH; [assumption|].
      apply wfArray_arrayPush; auto with wf. }
    hstep. hstep; [|apply Hpos]. hstep; [apply Hpos|].
    hstep. hstep; [apply Hpos|].
    hstep. hstep; apply IH; auto.
    + apply wfFields_dictSet; auto with wf.
    + apply wfArray_arraySet; auto with wf.
Qed.

Lemma getField_noHeadingType (fs : list (jsstring * value)) :
  noHeadingType fs -> getField (js "type") fs <> VStr (js "heading").
Proof.
  induction fs as [|[k v] rest IH]; intros H; cbn [getField]; [discriminate|].
  inversion H as [|? ? Hkv Hrest]; subst.
  destruct (jsstring_eqb (js "type") k) eqn:E; [|auto].
  apply jsstring_eqb_eq in E. apply Hkv. cbn [fst]. congruence.
Qed.

Lemma wf_obj_typed (fs : list (jsstring * value)) :
  noHeadingType fs -> wfFields fs -> wf (VObj fs).
Proof.
  intros H1 H2. apply wf_obj; [apply getField_noHeadingType|]; assumption.
Qed.

Lemma noHeadingType_setField (k : jsstring) (v : value)
    (fs : list (jsstring * value)) :
  noHeadingType fs -> typeNotHeading (k, v) -> noHeadingType (setField k v fs).
Proof.
  unfold noHeadingType. intros Hfs Hkv.
  induction fs as [|[k' v'] rest IH]; simpl.
  - constructor; [assumption | constructor].
  - inversion Hfs; subst. destruct (jsstring_eqb k k'); constructor; auto.
Qed.

Lemma noHeadingType_removeField (k : jsstring) (fs : list (jsstring * value)) :
  noHeadingType fs -> noHeadingType (removeField k fs).
Proof.
  unfold noHeadingType. intros Hfs.
  induction fs as [|[k' v'] rest IH]; simpl; [constructor|].
  inversion Hfs; subst. destruct (jsstring_eqb k k'); [auto | constructor; auto].
Qed.

Lemma noHeadingType_assignFields (target source : list (jsstring * value)) :
  noHeadingType target -> noHeadingType source ->
  noHeadingType (assignFields target source).
Proof.
  unfold assignFields. revert target.
  induction source as [|[k v] rest IH]; intros target Ht Hs; simpl; [assumption|].
  inversion Hs; subst. apply IH; [|assumption].
  apply noHeadingType_setField; assumption.
Qed.

Lemma wfFields_assignFields (target source : list (jsstring * value)) :
  wfFields target -> wfFields source -> wfFields (assignFields target source).
Proof.
  unfold assignFields. revert target.
  induction source as [|[k v] rest IH]; intros target Ht Hs; simpl; [assumption|].
  inversion Hs; subst. apply IH; [|assumption].
  apply wfFields_setField; assumption.
Qed.

Lemma typeNotHeading_other (k : jsstring) (v : value) :
  jsstring_eqb k (js "type") = false -> typeNotHeading (k, v).
Proof.
  intros E H. simpl in H. subst k. discriminate E.
Qed.

Lemma typeNotHeading_value (k : jsstring) (v : value) :
  v <> VStr (js "heading") -> typeNotHeading (k, v).
Proof. intros E H. exact E. Qed.

(** No field of an object literal is a [type] that holds ['heading']. *)
Ltac nht :=
  unfold noHeadingType;
  repeat (apply Forall_cons || apply Forall_nil || apply Forall_app);
  try (apply typeNotHeading_other; reflexivity);
  try (apply typeNotHeading_value; discriminate).

Lemma plainResult_null : plainResult VNull.
Proof. apply wf_null. Qed.

Lemma plainResult_false : plainResult (VBool false).
Proof. apply wf_bool. Qed.

Lemma plainResult_obj (fs : list (jsstring * value)) :
  noHeadingType fs -> wfFields fs -> plainResult (VObj fs).
Proof. intros H1 H2. split; assumption. Qed.

Lemma plainResult_arr (l : list value) : wfList l -> plainResult (arr l).
Proof. intros H. apply wf_arr. assumption. Qed.

Lemma plainResult_wf (v : value) : plainResult v -> wf v.
Proof.
  destruct v; simpl; try tauto. intros [H1 H2]. apply wf_obj_typed; assumption.
Qed.

Lemma plainResult_notString (v : value) : plainResult v -> notString v.
Proof. destruct v; simpl; tauto. Qed.

#[local] Hint Resolve plainResult_null plainResult_false : wf.

(** The fields of an object literal are well-formed. *)
Ltac wf_fields :=
  unfold wfFields; repeat (apply Forall_cons || apply Forall_nil || apply Forall_app);
  simpl; try fold wf; auto with wf.

Lemma hoare_template (allow : option (list jsstring)) :
  hoare limit (template str lowercaseStr toLowerCase next fuel allow) plainResult.
Proof.
  unfold template. hstep. hstep; [|hstep; auto with wf].
  hstep; [hstep; auto with wf|].
  hstep. hstep; [hstep; auto with wf|].
  hstep. eapply hoare_bind.
  { apply hoare_parameterLoop; [constructor | apply wfArray_empty]. }
  intros ps [Hps Hpa]. hstep. hstep; hstep; auto with wf.
  apply plainResult_obj; [nht|]. wf_fields.
Qed.

Lemma hoare_appendTo (content : value) (chunk : jsstring) :
  wf content -> hoare limit (appendTo content chunk) wf.
Proof.
  intros H. unfold appendTo. destruct content; try (hstep; fail).
  hstep. inversion H as [ | | | | | l' ps' Hh Hl Hp | | ]; subst.
  destruct Hh as [Hh _].
  assert (Hw : wfList (append elems0 [VStr chunk])).
  { apply wfList_flush. split; assumption. }
  destruct Hw as [Hw1 Hw2].
  constructor; [split; [assumption | exact I] | assumption | assumption].
Qed.

Lemma hoare_linkTrail (n : nat) (content : value) :
  wf content -> hoare limit (linkTrail str n content) wf.
Proof.
  revert content. induction n as [|n IH]; intros content H; cbn [linkTrail].
  - hstep.
  - hstep. hstep; [|hstep; assumption].
    hstep; [|hstep; assumption].
    hstep. eapply hoare_bind; [apply hoare_appendTo; assumption|].
    intros c Hc. apply IH. assumption.
Qed.

Lemma hoare_link :
  hoare limit (link str lowercaseStr toLowerCase next fuel) plainResult.
Proof.
  unfold link. hstep. hstep; [|hstep; auto with wf].
  eapply hoare_bind.
  { apply hoare_parameterLoop; [constructor | apply wfArray_empty]. }
  intros ps [Hps Hpa]. hstep. hstep; [hstep; auto with wf|].
  hstep; [hstep; auto with wf|].
  hstep; try (hstep; fail).
  eapply hoare_bind.
  { apply hoare_linkTrail.
    destruct (elems (snd ps)); [apply wf_arr, wfList_single, wf_str|].
    apply wfArray_arrayPop. assumption. }
  intros content Hcontent. hstep.
  assert (Hrest : wfArray
            (snd match elems (snd ps) with
                 | [] => (arr [VStr (nth 0 (splitOn 35 (strTrim s)) [])], snd ps)
                 | _ :: _ => arrayPop (snd ps)
                 end)).
  { destruct (elems (snd ps)); [assumption|]. apply wfArray_arrayPop. assumption. }
  apply plainResult_obj.
  - unfold optionalField.
    repeat match goal with |- context [if ?b then _ else _] => destruct b end;
      nht.
  - unfold optionalField.
    repeat match goal with |- context [if ?b then _ else _] => destruct b end;
      wf_fields.
    all: try (destruct (splitOn 35 (strTrim s)) as [|? [|? ?]]; auto with wf).
Qed.

Lemma hoare_externalLink :
  hoare limit (externalLink str next) plainResult.
Proof.
  unfold externalLink. hstep. hstep; [|hstep; auto with wf].
  hstep. hstep. apply plainResult_obj; [nht|]. wf_fields.
  apply wf_arr. pose proof (wfOpt_trim a0 H0) as Ht.
  destruct (trim a0); [exact Ht | apply wfList_nil].
Qed.

Lemma wf_head (l : list value) : wfList l -> wf (head l).
Proof.
  intros [_ H]. destruct l; simpl; [apply wf_undefined | inversion H; assumption].
Qed.

Lemma wfOpt_Some (l : list value) : wfOpt (Some l) -> wfList l.
Proof. auto. Qed.

Lemma trim_Some (a : option (list value)) (l : list value) :
  wfOpt a -> trim a = Some l -> wfList l.
Proof. intros H E. apply wfOpt_trim in H. rewrite E in H. exact H. Qed.

Lemma if_trim_Some (b : bool) (a : option (list value)) (l : list value) :
  wfOpt a -> (if b then trim a else a) = Some l -> wfList l.
Proof.
  intros H E. destruct b; [eapply trim_Some; eassumption | subst; exact H].
Qed.

#[local] Hint Resolve wf_head wfOpt_Some : wf.

Lemma hoare_quotedString (closeQuoteOnNewline : bool) :
  hoare limit (quotedString lowercaseStr next closeQuoteOnNewline) wf.
Proof.
  unfold quotedString. hstep. hstep. hstep; hstep; auto with wf.
  destruct (truthy (head l)); auto with wf.
Qed.

Lemma hoare_attributesLoop (n : nat) (endBefore : list jsstring)
    (closeQuoteOnNewline : bool) (attrs : list (jsstring * value)) :
  wfFields attrs ->
  hoare limit
    (attributesLoop str lowercaseStr next n endBefore closeQuoteOnNewline attrs)
    (fun d => wfFields d).
Proof.
  revert attrs. induction n as [|n IH]; intros attrs Ha; cbn [attributesLoop].
  - hstep.
  - hstep. hstep; [hstep; assumption|].
    hstep. hstep. hstep.
    assert (Ht : wfOpt (trim a1)) by auto with wf.
    hstep; [|hstep; assumption]. hstep; [hstep; assumption|].
    hstep. hstep.
    { apply IH. apply wfFields_dictSet; auto with wf. }
    hstep. hstep. eapply hoare_bind with (R := wf).
    { hstep; [apply hoare_quotedString|]. hstep. hstep.
      match goal with |- wf (match ?x with _ => _ end) => destruct x end;
        auto with wf. }
    intros value Hv. hstep; [hstep; assumption|].
    apply IH. apply wfFields_dictSet; auto with wf.
Qed.

Lemma hoare_attributes (endBefore : list jsstring) (closeQuoteOnNewline : bool) :
  hoare limit (attributes str lowercaseStr next fuel endBefore closeQuoteOnNewline) wf.
Proof.
  unfold attributes. hstep. eapply hoare_bind.
  { apply hoare_attributesLoop. constructor. }
  intros d Hd. hstep. auto with wf.
Qed.

#[local] Hint Resolve hoare_attributes hoare_quotedString : hoare.

Lemma hoare_tag (t : TagOpts) :
  tag_type t <> js "heading" ->
  hoare limit (tag str lowercaseStr toLowerCase next fuel t) plainResult.
Proof.
  intros Ht.
  assert (Hobj : forall fs name,
            noHeadingType fs -> wfFields fs ->
            plainResult (VObj (assignFields ((js "type", VStr (tag_type t)) :: fs)
                                 (nameField (tag_type t) name)))).
  { intros fs name Hn Hfs.
    assert (Hty : typeNotHeading (js "type", VStr (tag_type t))).
    { apply typeNotHeading_value. intros E. injection E as E. contradiction. }
    apply plainResult_obj.
    - apply noHeadingType_assignFields; [constructor; assumption|].
      unfold nameField. destruct (jsstring_eqb (tag_type t) (js "tag")); nht.
    - apply wfFields_assignFields; [constructor; [apply wf_str | assumption]|].
      unfold nameField. destruct (jsstring_eqb (tag_type t) (js "tag")); wf_fields. }
  unfold tag. hsteps; auto with wf; apply Hobj; try nht; wf_fields.
  all: apply wf_arr; eapply if_trim_Some; eassumption.
Qed.

Lemma objList_nil : objList [].
Proof. split; constructor. Qed.

Lemma objList_snoc (l : list value) (x : value) :
  objList l -> wf x -> notString x -> objList (l ++ [x]).
Proof.
  intros [H1 H2] Hx Hn. split; apply Forall_app; split; auto.
Qed.

Lemma objList_app (l l' : list value) : objList l -> objList l' -> objList (l ++ l').
Proof.
  intros [H1 H2] [H3 H4]. split; apply Forall_app; split; auto.
Qed.

Lemma wfList_objList (l : list value) : objList l -> wfList l.
Proof.
  intros [H1 H2]. split; [apply noAdjacentStrings_notString|]; assumption.
Qed.

#[local] Hint Resolve objList_nil wfList_objList : wf.

Lemma wf_item (level : nat) (content : value) : wf content -> wf (item level content).
Proof. intros H. apply wf_obj; [simpl; discriminate|]. wf_fields. Qed.

Lemma hoare_indentLoop (n : nat) (start : bool) (items : list value) :
  objList items ->
  hoare limit (indentLoop str lowercaseStr next n start items) objList.
Proof.
  revert items. induction n as [|n IH]; intros items Hi; cbn [indentLoop].
  - hstep.
  - hstep. hstep; [|hstep; assumption].
    hstep. hstep. apply IH. apply objList_snoc; [assumption | | exact I].
    apply wf_item. auto with wf.
Qed.

Lemma hoare_indent (start : bool) :
  hoare limit (indent str lowercaseStr next fuel start)
    (fun v => exists items, v = VObj [(js "items", arr items)] /\ objList items).
Proof.
  unfold indent. eapply hoare_bind; [apply hoare_indentLoop; apply objList_nil|].
  intros items Hi. hstep. eauto.
Qed.

Lemma hoare_indent_plain (start : bool) :
  hoare limit (indent str lowercaseStr next fuel start) plainResult.
Proof.
  eapply hoare_weaken; [apply hoare_indent|].
  intros v (items & -> & Hi). apply plainResult_obj; [nht|].
  wf_fields.
Qed.

Lemma hoare_listLoop (n : nat) (character : jsstring) (items : list value) :
  objList items ->
  hoare limit (listLoop str lowercaseStr next fuel n character items) objList.
Proof.
  revert items. induction n as [|n IH]; intros items Hi; cbn [listLoop].
  - hstep.
  - hstep. hstep; [|hstep; assumption].
    hstep. hstep. eapply hoare_bind with (R := wfList).
    { hstep; [|hstep; apply wfList_nil].
      eapply hoare_bind; [apply hoare_indent|].
      intros v (its & -> & Hits). hstep. unfold append. simpl.
      apply wfList_single. apply wf_obj; [simpl; discriminate|]. wf_fields. }
    intros content0 Hc0. hstep. hstep; [|hstep].
    apply IH. apply objList_snoc; [assumption | | exact I].
    apply wf_item. apply wf_ofNullable. apply wfOpt_trim. simpl.
    apply wfList_append; [assumption|]. apply H2.
Qed.

Lemma hoare_list_ (character : jsstring) :
  hoare limit (list_ str lowercaseStr next fuel character) plainResult.
Proof.
  unfold list_. eapply hoare_bind; [apply hoare_listLoop; apply objList_nil|].
  intros items Hi. hstep. apply plainResult_obj; [nht|]. wf_fields.
Qed.

Lemma hoare_description :
  hoare limit (description lowercaseStr next) plainResult.
Proof.
  unfold description. hstep.
  assert (Ht : wfOpt (trim a)) by auto with wf.
  hstep; [|hstep; auto with wf].
  hstep. eapply hoare_bind with (R := wf).
  { hstep; [|hstep; auto with wf]. hstep. hstep. auto with wf. }
  intros content Hc. hstep. apply plainResult_obj; [nht|]. wf_fields.
Qed.

Lemma hoare_eatCountLoop_ge (n : nat) (chunk : jsstring) (count : nat) :
  hoare limit (eatCountLoop lowercaseStr n chunk count) (fun r => count <= r).
Proof.
  revert count. induction n as [|n IH]; intros count; cbn [eatCountLoop].
  - hstep.
  - hstep. hstep; [hstep|hstep; lia].
    eapply hoare_weaken; [apply IH|]. intros; simpl in *; lia.
Qed.

Lemma hoareP_eatCount_positive (chunk : jsstring) :
  hoareP limit (fun s => startsWithP lowercaseStr chunk (pos s) = true)
    (eatCount str lowercaseStr chunk) (fun r => 1 <= r).
Proof.
  intros s Hs Hstart. unfold eatCount. cbn [eatCountLoop].
  unfold bind at 1. unfold startsWith at 1. unfold bind at 1, getPos at 1, ret at 1.
  rewrite Hstart.
  pose proof (@hoare_bind _ _ (advance chunk)
                (fun _ => eatCountLoop lowercaseStr (length str) chunk 1)
                (fun _ => True) (fun r => 1 <= r)
                (hoare_advance chunk)
                (fun _ _ => hoare_eatCountLoop_ge (length str) chunk 1)) as H.
  exact (H s Hs I).
Qed.

Lemma hoareP_heading :
  hoareP limit (fun s => startsWithP lowercaseStr (js "=") (pos s) = true)
    (heading str lowercaseStr next) headingResult.
Proof.
  unfold heading. eapply hoareP_bind; [apply hoareP_eatCount_positive|].
  intros level Hl. simpl in Hl. hsteps; [left; reflexivity|].
  right. do 2 eexists. split; [reflexivity|]. split; [lia | auto with wf].
Qed.

Lemma hoare_preformattedLoop (n : nat) (content : list value) :
  wfList content ->
  hoare limit (preformattedLoop str lowercaseStr next n content) wfList.
Proof.
  revert content. induction n as [|n IH]; intros content Hc; cbn [preformattedLoop].
  - hstep.
  - hstep. hstep; [|hstep; assumption].
    hstep. hstep. eapply hoare_bind with (R := wfOpt).
    { hstep; [hstep; assumption | auto]. }
    intros line Hline. hstep; [|hstep].
    apply IH. apply wfList_append; [assumption|].
    apply Forall_app. split; [apply Hline|].
    constructor; [apply wf_str | constructor].
Qed.

Lemma hoare_preformatted :
  hoare limit (preformatted str lowercaseStr next fuel) plainResult.
Proof.
  unfold preformatted. eapply hoare_bind; [apply hoare_preformattedLoop, wfList_nil|].
  intros content Hc. hstep. apply plainResult_arr. assumption.
Qed.

Lemma hoare_htmlEntity :
  hoare limit (htmlEntity str lowercaseStr next)
    (fun v => v = VNull \/ exists s, v = VStr s).
Proof. unfold htmlEntity. hsteps; eauto. Qed.

Lemma stringTypes_comment (t : jsstring) :
  In t stringTypes -> includes t [js "comment"] = false.
Proof.
  unfold stringTypes. simpl.
  intros [E|[E|[E|[E|[E|[E|[E|[E|[]]]]]]]]]; subst; reflexivity.
Qed.

Lemma nodeResult_comment (v : value) :
  nodeResult (Some [js "comment"]) v -> wf v /\ notString v.
Proof.
  intros [Hwf Hs]. split; [assumption|].
  destruct v; try exact I.
  destruct (Hs _ eq_refl) as (t & Hin & Hinc).
  rewrite (stringTypes_comment Hin) in Hinc. discriminate.
Qed.

Lemma hoare_eatCommentsLoop (n : nat) (comments : list value) :
  objList comments ->
  hoare limit (eatCommentsLoop str lowercaseStr node n comments) objList.
Proof.
  revert comments. induction n as [|n IH]; intros comments Hc; cbn [eatCommentsLoop].
  - hstep.
  - hstep. hstep; [|hstep; assumption].
    hstep. hstep; [hstep; assumption|].
    hstep. apply IH.
    match goal with H : nodeResult _ _ |- _ => apply nodeResult_comment in H; destruct H end.
    apply objList_snoc; assumption.
Qed.

Lemma hoare_eatComments (comments : list value) :
  objList comments ->
  hoare limit (eatComments str lowercaseStr node fuel comments) objList.
Proof.
  intros H. unfold eatComments. hstep. apply hoare_eatCommentsLoop. assumption.
Qed.

Lemma hoare_eatNewlines (n : nat) :
  hoare limit (eatNewlines lowercaseStr n) (fun _ => True).
Proof.
  induction n as [|n IH]; cbn [eatNewlines].
  - hstep.
  - hstep. hstep; [hstep; apply IH | hstep; exact I].
Qed.

#[local] Hint Resolve hoare_eatNewlines : hoare.

Lemma hoare_tableCells (n : nat) (content : list value) :
  objList content ->
  hoare limit (tableCells str lowercaseStr next fuel n content) objListOpt.
Proof.
  revert content. induction n as [|n IH]; intros content Hc; cbn [tableCells].
  - hstep.
  - hstep. hstep. hstep; [hstep; assumption|].
    hstep. eapply hoare_bind with (R := fun _ => True).
    { hstep; [hstep; exact I | auto with hoare]. }
    intros _ _. hstep. hstep. hstep. hstep.
    eapply hoare_bind with (R := fun _ => True).
    { hstep; [hstep; exact I | auto with hoare]. }
    intros single _.
    eapply hoare_bind with (R := wf).
    { hstep; [hstep; hstep; apply wf_dict; constructor | hstep; assumption]. }
    intros attrs Hattrs. hstep. hstep.
    hstep; [|hstep; exact I].
    assert (Hnew : objList
              (content ++ [VObj [(js "type", VStr (js "table-cell"));
                                 (js "header", VBool a1); (js "attributes", attrs);
                                 (js "content", arr l)]])).
    { apply objList_snoc; [assumption | | exact I].
      apply wf_obj; [simpl; discriminate|]. wf_fields.
      apply wf_arr. eapply trim_Some; eassumption. }
    hstep. eapply hoare_bind with (R := fun _ => True).
    { hstep; [auto with hoare|]. hstep. hstep; [auto with hoare | hstep; exact I]. }
    intros _ _. hstep. hstep; [apply IH; exact Hnew | hstep; exact Hnew].
Qed.

Lemma rowResult_cells (attrs : value) (comments content : list value) :
  wf attrs -> objList comments -> objList content ->
  rowResult
    (VObj ([(js "type", VStr (js "table-row")); (js "attributes", attrs);
            (js "content", arr content)]
           ++ optionalField (negb (Nat.eqb (length comments) 0))
                (js "comments") (arr comments))).
Proof.
  intros Ha Hc Hn. right. eexists. split; [reflexivity|].
  unfold optionalField. destruct (negb (Nat.eqb (length comments) 0)); simpl.
  - split; [wf_fields|]. split; [nht | assumption].
  - split; [wf_fields|]. split; [nht | exact I].
Qed.

Lemma hoare_tableRow (started : bool) :
  hoare limit (tableRow str lowercaseStr next node fuel started) rowResult.
Proof.
  assert (Hcells : forall attrs comments,
            wf attrs -> objList comments ->
            hoare limit
              (content <- tableCells str lowercaseStr next fuel fuel [];;
               match content with
               | None => ret VNull
               | Some content =>
                   ret (VObj ([(js "type", VStr (js "table-row"));
                               (js "attributes", attrs);
                               (js "content", arr content)]
                              ++ optionalField (negb (Nat.eqb (length comments) 0))
                                   (js "comments") (arr comments)))
               end) rowResult).
  { intros attrs comments Ha Hc.
    eapply hoare_bind; [apply hoare_tableCells, objList_nil|].
    intros content Hcontent. hstep; hstep; [|left; reflexivity].
    apply rowResult_cells; assumption. }
  unfold tableRow. hstep.
  - apply Hcells; [apply wf_dict; constructor | apply objList_nil].
  - hstep. hstep. hstep. hstep. hstep; [hstep; left; reflexivity|].
    eapply hoare_bind; [apply hoare_eatComments, objList_nil|].
    intros comments Hc. apply Hcells; assumption.
Qed.

Lemma getField_setField_other (k k' : jsstring) (v : value)
    (fs : list (jsstring * value)) :
  jsstring_eqb k k' = false ->
  getField k (setField k' v fs) = getField k fs.
Proof.
  intros Hk. induction fs as [|[k0 v0] rest IH]; simpl.
  - rewrite Hk. reflexivity.
  - destruct (jsstring_eqb k' k0) eqn:E; simpl.
    + apply jsstring_eqb_eq in E. subst k0. rewrite Hk. reflexivity.
    + destruct (jsstring_eqb k k0); [reflexivity | exact IH].
Qed.

Lemma hoare_tableRows (n : nat) (attrs caption : value) (content : list value) :
  wf attrs -> wf caption -> objList content ->
  hoare limit (tableRows str lowercaseStr next node fuel n attrs caption content)
    plainResult.
Proof.
  intros Ha Hcap. revert content.
  induction n as [|n IH]; intros content Hc; cbn [tableRows].
  - hstep.
  - eapply hoare_bind; [apply hoare_eatComments, objList_nil|].
    intros before Hb. hstep. eapply hoare_bind; [apply hoare_tableRow|].
    intros row Hrow.
    destruct Hrow as [-> | (fs & -> & Hfs & Hty & Hcm)]; [hstep; auto with wf|].
    eapply hoare_bind; [apply hoare_eatComments, objList_nil|].
    intros after Hafter.
    assert (Hcomments : objList
              (before ++ match getField (js "comments") fs with
                         | VArr l _ => l
                         | _ => []
                         end ++ after)).
    { apply objList_app; [assumption|]. apply objList_app; [|assumption].
      destruct (getField (js "comments") fs); auto with wf. }
    set (comments := before ++ _ ++ after) in *.
    assert (Hrow' : wf match comments with
                       | [] => VObj fs
                       | _ :: _ => VObj (setField (js "comments") (arr comments) fs)
                       end).
    { destruct comments eqn:E.
      - apply wf_obj_typed; assumption.
      - apply wf_obj_typed.
        + apply noHeadingType_setField; [assumption|].
          apply typeNotHeading_other. reflexivity.
        + apply wfFields_setField; auto with wf. }
    assert (Hnew : objList
              (content ++ [match comments with
                           | [] => VObj fs
                           | _ :: _ => VObj (setField (js "comments") (arr comments) fs)
                           end])).
    { apply objList_snoc; [assumption | assumption|]. destruct comments; exact I. }
    hstep. hstep; [apply IH; exact Hnew|].
    hstep. hstep; hstep; auto with wf.
    apply plainResult_obj; [nht|]. wf_fields.
Qed.

Lemma hoare_table :
  hoare limit (table str lowercaseStr next node fuel) plainResult.
Proof.
  unfold table. hstep. hstep. hstep. hstep.
  eapply hoare_bind with (R := wf).
  { hstep; [|hstep; auto with wf]. hstep. hstep. auto with wf. }
  intros caption Hcap. apply hoare_tableRows; auto with wf.
Qed.

Lemma hoare_galleryLoop (n : nat) (attrs : value) (items : list value) :
  wf attrs -> objList items ->
  hoare limit (galleryLoop str lowercaseStr next n attrs items) plainResult.
Proof.
  intros Ha. revert items. induction n as [|n IH]; intros items Hi; cbn [galleryLoop].
  - hstep.
  - assert (Hfin : hoare limit
              (closed <- eat lowercaseStr (js "</gallery>") false;;
               if negb closed then ret VNull
               else ret (VObj [(js "attributes", attrs); (js "items", arr items)]))
              plainResult).
    { hstep. hstep; hstep; auto with wf.
      apply plainResult_obj; [nht|]. wf_fields. }
    hstep. hstep; [exact Hfin|].
    hstep. hstep. hstep; [exact Hfin|].
    hstep. hstep; [|hstep; auto with wf].
    hstep.
    + hstep. hstep; [hstep; auto with wf|]. hstep. apply IH. assumption.
    + hstep. eapply hoare_bind with (R := wf).
      { hstep; [|hstep; auto with wf]. hstep. hstep. auto with wf. }
      intros content Hcontent. apply IH.
      apply objList_snoc; [assumption | | exact I].
      apply wf_obj; [simpl; discriminate|]. wf_fields.
      apply wf_head. eapply trim_Some; eassumption.
Qed.

Lemma hoare_gallery :
  hoare limit (gallery str lowercaseStr next fuel) plainResult.
Proof.
  unfold gallery. hstep. hstep. hstep; [hstep; auto with wf|].
  hstep. apply hoare_galleryLoop; auto with wf.
Qed.

(** *** [node]: the loop over a table of descriptors *)

Lemma nodeResult_null (allow : option (list jsstring)) : nodeResult allow VNull.
Proof. split; [apply wf_null | discriminate]. Qed.

Lemma nodeResult_good (allow : option (list jsstring)) (disallow : list jsstring)
    (T : jsstring) (p : value) :
  typeFiltered (Some T) allow disallow = false ->
  goodNode T p -> nodeResult allow p.
Proof.
  intros Hf [Hwf Hs]. split; [assumption|].
  intros s E. specialize (Hs s E). destruct allow as [a|]; [|exact I].
  exists T. split; [assumption|].
  simpl in Hf. apply orb_false_iff in Hf. destruct Hf as [Hf _].
  apply negb_false_iff in Hf. exact Hf.
Qed.

Lemma hoare_setPos_then {A} (p : Pos) (m : M A) (Q : A -> Prop) :
  hoare limit m Q -> hoare limit (setPos p;; m) Q.
Proof. intros H. hstep. exact H. Qed.

(** The part of [nodeEntry] after the post-condition, for a descriptor
    without a group. *)
Lemma hoareP_leafTail (allow : option (list jsstring)) (disallow : list jsstring)
    (nt : NodeType) (originalPos : Pos) (continue_ : M value) (T : jsstring) :
  nt_type nt = Some T ->
  typeFiltered (nt_type nt) allow disallow = false ->
  match nt_replaceWith nt with
  | Some r => In T stringTypes /\ hoare limit (runOf next nt) (fun _ => True)
  | None =>
      exists R,
        hoareP limit
          (fun s => nt_keepStart nt = true ->
                    startsWithP lowercaseStr (nt_start nt) (pos s) = true)
          (runOf next nt) R
        /\ forall v, R v -> isNullish v = false ->
             hoare limit (postOf nt (wrapContent (Some T) v))
               (fun p => isNullish p = false -> goodNode T p)
  end ->
  hoare limit continue_ (nodeResult allow) ->
  hoareP limit
    (fun s => nt_keepStart nt = true ->
              startsWithP lowercaseStr (nt_start nt) (pos s) = true)
    (content <- runOf next nt;;
     match nt_replaceWith nt with
     | Some r => ret (VStr r)
     | None =>
         if isNullish content then
           countBacktrack limit;; setPos originalPos;; continue_
         else
           processed <- postOf nt (wrapContent (nt_type nt) content);;
           if isNullish processed
           then throw (PostProcessError (nt_type nt))
           else ret processed
     end)
    (nodeResult allow).
Proof.
  intros HT Hf Hspec Hcont. rewrite HT in *.
  destruct (nt_replaceWith nt) as [r|].
  - destruct Hspec as [Hin Hrun]. apply hoareP_drop.
    eapply hoare_bind; [exact Hrun|]. intros v _. hstep.
    eapply nodeResult_good; [exact Hf|]. split; [apply wf_str|].
    intros; assumption.
  - destruct Hspec as (R & Hrun & Hpost).
    eapply hoareP_bind; [exact Hrun|]. intros v Hv.
    hstep.
    + hstep. hstep. exact Hcont.
    + eapply hoare_bind; [apply Hpost; assumption|].
      intros p Hp. cbv beta in Hp. hstep.
      * apply hoare_throw. discriminate.
      * hstep. eapply nodeResult_good; [exact Hf | auto].
Qed.

Lemma hoare_leaf (allow : option (list jsstring)) (disallow : list jsstring)
    (nt : NodeType) (originalPos : Pos) (continue_ : M value) :
  leafOk lowercaseStr limit next nt ->
  hoare limit continue_ (nodeResult allow) ->
  hoare limit (nodeEntry lowercaseStr limit next allow disallow nt originalPos continue_)
    (nodeResult allow).
Proof.
  intros (Hg & T & HT & Hspec) Hcont.
  destruct nt as [ty start keep pre post grp func repl pp opts].
  simpl in Hg, HT. subst grp ty.
  intros s Hs _. cbn [nodeEntry nt_start nt_type nt_preCondition nt_keepStart
                        nt_postCondition nt_func nt_replaceWith nt_postProcess nt_opts].
  unfold bind at 1, getPos at 1.
  destruct (negb (startsWithP lowercaseStr start (pos s))
            || typeFiltered (Some T) allow disallow) eqn:E1.
  { apply Hcont; auto. }
  apply orb_false_iff in E1. destruct E1 as [Estart Efilt].
  apply negb_false_iff in Estart.
  match goal with |- context [if ?c then _ else _] => destruct c eqn:E2 end.
  { apply (hoare_setPos_then originalPos Hcont); auto. }
  pose proof (@hoareP_leafTail allow disallow
                (mkNodeType (Some T) start keep pre post None func repl pp opts)
                originalPos continue_ T eq_refl Efilt Hspec Hcont) as Htail.
  cbn [nt_start nt_type nt_preCondition nt_keepStart nt_postCondition nt_func
         nt_replaceWith nt_postProcess nt_opts] in Htail.
  destruct keep.
  - unfold bind at 1, ret at 1. unfold bind at 1, getPos at 1.
    match goal with |- context [if ?c then _ else _] => destruct c eqn:E3 end.
    { apply (hoare_setPos_then originalPos Hcont); auto. }
    apply Htail; auto.
  - revert s Hs Estart E2.
    assert (Hrest : hoare limit
              (eat lowercaseStr start true;;
               p1 <- getPos;;
               if match post with
                  | Some post0 => negb (post0 p1)
                  | None => false
                  end
               then setPos originalPos;; continue_
               else
                 content <- runOf next (mkNodeType (Some T) start false pre post None
                                     func repl pp opts);;
                 match repl with
                 | Some r => ret (VStr r)
                 | None =>
                     if isNullish content then
                       countBacktrack limit;; setPos originalPos;; continue_
                     else
                       processed <- postOf (mkNodeType (Some T) start false pre post
                                              None func repl pp opts)
                                      (wrapContent (Some T) content);;
                       if isNullish processed
                       then throw (PostProcessError (Some T))
                       else ret processed
                 end) (nodeResult allow)).
    { hstep. hstep. hstep; [apply hoare_setPos_then; exact Hcont|].
      intros s Hs _. apply Htail; auto. discriminate. }
    intros s Hs _ _. apply Hrest; auto.
Qed.

Lemma hoare_leaves (allow : option (list jsstring)) (disallow : list jsstring)
    (originalPos : Pos) (g : list NodeType) :
  Forall (leafOk lowercaseStr limit next) g ->
  hoare limit
    (fold_right (fun nt k => nodeEntry lowercaseStr limit next allow disallow nt originalPos k)
                (ret VNull) g)
    (nodeResult allow).
Proof.
  induction g as [|nt rest IH]; intros H; simpl.
  - hstep. apply nodeResult_null.
  - inversion H; subst. apply hoare_leaf; auto.
Qed.

Lemma hoare_group (allow : option (list jsstring)) (disallow : list jsstring)
    (nt : NodeType) (originalPos : Pos) (continue_ : M value) :
  groupOk lowercaseStr limit next nt ->
  hoare limit continue_ (nodeResult allow) ->
  hoare limit (nodeEntry lowercaseStr limit next allow disallow nt originalPos continue_)
    (nodeResult allow).
Proof.
  intros (Hty & grp & Hg & Hleaves) Hcont.
  destruct nt as [ty start keep pre post grp' func repl pp opts].
  simpl in Hg, Hty. subst grp' ty.
  cbn [nodeEntry nt_start nt_type nt_preCondition nt_keepStart
         nt_postCondition nt_func nt_replaceWith nt_postProcess nt_opts].
  hstep. hstep; [exact Hcont|].
  hstep; [apply hoare_setPos_then; exact Hcont|].
  eapply hoare_bind with (R := fun _ => True).
  { destruct keep; [apply hoare_ret; exact I | auto with hoare]. }
  intros _ _. hstep. hstep; [apply hoare_setPos_then; exact Hcont|].
  eapply hoare_bind; [apply hoare_leaves; exact Hleaves|].
  intros result Hres. hstep; [apply hoare_setPos_then; exact Hcont|].
  hstep. exact Hres.
Qed.

Lemma hoare_nodeLoop (allow : option (list jsstring)) (disallow : list jsstring)
    (originalPos : Pos) (g : list NodeType) :
  Forall (entryOk lowercaseStr limit next) g ->
  hoare limit (nodeLoop lowercaseStr limit next allow disallow originalPos g)
    (nodeResult allow).
Proof.
  unfold nodeLoop. induction g as [|nt rest IH]; intros H; simpl.
  - hstep. apply nodeResult_null.
  - inversion H as [|? ? [Hl|Hg] Hrest]; subst.
    + apply hoare_leaf; auto.
    + apply hoare_group; auto.
Qed.

Lemma hoare_nodeImpl (allow : option (list jsstring)) (disallow : list jsstring)
    (g : list NodeType) :
  Forall (entryOk lowercaseStr limit next) g ->
  hoare limit (nodeImpl lowercaseStr limit next allow disallow g) (nodeResult allow).
Proof.
  intros H. unfold nodeImpl. hstep. apply hoare_nodeLoop. exact H.
Qed.

(** *** The descriptors of the grammar *)

Lemma wrappedOk_wrapContent (T : jsstring) (v : value) :
  T <> js "heading" -> plainResult v -> wrappedOk (wrapContent (Some T) v).
Proof.
  intros HT Hv.
  assert (Hty : typeNotHeading (js "type", VStr T)).
  { apply typeNotHeading_value. intros E. injection E as E. contradiction. }
  destruct v; simpl in *; try exact I; try contradiction.
  - split; [nht; assumption | wf_fields].
  - destruct Hv as [H1 H2]. split.
    + apply noHeadingType_assignFields; [constructor; [assumption | constructor] | assumption].
    + apply wfFields_assignFields; [constructor; [apply wf_str | constructor] | assumption].
Qed.

Lemma nodeOk_wrappedOk (w : value) : wrappedOk w -> nodeOk w.
Proof.
  destruct w; simpl; try contradiction; intros H; split; auto with wf; try exact I.
  destruct H. apply wf_obj_typed; assumption.
Qed.

(** A descriptor whose production returns a plain result and whose
    post-processor keeps wrapped results well-formed. *)
Lemma leafOk_plain (nt : NodeType) (T : jsstring) :
  nt_group nt = None -> nt_type nt = Some T -> nt_replaceWith nt = None ->
  T <> js "heading" ->
  hoare limit (runOf next nt) plainResult ->
  (forall w, wrappedOk w -> hoare limit (postOf nt w) nodeOk) ->
  leafOk lowercaseStr limit next nt.
Proof.
  intros Hg HT Hr Hne Hrun Hpost. split; [assumption|].
  exists T. split; [assumption|]. rewrite Hr.
  exists plainResult. split; [apply hoareP_drop; assumption|].
  intros v Hv _. eapply hoare_weaken.
  - apply Hpost. apply wrappedOk_wrapContent; assumption.
  - intros p [Hp Hn] _. split; [assumption|]. intros s ->. contradiction.
Qed.

Lemma postOf_none (nt : NodeType) :
  nt_postProcess nt = None -> forall w, wrappedOk w -> hoare limit (postOf nt w) nodeOk.
Proof.
  intros H w Hw. unfold postOf. rewrite H. hstep. apply nodeOk_wrappedOk. assumption.
Qed.

Lemma hoare_declarative (o : NextOpts) :
  hoare limit (r <- next o;; ret (ofNullable r)) plainResult.
Proof.
  hstep. hstep.
  match goal with |- plainResult (ofNullable ?a) => destruct a end; simpl;
    auto with wf.
Qed.

Lemma hoare_retypeTemplate (w : value) :
  wrappedOk w -> hoare limit (retypeTemplate w) nodeOk.
Proof.
  intros H. unfold retypeTemplate.
  destruct w; simpl in H; try contradiction; hstep;
    try solve [split; [apply wf_obj_typed; [nht | wf_fields] | exact I]].
  destruct H as [H1 H2]. split; [|exact I]. apply wf_obj_typed.
  - apply noHeadingType_setField; [assumption|].
    apply typeNotHeading_value. discriminate.
  - apply wfFields_setField; auto with wf.
Qed.

Lemma hoare_throw_bind {A B} (k : A -> M B) (Q : B -> Prop) :
  hoare limit (x <- throw TypeError;; k x) Q.
Proof.
  intros s Hs _; simpl; discriminate.
Qed.

Lemma hoare_stripAll (l : list value) :
  wfList l -> hoare limit (stripAll l) wfList.
Proof.
  intros H. destruct l as [|x l']; [cbn [stripAll]; hstep; assumption|].
  destruct x; cbn [stripAll]; try (hstep; fail).
  destruct l' as [|y l'']; cbn [stripAll].
  - hstep. subst. hstep. apply wfList_single, wf_str.
  - destruct y; try (apply hoare_throw_bind).
    destruct H as [H _]. simpl in H. contradiction.
Qed.

Lemma hoare_stripComment (w : value) :
  wrappedOk w -> hoare limit (stripComment w) nodeOk.
Proof.
  intros H. unfold stripComment.
  destruct w; simpl in H; try contradiction; try (hstep; fail).
  destruct H as [H1 H2].
  pose proof (wfFields_getField (js "content") H2) as Hc.
  destruct (getField (js "content") fields); try (hstep; fail).
  eapply hoare_bind; [apply hoare_stripAll; eapply wf_arr_inv; exact Hc|].
  intros l' Hl'. hstep. split; [|exact I]. apply wf_obj_typed.
  - apply noHeadingType_setField; [assumption|].
    apply typeNotHeading_other. reflexivity.
  - apply wfFields_setField; auto with wf.
Qed.

Lemma hoare_dropContent (w : value) :
  wrappedOk w -> hoare limit (dropContent w) nodeOk.
Proof.
  intros H. unfold dropContent.
  destruct w; simpl in H; try contradiction; hstep;
    try solve [split; [apply wf_obj_typed; constructor | exact I]].
  destruct H as [H1 H2]. split; [|exact I]. apply wf_obj_typed.
  - apply noHeadingType_removeField; assumption.
  - apply wfFields_removeField; assumption.
Qed.

Lemma hoare_nowikiContent (w : value) :
  wrappedOk w -> hoare limit (nowikiContent w) nodeOk.
Proof.
  intros H. unfold nowikiContent.
  destruct w; simpl in H; try contradiction; hstep;
    try solve [split; [apply wf_arr, wfList_nil | exact I]].
  destruct (isNullish (getField (js "content") fields)).
  - split; [apply wf_arr, wfList_nil | exact I].
  - apply (@nodeOk_wrappedOk (VObj fields)). exact H.
Qed.

Lemma postProcess_ok (pp : option (value -> M value)) :
  pp = None \/ pp = Some retypeTemplate \/ pp = Some stripComment
  \/ pp = Some dropContent \/ pp = Some nowikiContent ->
  forall w, wrappedOk w ->
    hoare limit match pp with Some f => f w | None => ret w end nodeOk.
Proof.
  intros [->|[->|[->|[->| ->]]]] w Hw.
  - hstep. apply nodeOk_wrappedOk. assumption.
  - apply hoare_retypeTemplate. assumption.
  - apply hoare_stripComment. assumption.
  - apply hoare_dropContent. assumption.
  - apply hoare_nowikiContent. assumption.
Qed.

Lemma leafOk_production (type start : string) (keepStart : bool)
    (pre post : option (Pos -> bool)) (func : M value)
    (pp : option (value -> M value)) :
  js type <> js "heading" ->
  hoare limit func plainResult ->
  pp = None \/ pp = Some retypeTemplate \/ pp = Some stripComment
  \/ pp = Some dropContent \/ pp = Some nowikiContent ->
  leafOk lowercaseStr limit next (production type start keepStart pre post func pp).
Proof.
  intros Hne Hf Hpp.
  apply leafOk_plain with (T := js type); try reflexivity; try assumption.
  intros w Hw. apply postProcess_ok; assumption.
Qed.

Lemma leafOk_declarative (type start : string)
    (pre post : option (Pos -> bool)) (opts : NextOpts)
    (pp : option (value -> M value)) :
  js type <> js "heading" ->
  pp = None \/ pp = Some retypeTemplate \/ pp = Some stripComment
  \/ pp = Some dropContent \/ pp = Some nowikiContent ->
  leafOk lowercaseStr limit next (declarative type start pre post opts pp).
Proof.
  intros Hne Hpp.
  apply leafOk_plain with (T := js type); try reflexivity; try assumption.
  - apply hoare_declarative.
  - intros w Hw. apply postProcess_ok; assumption.
Qed.

Lemma leafOk_replacement (type start : string) (r : jsstring) :
  In (js type) stringTypes -> leafOk lowercaseStr limit next (replacement type start r).
Proof.
  intros Hin. split; [reflexivity|]. exists (js type). split; [reflexivity|].
  simpl. split; [assumption|].
  eapply hoare_true. apply hoare_declarative.
Qed.

Lemma leafOk_heading :
  leafOk lowercaseStr limit next (production "heading" "=" true (Some (isStartOfLine str)) None
            (heading str lowercaseStr next) None).
Proof.
  split; [reflexivity|]. exists (js "heading"). split; [reflexivity|].
  simpl. exists headingResult. split.
  - intros s Hs Hp. apply hoareP_heading; auto.
  - intros v [->|(n & c & -> & Hn & Hc)] Hnn; [discriminate|].
    unfold postOf. simpl. hstep. intros _. split; [|discriminate].
    constructor.
    + split; [exact I|]. intros _. exists n. split; [reflexivity | assumption].
    + repeat (apply Forall_cons || apply Forall_nil); simpl;
        first [apply wf_str | apply wf_num | assumption].
Qed.

Lemma leafOk_htmlEntity :
  leafOk lowercaseStr limit next (production "htmlEntity" "#" false None None
            (htmlEntity str lowercaseStr next) None).
Proof.
  split; [reflexivity|]. exists (js "htmlEntity"). split; [reflexivity|].
  simpl. exists (fun v => v = VNull \/ exists s, v = VStr s). split.
  - apply hoareP_drop. apply hoare_htmlEntity.
  - intros v [->|(s & ->)] Hnn; [discriminate|].
    unfold postOf. simpl. hstep. intros _. split; [apply wf_str|].
    intros _ _. unfold stringTypes. simpl. tauto.
Qed.

Lemma grammar_ok :
  Forall (entryOk lowercaseStr limit next) (grammar str lowercaseStr toLowerCase next node fuel).
Proof.
  unfold grammar, rawTag, tagDefaults.
  repeat lazymatch goal with
  | |- Forall _ (_ :: _) => apply Forall_cons
  | |- Forall _ [] => apply Forall_nil
  | |- entryOk _ _ _ (group _ _ _) =>
      right; split; [reflexivity|]; eexists; split; [reflexivity|]
  | |- entryOk _ _ _ (production "heading" _ _ _ _ _ _) => left; apply leafOk_heading
  | |- entryOk _ _ _ _ => left
  | |- leafOk _ _ _ (production "htmlEntity" _ _ _ _ _ _) => apply leafOk_htmlEntity
  | |- leafOk _ _ _ (replacement _ _ _) =>
      apply leafOk_replacement; unfold stringTypes; simpl; tauto
  | |- leafOk _ _ _ (declarative _ _ _ _ _ _) =>
      apply leafOk_declarative; [discriminate | tauto]
  | |- leafOk _ _ _ (production _ _ _ _ _ _ _) =>
      apply leafOk_production; [discriminate | | tauto]
  end.
  - apply hoare_link.
  - apply hoare_externalLink.
  - apply hoare_template.
  - apply hoare_template.
  - apply hoare_list_.
  - apply hoare_list_.
  - apply hoare_indent_plain.
  - apply hoare_description.
  - apply hoare_preformatted.
  - apply hoare_tag. discriminate.
  - apply hoare_tag. discriminate.
  - apply hoare_tag. discriminate.
  - apply hoare_tag. discriminate.
  - apply hoare_tag. discriminate.
  - apply hoare_tag. discriminate.
  - apply hoare_tag. discriminate.
  - apply hoare_tag. discriminate.
  - apply hoare_gallery.
  - apply hoare_tag. discriminate.
  - apply hoare_table.
Qed.

End ProductionInvariants.

(** *** The invariant of [next] and [node], by induction on the fuel *)

Lemma hoare_next_node (fuel : nat) :
  (forall o, hoare limit (next str lowercaseStr limit toLowerCase fuel o) wfOpt)
  /\ (forall allow disallow,
         hoare limit (node str lowercaseStr limit toLowerCase fuel allow disallow)
           (nodeResult allow)).
Proof.
  induction fuel as [|f [IHnext IHnode]]; split; intros; simpl.
  - apply hoare_outOfFuel.
  - apply hoare_outOfFuel.
  - apply hoare_nextImpl. exact IHnode.
  - apply hoare_nodeImpl. apply grammar_ok; assumption.
Qed.

End Invariants.

(* ================================================================== *)
(** ** The invariant on a whole parse *)

Lemma Everywhere_impl (L L' : value -> Prop) :
  (forall v, L v -> L' v) -> forall v, Everywhere L v -> Everywhere L' v.
Proof.
  intros H. fix IH 2. intros v E.
  destruct E as [h|h|b h|n h|s h|l ps h Hl Hp|fs h Hf|d h Hd].
  - constructor; auto.
  - constructor; auto.
  - constructor; auto.
  - constructor; auto.
  - constructor; auto.
  - constructor; [auto | |].
    + clear h. revert l Hl. fix IHl 2. intros l Hl. destruct Hl; constructor; [apply IH | apply IHl]; assumption.
    + clear h. revert ps Hp. fix IHp 2. intros ps Hp. destruct Hp; constructor; [apply IH | apply IHp]; assumption.
  - constructor; [auto|].
    clear h. revert fs Hf. fix IHf 2. intros fs Hf. destruct Hf; constructor; [apply IH | apply IHf]; assumption.
  - constructor; [auto|].
    clear h. revert d Hd. fix IHd 2. intros d Hd. destruct Hd; constructor; [apply IH | apply IHd]; assumption.
Qed.

Lemma wf_coalesced (v : value) : wf v -> coalesced v.
Proof. apply Everywhere_impl. intros x [H _]. exact H. Qed.

Lemma wf_headingLevels (v : value) : wf v -> headingLevels (fun n => (1 <= n)%Z) v.
Proof. apply Everywhere_impl. intros x [_ H]. exact H. Qed.

(** The result of the [try] body of [parse]: the list is well-formed, the
    counter is within the bound, and the limit error goes with a counter
    above the limit. *)
Lemma run_invariant (toLowerCase : jsstring -> jsstring) (fuel : nat) (limit : Z)
    (str : jsstring) :
  match run toLowerCase fuel limit str with
  | Ok r s =>
      wfOpt r /\ (0 <= backtrackingCount s <= Z.max limit 0)%Z
  | Throw e s =>
      e = BacktrackingLimitExceededError ->
      (limit < backtrackingCount s <= Z.max limit 0 + 1)%Z
  | OutOfFuel => True
  end.
Proof.
  unfold run.
  pose proof (proj1 (hoare_next_node str (map (fun c => toLowerCase [c]) str)
                       limit toLowerCase fuel) (withEndAtEos true noOpts)
                initialState) as H.
  simpl in H. specialize (H (Z.le_max_r _ _) I).
  destruct (next _ _ _ _ _ _ _); simpl in *; auto.
Qed.

Lemma parse_wf (toLowerCase : jsstring -> jsstring) (fuel : nat) (str : jsstring)
    (o : Options) (ast : value) :
  parse toLowerCase fuel str o = Returned ast -> wf ast.
Proof.
  unfold parse, Parser_parse. cbv zeta. cbn [options newParser].
  pose proof (run_invariant toLowerCase fuel (backtrackingLimit o) str) as H.
  destruct (run toLowerCase fuel (backtrackingLimit o) str) as [r s|e s|]; simpl.
  - intros E. injection E as <-. apply wf_ofNullable. apply H.
  - destruct (throwError o); [discriminate|].
    destruct (returnError o); [discriminate|].
    intros E. injection E as <-. apply wf_null.
  - discriminate.
Qed.

(* ================================================================== *)
(** ** The main theorems *)

(** C6. For every input, the value that [parse] returns is coalesced: no
    list anywhere in it (the top-level list, every content or items list,
    every parameter value) has two adjacent strings. *)
Theorem parse_coalesced (toLowerCase : jsstring -> jsstring) (fuel : nat)
    (str : jsstring) (o : Options) (ast : value) :
  parse toLowerCase fuel str o = Returned ast -> coalesced ast.
Proof.
  intros H. apply wf_coalesced. eapply parse_wf. exact H.
Qed.

Lemma parse_coalesced_witness :
  coalesced
    (arr [VStr (js "a>b ");
          VObj [(js "type", VStr (js "italics")); (js "content", arr [VStr (js "c<d")])];
          VStr (js "e")]).
Proof.
  apply (@parse_coalesced lowerTable 40 (js "a&gt;b ''c&lt;d''e") kDefaultOptions).
  vm_compute. reflexivity.
Defined.

(** The loop of [eatCount] on a one-unit chunk, with fuel for the rest of
    the input: it counts the run of that unit at the cursor. *)
Lemma eatCountLoop_run (lowercaseStr : list jsstring) (c : N) (n : nat) :
  forall (count : nat) (s : State),
    length lowercaseStr - offset (pos s) < n ->
    exists k s',
      eatCountLoop lowercaseStr n [c] count s = Ok (count + k) s'
      /\ offset (pos s') = offset (pos s) + k
      /\ (forall i, i < k -> startsWithAt lowercaseStr [c] (offset (pos s) + i) = true)
      /\ startsWithAt lowercaseStr [c] (offset (pos s) + k) = false.
Proof.
  induction n as [|n IH]; intros count s Hn.
  - exfalso. lia.
  - cbn [eatCountLoop]. unfold bind at 1. unfold startsWith, bind, getPos, ret.
    destruct (startsWithP lowercaseStr [c] (pos s)) eqn:E.
    + assert (Hlt : offset (pos s) < length lowercaseStr).
      { unfold startsWithP in E. simpl in E.
        destruct (nth_error lowercaseStr (offset (pos s))) eqn:En; [|discriminate].
        apply nth_error_Some. congruence. }
      unfold advance at 1.
      set (s1 := mkState _ _ _ _).
      destruct (IH (S count) s1) as (k & s' & Hk & Hoff & Hrun & Hstop).
      { subst s1. simpl. lia. }
      exists (S k), s'. subst s1. simpl in *.
      split; [rewrite Hk; f_equal; lia|].
      split; [lia|]. split.
      * intros i Hi. destruct i as [|i].
        -- rewrite Nat.add_0_r. exact E.
        -- replace (offset (pos s) + S i) with (offset (pos s) + 1 + i) by lia.
           apply Hrun. lia.
      * replace (offset (pos s) + S k) with (offset (pos s) + 1 + k) by lia.
        exact Hstop.
    + exists 0, s. rewrite !Nat.add_0_r. repeat split; auto.
      intros i Hi. lia.
Qed.

(** C2, as amended. Every heading node of a returned AST has a level of at
    least one (and no upper bound). The production [heading] takes the
    length of the run of [=] at the cursor as the level, and returns a node
    only when, after the content, the input starts with as many [=]. *)
Theorem heading_levels (toLowerCase : jsstring -> jsstring) (fuel : nat)
    (str : jsstring) :
  (forall o ast,
      parse toLowerCase fuel str o = Returned ast ->
      headingLevels (fun n => (1 <= n)%Z) ast)
  /\ (forall limit s v s',
        let lower := map (fun c => toLowerCase [c]) str in
        let nx := next str lower limit toLowerCase fuel in
        heading str lower nx s = Ok v s' ->
        v <> VNull ->
        exists level c s1 s2,
          eatCount str lower (js "=") s = Ok level s1
          /\ (forall i, i < level ->
                startsWithAt lower (js "=") (offset (pos s) + i) = true)
          /\ startsWithAt lower (js "=") (offset (pos s) + level) = false
          /\ nx (withBacktrackOn (isEndOfLine str)
                   (withEndBefore [js "="] noOpts)) s1 = Ok c s2
          /\ startsWithP lower (repeatStr (js "=") level) (pos s2) = true
          /\ v = VObj [(js "level", VNum (Z.of_nat level));
                       (js "content", ofNullable (trim c))]).
Proof.
  split.
  - intros o ast H. apply wf_headingLevels. eapply parse_wf. exact H.
  - intros limit s v s' lower nx H Hv.
    destruct (@eatCountLoop_run lower 61 (S (length str)) 0 s)
      as (k & s1 & Hk & Hoff & Hrun & Hstop).
    { subst lower. rewrite length_map. lia. }
    unfold heading in H. unfold bind at 1 in H.
    unfold eatCount in H. change (js "=") with [61%N] in H. rewrite Hk in H.
    simpl in Hk.
    unfold bind at 1 in H.
    destruct (nx _ s1) as [c s2|e s2|] eqn:Hc; try discriminate.
    unfold bind at 1 in H. unfold eat at 1 in H.
    unfold bind at 1 in H. unfold startsWith at 1 in H. unfold bind at 1, getPos at 1, ret at 1 in H.
    destruct (startsWithP lower (repeatStr [61%N] (0 + k)) (pos s2)) eqn:Hclose.
    + unfold bind at 1, advance at 1, ret at 1 in H.
      unfold bind at 1 in H. cbn [negb] in H.
      destruct (eat lower [10%N] false _) as [b s3|e s3|]; try discriminate.
      unfold ret in H. injection H as <- <-.
      exists k, c, s1, s2. repeat split; auto.
    + unfold ret in H. cbn [negb] in H. injection H as <- <-. contradiction.
Qed.

Lemma heading_levels_witness :
  headingLevels (fun n => (1 <= n)%Z)
    (arr [VObj [(js "type", VStr (js "heading")); (js "level", VNum 3);
                (js "content", arr [VStr (js "Another heading")])]]).
Proof.
  apply (proj1 (heading_levels lowerTable 60 (js "===  Another heading  ==="))
           kDefaultOptions).
  vm_compute. reflexivity.
Defined.

(** C2, the claim as stated, fails: seven [=] on each side make a heading
    of level 7, and a closing run need not end the line. *)
Lemma heading_level_seven :
  parse lowerTable 40 (js "=======x=======") kDefaultOptions =
    Returned (arr [VObj [(js "type", VStr (js "heading")); (js "level", VNum 7);
                         (js "content", arr [VStr (js "x")])]])
  /\ ~ headingLevels (fun n => (1 <= n <= 6)%Z)
         (arr [VObj [(js "type", VStr (js "heading")); (js "level", VNum 7);
                     (js "content", arr [VStr (js "x")])]])
  /\ parse lowerTable 40 (js "=a=b") kDefaultOptions =
       Returned (arr [VObj [(js "type", VStr (js "heading")); (js "level", VNum 1);
                            (js "content", arr [VStr (js "a")])];
                      VStr (js "b")]).
Proof.
  split; [vm_compute; reflexivity|]. split; [|vm_compute; reflexivity].
  intros H. inversion H as [ | | | | | l ps Hh Hl Hp | | ]; subst.
  inversion Hl as [|x r Hx Hr]; subst.
  inversion Hx as [ | | | | | | fs Hfs Hf | ]; subst.
  destruct (Hfs eq_refl) as (n & Hn & Hb).
  vm_compute in Hn. injection Hn as <-. lia.
Qed.




(** C5. When the body of [parse] throws, [parse] throws the same fault if
    [throwError] is set, otherwise returns the fault if [returnError] is
    set, otherwise returns [null]. *)
Theorem parse_fault (toLowerCase : jsstring -> jsstring) (fuel : nat)
    (str : jsstring) (o : Options) (e : Fault) (s : State) :
  run toLowerCase fuel (backtrackingLimit o) str = Throw e s ->
  parse toLowerCase fuel str o =
    if throwError o then Raised e
    else if returnError o then ReturnedError e
    else Returned VNull.
Proof.
  intros H. unfold parse, Parser_parse. cbv zeta. cbn [options newParser].
  rewrite H. reflexivity.
Qed.

Lemma parse_fault_witness :
  parse lowerTable 20 (js "[[a|") (mkOptions 50000 false true false)
  = ReturnedError TypeError.
Proof.
  apply (@parse_fault lowerTable 20 (js "[[a|") (mkOptions 50000 false true false)
           TypeError
           (mkState (mkPos 4 1) [] 2 [])).
  vm_compute. reflexivity.
Defined.

(** C8. The result of [parse] depends on the input and the options only:
    whatever an earlier parse left in the fields of the parser object, the
    outcome and the fields after the call are the same. *)
Theorem parse_deterministic (toLowerCase : jsstring -> jsstring) (fuel : nat)
    (this1 this2 : Parser) (str : jsstring) :
  options this1 = options this2 ->
  Parser_parse toLowerCase fuel this1 str = Parser_parse toLowerCase fuel this2 str.
Proof.
  intros H. unfold Parser_parse. rewrite H. reflexivity.
Qed.

Lemma parse_deterministic_witness :
  Parser_parse lowerTable 30 (newParser kDefaultOptions) (js "''a''")
  = Parser_parse lowerTable 30
      (snd (Parser_parse lowerTable 30 (newParser kDefaultOptions) (js "x[[a|b")))
      (js "''a''").
Proof.
  apply parse_deterministic. vm_compute. reflexivity.
Defined.

(** C9. The parse of the empty input returns the empty list, whatever the
    options (so also for every limit that is not negative); two units of
    fuel are enough. *)
Theorem parse_empty (toLowerCase : jsstring -> jsstring) (fuel : nat) (o : Options) :
  parse toLowerCase (S (S fuel)) [] o = Returned (arr []).
Proof. reflexivity. Qed.

(** C1, on the code: a link whose page begins with a colon keeps the colon
    in [to] and in its content and gets no [plain] field; the trailing pipe
    of the third link of the example gives an empty content. *)
Theorem colon_link_not_plain :
  parse lowerTable 40 (js "[[:Category:Y]]") kDefaultOptions =
    Returned (arr [VObj [(js "type", VStr (js "link"));
                         (js "to", VStr (js ":Category:Y"));
                         (js "content", arr [VStr (js ":Category:Y")])]])
  /\ parse lowerTable 40
       (js "[[:" ++ [1050; 1072; 1090]%N ++ js ":Z|]]") kDefaultOptions =
     Returned (arr [VObj [(js "type", VStr (js "link"));
                          (js "to", VStr (js ":" ++ [1050; 1072; 1090]%N ++ js ":Z"));
                          (js "content", arr [])]]).
Proof. split; vm_compute; reflexivity. Qed.

(* ================================================================== *)
(** ** The link trail *)

Lemma skipn_cons_nth {A} (l : list A) (i : nat) (x : A) (rest : list A) :
  skipn i l = x :: rest -> nth_error l i = Some x /\ skipn (S i) l = rest.
Proof.
  revert l. induction i as [|i IH]; intros l H.
  - destruct l; simpl in H; [discriminate|]. injection H as -> ->. auto.
  - destruct l; simpl in H; [discriminate|]. apply IH in H. exact H.
Qed.

Lemma skipn_nil_nth {A} (l : list A) (i : nat) :
  skipn i l = [] -> nth_error l i = None.
Proof.
  revert l. induction i as [|i IH]; intros l H.
  - destruct l; simpl in H; [reflexivity | discriminate].
  - destruct l; simpl in H; [reflexivity|]. apply IH. exact H.
Qed.

Lemma isWordChar_not_newline (c : N) : isWordChar c = true -> N.eqb 10 c = false.
Proof.
  intros H. destruct (N.eqb_spec 10 c) as [<-|]; [|reflexivity].
  vm_compute in H. discriminate.
Qed.

Lemma countNewlines_word (c : N) : isWordChar c = true -> countNewlines [c] = 0.
Proof.
  intros H. unfold countNewlines. cbn [filter].
  rewrite (isWordChar_not_newline _ H). reflexivity.
Qed.


Lemma advanced_0 (s : State) : advanced 0 s = s.
Proof.
  destruct s as [[off ln] bo bc st]. unfold advanced. simpl.
  rewrite Nat.add_0_r. reflexivity.
Qed.

Lemma linkTrail_run (str : jsstring) (n : nat) :
  forall (l : list value) (ps : list (jsnum * value)) (s : State),
    length (takeWhile isWordChar (skipn (offset (pos s)) str)) < n ->
    linkTrail str n (VArr l ps) s =
      Ok (VArr (append l (map (fun c => VStr [c])
                            (takeWhile isWordChar (skipn (offset (pos s)) str)))) ps)
         (advanced (length (takeWhile isWordChar (skipn (offset (pos s)) str))) s).
Proof.
  induction n as [|n IH]; intros l ps s Hn; [lia|].
  cbn [linkTrail]. unfold bind at 1, getPos at 1.
  destruct (skipn (offset (pos s)) str) as [|c rest] eqn:E.
  - rewrite (skipn_nil_nth _ _ E). simpl. rewrite advanced_0. reflexivity.
  - destruct (skipn_cons_nth _ _ E) as [Hnth Hrest]. rewrite Hnth.
    simpl in Hn |- *. destruct (isWordChar c) eqn:Hw.
    + unfold bind, advance, ret.
      set (s1 := mkState _ _ _ _).
      assert (Hoff : offset (pos s1) = S (offset (pos s))).
      { subst s1. simpl. lia. }
      specialize (IH (appendChunk l (VStr [c])) ps s1).
      rewrite Hoff, Hrest in IH. cbn [length] in Hn. rewrite IH by lia.
      f_equal. subst s1. unfold advanced.
      rewrite (countNewlines_word _ Hw). simpl.
      f_equal. f_equal; lia.
    + simpl. rewrite advanced_0. reflexivity.
Qed.

Lemma appendChunk_last_string (l0 : list value) (t c : jsstring) :
  appendChunk (l0 ++ [VStr t]) (VStr c) = l0 ++ [VStr (t ++ c)].
Proof.
  induction l0 as [|x l0 IH]; [reflexivity|].
  change ((x :: l0) ++ [VStr t]) with (x :: (l0 ++ [VStr t])).
  destruct (l0 ++ [VStr t]) as [|y r] eqn:E.
  - destruct l0; discriminate.
  - change (appendChunk (x :: y :: r) (VStr c)) with (x :: appendChunk (y :: r) (VStr c)).
    rewrite IH. reflexivity.
Qed.

Lemma append_chars (l0 : list value) (t run : jsstring) :
  append (l0 ++ [VStr t]) (map (fun c => VStr [c]) run) = l0 ++ [VStr (t ++ run)].
Proof.
  unfold append. revert t. induction run as [|c run IH]; intros t; simpl.
  - rewrite app_nil_r. reflexivity.
  - rewrite appendChunk_last_string, IH, <- app_assoc. reflexivity.
Qed.


(* ================================================================== *)
(** ** Integers as Numbers *)

Open Scope Z_scope.

Lemma normFuel_spec (fuel : nat) :
  forall m e, 0 < m -> Z.log2 m <= Z.of_nat fuel ->
    exists m' e', normFuel fuel m e = (m', e')
                  /\ e <= e' /\ m = m' * 2 ^ (e' - e) /\ Z.odd m' = true /\ 0 < m'.
Proof.
  induction fuel as [|f IH]; intros m e Hm Hlog.
  - assert (m < 2 ^ 1) by (apply Z.log2_lt_pow2; lia).
    assert (m = 1) by lia. subst m.
    exists 1, e. simpl. replace (e - e) with 0 by lia. repeat split; lia.
  - cbn [normFuel]. destruct (Z.even m) eqn:Ev.
    + apply Z.even_spec in Ev. destruct Ev as [k Hk]. subst m.
      assert (Hdiv : 2 * k / 2 = k).
      { rewrite Z.mul_comm. apply Z.div_mul. lia. }
      rewrite Hdiv.
      destruct (IH k (e + 1)) as (m' & e' & Hn & He & Hval & Hodd & Hpos).
      * lia.
      * rewrite Z.log2_double in Hlog by lia. lia.
      * exists m', e'. rewrite Hn. repeat split; try lia; try assumption.
        replace (e' - e) with (Z.succ (e' - (e + 1))) by lia.
        rewrite Z.pow_succ_r by lia. lia.
    + exists m, e. replace (e - e) with 0 by lia.
      rewrite <- Z.negb_even, Ev. repeat split; lia.
Qed.

Lemma normalize_pos (m e : Z) :
  0 < m ->
  exists m' e', normalize m e = Fin m' e'
                /\ e <= e' /\ m = m' * 2 ^ (e' - e) /\ Z.odd m' = true /\ 0 < m'.
Proof.
  intros Hm. unfold normalize.
  destruct (Z.eqb_spec m 0); [lia|].
  destruct (@normFuel_spec (Z.to_nat (Z.log2 (Z.abs m))) m e Hm)
    as (m' & e' & Hn & H).
  { rewrite Z.abs_eq by lia. rewrite Z2Nat.id; [lia | apply Z.log2_nonneg]. }
  exists m', e'. rewrite Hn. split; [reflexivity | exact H].
Qed.

Lemma roundPos_int (p : Z) :
  0 < p < 2 ^ 53 ->
  exists m e, roundPos p 1 = Fin m e /\ 0 <= e /\ m * 2 ^ e = p /\ 0 < m.
Proof.
  intros [Hp Hlt].
  assert (HL : 0 <= Z.log2 p < 53).
  { split; [apply Z.log2_nonneg | apply Z.log2_lt_pow2; lia]. }
  assert (Hpow : 2 ^ Z.log2 p <= p) by (apply Z.log2_spec; lia).
  unfold roundPos. change (Z.log2 1) with 0.
  set (e0 := Z.log2 p - 0 - 52).
  assert (He0 : e0 = Z.log2 p - 52) by (subst e0; lia).
  assert (Hb : (0 <=? 52 + e0) = true) by (apply Z.leb_le; lia).
  rewrite Hb.
  assert (Hb2 : (p <? 1 * 2 ^ (52 + e0)) = false).
  { apply Z.ltb_ge. replace (52 + e0) with (Z.log2 p) by lia. lia. }
  rewrite Hb2.
  rewrite (Z.max_l e0 (-1074)) by lia.
  set (k := - e0). assert (Hk : 0 <= k) by (subst k; lia).
  assert (Hnum : (if e0 <? 0 then p * 2 ^ k else p) = p * 2 ^ k).
  { destruct (Z.ltb_spec e0 0); [reflexivity|].
    assert (k = 0) by (subst k; lia). replace k with 0. simpl. lia. }
  assert (Hden : (if e0 <? 0 then 1 else 1 * 2 ^ e0) = 1).
  { destruct (Z.ltb_spec e0 0); [reflexivity|].
    assert (e0 = 0) by lia. replace e0 with 0. reflexivity. }
  rewrite Hnum, Hden. rewrite Z.div_1_r, Z.mod_1_r.
  change ((1 <? 2 * 0) || (1 =? 2 * 0) && Z.odd (p * 2 ^ k))%bool with false.
  cbv iota.
  assert (Hpk : 0 < p * 2 ^ k).
  { apply Z.mul_pos_pos; [lia | apply Z.pow_pos_nonneg; lia]. }
  assert (Hlog : Z.log2 (p * 2 ^ k) = k + Z.log2 p).
  { apply Z.log2_mul_pow2; lia. }
  rewrite Hlog.
  assert (Hov : (1024 <? k + Z.log2 p + 1 + e0) = false).
  { apply Z.ltb_ge. subst k. lia. }
  rewrite Hov.
  destruct (@normalize_pos (p * 2 ^ k) e0 Hpk)
    as (m' & e' & Hn & He & Hval & Hodd & Hpos).
  exists m', e'. split; [exact Hn|].
  assert (He' : 0 <= e').
  { destruct (Z.le_gt_cases 0 e') as [|Hneg]; [assumption|]. exfalso.
    assert (Hsplit : 2 ^ k = 2 ^ (e' - e0) * 2 ^ (- e')).
    { rewrite <- Z.pow_add_r by lia. f_equal; subst k; lia. }
    rewrite Hsplit in Hval.
    assert (Hm' : m' = p * 2 ^ (- e')).
    { apply Z.mul_reg_r with (p := 2 ^ (e' - e0)).
      - apply Z.pow_nonzero; lia.
      - lia. }
    assert (Hev : Z.even m' = true).
    { rewrite Hm'. replace (- e') with (Z.succ (- e' - 1)) by lia.
      rewrite Z.pow_succ_r by lia.
      apply Z.even_spec. exists (p * 2 ^ (- e' - 1)). lia. }
    rewrite <- Z.negb_even, Hev in Hodd. discriminate. }
  split; [assumption|]. split; [|assumption].
  assert (Hsplit : 2 ^ (e' - e0) = 2 ^ e' * 2 ^ k).
  { rewrite <- Z.pow_add_r by lia. f_equal; subst k; lia. }
  rewrite Hsplit in Hval.
  apply Z.mul_reg_r with (p := 2 ^ k).
  - apply Z.pow_nonzero; lia.
  - lia.
Qed.

Lemma intNum_spec (k : Z) :
  0 <= k < 2 ^ 53 ->
  exists m e, intNum k = Fin m e /\ 0 <= e /\ m * 2 ^ e = k /\ 0 <= m.
Proof.
  intros [H0 Hlt]. unfold intNum, roundQ.
  destruct (Z.eqb_spec k 0) as [->|Hne].
  - exists 0, 0. repeat split; lia.
  - assert (Hpos : (0 <? k) = true) by (apply Z.ltb_lt; lia).
    rewrite Hpos. destruct (@roundPos_int k) as (m & e & H1 & H2 & H3 & H4); [lia|].
    exists m, e. repeat split; auto; lia.
Qed.





Close Scope Z_scope.

(* ================================================================== *)
(** ** Template parameters *)




(* ================================================================== *)
(** ** Numeric entities *)

Section Entities.

Variable str : jsstring.
Variable limit : Z.
Variable toLowerCase : jsstring -> jsstring.
Hypothesis Hascii : asciiFaithful toLowerCase.

Local Abbreviation lower := (map (fun c => toLowerCase [c]) str).

Lemma lower_nth (i : nat) (c : N) :
  nth_error str i = Some c -> (c < 128)%N ->
  nth_error lower i = Some [asciiLower c].
Proof.
  intros H Hc. rewrite nth_error_map, H. simpl.
  rewrite Hascii by assumption. reflexivity.
Qed.

Lemma startsWithP_first (p : Pos) (d c : N) (rest : jsstring) :
  nth_error lower (offset p) = Some [d] -> N.eqb d c = false ->
  startsWithP lower (c :: rest) p = false.
Proof.
  intros H Hd. unfold startsWithP. cbn [startsWithAt]. rewrite H.
  cbn [jsstring_eqb]. rewrite Hd. reflexivity.
Qed.

Lemma startsWithP_one (p : Pos) (c : N) :
  nth_error lower (offset p) = Some [c] -> startsWithP lower [c] p = true.
Proof.
  intros H. unfold startsWithP. cbn [startsWithAt]. rewrite H.
  cbn [jsstring_eqb]. rewrite N.eqb_refl. reflexivity.
Qed.

Lemma nodeEntry_skip (nx : NextOpts -> M (option (list value)))
    (allow : option (list jsstring)) (disallow : list jsstring)
    (nt : NodeType) (originalPos : Pos) (continue_ : M value) (s : State) :
  startsWithP lower (nt_start nt) (pos s) = false ->
  nodeEntry lower limit nx allow disallow nt originalPos continue_ s = continue_ s.
Proof.
  intros H. destruct nt as [ty start keep pre post grp func repl pp opts].
  cbn [nodeEntry nt_start]. unfold bind at 1, getPos at 1.
  cbn [nt_start] in H. rewrite H. reflexivity.
Qed.

Lemma nodeLoop_cons (nx : NextOpts -> M (option (list value)))
    (allow : option (list jsstring)) (disallow : list jsstring)
    (originalPos : Pos) (nt : NodeType) (rest : list NodeType) :
  nodeLoop lower limit nx allow disallow originalPos (nt :: rest) =
  nodeEntry lower limit nx allow disallow nt originalPos
    (nodeLoop lower limit nx allow disallow originalPos rest).
Proof. reflexivity. Qed.

Lemma nodeLoop_skip (nx : NextOpts -> M (option (list value)))
    (allow : option (list jsstring)) (disallow : list jsstring)
    (originalPos : Pos) (g1 g2 : list NodeType) (s : State) :
  Forall (fun nt => startsWithP lower (nt_start nt) (pos s) = false) g1 ->
  nodeLoop lower limit nx allow disallow originalPos (g1 ++ g2) s =
  nodeLoop lower limit nx allow disallow originalPos g2 s.
Proof.
  induction g1 as [|nt g1 IH]; intros H; [reflexivity|].
  inversion H; subst. cbn [app]. rewrite nodeLoop_cons, nodeEntry_skip by assumption.
  auto.
Qed.

Lemma grammar_startChars (nx : NextOpts -> M (option (list value)))
    (nd : option (list jsstring) -> list jsstring -> M value) (fuel : nat) :
  Forall (startsIn startChars) (grammar str lower toLowerCase nx nd fuel).
Proof.
  unfold grammar.
  repeat (apply Forall_cons; [do 2 eexists; split; [reflexivity | simpl; tauto]|]).
  apply Forall_nil.
Qed.

Lemma checkBelow_spec (P : N -> bool) (n : nat) :
  checkBelow P n = true -> forall d, (d < N.of_nat n)%N -> P d = true.
Proof.
  induction n as [|k IH]; intros H d Hd; [lia|].
  cbn [checkBelow] in H. apply andb_true_iff in H. destruct H as [Hk Hr].
  destruct (N.eq_dec d (N.of_nat k)) as [-> | Hne]; [exact Hk|].
  apply IH; [exact Hr | lia].
Qed.

Lemma hexDigit_facts (d : N) :
  isHexDigit d = true ->
  (d < 128)%N /\ N.eqb d 10 = false /\ N.eqb (asciiLower d) 59 = false
  /\ N.eqb (asciiLower d) 120 = false
  /\ existsb (N.eqb (asciiLower d)) startChars = false
  /\ isWhiteSpace d = false /\ N.eqb d 45 = false /\ N.eqb d 43 = false
  /\ N.eqb d 120 = false /\ N.eqb d 88 = false.
Proof.
  intros H.
  assert (Hlt : (d < 128)%N).
  { unfold isHexDigit, inRange in H.
    destruct (N.leb_spec d 57), (N.leb_spec d 102), (N.leb_spec d 70);
      try lia; rewrite !andb_false_r in H; discriminate. }
  split; [exact Hlt|].
  assert (Hall : checkBelow (fun c => implb (isHexDigit c) (hexFacts c)) 128 = true)
    by (vm_compute; reflexivity).
  pose proof (@checkBelow_spec _ 128 Hall d Hlt) as Hd. cbv beta in Hd.
  rewrite H in Hd. cbn [implb] in Hd. unfold hexFacts in Hd.
  repeat (apply andb_true_iff in Hd; destruct Hd as [Hd ?]).
  repeat match goal with
         | H : negb _ = true |- _ => apply negb_true_iff in H
         end.
  repeat split; assumption.
Qed.

Lemma existsb_isEndOfLine (s : State) (d : N) :
  nth_error str (offset (pos s)) = Some d -> N.eqb d 10 = false ->
  Forall (fun g => g = isEndOfLine str) (backtrackOn s) ->
  existsb (fun x => x (pos s)) (backtrackOn s) = false.
Proof.
  intros Hnth Hd H. induction H as [|g l -> Hl IH]; [reflexivity|].
  simpl. rewrite IH. unfold isEndOfLine, isEnd, charIs. rewrite Hnth, Hd.
  assert (offset (pos s) < length str) by (apply nth_error_Some; congruence).
  destruct (Nat.leb_spec (length str) (offset (pos s))); [lia | reflexivity].
Qed.

Lemma isEnd_false (p : Pos) (d : N) :
  nth_error str (offset p) = Some d -> isEnd str p = false.
Proof.
  intros H. unfold isEnd.
  assert (offset p < length str) by (apply nth_error_Some; congruence).
  destruct (Nat.leb_spec (length str) (offset p)); [lia | reflexivity].
Qed.

(** One round of the loop of [next] on a unit where [node] finds nothing:
    the unit joins the chunk. *)
Lemma nextLoop_plain (nd : option (list jsstring) -> list jsstring -> M value)
    (f : nat) (o : NextOpts) (originalPos : Pos) (cs cl : nat)
    (content : list value) (s : State) (c : N) :
  nth_error str (offset (pos s)) = Some c ->
  quiet lower o s ->
  nd (opt_allow o) (opt_disallow o) (pushed s) = Ok VNull (pushed s) ->
  nextLoop str lower limit nd (S f) o originalPos cs cl content s =
  nextLoop str lower limit nd f o originalPos
    (if Nat.eqb cl 0 then offset (pos s) else cs) (cl + 1) content
    (advancedText [c] s).
Proof.
  intros Hnth (Hq1 & Hq2 & Hq3 & Hq4 & Hq5 & Hq6) Hnd.
  cbn [nextLoop]. unfold bind at 1, getPos at 1.
  rewrite (isEnd_false _ Hnth). cbn [andb].
  unfold bind at 1, someBacktrackOn at 1.
  rewrite Hq1, Hq2. cbn [orb]. rewrite Hq3, Hq4, Hq5, Hq6.
  unfold bind at 1, pushStack at 1. unfold bind at 1.
  fold (pushed s). rewrite Hnd.
  unfold bind at 1, popStack at 1. unfold pushed.
  cbn [pos backtrackOn backtrackingCount stack].
  rewrite removelast_last. cbn [truthy].
  unfold bind at 1, getPos at 1. cbn [pos].
  unfold bind at 1, advanceChar at 1. unfold bind at 1, getPos at 1. cbn [pos].
  rewrite Hnth. unfold advance at 1. cbn [pos backtrackOn backtrackingCount stack length].
  reflexivity.
Qed.

(** The round of the loop on the [;] that closes the entity. *)
Lemma nextLoop_semicolon (nd : option (list jsstring) -> list jsstring -> M value)
    (f : nat) (originalPos : Pos) (cs cl : nat) (content : list value) (s : State) :
  nth_error str (offset (pos s)) = Some 59%N ->
  Forall (fun g => g = isEndOfLine str) (backtrackOn s) ->
  nextLoop str lower limit nd (S f) (entityOpts str) originalPos cs cl content s =
  Ok (Some (if Nat.eqb cl 0 then content
            else append content [VStr (substr str cs cl)]))
     (mkState (mkPos (offset (pos s) + 1) (lineNumber (pos s)))
              (removelast (backtrackOn s)) (backtrackingCount s) (stack s)).
Proof.
  intros Hnth Hbo.
  cbn [nextLoop]. unfold bind at 1, getPos at 1.
  rewrite (isEnd_false _ Hnth). cbn [andb].
  unfold bind at 1, someBacktrackOn at 1.
  rewrite (existsb_isEndOfLine s Hnth eq_refl Hbo).
  change (startsWithAnyP lower (opt_backtrack (entityOpts str)) (pos s)) with false.
  cbn [orb].
  assert (Hl : nth_error lower (offset (pos s)) = Some [59%N]).
  { apply (lower_nth _ Hnth). reflexivity. }
  assert (Hend : startsWithP lower [59%N] (pos s) = true)
    by (apply startsWithP_one; exact Hl).
  change (opt_end (entityOpts str)) with [[59%N]].
  unfold startsWithAnyP at 1. cbn [existsb]. rewrite Hend.
  change (startsWithAnyP lower (opt_notEnd (entityOpts str)) (pos s)) with false.
  cbn [orb andb negb].
  unfold bind at 1, eatAny at 1. cbn [eatAnyFrom].
  unfold bind at 1, startsWith at 1. unfold bind at 1, getPos at 1, ret at 1.
  rewrite Hend. unfold bind at 1, advance at 1, ret at 1.
  unfold nextFinish. unfold bind, when, popBacktrackOn, ret.
  change (isSome (opt_backtrackOn (entityOpts str))) with true. cbv iota.
  cbn [pos backtrackOn backtrackingCount stack length].
  change (countNewlines [59%N]) with 0. rewrite Nat.add_0_r.
  reflexivity.
Qed.

Lemma countNewlines_cons (c : N) (text : jsstring) :
  countNewlines (c :: text) = countNewlines [c] + countNewlines text.
Proof.
  unfold countNewlines. cbn [filter]. destruct (N.eqb 10 c); reflexivity.
Qed.

Lemma advancedText_cons (c : N) (text : jsstring) (s : State) :
  advancedText text (advancedText [c] s) = advancedText (c :: text) s.
Proof.
  unfold advancedText. cbn [pos offset lineNumber backtrackOn backtrackingCount stack].
  rewrite (countNewlines_cons c text). cbn [length].
  f_equal. f_equal; lia.
Qed.

(** The loop of [next] over a run of units where [node] finds nothing. *)
Lemma nextLoop_text (nd : option (list jsstring) -> list jsstring -> M value)
    (o : NextOpts) (originalPos : Pos) (text : jsstring) :
  forall (f cs cl : nat) (content : list value) (s : State),
  (forall i c, nth_error text i = Some c ->
               nth_error str (offset (pos s) + i) = Some c) ->
  (forall s', backtrackOn s' = backtrackOn s ->
              offset (pos s) <= offset (pos s') < offset (pos s) + length text ->
              quiet lower o s' /\ nd (opt_allow o) (opt_disallow o) s' = Ok VNull s') ->
  nextLoop str lower limit nd (length text + f) o originalPos cs cl content s =
  nextLoop str lower limit nd f o originalPos
    (match text with
     | [] => cs
     | _ :: _ => if Nat.eqb cl 0 then offset (pos s) else cs
     end) (cl + length text) content (advancedText text s).
Proof.
  induction text as [|c text IH]; intros f cs cl content s Hstr Hq.
  - cbn [length Nat.add]. rewrite Nat.add_0_r. unfold advancedText.
    cbn [length countNewlines filter]. rewrite !Nat.add_0_r. destruct s as [[? ?] ? ? ?].
    reflexivity.
  - cbn [length Nat.add].
    assert (Hc : nth_error str (offset (pos s)) = Some c).
    { rewrite <- (Nat.add_0_r (offset (pos s))). apply Hstr. reflexivity. }
    rewrite (@nextLoop_plain nd (length text + f) o originalPos cs cl content s c Hc).
    + rewrite IH.
      * rewrite advancedText_cons.
        replace (cl + 1 + length text) with (cl + S (length text)) by lia.
        replace (Nat.eqb (cl + 1) 0) with false
          by (symmetry; apply Nat.eqb_neq; lia).
        destruct text; reflexivity.
      * intros i c' Hi. cbn [advancedText pos offset length].
        replace (offset (pos s) + 1 + i) with (offset (pos s) + S i) by lia.
        apply Hstr. exact Hi.
      * intros s' Hbo Hoff. cbn [advancedText pos offset backtrackOn length] in Hbo, Hoff.
        apply Hq; [exact Hbo | cbn [length]; lia].
    + apply Hq; [reflexivity | cbn [length]; lia].
    + apply Hq; [reflexivity | cbn [length pushed pos]; lia].
Qed.

(** One round of the loop of [next] where [node] returns a node. *)
Lemma nextLoop_hit (nd : option (list jsstring) -> list jsstring -> M value)
    (f : nat) (o : NextOpts) (originalPos : Pos) (cs cl : nat)
    (content : list value) (s : State) (c : N) (v : value) (s1 : State) :
  nth_error str (offset (pos s)) = Some c ->
  quiet lower o s ->
  nd (opt_allow o) (opt_disallow o) (pushed s) = Ok v s1 ->
  truthy v = true ->
  nextLoop str lower limit nd (S f) o originalPos cs cl content s =
  nextLoop str lower limit nd f o originalPos
    (if Nat.eqb cl 0 then cs else offset (pos s1)) 0
    (append (if Nat.eqb cl 0 then content
             else append content [VStr (substr str cs cl)]) (concatNode v))
    (mkState (pos s1) (backtrackOn s1) (backtrackingCount s1)
             (removelast (stack s1))).
Proof.
  intros Hnth (Hq1 & Hq2 & Hq3 & Hq4 & Hq5 & Hq6) Hnd Hv.
  cbn [nextLoop]. unfold bind at 1, getPos at 1.
  rewrite (isEnd_false _ Hnth). cbn [andb].
  unfold bind at 1, someBacktrackOn at 1.
  rewrite Hq1, Hq2. cbn [orb]. rewrite Hq3, Hq4, Hq5, Hq6.
  unfold bind at 1, pushStack at 1. unfold bind at 1.
  fold (pushed s). rewrite Hnd.
  unfold bind at 1, popStack at 1. rewrite Hv.
  unfold bind at 1, getPos at 1. cbn [pos].
  destruct (Nat.eqb cl 0); reflexivity.
Qed.

(** The round of the loop of [next] at the end of the string, for the
    options of [parse]. *)
Lemma nextLoop_eos (nd : option (list jsstring) -> list jsstring -> M value)
    (f : nat) (originalPos : Pos) (cs cl : nat) (content : list value) (s : State) :
  length str <= offset (pos s) ->
  nextLoop str lower limit nd (S f) (withEndAtEos true noOpts) originalPos
           cs cl content s =
  Ok (Some (if Nat.eqb cl 0 then content
            else append content [VStr (substr str cs cl)])) s.
Proof.
  intros H. cbn [nextLoop]. unfold bind at 1, getPos at 1.
  unfold isEnd. destruct (Nat.leb_spec (length str) (offset (pos s))); [|lia].
  reflexivity.
Qed.

Lemma digitOf_hex (k : EntityKind) (c : N) : digitOf k c = true -> isHexDigit c = true.
Proof.
  unfold digitOf, isHexDigit. destruct (isHexKind k); [auto|].
  intros ->. reflexivity.
Qed.

Lemma digitOf_value (k : EntityKind) (c : N) :
  digitOf k c = true ->
  exists v, digitValue (radixOf k) c = Some v /\ (0 <= v)%Z.
Proof.
  intros H. pose proof (digitOf_hex k c H) as Hh.
  destruct (hexDigit_facts c Hh) as (Hlt & _).
  assert (Hall : checkBelow
                   (fun c => implb (isHexDigit c)
                               (match digitValue 16 c with
                                | Some v => (0 <=? v)%Z
                                | None => false
                                end)
                             && implb (inRange 48 57 c)
                                  (match digitValue 10 c with
                                   | Some v => (0 <=? v)%Z
                                   | None => false
                                   end))%bool 128 = true)
    by (vm_compute; reflexivity).
  pose proof (@checkBelow_spec _ 128 Hall c Hlt) as Hc. cbv beta in Hc.
  apply andb_true_iff in Hc. destruct Hc as [H16 H10].
  unfold radixOf, digitOf in *. destruct (isHexKind k).
  - rewrite H in H16. cbn [implb] in H16.
    destruct (digitValue 16 c) as [v|]; [|discriminate].
    exists v. split; [reflexivity | apply Z.leb_le; exact H16].
  - rewrite H in H10. cbn [implb] in H10.
    destruct (digitValue 10 c) as [v|]; [|discriminate].
    exists v. split; [reflexivity | apply Z.leb_le; exact H10].
Qed.

Lemma readDigits_all (k : EntityKind) (digits : jsstring) :
  Forall (fun c => digitOf k c = true) digits ->
  forall acc n,
    readDigits (radixOf k) acc n digits =
    (fold_left (fun a c => (a * radixOf k
                            + match digitValue (radixOf k) c with
                              | Some d => d
                              | None => 0
                              end)%Z) digits acc,
     n + length digits, []).
Proof.
  induction 1 as [|c digits Hc Hd IH]; intros acc n.
  - cbn [readDigits fold_left length]. rewrite Nat.add_0_r. reflexivity.
  - destruct (digitOf_value k c Hc) as (v & Hv & _).
    cbn [readDigits fold_left length]. rewrite Hv, IH. f_equal. f_equal. lia.
Qed.

Lemma digitsValue_nonneg (k : EntityKind) (digits : jsstring) :
  Forall (fun c => digitOf k c = true) digits ->
  (0 <= digitsValue (radixOf k) digits)%Z.
Proof.
  unfold digitsValue. intros H.
  assert (G : forall acc, (0 <= acc)%Z ->
            (0 <= fold_left (fun a c => (a * radixOf k
                            + match digitValue (radixOf k) c with
                              | Some d => d
                              | None => 0
                              end)%Z) digits acc)%Z).
  { induction H as [|c digits Hc Hd IH]; intros acc Hacc; [exact Hacc|].
    cbn [fold_left]. apply IH.
    destruct (digitOf_value k c Hc) as (v & -> & Hv).
    assert (0 < radixOf k)%Z by (unfold radixOf; destruct (isHexKind k); lia).
    nia. }
  apply G. lia.
Qed.

Lemma hexDigit_In (c : N) : isHexDigit c = true -> In c hexChars.
Proof.
  intros H. destruct (hexDigit_facts c H) as (Hlt & _).
  assert (Hall : checkBelow (fun c => implb (isHexDigit c)
                                        (existsb (N.eqb c) hexChars)) 128 = true)
    by (vm_compute; reflexivity).
  pose proof (@checkBelow_spec _ 128 Hall c Hlt) as Hc. cbv beta in Hc.
  rewrite H in Hc. cbn [implb] in Hc.
  apply existsb_exists in Hc. destruct Hc as (x & Hin & Hx).
  apply N.eqb_eq in Hx. subst x. exact Hin.
Qed.

Ltac hex_cases c H :=
  let Hin := fresh "Hin" in
  pose proof (hexDigit_In c H) as Hin; unfold hexChars in Hin; cbn [In] in Hin;
  repeat (destruct Hin as [Hin | Hin]; [subst c|]); [..|contradiction].

(** [parseInt] on the digits of an entity. *)
Lemma parseInt_digits (k : EntityKind) (digits : jsstring) :
  digits <> [] ->
  Forall (fun c => digitOf k c = true) digits ->
  parseInt digits (radixOf k) = intNum (digitsValue (radixOf k) digits).
Proof.
  intros Hne H. destruct digits as [|c rest]; [congruence|].
  pose proof (@readDigits_all k _ H 0%Z 0) as Hread.
  inversion H as [|? ? Hc Hrest]; subst.
  pose proof (digitOf_hex k c Hc) as Hh.
  destruct (hexDigit_facts c Hh) as (_ & _ & _ & _ & _ & Hws & _).
  unfold parseInt, trimLeft, intNum, digitsValue. cbn [dropWhile]. rewrite Hws.
  assert (Hpre : forall c2 rest2, rest = c2 :: rest2 ->
                   N.eqb c2 120 = false /\ N.eqb c2 88 = false).
  { intros c2 rest2 ->. inversion Hrest as [|? ? Hc2 _]; subst.
    destruct (hexDigit_facts c2 (digitOf_hex k c2 Hc2))
      as (_ & _ & _ & _ & _ & _ & _ & _ & H120 & H88). auto. }
  clear Hc Hrest H Hws Hne.
  destruct (radixOf k =? 16)%Z.
  - hex_cases c Hh; cbv beta iota zeta;
      try (rewrite Hread; cbn [Nat.add length]; reflexivity).
    destruct rest as [|c2 rest2];
      [cbv beta iota zeta; rewrite Hread; cbn [Nat.add length]; reflexivity|].
    destruct (Hpre c2 rest2 eq_refl) as [H120 H88].
    destruct (N.eqb_spec c2 120); [discriminate|].
    destruct (N.eqb_spec c2 88); [discriminate|].
    destruct c2 as [|q];
      [cbv beta iota zeta; rewrite Hread; cbn [Nat.add length]; reflexivity|].
    repeat (destruct q as [q|q|]; cbv beta iota zeta;
            try (rewrite Hread; cbn [Nat.add length]; reflexivity));
      congruence.
  - hex_cases c Hh; cbv beta iota zeta; rewrite Hread; cbn [Nat.add length];
      reflexivity.
Qed.


Lemma startsWithP_unit (p : Pos) (u : jsstring) (c : N) (rest : jsstring) :
  nth_error lower (offset p) = Some u -> jsstring_eqb u [c] = false ->
  startsWithP lower (c :: rest) p = false.
Proof.
  intros H Hu. unfold startsWithP. cbn [startsWithAt]. rewrite H, Hu. reflexivity.
Qed.

Lemma skip_plain (g : list NodeType) (p : Pos) (c : N) :
  nth_error str (offset p) = Some c ->
  plainUnit toLowerCase c = true ->
  Forall (startsIn startChars) g ->
  Forall (fun nt => startsWithP lower (nt_start nt) p = false) g.
Proof.
  intros Hnth Hc H.
  assert (Hl : nth_error lower (offset p) = Some (toLowerCase [c])).
  { rewrite nth_error_map, Hnth. reflexivity. }
  unfold plainUnit in Hc. rewrite forallb_forall in Hc.
  induction H as [|nt g (x & r & Hs & Hin) Hg IH]; constructor; auto.
  rewrite Hs. eapply startsWithP_unit; [exact Hl|].
  apply negb_true_iff. apply Hc. exact Hin.
Qed.

(** On a plain unit [node] returns [null] and leaves the state as it is. *)
Lemma node_plain (fuel : nat) (allow : option (list jsstring))
    (disallow : list jsstring) (s : State) (c : N) :
  nth_error str (offset (pos s)) = Some c ->
  plainUnit toLowerCase c = true ->
  node str lower limit toLowerCase (S fuel) allow disallow s = Ok VNull s.
Proof.
  intros Hnth Hc. cbn [node]. unfold nodeImpl, bind, getPos.
  rewrite <- (app_nil_r (grammar _ _ _ _ _ _)).
  rewrite nodeLoop_skip; [reflexivity|].
  eapply skip_plain; [exact Hnth | exact Hc | apply grammar_startChars].
Qed.

Lemma forallb_negb_eqb (a : N) (l : list N) :
  forallb (fun x => negb (jsstring_eqb [a] [x])) l = negb (existsb (N.eqb a) l).
Proof.
  induction l as [|x l IH]; [reflexivity|].
  cbn [forallb existsb]. rewrite IH, negb_orb. cbn [jsstring_eqb].
  rewrite andb_true_r. reflexivity.
Qed.

Lemma hexDigit_plain (d : N) : isHexDigit d = true -> plainUnit toLowerCase d = true.
Proof.
  intros H. destruct (hexDigit_facts d H) as (Hlt & _ & _ & _ & Hs & _).
  unfold plainUnit. rewrite Hascii by exact Hlt.
  rewrite forallb_negb_eqb, Hs. reflexivity.
Qed.

(** On a digit nothing ends or fails the loop that reads the digits. *)
Lemma quiet_digit (s : State) (d : N) :
  nth_error str (offset (pos s)) = Some d ->
  isHexDigit d = true ->
  Forall (fun g => g = isEndOfLine str) (backtrackOn s) ->
  quiet lower (entityOpts str) s.
Proof.
  intros Hnth Hd Hbo.
  destruct (hexDigit_facts d Hd) as (H128 & H10 & H59 & _).
  unfold quiet. split; [exact (existsb_isEndOfLine s Hnth H10 Hbo)|].
  split; [reflexivity|]. split; [|repeat split; reflexivity].
  change (opt_end (entityOpts str)) with [[59%N]]. unfold startsWithAnyP. cbn [existsb].
  rewrite (@startsWithP_first (pos s) (asciiLower d) 59 []); auto.
  apply lower_nth; assumption.
Qed.

Lemma skipn_nth (A : Type) (l : list A) :
  forall n c, nth_error l n = Some c -> skipn n l = c :: skipn (S n) l.
Proof.
  induction l as [|x l IH]; intros [|n] c H; try discriminate.
  - injection H as ->. reflexivity.
  - cbn [nth_error] in H. change (skipn (S n) (x :: l)) with (skipn n l).
    rewrite (IH n c H). reflexivity.
Qed.

Lemma substr_at (text : jsstring) :
  forall off,
    (forall i c, nth_error text i = Some c -> nth_error str (off + i) = Some c) ->
    substr str off (length text) = text.
Proof.
  unfold substr. induction text as [|c text IH]; intros off H; [reflexivity|].
  assert (Hc : nth_error str off = Some c).
  { rewrite <- (Nat.add_0_r off). apply H. reflexivity. }
  rewrite (skipn_nth str off Hc). cbn [length firstn]. f_equal.
  apply IH. intros i c' Hi. replace (S off + i) with (off + S i) by lia.
  apply H. exact Hi.
Qed.

(** A group descriptor whose start matches and whose group yields a node. *)
Lemma nodeEntry_group_hit (nx : NextOpts -> M (option (list value)))
    (allow : option (list jsstring)) (disallow : list jsstring)
    (start : string) (grp : list NodeType) (originalPos : Pos)
    (continue_ : M value) (s : State) (r : value) (s2 : State) :
  startsWithP lower (js start) (pos s) = true ->
  nodeLoop lower limit nx allow disallow (pos (advancedText (js start) s)) grp
           (advancedText (js start) s) = Ok r s2 ->
  isNullish r = false ->
  nodeEntry lower limit nx allow disallow (group start false grp) originalPos
            continue_ s = Ok r s2.
Proof.
  intros Hs Hg Hr. unfold group. cbn [nodeEntry nt_start nt_type nt_preCondition
    nt_keepStart nt_postCondition typeFiltered].
  unfold bind at 1, getPos at 1. rewrite Hs. cbn [negb orb].
  unfold bind at 1, eat at 1. unfold bind at 1, startsWith at 1.
  unfold bind at 1, getPos at 1, ret at 1. rewrite Hs.
  unfold bind at 1, advance at 1, ret at 1.
  unfold bind at 1, getPos at 1.
  fold (advancedText (js start) s).
  unfold bind at 1. unfold nodeLoop in Hg. rewrite Hg, Hr. reflexivity.
Qed.

(** A descriptor of a production whose start matches and whose function
    returns a string. *)
Lemma nodeEntry_production_hit (nx : NextOpts -> M (option (list value)))
    (allow : option (list jsstring)) (disallow : list jsstring)
    (type start : string) (func : M value) (originalPos : Pos)
    (continue_ : M value) (s : State) (u : jsstring) (s2 : State) :
  startsWithP lower (js start) (pos s) = true ->
  typeFiltered (Some (js type)) allow disallow = false ->
  func (advancedText (js start) s) = Ok (VStr u) s2 ->
  nodeEntry lower limit nx allow disallow
            (production type start false None None func None) originalPos
            continue_ s = Ok (VStr u) s2.
Proof.
  intros Hs Hf Hfunc. unfold production. cbn [nodeEntry nt_start nt_type nt_preCondition
    nt_keepStart nt_postCondition nt_func nt_replaceWith nt_postProcess].
  unfold bind at 1, getPos at 1. rewrite Hs, Hf. cbn [negb orb].
  unfold bind at 1, eat at 1. unfold bind at 1, startsWith at 1.
  unfold bind at 1, getPos at 1, ret at 1. rewrite Hs.
  unfold bind at 1, advance at 1, ret at 1.
  unfold bind at 1, getPos at 1.
  fold (advancedText (js start) s).
  unfold bind at 1. rewrite Hfunc. reflexivity.
Qed.

(** [this.eat('x', false)] in front of the digits. *)
Lemma eat_marker (k : EntityKind) (digits : jsstring) (s : State) :
  digits <> [] ->
  Forall (fun c => digitOf k c = true) digits ->
  (forall i c, nth_error (marker k ++ digits ++ [59%N]) i = Some c ->
               nth_error str (offset (pos s) + i) = Some c) ->
  eat lower (js "x") false s = Ok (isHexKind k) (afterMarker k s).
Proof.
  intros Hne Hd Hstr.
  assert (H0 : forall c, nth_error (marker k ++ digits ++ [59%N]) 0 = Some c ->
                         nth_error str (offset (pos s)) = Some c).
  { intros c Hc. rewrite <- (Nat.add_0_r (offset (pos s))). apply Hstr. exact Hc. }
  unfold eat, afterMarker. unfold bind at 1, startsWith at 1.
  unfold bind at 1, getPos at 1, ret at 1.
  change (js "x") with [120%N].
  destruct k.
  - destruct digits as [|d rest]; [congruence|].
    inversion Hd as [|? ? Hc _]; subst.
    pose proof (digitOf_hex Decimal d Hc) as Hh.
    destruct (hexDigit_facts d Hh) as (Hlt & _ & _ & H120 & _).
    rewrite (@startsWithP_first (pos s) (asciiLower d) 120 []);
      [|apply lower_nth; [apply H0; reflexivity | exact Hlt] | exact H120].
    cbn [marker length isHexKind]. rewrite Nat.add_0_r.
    destruct s as [[? ?] ? ? ?]. reflexivity.
  - rewrite startsWithP_one;
      [|apply (@lower_nth _ 120%N); [apply H0; reflexivity | reflexivity]].
    unfold bind, advance, ret. cbn [marker length isHexKind]. 
    change (countNewlines [120%N]) with 0. rewrite Nat.add_0_r. reflexivity.
  - rewrite startsWithP_one;
      [|apply (@lower_nth _ 88%N); [apply H0; reflexivity | reflexivity]].
    unfold bind, advance, ret. cbn [marker length isHexKind].
    change (countNewlines [120%N]) with 0. rewrite Nat.add_0_r. reflexivity.
Qed.

Lemma countNewlines_digits (k : EntityKind) (digits : jsstring) :
  Forall (fun c => digitOf k c = true) digits -> countNewlines digits = 0.
Proof.
  induction 1 as [|d rest Hd Hrest IH]; [reflexivity|].
  rewrite countNewlines_cons, IH.
  destruct (hexDigit_facts d (digitOf_hex k d Hd)) as (_ & H10 & _).
  unfold countNewlines. cbn [filter]. rewrite N.eqb_sym, H10. reflexivity.
Qed.

(** [htmlEntity] on the digits of an entity that [;] closes. *)
Lemma htmlEntity_run (k : EntityKind) (digits : jsstring) (f : nat) (s : State) :
  digits <> [] ->
  Forall (fun c => digitOf k c = true) digits ->
  (forall i c, nth_error (marker k ++ digits ++ [59%N]) i = Some c ->
               nth_error str (offset (pos s) + i) = Some c) ->
  Forall (fun g => g = isEndOfLine str) (backtrackOn s) ->
  htmlEntity str lower (next str lower limit toLowerCase (S (length digits + S f))) s =
  Ok (VStr (fromCharCode (intNum (digitsValue (radixOf k) digits))))
     (mkState (mkPos (offset (pos s) + length (marker k) + length digits + 1)
                     (lineNumber (pos s)))
              (backtrackOn s) (backtrackingCount s) (stack s)).
Proof.
  intros Hne Hd Hstr Hbo.
  unfold htmlEntity. unfold bind at 1. rewrite (@eat_marker k digits s Hne Hd Hstr).
  unfold bind at 1. cbn [next]. fold (entityOpts str).
  unfold nextImpl. change (opt_end (entityOpts str)) with [[59%N]]. cbv iota.
  unfold bind at 1, getPos at 1. unfold bind at 1.
  change (opt_backtrackOn (entityOpts str)) with (Some (isEndOfLine str)). cbv iota.
  unfold pushBacktrackOn at 1.
  cbn [afterMarker pos offset lineNumber backtrackOn backtrackingCount stack].
  set (s1 := mkState _ (backtrackOn s ++ [isEndOfLine str]) _ _).
  assert (Hstr1 : forall i c, nth_error (digits ++ [59%N]) i = Some c ->
                              nth_error str (offset (pos s1) + i) = Some c).
  { intros i c Hi. subst s1. cbn [pos offset].
    rewrite <- Nat.add_assoc. apply Hstr.
    rewrite nth_error_app2 by lia.
    replace (length (marker k) + i - length (marker k)) with i by lia. exact Hi. }
  assert (Hstr1' : forall i c, nth_error digits i = Some c ->
                               nth_error str (offset (pos s1) + i) = Some c).
  { intros i c Hi. apply Hstr1. rewrite nth_error_app1; [exact Hi|].
    apply nth_error_Some. congruence. }
  assert (Hbo1 : Forall (fun g => g = isEndOfLine str) (backtrackOn s1)).
  { subst s1. cbn [backtrackOn]. apply Forall_app. split; [exact Hbo|].
    constructor; [reflexivity | constructor]. }
  rewrite (@nextLoop_text (node str lower limit toLowerCase (length digits + S f))
             (entityOpts str) _ digits (S f)).
  - rewrite nextLoop_semicolon.
    + cbn [advancedText pos offset lineNumber backtrackOn backtrackingCount stack].
      subst s1. cbn [pos offset lineNumber backtrackOn backtrackingCount stack].
      rewrite removelast_last.
      destruct digits as [|d rest]; [congruence|].
      replace (Nat.eqb (0 + length (d :: rest)) 0) with false by reflexivity.
      cbn [Nat.eqb Nat.add].
      rewrite (@substr_at (d :: rest)).
      * change (append [] [VStr (d :: rest)]) with [VStr (d :: rest)].
        change (toStr (arr [VStr (d :: rest)])) with (d :: rest).
        fold (radixOf k). rewrite (@parseInt_digits k _ Hne Hd).
        rewrite (@countNewlines_digits k _ Hd), Nat.add_0_r. reflexivity.
      * intros i c Hi. apply (Hstr1 i c).
        rewrite nth_error_app1; [exact Hi|]. apply nth_error_Some. congruence.
    + cbn [advancedText pos offset]. apply Hstr1.
      rewrite nth_error_app2 by lia. rewrite Nat.sub_diag. reflexivity.
    + exact Hbo1.
  - exact Hstr1'.
  - intros s' Hbo' Hoff.
    destruct (nth_error digits (offset (pos s') - offset (pos s1))) as [d|] eqn:Hd'.
    2:{ apply nth_error_None in Hd'. lia. }
    assert (Hs' : nth_error str (offset (pos s')) = Some d).
    { replace (offset (pos s')) with
        (offset (pos s1) + (offset (pos s') - offset (pos s1))) by lia.
      apply Hstr1'. exact Hd'. }
    assert (Hh : isHexDigit d = true).
    { apply (digitOf_hex k). rewrite Forall_forall in Hd. apply Hd.
      eapply nth_error_In. exact Hd'. }
    split.
    + apply (quiet_digit s' Hs' Hh). rewrite Hbo'. exact Hbo1.
    + rewrite Nat.add_succ_r. apply (node_plain _ _ _ s' Hs').
      apply hexDigit_plain. exact Hh.
Qed.

Lemma startsWithAt_text (prefix : jsstring) :
  forall (text : jsstring) (off : nat) (b : bool),
    (forall i c, nth_error text i = Some c ->
                 nth_error lower (off + i) = Some [c]) ->
    matchText prefix text = Some b ->
    startsWithAt lower prefix off = b.
Proof.
  induction prefix as [|c prefix IH]; intros text off b Hl Hm.
  - cbn [matchText] in Hm. injection Hm as <-. reflexivity.
  - destruct text as [|d text]; [discriminate|].
    cbn [matchText] in Hm. cbn [startsWithAt].
    rewrite <- (Nat.add_0_r off) at 1.
    rewrite (Hl 0 d eq_refl). cbn [jsstring_eqb]. rewrite andb_true_r.
    destruct (N.eqb d c); [|injection Hm as <-; reflexivity].
    apply (IH text (S off) b); [|exact Hm].
    intros i c' Hi. replace (S off + i) with (off + S i) by lia.
    apply Hl. exact Hi.
Qed.

(** A descriptor with [replaceWith] whose start matches: [next] on the
    descriptor returns at once and the replacement is the node. *)
Lemma nodeEntry_replacement_hit (nx : NextOpts -> M (option (list value)))
    (allow : option (list jsstring)) (disallow : list jsstring)
    (type start : string) (r : jsstring) (originalPos : Pos)
    (continue_ : M value) (s : State) :
  startsWithP lower (js start) (pos s) = true ->
  typeFiltered (Some (js type)) allow disallow = false ->
  nx noOpts (advancedText (js start) s) =
    Ok (Some []) (advancedText (js start) s) ->
  nodeEntry lower limit nx allow disallow (replacement type start r) originalPos
            continue_ s = Ok (VStr r) (advancedText (js start) s).
Proof.
  intros Hs Hf Hnx. unfold replacement. cbn [nodeEntry nt_start nt_type nt_preCondition
    nt_keepStart nt_postCondition nt_func nt_replaceWith nt_postProcess nt_opts].
  unfold bind at 1, getPos at 1. rewrite Hs, Hf. cbn [negb orb].
  unfold bind at 1, eat at 1. unfold bind at 1, startsWith at 1.
  unfold bind at 1, getPos at 1, ret at 1. rewrite Hs.
  unfold bind at 1, advance at 1, ret at 1.
  unfold bind at 1, getPos at 1.
  fold (advancedText (js start) s).
  unfold bind at 1. unfold bind at 1. rewrite Hnx. reflexivity.
Qed.

(** [node] at a [&]: the descriptors before the group of [&] do not start
    there, and a node that the group finds is the node. *)
Lemma node_amp_hit (fuel : nat) (allow : option (list jsstring))
    (disallow : list jsstring) (s : State) (r : value) (s2 : State) :
  nth_error lower (offset (pos s)) = Some [38%N] ->
  nodeLoop lower limit (next str lower limit toLowerCase fuel) allow disallow
           (pos (advancedText (js "&") s))
           (entityGroup str lower (next str lower limit toLowerCase fuel))
           (advancedText (js "&") s) = Ok r s2 ->
  isNullish r = false ->
  node str lower limit toLowerCase (S fuel) allow disallow s = Ok r s2.
Proof.
  intros H0 Hg Hr.
  cbn [node]. unfold nodeImpl. unfold bind at 1, getPos at 1. unfold grammar.
  do 12 (rewrite nodeLoop_cons;
         rewrite nodeEntry_skip
           by (eapply startsWithP_first; [exact H0 | reflexivity])).
  rewrite nodeLoop_cons.
  apply nodeEntry_group_hit; [apply startsWithP_one; exact H0 | exact Hg | exact Hr].
Qed.

(** [node] at the [&] of a numeric entity whose type is not filtered out:
    the group of [&] is entered, its replacements do not match [#], and
    [htmlEntity] returns the unit. *)
Lemma node_entity (k : EntityKind) (digits : jsstring) (f : nat)
    (allow : option (list jsstring)) (disallow : list jsstring) (s : State) :
  digits <> [] ->
  Forall (fun c => digitOf k c = true) digits ->
  (forall i c, nth_error (js "&#" ++ marker k ++ digits ++ [59%N]) i = Some c ->
               nth_error str (offset (pos s) + i) = Some c) ->
  Forall (fun g => g = isEndOfLine str) (backtrackOn s) ->
  typeFiltered (Some (js "htmlEntity")) allow disallow = false ->
  node str lower limit toLowerCase (S (S (length digits + S f))) allow disallow s =
  Ok (VStr (fromCharCode (intNum (digitsValue (radixOf k) digits))))
     (mkState (mkPos (offset (pos s) + 2 + length (marker k) + length digits + 1)
                     (lineNumber (pos s)))
              (backtrackOn s) (backtrackingCount s) (stack s)).
Proof.
  intros Hne Hd Hstr Hbo Hfilter.
  assert (H0 : nth_error lower (offset (pos s)) = Some [38%N]).
  { apply (@lower_nth _ 38%N); [|reflexivity].
    rewrite <- (Nat.add_0_r (offset (pos s))). apply Hstr. reflexivity. }
  pose (s1 := advancedText (js "&") s).
  assert (H1 : nth_error lower (offset (pos s1)) = Some [35%N]).
  { apply (@lower_nth _ 35%N); [|reflexivity].
    subst s1. cbn [advancedText pos offset]. apply Hstr. reflexivity. }
  pose (s2 := advancedText (js "#") s1).
  assert (Hent : htmlEntity str lower
                   (next str lower limit toLowerCase (S (length digits + S f))) s2 =
                 Ok (VStr (fromCharCode (intNum (digitsValue (radixOf k) digits))))
                    (mkState (mkPos (offset (pos s) + 2 + length (marker k)
                                     + length digits + 1) (lineNumber (pos s)))
                             (backtrackOn s) (backtrackingCount s) (stack s))).
  { rewrite (@htmlEntity_run k digits f s2 Hne Hd).
    - subst s2 s1. cbn [advancedText pos offset lineNumber backtrackOn
                        backtrackingCount stack].
      change (countNewlines (js "&")) with 0. change (countNewlines (js "#")) with 0.
      change (length (js "&")) with 1. change (length (js "#")) with 1.
      f_equal. f_equal. f_equal; lia.
    - intros i c Hi. subst s2 s1. cbn [advancedText pos offset].
      change (length (js "&")) with 1. change (length (js "#")) with 1.
      replace (offset (pos s) + 1 + 1 + i) with (offset (pos s) + S (S i)) by lia.
      apply Hstr. exact Hi.
    - exact Hbo. }
  cbn [node]. unfold nodeImpl. unfold bind at 1, getPos at 1. unfold grammar.
  do 12 (rewrite nodeLoop_cons;
         rewrite nodeEntry_skip
           by (eapply startsWithP_first; [exact H0 | reflexivity])).
  rewrite nodeLoop_cons.
  apply nodeEntry_group_hit; [apply startsWithP_one; exact H0 | | reflexivity].
  fold s1.
  do 7 (rewrite nodeLoop_cons;
        rewrite nodeEntry_skip
          by (eapply startsWithP_first; [exact H1 | reflexivity])).
  rewrite nodeLoop_cons.
  apply nodeEntry_production_hit;
    [apply startsWithP_one; exact H1 | exact Hfilter | exact Hent].
Qed.

Lemma grammar_guarded (nx : NextOpts -> M (option (list value)))
    (nd : option (list jsstring) -> list jsstring -> M value) (fuel : nat) :
  Forall (startGuarded str) (grammar str lower toLowerCase nx nd fuel).
Proof.
  unfold grammar, startGuarded.
  repeat (apply Forall_cons;
          [first [ left; do 2 eexists; split; [reflexivity | simpl; tauto]
                 | right; split;
                   [do 2 eexists; split; [reflexivity | simpl; tauto]
                   | reflexivity] ]|]).
  apply Forall_nil.
Qed.

Lemma startsWithP_avoids (chars : list N) (nt : NodeType) (p : Pos) (c : N) :
  nth_error str (offset p) = Some c ->
  unitAvoids toLowerCase chars c = true ->
  startsIn chars nt ->
  startsWithP lower (nt_start nt) p = false.
Proof.
  intros Hnth Hc (x & r & Hs & Hin).
  assert (Hl : nth_error lower (offset p) = Some (toLowerCase [c])).
  { rewrite nth_error_map, Hnth. reflexivity. }
  unfold unitAvoids in Hc. rewrite forallb_forall in Hc.
  rewrite Hs. eapply startsWithP_unit; [exact Hl|].
  apply negb_true_iff. apply Hc. exact Hin.
Qed.

(** A descriptor whose [preCondition] fails restores the cursor, which is
    the one it was entered with. *)
Lemma nodeEntry_pre_fail (nx : NextOpts -> M (option (list value)))
    (allow : option (list jsstring)) (disallow : list jsstring)
    (nt : NodeType) (continue_ : M value) (s : State) (pre : Pos -> bool) :
  nt_preCondition nt = Some pre -> pre (pos s) = false ->
  nodeEntry lower limit nx allow disallow nt (pos s) continue_ s = continue_ s.
Proof.
  intros Hpre Hp. destruct nt as [ty start keep pre0 post grp func repl pp opts].
  cbn [nt_preCondition] in Hpre. subst pre0.
  cbn [nodeEntry nt_start nt_type nt_preCondition]. unfold bind at 1, getPos at 1.
  destruct (negb (startsWithP lower start (pos s)) || typeFiltered ty allow disallow)%bool;
    [reflexivity|].
  rewrite Hp. cbn [negb]. unfold bind, setPos.
  destruct s as [p bo bc st]. reflexivity.
Qed.

Lemma nodeEntry_guarded (nx : NextOpts -> M (option (list value)))
    (allow : option (list jsstring)) (disallow : list jsstring)
    (nt : NodeType) (continue_ : M value) (s : State) (c : N) :
  nth_error str (offset (pos s)) = Some c ->
  unitAvoids toLowerCase hardChars c = true ->
  unitAvoids toLowerCase softChars c = true \/ isStartOfLine str (pos s) = false ->
  startGuarded str nt ->
  nodeEntry lower limit nx allow disallow nt (pos s) continue_ s = continue_ s.
Proof.
  intros Hnth Hhard Hsoft [Hg | [Hg Hpre]].
  - apply nodeEntry_skip. exact (@startsWithP_avoids _ nt (pos s) c Hnth Hhard Hg).
  - destruct Hsoft as [Hsoft | Hsol].
    + apply nodeEntry_skip. exact (@startsWithP_avoids _ nt (pos s) c Hnth Hsoft Hg).
    + exact (@nodeEntry_pre_fail nx allow disallow nt continue_ s _ Hpre Hsol).
Qed.

Lemma nodeLoop_inert (nx : NextOpts -> M (option (list value)))
    (allow : option (list jsstring)) (disallow : list jsstring)
    (g : list NodeType) (s : State) (c : N) :
  nth_error str (offset (pos s)) = Some c ->
  unitAvoids toLowerCase hardChars c = true ->
  unitAvoids toLowerCase softChars c = true \/ isStartOfLine str (pos s) = false ->
  Forall (startGuarded str) g ->
  nodeLoop lower limit nx allow disallow (pos s) g s = Ok VNull s.
Proof.
  intros Hnth Hhard Hsoft Hg.
  induction Hg as [|nt g Hnt Hg IH]; [reflexivity|].
  rewrite nodeLoop_cons.
  rewrite (@nodeEntry_guarded _ allow disallow nt _ s c Hnth Hhard Hsoft Hnt).
  exact IH.
Qed.

(** On a plain unit [node] returns [null] and leaves the state as it is. *)
Lemma node_inert (fuel : nat) (allow : option (list jsstring))
    (disallow : list jsstring) (s : State) (c : N) :
  nth_error str (offset (pos s)) = Some c ->
  unitAvoids toLowerCase hardChars c = true ->
  unitAvoids toLowerCase softChars c = true \/ isStartOfLine str (pos s) = false ->
  node str lower limit toLowerCase (S fuel) allow disallow s = Ok VNull s.
Proof.
  intros Hnth Hhard Hsoft. cbn [node]. unfold nodeImpl, bind, getPos.
  apply (@nodeLoop_inert _ allow disallow _ s c Hnth Hhard Hsoft).
  apply grammar_guarded.
Qed.

Lemma isStartOfLine_next (off : nat) (ln : nat) (c : N) :
  nth_error str off = Some c ->
  isStartOfLine str (mkPos (S off) ln) = N.eqb c 10.
Proof.
  intros H. unfold isStartOfLine, isStart, charIs. cbn [offset Nat.eqb].
  rewrite H, orb_false_r.
  destruct str as [|x r]; [destruct off; discriminate|]. reflexivity.
Qed.

(** The units of a plain text that lies in the input are plain units where
    they are. *)
Lemma plainText_inert (text : jsstring) :
  forall (off : nat) (sol : bool),
    (forall j c, nth_error text j = Some c -> nth_error str (off + j) = Some c) ->
    (isStartOfLine str (mkPos off 0) = true -> sol = true) ->
    plainText toLowerCase sol text = true ->
    forall s, off <= offset (pos s) < off + length text ->
      exists c, nth_error str (offset (pos s)) = Some c
                /\ unitAvoids toLowerCase hardChars c = true
                /\ (unitAvoids toLowerCase softChars c = true
                    \/ isStartOfLine str (pos s) = false).
Proof.
  induction text as [|c text IH]; intros off sol Hstr Hsol Hp s Hs;
    [cbn [length] in Hs; lia|].
  cbn [plainText] in Hp. apply andb_true_iff in Hp. destruct Hp as [Hc Hrest].
  assert (Hc0 : nth_error str off = Some c).
  { rewrite <- (Nat.add_0_r off). apply Hstr. reflexivity. }
  destruct (Nat.eq_dec (offset (pos s)) off) as [E|E].
  - exists c. rewrite E. split; [exact Hc0|].
    unfold plainUnitAt in Hc. apply andb_true_iff in Hc. destruct Hc as [Hh Hsf].
    split; [exact Hh|]. apply orb_true_iff in Hsf. destruct Hsf as [Hsf|Hsf]; [left; exact Hsf|].
    right. apply negb_true_iff in Hsf. subst sol.
    destruct (isStartOfLine str (pos s)) eqn:Es; [|reflexivity].
    symmetry. apply Hsol. rewrite <- Es.
    destruct s as [[o l] bo bc st]. cbn [pos offset] in E. subst o. reflexivity.
  - apply (IH (S off) (N.eqb c 10)).
    + intros j c' Hj. replace (S off + j) with (off + S j) by lia. apply Hstr. exact Hj.
    + rewrite (@isStartOfLine_next off 0 c Hc0). auto.
    + exact Hrest.
    + cbn [length] in Hs. lia.
Qed.

Lemma quiet_top (s : State) :
  backtrackOn s = [] -> quiet lower (withEndAtEos true noOpts) s.
Proof.
  intros H. unfold quiet. rewrite H. repeat split; reflexivity.
Qed.

(** The loop of [parse] over plain text, a numeric entity and plain text. *)
Lemma nextLoop_entity (k : EntityKind) (pre digits post : jsstring)
    (nd : option (list jsstring) -> list jsstring -> M value) (f : nat) :
  str = pre ++ entityText k digits ++ post ->
  plainText toLowerCase true pre = true ->
  plainText toLowerCase false post = true ->
  (forall s c, nth_error str (offset (pos s)) = Some c ->
               unitAvoids toLowerCase hardChars c = true ->
               unitAvoids toLowerCase softChars c = true
               \/ isStartOfLine str (pos s) = false ->
               nd None [] s = Ok VNull s) ->
  (forall s, offset (pos s) = length pre -> backtrackOn s = [] ->
             nd None [] s =
             Ok (VStr (fromCharCode (intNum (digitsValue (radixOf k) digits))))
                (mkState (mkPos (length pre + length (entityText k digits))
                                (lineNumber (pos s)))
                         (backtrackOn s) (backtrackingCount s) (stack s))) ->
  exists s',
    nextLoop str lower limit nd (length pre + S (length post + S f))
             (withEndAtEos true noOpts) (mkPos 0 1) 0 0 [] initialState =
    Ok (Some [VStr (pre ++ fromCharCode (intNum (digitsValue (radixOf k) digits))
                        ++ post)]) s'.
Proof.
  intros Hstr Hpre Hpost Hplain Hent.
  assert (Hs1 : forall j c, nth_error pre j = Some c ->
                            nth_error str (0 + j) = Some c).
  { intros j c Hj. rewrite Hstr. cbn [Nat.add].
    rewrite nth_error_app1; [exact Hj|]. apply nth_error_Some. congruence. }
  assert (Hs2 : nth_error str (length pre) = Some 38%N).
  { rewrite Hstr, nth_error_app2 by lia. rewrite Nat.sub_diag. reflexivity. }
  assert (Hs3 : forall j c, nth_error post j = Some c ->
              nth_error str (length pre + length (entityText k digits) + j) = Some c).
  { intros j c Hj. rewrite Hstr, nth_error_app2 by lia.
    rewrite nth_error_app2 by lia.
    replace (length pre + length (entityText k digits) + j - length pre
             - length (entityText k digits)) with j by lia.
    exact Hj. }
  assert (Hsol : isStartOfLine str
                   (mkPos (length pre + length (entityText k digits)) 0) = true ->
                 false = true).
  { assert (Hlen : length (entityText k digits)
                   = S (length (js "&#" ++ marker k ++ digits))).
    { unfold entityText. rewrite !length_app. cbn [length]. lia. }
    rewrite Hlen, Nat.add_succ_r.
    rewrite (@isStartOfLine_next (length pre + length (js "&#" ++ marker k ++ digits))
               0 59%N); [discriminate|].
    rewrite Hstr, nth_error_app2 by lia.
    replace (length pre + length (js "&#" ++ marker k ++ digits) - length pre)
      with (length (js "&#" ++ marker k ++ digits)) by lia.
    rewrite nth_error_app1 by (rewrite Hlen; lia).
    unfold entityText. rewrite !app_assoc.
    rewrite nth_error_app2 by (rewrite !length_app; lia).
    rewrite !length_app, Nat.sub_diag. reflexivity. }
  eexists.
  rewrite (@nextLoop_text nd (withEndAtEos true noOpts) (mkPos 0 1) pre).
  2:{ exact Hs1. }
  2:{ intros s' Hbo Hoff. split; [apply quiet_top; exact Hbo|].
      destruct (@plainText_inert pre 0 true Hs1 (fun _ => eq_refl) Hpre s' Hoff)
        as (c & Hc & Hh & Hsf).
      exact (Hplain s' c Hc Hh Hsf). }
  set (sa := advancedText pre initialState).
  assert (Hoa : offset (pos sa) = length pre) by reflexivity.
  rewrite (@nextLoop_hit nd (length post + S f) (withEndAtEos true noOpts) (mkPos 0 1)
             _ _ [] sa 38%N _ _ (ltac:(rewrite Hoa; exact Hs2))
             (quiet_top sa eq_refl) (Hent (pushed sa) Hoa eq_refl) eq_refl).
  cbn [pos backtrackOn backtrackingCount stack pushed].
  change (stack sa) with (@nil Pos). cbn [app removelast].
  rewrite (@nextLoop_text nd (withEndAtEos true noOpts) (mkPos 0 1) post).
  2:{ exact Hs3. }
  2:{ intros s' Hbo Hoff. split; [apply quiet_top; exact Hbo|].
      cbn [pos offset] in Hoff.
      destruct (@plainText_inert post _ false Hs3 Hsol Hpost s' Hoff)
        as (c & Hc & Hh & Hsf).
      exact (Hplain s' c Hc Hh Hsf). }
  rewrite nextLoop_eos.
  2:{ cbn [advancedText pos offset]. rewrite Hstr, !length_app. lia. }
  f_equal. f_equal.
  cbn [Nat.add pos offset].
  destruct pre as [|a pre'], post as [|b post'].
  - reflexivity.
  - cbn [length Nat.eqb negb Nat.add app]. cbn [append fold_left appendChunk concatNode].
    change (S (length post')) with (length (b :: post')).
    rewrite (@substr_at (b :: post')); [reflexivity|]. exact Hs3.
  - cbn [length Nat.eqb negb Nat.add]. cbn [append fold_left appendChunk concatNode].
    change (S (length pre')) with (length (a :: pre')).
    change (offset (pos initialState)) with 0.
    rewrite (@substr_at (a :: pre') 0 Hs1). rewrite app_nil_r. reflexivity.
  - cbn [length Nat.eqb negb Nat.add]. cbn [append fold_left appendChunk concatNode].
    change (S (length pre')) with (length (a :: pre')).
    change (S (length post')) with (length (b :: post')).
    change (offset (pos initialState)) with 0.
    rewrite (@substr_at (a :: pre') 0 Hs1).
    rewrite (@substr_at (b :: post')); [|exact Hs3].
    rewrite <- app_assoc. reflexivity.
Qed.

(** [this.next({endAtEos: true})] of [parse] on plain text around a numeric
    entity, with enough fuel. *)
Lemma next_entity (k : EntityKind) (pre digits post : jsstring) (f : nat) :
  str = pre ++ entityText k digits ++ post ->
  digits <> [] ->
  Forall (fun c => digitOf k c = true) digits ->
  plainText toLowerCase true pre = true ->
  plainText toLowerCase false post = true ->
  length pre + length post + length digits + 5 <= f ->
  exists s',
    next str lower limit toLowerCase (S f) (withEndAtEos true noOpts) initialState =
    Ok (Some [VStr (pre ++ fromCharCode (intNum (digitsValue (radixOf k) digits))
                        ++ post)]) s'.
Proof.
  intros Hstr Hne Hd Hpre Hpost Hf.
  destruct (@nextLoop_entity k pre digits post (node str lower limit toLowerCase f)
              (f - length pre - length post - 2) Hstr Hpre Hpost) as [s' Hs'].
  - intros s c Hc Hh Hsf.
    replace f with (S (f - 1)) by lia. exact (@node_inert _ None [] s c Hc Hh Hsf).
  - intros s Hoff Hbo.
    replace f with (S (S (length digits + S (f - length digits - 3)))) by lia.
    rewrite (@node_entity k digits (f - length digits - 3) None [] s Hne Hd).
    + f_equal. f_equal. f_equal. unfold entityText. rewrite !length_app.
      cbn [length js]. change (length (js "&#")) with 2. lia.
    + intros i c Hi. rewrite Hstr, Hoff, nth_error_app2 by lia.
      replace (length pre + i - length pre) with i by lia.
      rewrite nth_error_app1; [exact Hi|]. apply nth_error_Some. 
      unfold entityText. congruence.
    + rewrite Hbo. constructor.
    + reflexivity.
  - exists s'. rewrite <- Hs'.
    replace (length pre + S (length post + S (f - length pre - length post - 2)))
      with f by lia.
    reflexivity.
Qed.

(** [this.next({endAtEos: true})] of [parse] on plain text: the loop walks
    over the text and returns it as one chunk. *)
Lemma next_plain (f : nat) :
  plainText toLowerCase true str = true ->
  length str < f ->
  next str lower limit toLowerCase (S f) (withEndAtEos true noOpts) initialState =
  Ok (Some (match str with [] => [] | _ :: _ => [VStr str] end))
     (advancedText str initialState).
Proof.
  intros Hp Hf.
  assert (Hs1 : forall j c, nth_error str j = Some c ->
                            nth_error str (0 + j) = Some c) by (intros; assumption).
  change (nextLoop str lower limit (node str lower limit toLowerCase f) f
            (withEndAtEos true noOpts) (mkPos 0 1) 0 0 [] initialState =
          Ok (Some (match str with [] => [] | _ :: _ => [VStr str] end))
             (advancedText str initialState)).
  replace f with (length str + S (f - length str - 1)) at 2 by lia.
  rewrite (@nextLoop_text (node str lower limit toLowerCase f)
             (withEndAtEos true noOpts) (mkPos 0 1) str).
  - rewrite nextLoop_eos by (cbn [advancedText pos offset]; lia).
    f_equal. f_equal. cbn [Nat.add pos offset].
    destruct str as [|a r] eqn:E; [reflexivity|].
    rewrite <- E. replace (Nat.eqb (length str) 0) with false
      by (rewrite E; reflexivity).
    cbn [append fold_left appendChunk].
    f_equal. f_equal. unfold substr. cbn [skipn]. apply firstn_all.
  - exact Hs1.
  - intros s' Hbo Hoff. split; [apply quiet_top; exact Hbo|].
    destruct (@plainText_inert str 0 true Hs1 (fun _ => eq_refl) Hp s' Hoff)
      as (c & Hc & Hh & Hsf).
    replace f with (S (f - 1)) by lia.
    exact (@node_inert _ None [] s' c Hc Hh Hsf).
Qed.

(** The loop of [parse] over plain text, a piece of markup for which [node]
    returns a string, and plain text: the three are joined into one string. *)
Lemma nextLoop_around (pre mid post u : jsstring) (c0 : N)
    (nd : option (list jsstring) -> list jsstring -> M value) (f : nat) :
  str = pre ++ (mid ++ [c0]) ++ post ->
  N.eqb c0 10 = false ->
  u <> [] ->
  plainText toLowerCase true pre = true ->
  plainText toLowerCase false post = true ->
  (forall s c, nth_error str (offset (pos s)) = Some c ->
               unitAvoids toLowerCase hardChars c = true ->
               unitAvoids toLowerCase softChars c = true
               \/ isStartOfLine str (pos s) = false ->
               nd None [] s = Ok VNull s) ->
  (forall s, offset (pos s) = length pre -> backtrackOn s = [] ->
             nd None [] s =
             Ok (VStr u)
                (mkState (mkPos (length pre + length (mid ++ [c0]))
                                (lineNumber (pos s)))
                         (backtrackOn s) (backtrackingCount s) (stack s))) ->
  exists s',
    nextLoop str lower limit nd (length pre + S (length post + S f))
             (withEndAtEos true noOpts) (mkPos 0 1) 0 0 [] initialState =
    Ok (Some [VStr (pre ++ u ++ post)]) s'.
Proof.
  intros Hstr Hc0 Hu Hpre Hpost Hplain Hent.
  assert (Hs1 : forall j c, nth_error pre j = Some c ->
                            nth_error str (0 + j) = Some c).
  { intros j c Hj. rewrite Hstr. cbn [Nat.add].
    rewrite nth_error_app1; [exact Hj|]. apply nth_error_Some. congruence. }
  assert (Hs2 : exists c, nth_error str (length pre) = Some c).
  { rewrite Hstr, nth_error_app2 by lia. rewrite Nat.sub_diag.
    destruct mid as [|m mid']; [exists c0 | exists m]; reflexivity. }
  assert (Hs3 : forall j c, nth_error post j = Some c ->
              nth_error str (length pre + length (mid ++ [c0]) + j) = Some c).
  { intros j c Hj. rewrite Hstr, nth_error_app2 by lia.
    rewrite nth_error_app2 by lia.
    replace (length pre + length (mid ++ [c0]) + j - length pre
             - length (mid ++ [c0])) with j by lia.
    exact Hj. }
  assert (Hsol : isStartOfLine str
                   (mkPos (length pre + length (mid ++ [c0])) 0) = true ->
                 false = true).
  { rewrite length_app. cbn [length]. rewrite Nat.add_1_r, Nat.add_succ_r.
    rewrite (@isStartOfLine_next (length pre + length mid) 0 c0);
      [rewrite Hc0; discriminate|].
    rewrite Hstr, nth_error_app2 by lia.
    replace (length pre + length mid - length pre) with (length mid) by lia.
    rewrite <- app_assoc. rewrite nth_error_app2 by lia.
    rewrite Nat.sub_diag. reflexivity. }
  destruct Hs2 as [c2 Hs2].
  eexists.
  rewrite (@nextLoop_text nd (withEndAtEos true noOpts) (mkPos 0 1) pre).
  2:{ exact Hs1. }
  2:{ intros s' Hbo Hoff. split; [apply quiet_top; exact Hbo|].
      destruct (@plainText_inert pre 0 true Hs1 (fun _ => eq_refl) Hpre s' Hoff)
        as (c & Hc & Hh & Hsf).
      exact (Hplain s' c Hc Hh Hsf). }
  set (sa := advancedText pre initialState).
  assert (Hoa : offset (pos sa) = length pre) by reflexivity.
  assert (Htr : truthy (VStr u) = true) by (destruct u; [congruence | reflexivity]).
  rewrite (@nextLoop_hit nd (length post + S f) (withEndAtEos true noOpts) (mkPos 0 1)
             _ _ [] sa c2 _ _ (ltac:(rewrite Hoa; exact Hs2))
             (quiet_top sa eq_refl) (Hent (pushed sa) Hoa eq_refl) Htr).
  cbn [pos backtrackOn backtrackingCount stack pushed].
  change (stack sa) with (@nil Pos). cbn [app removelast].
  rewrite (@nextLoop_text nd (withEndAtEos true noOpts) (mkPos 0 1) post).
  2:{ exact Hs3. }
  2:{ intros s' Hbo Hoff. split; [apply quiet_top; exact Hbo|].
      cbn [pos offset] in Hoff.
      destruct (@plainText_inert post _ false Hs3 Hsol Hpost s' Hoff)
        as (c & Hc & Hh & Hsf).
      exact (Hplain s' c Hc Hh Hsf). }
  rewrite nextLoop_eos.
  2:{ cbn [advancedText pos offset]. rewrite Hstr, !length_app. cbn [length]. lia. }
  f_equal. f_equal.
  cbn [Nat.add pos offset].
  destruct pre as [|a pre'], post as [|b post'].
  - cbn [length Nat.eqb negb Nat.add app]. cbn [append fold_left appendChunk concatNode].
    rewrite app_nil_r. reflexivity.
  - cbn [length Nat.eqb negb Nat.add app]. cbn [append fold_left appendChunk concatNode].
    change (S (length post')) with (length (b :: post')).
    rewrite (@substr_at (b :: post')); [reflexivity|]. exact Hs3.
  - cbn [length Nat.eqb negb Nat.add]. cbn [append fold_left appendChunk concatNode].
    change (S (length pre')) with (length (a :: pre')).
    change (offset (pos initialState)) with 0.
    rewrite (@substr_at (a :: pre') 0 Hs1). rewrite app_nil_r. reflexivity.
  - cbn [length Nat.eqb negb Nat.add]. cbn [append fold_left appendChunk concatNode].
    change (S (length pre')) with (length (a :: pre')).
    change (S (length post')) with (length (b :: post')).
    change (offset (pos initialState)) with 0.
    rewrite (@substr_at (a :: pre') 0 Hs1).
    rewrite (@substr_at (b :: post')); [|exact Hs3].
    rewrite <- app_assoc. reflexivity.
Qed.

(** The same for [this.next({endAtEos: true})] with the real [node]. *)
Lemma next_around (pre mid post u : jsstring) (c0 : N) (f : nat) :
  str = pre ++ (mid ++ [c0]) ++ post ->
  N.eqb c0 10 = false ->
  u <> [] ->
  plainText toLowerCase true pre = true ->
  plainText toLowerCase false post = true ->
  (forall s, offset (pos s) = length pre -> backtrackOn s = [] ->
             node str lower limit toLowerCase f None [] s =
             Ok (VStr u)
                (mkState (mkPos (length pre + length (mid ++ [c0]))
                                (lineNumber (pos s)))
                         (backtrackOn s) (backtrackingCount s) (stack s))) ->
  length pre + length post + 2 <= f ->
  exists s',
    next str lower limit toLowerCase (S f) (withEndAtEos true noOpts) initialState =
    Ok (Some [VStr (pre ++ u ++ post)]) s'.
Proof.
  intros Hstr Hc0 Hu Hpre Hpost Hent Hf.
  destruct (@nextLoop_around pre mid post u c0 (node str lower limit toLowerCase f)
              (f - length pre - length post - 2) Hstr Hc0 Hu Hpre Hpost)
    as [s' Hs'].
  - intros s c Hc Hh Hsf.
    replace f with (S (f - 1)) by lia. exact (@node_inert _ None [] s c Hc Hh Hsf).
  - exact Hent.
  - exists s'. rewrite <- Hs'.
    replace (length pre + S (length post + S (f - length pre - length post - 2)))
      with f by lia.
    reflexivity.
Qed.

(** [node] at a named entity of the group of [&], in any mix of capitals. *)
Lemma node_named (name : string) (repl spelled : jsstring) (f : nat)
    (allow : option (list jsstring)) (disallow : list jsstring) (s : State) :
  In (name, repl) namedEntities ->
  map asciiLower spelled = js (String.append "&" (String.append name ";")) ->
  Forall (fun c => (c < 128)%N) spelled ->
  (forall i c, nth_error spelled i = Some c ->
               nth_error str (offset (pos s) + i) = Some c) ->
  typeFiltered (Some (js name)) allow disallow = false ->
  node str lower limit toLowerCase (S (S f)) allow disallow s =
  Ok (VStr repl)
     (mkState (mkPos (offset (pos s) + length spelled) (lineNumber (pos s)))
              (backtrackOn s) (backtrackingCount s) (stack s)).
Proof.
  intros Hin Hmap Hlt Hstr Hfilter.
  assert (Hl : forall i c,
             nth_error (js (String.append "&" (String.append name ";"))) i = Some c ->
             nth_error lower (offset (pos s) + i) = Some [c]).
  { rewrite <- Hmap. intros i c Hi. rewrite nth_error_map in Hi.
    destruct (nth_error spelled i) as [d|] eqn:E; [|discriminate].
    injection Hi as <-. rewrite nth_error_map, (Hstr i d E). cbn [option_map].
    rewrite Hascii; [reflexivity|].
    rewrite Forall_forall in Hlt. apply Hlt. eapply nth_error_In. exact E. }
  assert (Hlen : length spelled
                 = length (js (String.append "&" (String.append name ";"))))
    by (rewrite <- Hmap, length_map; reflexivity).
  clear Hmap Hlt Hstr.
  unfold namedEntities in Hin. cbn [In] in Hin.
  repeat (destruct Hin as [Hin | Hin]; [injection Hin as <- <-|]);
    [..|contradiction];
    (apply node_amp_hit;
     [ rewrite <- (Nat.add_0_r (offset (pos s))); apply Hl; reflexivity
     | unfold entityGroup;
       match type of Hl with
       | forall i c, nth_error ?T i = Some c -> _ =>
           assert (Hl1 : forall i c,
                      nth_error (tl T) i = Some c ->
                      nth_error lower (offset (pos (advancedText (js "&") s)) + i)
                      = Some [c])
             by (intros i c Hi; cbn [advancedText pos offset];
                 change (length (js "&")) with 1;
                 replace (offset (pos s) + 1 + i) with (offset (pos s) + S i) by lia;
                 apply Hl; exact Hi)
       end;
       cbn [tl js String.append] in Hl1;
       repeat (rewrite nodeLoop_cons;
               rewrite nodeEntry_skip
                 by (unfold startsWithP; eapply startsWithAt_text;
                     [exact Hl1 | reflexivity]));
       rewrite nodeLoop_cons;
       rewrite nodeEntry_replacement_hit;
       [ f_equal; unfold advancedText;
         cbn [pos offset lineNumber backtrackOn backtrackingCount stack];
         rewrite Hlen; f_equal; f_equal; cbn; lia
       | unfold startsWithP; eapply startsWithAt_text; [exact Hl1 | reflexivity]
       | exact Hfilter
       | reflexivity ]
     | reflexivity ]).
Qed.

(** [this.next({endAtEos: true})] of [parse] on plain text around a named
    entity. *)
Lemma next_named (name : string) (repl spelled pre post : jsstring) (f : nat) :
  str = pre ++ spelled ++ post ->
  In (name, repl) namedEntities ->
  map asciiLower spelled = js (String.append "&" (String.append name ";")) ->
  Forall (fun c => (c < 128)%N) spelled ->
  plainText toLowerCase true pre = true ->
  plainText toLowerCase false post = true ->
  length pre + length post + 4 <= f ->
  exists s',
    next str lower limit toLowerCase (S f) (withEndAtEos true noOpts) initialState =
    Ok (Some [VStr (pre ++ repl ++ post)]) s'.
Proof.
  intros Hstr Hin Hmap Hlt Hpre Hpost Hf.
  destruct (exists_last (l := spelled)) as (mid & c0 & Hsp).
  { intros E. rewrite E in Hmap. destruct name; discriminate. }
  assert (Hc0 : N.eqb c0 10 = false).
  { assert (Hlast : asciiLower c0 = 59%N).
    { assert (H : last (map asciiLower spelled) 0%N = 59%N).
      { rewrite Hmap. unfold namedEntities in Hin. cbn [In] in Hin.
        repeat (destruct Hin as [Hin | Hin]; [injection Hin as <- <-; reflexivity|]).
        contradiction. }
      rewrite Hsp, map_app in H. cbn [map] in H. rewrite last_last in H. exact H. }
    destruct (N.eqb_spec c0 10) as [->|]; [discriminate | reflexivity]. }
  assert (Hrepl : repl <> []).
  { unfold namedEntities in Hin. cbn [In] in Hin.
    repeat (destruct Hin as [Hin | Hin]; [injection Hin as <- <-; discriminate|]).
    contradiction. }
  rewrite Hsp in Hstr.
  apply (@next_around pre mid post repl c0 f Hstr Hc0 Hrepl Hpre Hpost); [|lia].
  intros s Hoff Hbo.
  replace f with (S (S (f - 2))) by lia.
  rewrite <- Hsp, <- Hoff.
  apply (@node_named name repl spelled (f - 2) None [] s Hin Hmap Hlt); [|reflexivity].
  intros i c Hi. rewrite Hstr, <- Hsp, Hoff, nth_error_app2 by lia.
  replace (length pre + i - length pre) with i by lia.
  rewrite nth_error_app1; [exact Hi|]. apply nth_error_Some. congruence.
Qed.

(** *** Quote markup *)

Lemma startsWithAt_quotes (n : nat) :
  forall off,
    (forall i, i < n -> nth_error lower (off + i) = Some [39%N]) ->
    startsWithAt lower (repeat 39%N n) off = true.
Proof.
  induction n as [|n IH]; intros off H; cbn [repeat startsWithAt]; [reflexivity|].
  rewrite <- (Nat.add_0_r off) at 1. rewrite (H 0) by lia.
  cbn [jsstring_eqb]. rewrite N.eqb_refl. cbn [andb].
  apply IH. intros i Hi. replace (S off + i) with (off + S i) by lia.
  apply H. lia.
Qed.

Lemma startsWithAt_quotes_short (n : nat) (rest : jsstring) :
  forall off,
    (forall i, i < n -> nth_error lower (off + i) = Some [39%N]) ->
    (forall u, nth_error lower (off + n) = Some u -> jsstring_eqb u [39%N] = false) ->
    startsWithAt lower (repeat 39%N n ++ 39%N :: rest) off = false.
Proof.
  induction n as [|n IH]; intros off H Hu; cbn [repeat app startsWithAt].
  - rewrite Nat.add_0_r in Hu.
    destruct (nth_error lower off) as [u|]; [|reflexivity].
    rewrite (Hu u eq_refl). reflexivity.
  - rewrite <- (Nat.add_0_r off) at 1. rewrite (H 0) by lia.
    cbn [jsstring_eqb]. rewrite N.eqb_refl. cbn [andb].
    apply IH.
    + intros i Hi. replace (S off + i) with (off + S i) by lia. apply H. lia.
    + intros u. replace (S off + n) with (off + S n) by lia. apply Hu.
Qed.

Lemma unitAvoids_quote (c : N) :
  unitAvoids toLowerCase hardChars c = true ->
  jsstring_eqb (toLowerCase [c]) [39%N] = false.
Proof.
  unfold unitAvoids. rewrite forallb_forall. intros H.
  apply negb_true_iff. apply H. simpl. tauto.
Qed.

Lemma inlineText_nth (t : jsstring) (i : nat) (c : N) :
  inlineText toLowerCase t = true -> nth_error t i = Some c ->
  unitAvoids toLowerCase hardChars c = true /\ N.eqb c 10 = false.
Proof.
  unfold inlineText. rewrite forallb_forall. intros H Hi.
  apply nth_error_In in Hi. specialize (H c Hi).
  apply andb_true_iff in H. destruct H as [H1 H2].
  apply negb_true_iff in H2. auto.
Qed.

Lemma inlineText_plain (t : jsstring) :
  inlineText toLowerCase t = true -> plainText toLowerCase false t = true.
Proof.
  induction t as [|c t IH]; [reflexivity|].
  cbn [inlineText forallb plainText]. intros H.
  apply andb_true_iff in H. destruct H as [H Ht].
  apply andb_true_iff in H. destruct H as [Hh Hn].
  apply negb_true_iff in Hn. rewrite Hn.
  unfold plainUnitAt. rewrite Hh, orb_true_r. cbn [andb negb].
  apply IH. exact Ht.
Qed.

Lemma inlineText_countNewlines (t : jsstring) :
  inlineText toLowerCase t = true -> countNewlines t = 0.
Proof.
  induction t as [|c t IH]; [reflexivity|].
  cbn [inlineText forallb]. intros H.
  apply andb_true_iff in H. destruct H as [H Ht].
  apply andb_true_iff in H. destruct H as [_ Hn].
  apply negb_true_iff in Hn.
  rewrite countNewlines_cons, (IH Ht). unfold countNewlines. cbn [filter].
  rewrite N.eqb_sym, Hn. reflexivity.
Qed.

(** The loop of [next] for a quote descriptor, from the first unit of the
    text to the closing apostrophes: the text is the content. *)
Lemma nextLoop_quoted (o : NextOpts) (n : nat) (t : jsstring) (f : nat)
    (originalPos : Pos) (s : State) :
  opt_end o = [repeat 39%N (S n)] ->
  opt_endAtEos o = false ->
  opt_backtrack o = [] ->
  opt_endBefore o = [] ->
  opt_endBeforeRegex o = None ->
  opt_endOn o = None ->
  opt_backtrackOn o = Some (isEndOfLine str) ->
  t <> [] ->
  inlineText toLowerCase t = true ->
  (forall i c, nth_error (t ++ repeat 39%N (S n)) i = Some c ->
               nth_error str (offset (pos s) + i) = Some c) ->
  isStartOfLine str (mkPos (offset (pos s)) 0) = false ->
  startsWithAnyP lower (opt_notEnd o) (pos (advancedText t s)) = false ->
  backtrackOn s = [isEndOfLine str] ->
  nextLoop str lower limit (node str lower limit toLowerCase (length t + S f))
           (length t + S f) o originalPos (offset (pos s)) 0 [] s =
  Ok (Some [VStr t])
     (mkState (mkPos (offset (pos s) + length t + S n) (lineNumber (pos s)))
              [] (backtrackingCount s) (stack s)).
Proof.
  intros Hend Heos Hbt Heb Hre Hon Hbo Hne Ht Hstr Hsol Hnot Hs.
  assert (Hstr1 : forall i c, nth_error t i = Some c ->
                              nth_error str (offset (pos s) + i) = Some c).
  { intros i c Hi. apply Hstr. rewrite nth_error_app1; [exact Hi|].
    apply nth_error_Some. congruence. }
  assert (Hstr2 : forall i, i < S n ->
                    nth_error str (offset (pos s) + length t + i) = Some 39%N).
  { intros i Hi. rewrite <- Nat.add_assoc. apply Hstr.
    rewrite nth_error_app2 by lia.
    replace (length t + i - length t) with i by lia.
    apply nth_error_repeat. exact Hi. }
  rewrite (@nextLoop_text (node str lower limit toLowerCase (length t + S f))
             o originalPos t).
  2:{ exact Hstr1. }
  2:{ intros s' Hbo' Hoff.
      destruct (@plainText_inert t (offset (pos s)) false Hstr1
                  (fun E => eq_trans (eq_sym Hsol) E) (inlineText_plain t Ht) s' Hoff)
        as (c & Hc & Hh & Hsf).
      assert (Hn : N.eqb c 10 = false).
      { assert (Hi : nth_error t (offset (pos s') - offset (pos s)) = Some c).
        { destruct (nth_error t (offset (pos s') - offset (pos s))) as [d|] eqn:E.
          - pose proof (Hstr1 _ _ E) as E'.
            replace (offset (pos s) + (offset (pos s') - offset (pos s)))
              with (offset (pos s')) in E' by lia.
            congruence.
          - apply nth_error_None in E. lia. }
        exact (proj2 (inlineText_nth t _ Ht Hi)). }
      split.
      - unfold quiet. rewrite Hbt, Heb, Hre, Hon, Hend.
        split.
        { apply (existsb_isEndOfLine s' Hc Hn). rewrite Hbo', Hs.
          constructor; [reflexivity | constructor]. }
        split; [reflexivity|]. split.
        { unfold startsWithAnyP at 1. cbn [existsb repeat].
          rewrite (@startsWithP_unit (pos s') (toLowerCase [c]) 39%N (repeat 39%N n)).
          - reflexivity.
          - rewrite nth_error_map, Hc. reflexivity.
          - apply unitAvoids_quote. exact Hh. }
        repeat split; reflexivity.
      - replace (length t + S f) with (S (length t + f)) by lia.
        exact (@node_inert _ (opt_allow o) (opt_disallow o) s' c Hc Hh Hsf). }
  set (s1 := advancedText t s).
  assert (Hc1 : nth_error str (offset (pos s1)) = Some 39%N).
  { subst s1. cbn [advancedText pos offset].
    rewrite <- (Nat.add_0_r (offset (pos s) + length t)). apply Hstr2. lia. }
  assert (Hq : startsWithP lower (repeat 39%N (S n)) (pos s1) = true).
  { unfold startsWithP. apply startsWithAt_quotes. intros i Hi.
    apply (@lower_nth _ 39%N); [|reflexivity].
    subst s1. cbn [advancedText pos offset]. apply Hstr2. exact Hi. }
  cbn [nextLoop]. unfold bind at 1, getPos at 1.
  rewrite (isEnd_false _ Hc1). cbn [andb].
  unfold bind at 1, someBacktrackOn at 1.
  rewrite (@existsb_isEndOfLine s1 39%N Hc1 eq_refl)
    by (subst s1; cbn [advancedText backtrackOn]; rewrite Hs;
        constructor; [reflexivity | constructor]).
  rewrite Hbt. change (startsWithAnyP lower [] (pos s1)) with false.
  cbn [orb]. rewrite Hend.
  assert (Hany : startsWithAnyP lower [repeat 39%N (S n)] (pos s1) = true).
  { unfold startsWithAnyP. cbn [existsb]. rewrite Hq. reflexivity. }
  rewrite Hany. fold s1 in Hnot. rewrite Hnot.
  cbn [orb andb negb].
  unfold bind at 1, eatAny at 1. cbn [eatAnyFrom].
  unfold bind at 1, startsWith at 1. unfold bind at 1, getPos at 1, ret at 1.
  rewrite Hq. unfold bind at 1, advance at 1, ret at 1.
  unfold nextFinish. unfold bind, when, popBacktrackOn, ret.
  rewrite Hbo. cbn [isSome]. cbv iota.
  subst s1. cbn [advancedText pos offset lineNumber backtrackOn backtrackingCount stack].
  rewrite Hs. cbn [removelast].
  rewrite (inlineText_countNewlines t Ht).
  assert (Hq0 : countNewlines (repeat 39%N (S n)) = 0).
  { clear. induction (S n) as [|k IH]; [reflexivity|].
    cbn [repeat]. rewrite countNewlines_cons, IH. reflexivity. }
  rewrite Hq0, repeat_length, !Nat.add_0_r.
  destruct t as [|c0 t']; [congruence|].
  cbn [Nat.eqb length Nat.add].
  change (S (length t')) with (length (c0 :: t')).
  rewrite (@substr_at (c0 :: t') (offset (pos s)) Hstr1).
  reflexivity.
Qed.

(** [next] on the options of a quote descriptor, after the opening
    apostrophes. *)
Lemma next_quoted (o : NextOpts) (n : nat) (t : jsstring) (f : nat) (s : State) :
  opt_end o = [repeat 39%N (S n)] ->
  opt_endAtEos o = false ->
  opt_backtrack o = [] ->
  opt_endBefore o = [] ->
  opt_endBeforeRegex o = None ->
  opt_endOn o = None ->
  opt_backtrackOn o = Some (isEndOfLine str) ->
  t <> [] ->
  inlineText toLowerCase t = true ->
  (forall i c, nth_error (t ++ repeat 39%N (S n)) i = Some c ->
               nth_error str (offset (pos s) + i) = Some c) ->
  isStartOfLine str (mkPos (offset (pos s)) 0) = false ->
  startsWithAnyP lower (opt_notEnd o) (pos (advancedText t s)) = false ->
  backtrackOn s = [] ->
  next str lower limit toLowerCase (S (length t + S f)) o s =
  Ok (Some [VStr t])
     (mkState (mkPos (offset (pos s) + length t + S n) (lineNumber (pos s)))
              [] (backtrackingCount s) (stack s)).
Proof.
  intros Hend Heos Hbt Heb Hre Hon Hbo Hne Ht Hstr Hsol Hnot Hs.
  cbn [next]. unfold nextImpl. rewrite Hend. cbv iota.
  unfold bind at 1, getPos at 1. rewrite Hbo.
  unfold bind at 1, pushBacktrackOn at 1. rewrite Hs. cbn [app].
  apply (@nextLoop_quoted o n t f (pos s)
           (mkState (pos s) [isEndOfLine str] (backtrackingCount s) (stack s)));
    try assumption; reflexivity.
Qed.

(** A descriptor without [func] whose start matches: the list that [next]
    returns is the content of the node. *)
Lemma nodeEntry_declarative_hit (nx : NextOpts -> M (option (list value)))
    (allow : option (list jsstring)) (disallow : list jsstring)
    (type start : string) (opts : NextOpts) (originalPos : Pos)
    (continue_ : M value) (s : State) (l : list value) (s2 : State) :
  startsWithP lower (js start) (pos s) = true ->
  typeFiltered (Some (js type)) allow disallow = false ->
  nx opts (advancedText (js start) s) = Ok (Some l) s2 ->
  nodeEntry lower limit nx allow disallow
            (declarative type start None None opts None) originalPos
            continue_ s = Ok (typedNode type l) s2.
Proof.
  intros Hs Hf Hnx. unfold declarative. cbn [nodeEntry nt_start nt_type nt_preCondition
    nt_keepStart nt_postCondition nt_func nt_replaceWith nt_postProcess nt_opts].
  unfold bind at 1, getPos at 1. rewrite Hs, Hf. cbn [negb orb].
  unfold bind at 1, eat at 1. unfold bind at 1, startsWith at 1.
  unfold bind at 1, getPos at 1, ret at 1. rewrite Hs.
  unfold bind at 1, advance at 1, ret at 1.
  unfold bind at 1, getPos at 1.
  unfold bind at 1. unfold bind at 1.
  fold (advancedText (js start) s). rewrite Hnx.
  reflexivity.
Qed.

(** [node] at the opening apostrophes of a piece of quote markup. *)
Lemma node_quote (ty : string) (n : nat) (t : jsstring) (F : nat) (s : State) :
  In (ty, n) quoteMarkup ->
  t <> [] ->
  inlineText toLowerCase t = true ->
  (forall i c, nth_error (repeat 39%N n ++ t ++ repeat 39%N n) i = Some c ->
               nth_error str (offset (pos s) + i) = Some c) ->
  (forall u, nth_error lower (offset (pos s) + n + length t + n) = Some u ->
             jsstring_eqb u [39%N] = false) ->
  backtrackOn s = [] ->
  length t + 3 <= F ->
  node str lower limit toLowerCase F None [] s =
  Ok (typedNode ty [VStr t])
     (mkState (mkPos (offset (pos s) + n + length t + n) (lineNumber (pos s)))
              [] (backtrackingCount s) (stack s)).
Proof.
  intros Hin Hne Ht Hstr Hafter Hs HF.
  replace F with (S (S (length t + S (F - length t - 3)))) by lia.
  set (f := F - length t - 3).
  assert (Hn : 2 <= n).
  { destruct Hin as [E|[E|[E|[]]]]; injection E as _ <-; lia. }
  assert (Hopen : forall i, i < n ->
            nth_error lower (offset (pos s) + i) = Some [39%N]).
  { intros i Hi. apply (@lower_nth _ 39%N); [|reflexivity].
    apply Hstr. rewrite nth_error_app1 by (rewrite repeat_length; exact Hi).
    apply nth_error_repeat. exact Hi. }
  assert (H0 : nth_error lower (offset (pos s)) = Some [39%N]).
  { rewrite <- (Nat.add_0_r (offset (pos s))). apply Hopen. lia. }
  destruct t as [|t0 t'] eqn:Et; [congruence|]. rewrite <- Et in *.
  assert (Ht0 : nth_error t 0 = Some t0) by (rewrite Et; reflexivity).
  assert (Hfirst : forall u, nth_error lower (offset (pos s) + n) = Some u ->
                     jsstring_eqb u [39%N] = false).
  { intros u Hu.
    assert (Hc : nth_error str (offset (pos s) + n) = Some t0).
    { apply Hstr. rewrite nth_error_app2 by (rewrite repeat_length; lia).
      rewrite repeat_length, Nat.sub_diag.
      rewrite nth_error_app1 by (rewrite Et; cbn [length]; lia). exact Ht0. }
    rewrite nth_error_map, Hc in Hu. injection Hu as <-.
    apply unitAvoids_quote. exact (proj1 (inlineText_nth t 0 Ht Ht0)). }
  assert (Hrun : forall o,
            opt_end o = [repeat 39%N n] ->
            opt_endAtEos o = false ->
            opt_backtrack o = [] ->
            opt_endBefore o = [] ->
            opt_endBeforeRegex o = None ->
            opt_endOn o = None ->
            opt_backtrackOn o = Some (isEndOfLine str) ->
            (forall x, In x (opt_notEnd o) -> exists r, x = repeat 39%N n ++ 39%N :: r) ->
            next str lower limit toLowerCase (S (length t + S f)) o
                 (advancedText (repeat 39%N n) s) =
            Ok (Some [VStr t])
               (mkState (mkPos (offset (pos s) + n + length t + n) (lineNumber (pos s)))
                        [] (backtrackingCount s) (stack s))).
  { intros o Hend Heos Hbt Heb Hre Hon Hbo Hnot.
    destruct n as [|n']; [lia|].
    rewrite (@next_quoted o n' t f (advancedText (repeat 39%N (S n')) s)
               Hend Heos Hbt Heb Hre Hon Hbo Hne Ht).
    - cbn [advancedText pos offset lineNumber backtrackingCount stack].
      rewrite repeat_length.
      assert (Hq0 : countNewlines (repeat 39%N (S n')) = 0).
      { clear. induction (S n') as [|k IH]; [reflexivity|].
        cbn [repeat]. rewrite countNewlines_cons, IH. reflexivity. }
      rewrite Hq0, Nat.add_0_r. reflexivity.
    - intros i c Hi. cbn [advancedText pos offset]. rewrite repeat_length.
      rewrite <- Nat.add_assoc. apply Hstr.
      rewrite nth_error_app2 by (rewrite repeat_length; lia).
      rewrite repeat_length. replace (S n' + i - S n') with i by lia. exact Hi.
    - cbn [advancedText pos offset]. rewrite repeat_length.
      rewrite Nat.add_succ_r.
      rewrite (@isStartOfLine_next (offset (pos s) + n') 0 39%N); [reflexivity|].
      apply Hstr. rewrite nth_error_app1 by (rewrite repeat_length; lia).
      apply nth_error_repeat. lia.
    - unfold startsWithAnyP. apply not_true_is_false. intros E.
      apply existsb_exists in E. destruct E as (x & Hx & E).
      destruct (Hnot x Hx) as [r ->].
      unfold startsWithP in E.
      rewrite startsWithAt_quotes_short in E; [discriminate| |].
      + intros i Hi. cbn [advancedText pos offset]. rewrite repeat_length.
        apply (@lower_nth _ 39%N); [|reflexivity].
        replace (offset (pos s) + S n' + length t + i)
          with (offset (pos s) + (S n' + length t + i)) by lia.
        apply Hstr. rewrite nth_error_app2 by (rewrite repeat_length; lia).
        rewrite repeat_length. rewrite nth_error_app2 by lia.
        replace (S n' + length t + i - S n' - length t) with i by lia.
        apply nth_error_repeat. exact Hi.
      + intros u. cbn [advancedText pos offset]. rewrite repeat_length.
        apply Hafter.
    - exact Hs. }
  cbn [node]. unfold nodeImpl. unfold bind at 1, getPos at 1. unfold grammar.
  do 2 (rewrite nodeLoop_cons;
        rewrite nodeEntry_skip
          by (eapply startsWithP_first; [exact H0 | reflexivity])).
  destruct Hin as [E|[E|[E|[]]]]; injection E as <- <-.
  - rewrite nodeLoop_cons.
    apply nodeEntry_declarative_hit.
    + unfold startsWithP. apply (@startsWithAt_quotes 5). exact Hopen.
    + reflexivity.
    + apply Hrun; try reflexivity. intros x [].
  - rewrite nodeLoop_cons.
    rewrite nodeEntry_skip
      by (unfold startsWithP; apply (@startsWithAt_quotes_short 3 [39%N]);
          [exact Hopen | exact Hfirst]).
    rewrite nodeLoop_cons.
    apply nodeEntry_declarative_hit.
    + unfold startsWithP. apply (@startsWithAt_quotes 3). exact Hopen.
    + reflexivity.
    + apply Hrun; try reflexivity. intros x [].
  - rewrite nodeLoop_cons.
    rewrite nodeEntry_skip
      by (unfold startsWithP; apply (@startsWithAt_quotes_short 2 [39%N; 39%N]);
          [exact Hopen | exact Hfirst]).
    rewrite nodeLoop_cons.
    rewrite nodeEntry_skip
      by (unfold startsWithP; apply (@startsWithAt_quotes_short 2 []);
          [exact Hopen | exact Hfirst]).
    rewrite nodeLoop_cons.
    apply nodeEntry_declarative_hit.
    + unfold startsWithP. apply (@startsWithAt_quotes 2). exact Hopen.
    + reflexivity.
    + apply Hrun; try reflexivity.
      intros x [E|[]]. subst x. exists []. reflexivity.
Qed.

(** The loop of [parse] over plain text, a piece of markup for which [node]
    returns an object, and plain text: the object stands between the two
    strings. *)
Lemma nextLoop_around_line (pre mid post : jsstring) (fs : list (jsstring * value))
    (c0 : N) (nd : option (list jsstring) -> list jsstring -> M value) (f : nat)
    (ln : State -> nat) (sol : bool) :
  str = pre ++ (mid ++ [c0]) ++ post ->
  (isStartOfLine str (mkPos (length pre + length (mid ++ [c0])) 0) = true ->
   sol = true) ->
  plainText toLowerCase true pre = true ->
  plainText toLowerCase sol post = true ->
  (forall s c, nth_error str (offset (pos s)) = Some c ->
               unitAvoids toLowerCase hardChars c = true ->
               unitAvoids toLowerCase softChars c = true
               \/ isStartOfLine str (pos s) = false ->
               nd None [] s = Ok VNull s) ->
  (forall s, offset (pos s) = length pre -> backtrackOn s = [] ->
             nd None [] s =
             Ok (VObj fs)
                (mkState (mkPos (length pre + length (mid ++ [c0])) (ln s))
                         (backtrackOn s) (backtrackingCount s) (stack s))) ->
  exists s',
    nextLoop str lower limit nd (length pre + S (length post + S f))
             (withEndAtEos true noOpts) (mkPos 0 1) 0 0 [] initialState =
    Ok (Some (textNode pre ++ VObj fs :: textNode post)) s'.
Proof.
  intros Hstr Hsol Hpre Hpost Hplain Hent.
  assert (Hs1 : forall j c, nth_error pre j = Some c ->
                            nth_error str (0 + j) = Some c).
  { intros j c Hj. rewrite Hstr. cbn [Nat.add].
    rewrite nth_error_app1; [exact Hj|]. apply nth_error_Some. congruence. }
  assert (Hs2 : exists c, nth_error str (length pre) = Some c).
  { rewrite Hstr, nth_error_app2 by lia. rewrite Nat.sub_diag.
    destruct mid as [|m mid']; [exists c0 | exists m]; reflexivity. }
  assert (Hs3 : forall j c, nth_error post j = Some c ->
              nth_error str (length pre + length (mid ++ [c0]) + j) = Some c).
  { intros j c Hj. rewrite Hstr, nth_error_app2 by lia.
    rewrite nth_error_app2 by lia.
    replace (length pre + length (mid ++ [c0]) + j - length pre
             - length (mid ++ [c0])) with j by lia.
    exact Hj. }
  destruct Hs2 as [c2 Hs2].
  eexists.
  rewrite (@nextLoop_text nd (withEndAtEos true noOpts) (mkPos 0 1) pre).
  2:{ exact Hs1. }
  2:{ intros s' Hbo Hoff. split; [apply quiet_top; exact Hbo|].
      destruct (@plainText_inert pre 0 true Hs1 (fun _ => eq_refl) Hpre s' Hoff)
        as (c & Hc & Hh & Hsf).
      exact (Hplain s' c Hc Hh Hsf). }
  set (sa := advancedText pre initialState).
  assert (Hoa : offset (pos sa) = length pre) by reflexivity.
  rewrite (@nextLoop_hit nd (length post + S f) (withEndAtEos true noOpts) (mkPos 0 1)
             _ _ [] sa c2 _ _ (ltac:(rewrite Hoa; exact Hs2))
             (quiet_top sa eq_refl) (Hent (pushed sa) Hoa eq_refl) eq_refl).
  cbn [pos backtrackOn backtrackingCount stack pushed].
  change (stack sa) with (@nil Pos). cbn [app removelast].
  rewrite (@nextLoop_text nd (withEndAtEos true noOpts) (mkPos 0 1) post).
  2:{ exact Hs3. }
  2:{ intros s' Hbo Hoff. split; [apply quiet_top; exact Hbo|].
      cbn [pos offset] in Hoff.
      destruct (@plainText_inert post _ sol Hs3 Hsol Hpost s' Hoff)
        as (c & Hc & Hh & Hsf).
      exact (Hplain s' c Hc Hh Hsf). }
  rewrite nextLoop_eos.
  2:{ cbn [advancedText pos offset]. rewrite Hstr, !length_app. cbn [length]. lia. }
  f_equal. f_equal.
  cbn [Nat.add pos offset].
  destruct pre as [|a pre'], post as [|b post'].
  - cbn [length Nat.eqb negb Nat.add app]. cbn [append fold_left appendChunk concatNode].
    reflexivity.
  - cbn [length Nat.eqb negb Nat.add app]. cbn [append fold_left appendChunk concatNode].
    change (S (length post')) with (length (b :: post')).
    rewrite (@substr_at (b :: post')); [reflexivity|]. exact Hs3.
  - cbn [length Nat.eqb negb Nat.add]. cbn [append fold_left appendChunk concatNode].
    change (S (length pre')) with (length (a :: pre')).
    change (offset (pos initialState)) with 0.
    rewrite (@substr_at (a :: pre') 0 Hs1). reflexivity.
  - cbn [length Nat.eqb negb Nat.add]. cbn [append fold_left appendChunk concatNode].
    change (S (length pre')) with (length (a :: pre')).
    change (S (length post')) with (length (b :: post')).
    change (offset (pos initialState)) with 0.
    rewrite (@substr_at (a :: pre') 0 Hs1).
    rewrite (@substr_at (b :: post')); [|exact Hs3].
    reflexivity.
Qed.

(** The same for [this.next({endAtEos: true})] with the real [node]. *)
Lemma next_around_line (pre mid post : jsstring) (fs : list (jsstring * value))
    (c0 : N) (f : nat) (ln : State -> nat) (sol : bool) :
  str = pre ++ (mid ++ [c0]) ++ post ->
  (isStartOfLine str (mkPos (length pre + length (mid ++ [c0])) 0) = true ->
   sol = true) ->
  plainText toLowerCase true pre = true ->
  plainText toLowerCase sol post = true ->
  (forall s, offset (pos s) = length pre -> backtrackOn s = [] ->
             node str lower limit toLowerCase f None [] s =
             Ok (VObj fs)
                (mkState (mkPos (length pre + length (mid ++ [c0])) (ln s))
                         (backtrackOn s) (backtrackingCount s) (stack s))) ->
  length pre + length post + 2 <= f ->
  exists s',
    next str lower limit toLowerCase (S f) (withEndAtEos true noOpts) initialState =
    Ok (Some (textNode pre ++ VObj fs :: textNode post)) s'.
Proof.
  intros Hstr Hsol Hpre Hpost Hent Hf.
  destruct (@nextLoop_around_line pre mid post fs c0 (node str lower limit toLowerCase f)
              (f - length pre - length post - 2) ln sol Hstr Hsol Hpre Hpost)
    as [s' Hs'].
  - intros s c Hc Hh Hsf.
    replace f with (S (f - 1)) by lia. exact (@node_inert _ None [] s c Hc Hh Hsf).
  - exact Hent.
  - exists s'. rewrite <- Hs'.
    replace (length pre + S (length post + S (f - length pre - length post - 2)))
      with f by lia.
    reflexivity.
Qed.

(** The markup ends within a line: the text after it does not start one. *)
Lemma next_around_node (pre mid post : jsstring) (fs : list (jsstring * value))
    (c0 : N) (f : nat) (ln : State -> nat) :
  str = pre ++ (mid ++ [c0]) ++ post ->
  N.eqb c0 10 = false ->
  plainText toLowerCase true pre = true ->
  plainText toLowerCase false post = true ->
  (forall s, offset (pos s) = length pre -> backtrackOn s = [] ->
             node str lower limit toLowerCase f None [] s =
             Ok (VObj fs)
                (mkState (mkPos (length pre + length (mid ++ [c0])) (ln s))
                         (backtrackOn s) (backtrackingCount s) (stack s))) ->
  length pre + length post + 2 <= f ->
  exists s',
    next str lower limit toLowerCase (S f) (withEndAtEos true noOpts) initialState =
    Ok (Some (textNode pre ++ VObj fs :: textNode post)) s'.
Proof.
  intros Hstr Hc0 Hpre Hpost Hent Hf.
  apply (@next_around_line pre mid post fs c0 f ln false Hstr); try assumption.
  rewrite length_app. cbn [length]. rewrite Nat.add_1_r, Nat.add_succ_r.
  rewrite (@isStartOfLine_next (length pre + length mid) 0 c0);
    [rewrite Hc0; discriminate|].
  rewrite Hstr, nth_error_app2 by lia.
  replace (length pre + length mid - length pre) with (length mid) by lia.
  rewrite <- app_assoc. rewrite nth_error_app2 by lia.
  rewrite Nat.sub_diag. reflexivity.
Qed.

(** [parse]'s [next] on plain text, a piece of quote markup and plain
    text. *)
Lemma next_quote_markup (ty : string) (n : nat) (pre t post : jsstring) (f : nat) :
  str = pre ++ (repeat 39%N n ++ t ++ repeat 39%N n) ++ post ->
  In (ty, n) quoteMarkup ->
  t <> [] ->
  inlineText toLowerCase t = true ->
  plainText toLowerCase true pre = true ->
  plainText toLowerCase false post = true ->
  length pre + length t + length post + 3 <= f ->
  exists s',
    next str lower limit toLowerCase (S f) (withEndAtEos true noOpts) initialState =
    Ok (Some (textNode pre ++ typedNode ty [VStr t] :: textNode post)) s'.
Proof.
  intros Hstr Hin Hne Ht Hpre Hpost Hf.
  assert (Hn : 2 <= n).
  { destruct Hin as [E|[E|[E|[]]]]; injection E as _ <-; lia. }
  destruct n as [|n']; [lia|].
  assert (Hmid : repeat 39%N (S n') ++ t ++ repeat 39%N (S n')
                 = (repeat 39%N (S n') ++ t ++ repeat 39%N n') ++ [39%N]).
  { rewrite <- !app_assoc. f_equal. f_equal.
    change [39%N] with (repeat 39%N 1). rewrite <- repeat_app.
    f_equal. lia. }
  rewrite Hmid in Hstr.
  apply (@next_around_node pre (repeat 39%N (S n') ++ t ++ repeat 39%N n') post
           _ 39%N f (fun s => lineNumber (pos s)) Hstr eq_refl Hpre Hpost); [|lia].
  intros s Hoff Hs.
  rewrite (@node_quote ty (S n') t f s Hin Hne Ht).
  - rewrite <- Hmid, Hs, Hoff, !length_app, !repeat_length.
    f_equal. f_equal. f_equal. lia.
  - intros i c Hi. rewrite Hstr, Hoff, <- Hmid.
    rewrite nth_error_app2 by lia.
    replace (length pre + i - length pre) with i by lia.
    rewrite nth_error_app1; [exact Hi|]. apply nth_error_Some. congruence.
  - intros u Hu. rewrite nth_error_map in Hu.
    destruct (nth_error str (offset (pos s) + S n' + length t + S n')) as [c|] eqn:Ec;
      [|discriminate].
    injection Hu as <-.
    assert (Hc : nth_error post 0 = Some c).
    { rewrite Hstr, Hoff, <- Hmid in Ec.
      rewrite nth_error_app2 in Ec by lia.
      rewrite nth_error_app2 in Ec
        by (rewrite !length_app, !repeat_length; lia).
      rewrite !length_app, !repeat_length in Ec.
      replace (length pre + S n' + length t + S n' - length pre
               - (S n' + (length t + S n'))) with 0 in Ec by lia.
      exact Ec. }
    destruct post as [|b post']; [discriminate|]. injection Hc as ->.
    cbn [plainText] in Hpost. apply andb_true_iff in Hpost.
    destruct Hpost as [Hb _]. unfold plainUnitAt in Hb.
    apply andb_true_iff in Hb. destruct Hb as [Hb _].
    apply unitAvoids_quote. exact Hb.
  - exact Hs.
  - lia.
Qed.

(** *** An empty [allow] list *)

Lemma nodeEntry_filtered (nx : NextOpts -> M (option (list value)))
    (disallow : list jsstring) (nt : NodeType) (originalPos : Pos)
    (continue_ : M value) (s : State) :
  nt_type nt <> None ->
  nodeEntry lower limit nx (Some []) disallow nt originalPos continue_ s = continue_ s.
Proof.
  intros H. destruct nt as [ty start keep pre post grp func repl pp opts].
  cbn [nt_type] in H. destruct ty as [ty|]; [|congruence].
  cbn [nodeEntry nt_start nt_type typeFiltered includes existsb negb orb].
  unfold bind at 1, getPos at 1. rewrite orb_true_r. reflexivity.
Qed.

Lemma nodeLoop_filtered (nx : NextOpts -> M (option (list value)))
    (disallow : list jsstring) (originalPos : Pos) (g : list NodeType) (s : State) :
  Forall (fun e => nt_type e <> None) g ->
  nodeLoop lower limit nx (Some []) disallow originalPos g s = Ok VNull s.
Proof.
  induction g as [|nt g IH]; intros H; [reflexivity|].
  inversion H; subst. rewrite nodeLoop_cons, nodeEntry_filtered by assumption.
  auto.
Qed.

(** A group whose descriptors are all filtered out finds nothing, and the
    cursor returns to where the caller was. *)
Lemma nodeEntry_group_filtered (nx : NextOpts -> M (option (list value)))
    (disallow : list jsstring) (nt : NodeType) (continue_ : M value) (s : State)
    (grp : list NodeType) :
  nt_group nt = Some grp ->
  allTyped nt ->
  nodeEntry lower limit nx (Some []) disallow nt (pos s) continue_ s = continue_ s.
Proof.
  intros Hg H. unfold allTyped in H. rewrite Hg in H.
  destruct H as (Hty & Hpre & Hpost & Hall).
  destruct nt as [ty start keep pre post grp' func repl pp opts].
  cbn [nt_type nt_preCondition nt_postCondition nt_group] in *. subst.
  cbn [nodeEntry nt_start nt_type nt_preCondition nt_keepStart nt_postCondition
         typeFiltered].
  unfold bind at 1, getPos at 1.
  destruct (startsWithP lower start (pos s)) eqn:Es; [|reflexivity].
  cbn [negb orb].
  assert (Hback : forall s1,
            backtrackOn s1 = backtrackOn s -> backtrackingCount s1 = backtrackingCount s ->
            stack s1 = stack s ->
            (p1 <- getPos;;
             result <- fold_right
                         (fun nt k => nodeEntry lower limit nx (Some []) disallow nt p1 k)
                         (ret VNull) grp;;
             (if isNullish result then setPos (pos s);; continue_ else ret result)) s1
            = continue_ s).
  { intros s1 H1 H2 H3. unfold bind at 1, getPos at 1. unfold bind at 1.
    pose proof (@nodeLoop_filtered nx disallow (pos s1) grp s1 Hall) as Hn.
    unfold nodeLoop in Hn. rewrite Hn. cbn [isNullish].
    unfold bind, setPos. rewrite H1, H2, H3. destruct s; reflexivity. }
  destruct keep.
  - unfold bind at 1, ret at 1. apply Hback; reflexivity.
  - unfold bind at 1, eat at 1. unfold bind at 1, startsWith at 1.
    unfold bind at 1, getPos at 1, ret at 1. rewrite Es.
    unfold bind at 1, advance at 1, ret at 1.
    apply Hback; reflexivity.
Qed.

Lemma nodeLoop_allTyped (nx : NextOpts -> M (option (list value)))
    (disallow : list jsstring) (g : list NodeType) (s : State) :
  Forall allTyped g ->
  nodeLoop lower limit nx (Some []) disallow (pos s) g s = Ok VNull s.
Proof.
  induction g as [|nt g IH]; intros H; [reflexivity|].
  inversion H as [|? ? Hnt Hrest]; subst. rewrite nodeLoop_cons.
  destruct (nt_group nt) as [grp|] eqn:Eg.
  - rewrite (@nodeEntry_group_filtered nx disallow nt _ s grp Eg Hnt). auto.
  - unfold allTyped in Hnt. rewrite Eg in Hnt.
    rewrite nodeEntry_filtered by assumption. auto.
Qed.

Lemma grammar_allTyped (nx : NextOpts -> M (option (list value)))
    (nd : option (list jsstring) -> list jsstring -> M value) (fuel : nat) :
  Forall allTyped (grammar str lower toLowerCase nx nd fuel).
Proof.
  unfold grammar, allTyped.
  repeat (apply Forall_cons;
          [cbn [nt_group group production declarative replacement nt_type
                  nt_preCondition nt_postCondition];
           try discriminate;
           repeat split;
           repeat (apply Forall_cons; [discriminate|]); apply Forall_nil|]).
  apply Forall_nil.
Qed.

(** With an empty [allow] list [node] finds nothing, whatever the input,
    and leaves the state as it is. *)
Lemma node_allow_nothing (fuel : nat) (disallow : list jsstring) (s : State) :
  node str lower limit toLowerCase (S fuel) (Some []) disallow s = Ok VNull s.
Proof.
  cbn [node]. unfold nodeImpl, bind, getPos.
  apply nodeLoop_allTyped. apply grammar_allTyped.
Qed.

(** *** Comments *)

Lemma startsWithAt_view (prefix : jsstring) :
  forall (text : jsstring) (off : nat),
    length prefix <= length text ->
    (forall j x, nth_error text j = Some x -> nth_error str (off + j) = Some x) ->
    startsWithAt lower prefix off = startsLower toLowerCase prefix text.
Proof.
  induction prefix as [|p prefix IH]; intros text off Hlen Hstr;
    cbn [startsWithAt startsLower]; [reflexivity|].
  destruct text as [|x text]; [cbn [length] in Hlen; lia|].
  rewrite nth_error_map.
  rewrite <- (Nat.add_0_r off) at 1. rewrite (Hstr 0 x eq_refl). cbn [option_map].
  rewrite (IH text (S off)).
  - destruct (jsstring_eqb (toLowerCase [x]) [p]); reflexivity.
  - cbn [length] in Hlen. lia.
  - intros j y Hj. replace (S off + j) with (off + S j) by lia. apply Hstr. exact Hj.
Qed.

Lemma occursLower_tail (prefix : jsstring) (c : jsstring) :
  forall i, occursLower toLowerCase prefix c = false -> i < length c ->
            startsLower toLowerCase prefix (skipn i c) = false.
Proof.
  induction c as [|x c IH]; intros i H Hi; [cbn [length] in Hi; lia|].
  cbn [occursLower] in H. apply orb_false_iff in H. destruct H as [H1 H2].
  destruct i as [|i]; [exact H1|].
  cbn [skipn]. apply IH; [exact H2 | cbn [length] in Hi; lia].
Qed.

Lemma startsLower_closer (w rest : jsstring) :
  w <> [] ->
  startsLower toLowerCase (js "-->") w = false ->
  startsLower toLowerCase (js "-->") (w ++ js "-->" ++ rest) = false.
Proof.
  intros Hw H.
  assert (Hd : toLowerCase [45%N] = [45%N]) by (apply Hascii; reflexivity).
  destruct w as [|x [|y [|z w']]]; [congruence| | |].
  - change (js "-->") with [45%N; 45%N; 62%N]. cbn [app startsLower].
    rewrite Hd. cbn [jsstring_eqb N.eqb Pos.eqb andb]. rewrite !andb_false_r. reflexivity.
  - change (js "-->") with [45%N; 45%N; 62%N]. cbn [app startsLower].
    rewrite Hd. cbn [jsstring_eqb N.eqb Pos.eqb andb]. rewrite !andb_false_r. reflexivity.
  - change (js "-->") with [45%N; 45%N; 62%N] in *. cbn [app startsLower] in *.
    exact H.
Qed.

(** The loop of [next] for a comment, from the first unit of the text to
    the closing [-->]: the text is the content, whatever markup it holds. *)
Lemma nextLoop_comment (c : jsstring) (f : nat) (originalPos : Pos) (s : State) :
  occursLower toLowerCase (js "-->") c = false ->
  (forall i x, nth_error (c ++ js "-->") i = Some x ->
               nth_error str (offset (pos s) + i) = Some x) ->
  backtrackOn s = [] ->
  nextLoop str lower limit (node str lower limit toLowerCase (length c + S f))
           (length c + S f) (withAllow (Some kEmpty) (withEnd [js "-->"] noOpts))
           originalPos (offset (pos s)) 0 [] s =
  Ok (Some (textNode c))
     (mkState (mkPos (offset (pos s) + length c + 3)
                     (lineNumber (pos s) + countNewlines c))
              [] (backtrackingCount s) (stack s)).
Proof.
  intros Hc Hstr Hs.
  set (o := withAllow (Some kEmpty) (withEnd [js "-->"] noOpts)).
  assert (Hstr1 : forall i x, nth_error c i = Some x ->
                              nth_error str (offset (pos s) + i) = Some x).
  { intros i x Hi. apply Hstr. rewrite nth_error_app1; [exact Hi|].
    apply nth_error_Some. congruence. }
  rewrite (@nextLoop_text (node str lower limit toLowerCase (length c + S f))
             o originalPos c).
  2:{ exact Hstr1. }
  2:{ intros s' Hbo Hoff. split.
      - unfold quiet. rewrite Hbo, Hs. split; [reflexivity|]. split; [reflexivity|].
        split; [|repeat split; reflexivity].
        change (opt_end o) with [js "-->"]. change (opt_notEnd o) with (@nil jsstring).
        unfold startsWithAnyP. cbn [existsb]. unfold startsWithP.
        rewrite (@startsWithAt_view (js "-->")
                   (skipn (offset (pos s') - offset (pos s)) (c ++ js "-->"))
                   (offset (pos s'))).
        + rewrite skipn_app.
          replace (offset (pos s') - offset (pos s) - length c) with 0 by lia.
          cbn [skipn].
          rewrite (@startsLower_closer _ []).
          * reflexivity.
          * intros E. apply (f_equal (@length N)) in E.
            rewrite length_skipn in E. cbn [length] in E. lia.
          * apply occursLower_tail; [exact Hc | lia].
        + rewrite length_skipn, length_app. change (length (js "-->")) with 3. lia.
        + intros j x Hj. rewrite nth_error_skipn in Hj.
          replace (offset (pos s') + j)
            with (offset (pos s) + (offset (pos s') - offset (pos s) + j)) by lia.
          apply Hstr. exact Hj.
      - replace (length c + S f) with (S (length c + f)) by lia.
        apply node_allow_nothing. }
  set (s1 := advancedText c s).
  assert (Hc1 : nth_error str (offset (pos s1)) = Some 45%N).
  { subst s1. cbn [advancedText pos offset]. apply Hstr.
    rewrite nth_error_app2 by lia. rewrite Nat.sub_diag. reflexivity. }
  assert (Hq : startsWithP lower (js "-->") (pos s1) = true).
  { unfold startsWithP. rewrite (@startsWithAt_view (js "-->") (js "-->")).
    - change (js "-->") with [45%N; 45%N; 62%N]. cbn [startsLower].
      rewrite !Hascii by reflexivity. reflexivity.
    - lia.
    - intros j x Hj. subst s1. cbn [advancedText pos offset].
      rewrite <- Nat.add_assoc. apply Hstr.
      rewrite nth_error_app2 by lia.
      replace (length c + j - length c) with j by lia. exact Hj. }
  cbn [nextLoop]. unfold bind at 1, getPos at 1.
  rewrite (isEnd_false _ Hc1). cbn [andb].
  unfold bind at 1, someBacktrackOn at 1.
  change (backtrackOn s1) with (backtrackOn s). rewrite Hs. cbn [existsb].
  change (startsWithAnyP lower (opt_backtrack o) (pos s1)) with false.
  cbn [orb].
  assert (Hany : startsWithAnyP lower (opt_end o) (pos s1) = true).
  { change (opt_end o) with [js "-->"]. unfold startsWithAnyP. cbn [existsb].
    rewrite Hq. reflexivity. }
  rewrite Hany.
  change (startsWithAnyP lower (opt_notEnd o) (pos s1)) with false.
  cbn [orb andb negb].
  unfold bind at 1, eatAny at 1. change (opt_end o) with [js "-->"].
  cbn [eatAnyFrom].
  unfold bind at 1, startsWith at 1. unfold bind at 1, getPos at 1, ret at 1.
  rewrite Hq. unfold bind at 1, advance at 1, ret at 1.
  unfold nextFinish. unfold bind, when, popBacktrackOn, ret.
  change (isSome (opt_backtrackOn o)) with false. cbv iota.
  subst s1. cbn [advancedText pos offset lineNumber backtrackOn backtrackingCount stack].
  rewrite Hs. change (countNewlines (js "-->")) with 0.
  change (length (js "-->")) with 3. rewrite !Nat.add_0_r.
  destruct c as [|c0 c']; [reflexivity|].
  cbn [Nat.eqb length Nat.add textNode].
  change (S (length c')) with (length (c0 :: c')).
  rewrite (@substr_at (c0 :: c') (offset (pos s)) Hstr1).
  reflexivity.
Qed.

Lemma next_comment (c : jsstring) (f : nat) (s : State) :
  occursLower toLowerCase (js "-->") c = false ->
  (forall i x, nth_error (c ++ js "-->") i = Some x ->
               nth_error str (offset (pos s) + i) = Some x) ->
  backtrackOn s = [] ->
  next str lower limit toLowerCase (S (length c + S f))
       (withAllow (Some kEmpty) (withEnd [js "-->"] noOpts)) s =
  Ok (Some (textNode c))
     (mkState (mkPos (offset (pos s) + length c + 3)
                     (lineNumber (pos s) + countNewlines c))
              [] (backtrackingCount s) (stack s)).
Proof.
  intros Hc Hstr Hs. cbn [next]. unfold nextImpl.
  change (opt_end (withAllow (Some kEmpty) (withEnd [js "-->"] noOpts)))
    with [js "-->"]. cbv iota.
  unfold bind at 1, getPos at 1.
  change (opt_backtrackOn (withAllow (Some kEmpty) (withEnd [js "-->"] noOpts)))
    with (@None (Pos -> bool)). cbv iota.
  unfold bind at 1, ret at 1.
  apply nextLoop_comment; assumption.
Qed.

(** A group that keeps its start and whose group yields a node. *)
Lemma nodeEntry_group_keep_hit (nx : NextOpts -> M (option (list value)))
    (allow : option (list jsstring)) (disallow : list jsstring)
    (start : string) (grp : list NodeType) (originalPos : Pos)
    (continue_ : M value) (s : State) (r : value) (s2 : State) :
  startsWithP lower (js start) (pos s) = true ->
  nodeLoop lower limit nx allow disallow (pos s) grp s = Ok r s2 ->
  isNullish r = false ->
  nodeEntry lower limit nx allow disallow (group start true grp) originalPos
            continue_ s = Ok r s2.
Proof.
  intros Hs Hg Hr. unfold group. cbn [nodeEntry nt_start nt_type nt_preCondition
    nt_keepStart nt_postCondition typeFiltered].
  unfold bind at 1, getPos at 1. rewrite Hs. cbn [negb orb].
  unfold bind at 1, ret at 1. unfold bind at 1, getPos at 1.
  unfold bind at 1. unfold nodeLoop in Hg. rewrite Hg. rewrite Hr. reflexivity.
Qed.

(** A descriptor without [func] and with a post-processor, whose start
    matches. *)
Lemma nodeEntry_declarative_post_hit (nx : NextOpts -> M (option (list value)))
    (allow : option (list jsstring)) (disallow : list jsstring)
    (type start : string) (opts : NextOpts) (pp : value -> M value)
    (originalPos : Pos) (continue_ : M value) (s : State) (l : list value)
    (s2 : State) (v : value) (s3 : State) :
  startsWithP lower (js start) (pos s) = true ->
  typeFiltered (Some (js type)) allow disallow = false ->
  nx opts (advancedText (js start) s) = Ok (Some l) s2 ->
  pp (typedNode type l) s2 = Ok v s3 ->
  isNullish v = false ->
  nodeEntry lower limit nx allow disallow
            (declarative type start None None opts (Some pp)) originalPos
            continue_ s = Ok v s3.
Proof.
  intros Hs Hf Hnx Hpp Hv. unfold declarative.
  cbn [nodeEntry nt_start nt_type nt_preCondition
    nt_keepStart nt_postCondition nt_func nt_replaceWith nt_postProcess nt_opts].
  unfold bind at 1, getPos at 1. rewrite Hs, Hf. cbn [negb orb].
  unfold bind at 1, eat at 1. unfold bind at 1, startsWith at 1.
  unfold bind at 1, getPos at 1, ret at 1. rewrite Hs.
  unfold bind at 1, advance at 1, ret at 1.
  unfold bind at 1, getPos at 1.
  unfold bind at 1. unfold bind at 1.
  fold (advancedText (js start) s). rewrite Hnx.
  unfold ret at 1. cbn [ofNullable isNullish arr wrapContent typeValue].
  unfold bind at 1. fold (typedNode type l). rewrite Hpp, Hv. reflexivity.
Qed.

(** [node] at a comment. *)
Lemma node_comment (c : jsstring) (F : nat) (s : State) :
  occursLower toLowerCase (js "-->") c = false ->
  (forall i x, nth_error (js "<!--" ++ c ++ js "-->") i = Some x ->
               nth_error str (offset (pos s) + i) = Some x) ->
  backtrackOn s = [] ->
  length c + 3 <= F ->
  node str lower limit toLowerCase F None [] s =
  Ok (typedNode "comment" (commentContent c))
     (mkState (mkPos (offset (pos s) + 4 + length c + 3)
                     (lineNumber (pos s) + countNewlines c))
              [] (backtrackingCount s) (stack s)).
Proof.
  intros Hc Hstr Hs HF.
  replace F with (S (S (length c + S (F - length c - 3)))) by lia.
  set (f := F - length c - 3).
  assert (H0 : nth_error lower (offset (pos s)) = Some [60%N]).
  { apply (@lower_nth _ 60%N); [|reflexivity].
    rewrite <- (Nat.add_0_r (offset (pos s))). apply Hstr. reflexivity. }
  assert (Hopen : startsWithP lower (js "<!--") (pos s) = true).
  { unfold startsWithP. rewrite (@startsWithAt_view (js "<!--") (js "<!--")).
    - change (js "<!--") with [60%N; 33%N; 45%N; 45%N]. cbn [startsLower].
      rewrite !Hascii by reflexivity. reflexivity.
    - lia.
    - intros j x Hj. apply Hstr. rewrite nth_error_app1; [exact Hj|].
      apply nth_error_Some. congruence. }
  cbn [node]. unfold nodeImpl. unfold bind at 1, getPos at 1. unfold grammar.
  do 12 (rewrite nodeLoop_cons;
         rewrite nodeEntry_skip
           by (eapply startsWithP_first; [exact H0 | reflexivity])).
  rewrite nodeLoop_cons.
  rewrite nodeEntry_skip
    by (eapply startsWithP_first; [exact H0 | reflexivity]).
  do 3 (rewrite nodeLoop_cons;
        rewrite nodeEntry_skip
          by (eapply startsWithP_first; [exact H0 | reflexivity])).
  rewrite nodeLoop_cons.
  apply nodeEntry_group_keep_hit; [apply startsWithP_one; exact H0 | | reflexivity].
  rewrite nodeLoop_cons.
  eapply nodeEntry_declarative_post_hit.
  - exact Hopen.
  - reflexivity.
  - apply (@next_comment c f (advancedText (js "<!--") s)).
    + exact Hc.
    + intros i x Hi. cbn [advancedText pos offset].
      change (length (js "<!--")) with 4.
      rewrite <- Nat.add_assoc. apply Hstr.
      change (js "<!--" ++ c ++ js "-->")
        with (60%N :: 33%N :: 45%N :: 45%N :: (c ++ js "-->")).
      exact Hi.
    + exact Hs.
  - cbn [advancedText pos offset lineNumber backtrackingCount stack].
    change (countNewlines (js "<!--")) with 0. change (length (js "<!--")) with 4.
    rewrite Nat.add_0_r.
    destruct c as [|c0 c']; reflexivity.
  - reflexivity.
Qed.

(** [parse]'s [next] on plain text, a comment and plain text. *)
Lemma next_comment_markup (pre c post : jsstring) (f : nat) :
  str = pre ++ (js "<!--" ++ c ++ js "-->") ++ post ->
  occursLower toLowerCase (js "-->") c = false ->
  plainText toLowerCase true pre = true ->
  plainText toLowerCase false post = true ->
  length pre + length c + length post + 3 <= f ->
  exists s',
    next str lower limit toLowerCase (S f) (withEndAtEos true noOpts) initialState =
    Ok (Some (textNode pre ++ typedNode "comment" (commentContent c) :: textNode post))
       s'.
Proof.
  intros Hstr Hc Hpre Hpost Hf.
  assert (Hmid : js "<!--" ++ c ++ js "-->" = (js "<!--" ++ c ++ js "--") ++ [62%N]).
  { rewrite <- !app_assoc. reflexivity. }
  rewrite Hmid in Hstr.
  apply (@next_around_node pre (js "<!--" ++ c ++ js "--") post _ 62%N f
           (fun s => lineNumber (pos s) + countNewlines c) Hstr eq_refl Hpre Hpost);
    [|lia].
  intros s Hoff Hs.
  rewrite (@node_comment c f s Hc).
  - rewrite <- Hmid, Hs, Hoff, !length_app.
    change (length (js "<!--")) with 4. change (length (js "-->")) with 3.
    f_equal. f_equal. f_equal. lia.
  - intros i x Hi. rewrite Hstr, Hoff, <- Hmid.
    rewrite nth_error_app2 by lia.
    replace (length pre + i - length pre) with i by lia.
    rewrite nth_error_app1; [exact Hi|]. apply nth_error_Some. congruence.
  - exact Hs.
  - lia.
Qed.

(** *** Links *)

Lemma eat_hit (chunk : jsstring) (err : bool) (s : State) :
  startsWithP lower chunk (pos s) = true ->
  eat lower chunk err s = Ok true (advancedText chunk s).
Proof.
  intros H. unfold eat, startsWith, bind, getPos, ret. rewrite H.
  unfold advance. reflexivity.
Qed.

Lemma eat_miss (chunk : jsstring) (s : State) :
  startsWithP lower chunk (pos s) = false ->
  eat lower chunk false s = Ok false s.
Proof.
  intros H. unfold eat, startsWith, bind, getPos, ret. rewrite H. reflexivity.
Qed.

(** The loop of [next] over a run of units where [node] finds nothing, up
    to a unit where [endBefore] stops it: the run is the content. *)
Lemma nextLoop_stop_before (nd : option (list jsstring) -> list jsstring -> M value)
    (o : NextOpts) (t : jsstring) (f : nat) (originalPos : Pos) (s : State) (c : N) :
  (forall i x, nth_error t i = Some x ->
               nth_error str (offset (pos s) + i) = Some x) ->
  (forall s', backtrackOn s' = backtrackOn s ->
              offset (pos s) <= offset (pos s') < offset (pos s) + length t ->
              quiet lower o s' /\ nd (opt_allow o) (opt_disallow o) s' = Ok VNull s') ->
  nth_error str (offset (pos s) + length t) = Some c ->
  existsb (fun x => x (pos (advancedText t s))) (backtrackOn s) = false ->
  startsWithAnyP lower (opt_backtrack o) (pos (advancedText t s)) = false ->
  (startsWithAnyP lower (opt_end o) (pos (advancedText t s))
   && negb (startsWithAnyP lower (opt_notEnd o) (pos (advancedText t s))))%bool = false ->
  startsWithAnyP lower (opt_endBefore o) (pos (advancedText t s)) = true ->
  nextLoop str lower limit nd (length t + S f) o originalPos (offset (pos s)) 0 [] s =
  Ok (Some (textNode t))
     (mkState (pos (advancedText t s))
              (if isSome (opt_backtrackOn o) then removelast (backtrackOn s)
               else backtrackOn s)
              (backtrackingCount s) (stack s)).
Proof.
  intros Hstr Hq Hc Hbo Hbt Hend Hbefore.
  rewrite (@nextLoop_text nd o originalPos t); [|exact Hstr|exact Hq].
  set (s1 := advancedText t s) in *.
  assert (Hc1 : nth_error str (offset (pos s1)) = Some c) by exact Hc.
  cbn [nextLoop]. unfold bind at 1, getPos at 1.
  rewrite (isEnd_false _ Hc1). cbn [andb].
  unfold bind at 1, someBacktrackOn at 1.
  change (backtrackOn s1) with (backtrackOn s). rewrite Hbo, Hbt. cbn [orb].
  rewrite Hend, Hbefore.
  unfold nextFinish. unfold bind, when, popBacktrackOn, ret.
  destruct (isSome (opt_backtrackOn o)).
  - destruct t as [|c0 t']; [reflexivity|].
    cbn [Nat.eqb length Nat.add textNode].
    change (S (length t')) with (length (c0 :: t')).
    rewrite (@substr_at (c0 :: t') (offset (pos s)) Hstr). reflexivity.
  - destruct t as [|c0 t'].
    + cbn [Nat.eqb length Nat.add textNode]. subst s1. unfold advancedText.
      destruct s as [[? ?] ? ? ?]. reflexivity.
    + cbn [Nat.eqb length Nat.add textNode].
      change (S (length t')) with (length (c0 :: t')).
      rewrite (@substr_at (c0 :: t') (offset (pos s)) Hstr).
      subst s1. reflexivity.
Qed.

Lemma parameterLoop_none (nx : NextOpts -> M (option (list value))) (n : nat)
    (close : jsstring) (allow : option (list jsstring))
    (parameters : list (jsstring * value)) (positional : jsarray) (s : State) :
  startsWithP lower (js "|") (pos s) = false ->
  parameterLoop str lower toLowerCase nx (S n) close allow parameters positional s =
  Ok (parameters, positional) s.
Proof.
  intros H. cbn [parameterLoop]. unfold bind at 1.
  rewrite (eat_miss _ _ H). reflexivity.
Qed.

Lemma nameText_nth (closers : list N) (t : jsstring) (i : nat) (c : N) :
  nameText toLowerCase closers t = true -> nth_error t i = Some c ->
  unitAvoids toLowerCase hardChars c = true
  /\ unitAvoids toLowerCase closers c = true /\ N.eqb c 10 = false.
Proof.
  unfold nameText. rewrite forallb_forall. intros H Hi.
  apply nth_error_In in Hi. specialize (H c Hi).
  apply andb_true_iff in H. destruct H as [H H3].
  apply andb_true_iff in H. destruct H as [H1 H2].
  apply negb_true_iff in H3. auto.
Qed.

Lemma nameText_inline (closers : list N) (t : jsstring) :
  nameText toLowerCase closers t = true -> inlineText toLowerCase t = true.
Proof.
  unfold nameText, inlineText. rewrite !forallb_forall. intros H c Hc.
  specialize (H c Hc). apply andb_true_iff in H. destruct H as [H H3].
  apply andb_true_iff in H. destruct H as [H1 _]. rewrite H1, H3. reflexivity.
Qed.

Lemma unitAvoids_in (chars : list N) (c x : N) :
  unitAvoids toLowerCase chars c = true -> In x chars ->
  jsstring_eqb (toLowerCase [c]) [x] = false.
Proof.
  unfold unitAvoids. rewrite forallb_forall. intros H Hx.
  apply negb_true_iff. apply H. exact Hx.
Qed.

Lemma takeWhile_run (p : N -> bool) (run rest : jsstring) :
  Forall (fun c => p c = true) run ->
  match rest with [] => true | c :: _ => negb (p c) end = true ->
  takeWhile p (run ++ rest) = run.
Proof.
  intros Hrun Hrest. induction Hrun as [|c run Hc _ IH]; cbn [app takeWhile].
  - destruct rest as [|c r]; [reflexivity|]. cbn [takeWhile].
    apply negb_true_iff in Hrest. rewrite Hrest. reflexivity.
  - rewrite Hc, IH. reflexivity.
Qed.

(** [next] over a name: a run of units in which nothing starts and that
    holds none of the units that [endBefore] begins with, up to a place
    where [endBefore] stops it. *)
Lemma next_name (o : NextOpts) (closers : list N) (t : jsstring) (c : N) (f : nat)
    (s : State) :
  opt_end o = [] ->
  opt_backtrack o = [] ->
  opt_endBeforeRegex o = None ->
  opt_endOn o = None ->
  opt_endBefore o <> [] ->
  (forall e, In e (opt_endBefore o) -> exists x r, e = x :: r /\ In x closers) ->
  opt_backtrackOn o = None \/ opt_backtrackOn o = Some (isEndOfLine str) ->
  nameText toLowerCase closers t = true ->
  (forall i x, nth_error (t ++ [c]) i = Some x ->
               nth_error str (offset (pos s) + i) = Some x) ->
  N.eqb c 10 = false ->
  startsWithAnyP lower (opt_endBefore o) (pos (advancedText t s)) = true ->
  isStartOfLine str (mkPos (offset (pos s)) 0) = false ->
  backtrackOn s = [] ->
  next str lower limit toLowerCase (S (length t + S f)) o s =
  Ok (Some (textNode t))
     (mkState (mkPos (offset (pos s) + length t) (lineNumber (pos s)))
              [] (backtrackingCount s) (stack s)).
Proof.
  intros Hend Hbt Hre Hon Hne Hcl Hbo Ht Hstr Hc Hstop Hsol Hs.
  assert (Hstr1 : forall i x, nth_error t i = Some x ->
                              nth_error str (offset (pos s) + i) = Some x).
  { intros i x Hi. apply Hstr. rewrite nth_error_app1; [exact Hi|].
    apply nth_error_Some. congruence. }
  assert (Hc1 : nth_error str (offset (pos s) + length t) = Some c).
  { apply Hstr. rewrite nth_error_app2 by lia. rewrite Nat.sub_diag. reflexivity. }
  assert (Hline : lineNumber (pos (advancedText t s)) = lineNumber (pos s)).
  { cbn [advancedText pos lineNumber].
    rewrite (inlineText_countNewlines t (nameText_inline closers t Ht)). lia. }
  assert (Hrun : forall bo,
            bo = [] \/ bo = [isEndOfLine str] ->
            nextLoop str lower limit
              (node str lower limit toLowerCase (length t + S f)) (length t + S f)
              o (pos s) (offset (pos s)) 0 []
              (mkState (pos s) bo (backtrackingCount s) (stack s)) =
            Ok (Some (textNode t))
               (mkState (pos (advancedText t s))
                        (if isSome (opt_backtrackOn o) then removelast bo else bo)
                        (backtrackingCount s) (stack s))).
  { intros bo Hbo'.
    assert (Hall : Forall (fun g => g = isEndOfLine str) bo).
    { destruct Hbo' as [-> | ->]; repeat constructor. }
    apply (@nextLoop_stop_before _ o t f (pos s)
             (mkState (pos s) bo (backtrackingCount s) (stack s)) c).
    - exact Hstr1.
    - intros s' Hbo'' Hoff. cbn [pos backtrackOn] in Hbo'', Hoff.
      destruct (@plainText_inert t (offset (pos s)) false Hstr1
                  (fun E => eq_trans (eq_sym Hsol) E)
                  (inlineText_plain t (nameText_inline closers t Ht)) s' Hoff)
        as (x & Hx & Hh & Hsf).
      assert (Hi : nth_error t (offset (pos s') - offset (pos s)) = Some x).
      { destruct (nth_error t (offset (pos s') - offset (pos s))) as [d|] eqn:E.
        - pose proof (Hstr1 _ _ E) as E'.
          replace (offset (pos s) + (offset (pos s') - offset (pos s)))
            with (offset (pos s')) in E' by lia.
          congruence.
        - apply nth_error_None in E. lia. }
      destruct (nameText_nth closers t _ Ht Hi) as (_ & Hcx & Hn).
      split.
      + unfold quiet. rewrite Hbt, Hend, Hre, Hon.
        split.
        { apply (existsb_isEndOfLine s' Hx Hn). rewrite Hbo''. exact Hall. }
        split; [reflexivity|]. split; [reflexivity|].
        split; [|split; reflexivity].
        unfold startsWithAnyP. apply not_true_is_false. intros E.
        apply existsb_exists in E. destruct E as (e & He & E).
        destruct (Hcl e He) as (y & r & -> & Hy).
        rewrite (@startsWithP_unit (pos s') (toLowerCase [x]) y r) in E;
          [discriminate| |].
        * rewrite nth_error_map, Hx. reflexivity.
        * apply (unitAvoids_in closers); assumption.
      + replace (length t + S f) with (S (length t + f)) by lia.
        exact (@node_inert _ (opt_allow o) (opt_disallow o) s' x Hx Hh Hsf).
    - exact Hc1.
    - cbn [backtrackOn].
      apply (@existsb_isEndOfLine
               (mkState (pos (advancedText t s)) bo (backtrackingCount s) (stack s)) c).
      + exact Hc1.
      + exact Hc.
      + exact Hall.
    - rewrite Hbt. reflexivity.
    - rewrite Hend. reflexivity.
    - exact Hstop. }
  change (next str lower limit toLowerCase (S (length t + S f)) o s)
    with (nextImpl str lower limit
            (node str lower limit toLowerCase (length t + S f)) (length t + S f) o s).
  unfold nextImpl. rewrite Hend.
  destruct (opt_endBefore o) as [|e es] eqn:Eb; [congruence|]. cbv iota.
  unfold bind at 1, getPos at 1.
  destruct Hbo as [Hbo|Hbo]; rewrite Hbo.
  - unfold bind at 1, ret at 1.
    pose proof (Hrun [] (or_introl eq_refl)) as H.
    replace (mkState (pos s) [] (backtrackingCount s) (stack s)) with s in H
      by (destruct s; cbn in *; congruence).
    rewrite H. rewrite Hbo. cbn [isSome].
    f_equal. f_equal. destruct (pos (advancedText t s)) as [o1 l1] eqn:E.
    cbn [lineNumber] in Hline. subst l1. f_equal.
    apply (f_equal offset) in E. cbn [advancedText pos offset] in E. congruence.
  - unfold bind at 1, pushBacktrackOn at 1. rewrite Hs. cbn [app].
    rewrite (Hrun _ (or_intror eq_refl)). rewrite Hbo. cbn [isSome removelast].
    f_equal. f_equal. destruct (pos (advancedText t s)) as [o1 l1] eqn:E.
    cbn [lineNumber] in Hline. subst l1. f_equal.
    apply (f_equal offset) in E. cbn [advancedText pos offset] in E. congruence.
Qed.

Lemma nth_error_middle (A B C : jsstring) (i : nat) (x : N) :
  nth_error B i = Some x -> nth_error (A ++ B ++ C) (length A + i) = Some x.
Proof.
  intros H. rewrite nth_error_app2 by lia.
  replace (length A + i - length A) with i by lia.
  rewrite nth_error_app1; [exact H|]. apply nth_error_Some. congruence.
Qed.

(** [link] on a page name that [\]\]] closes, followed by a trail of word
    characters. *)
Lemma link_run (A P run rest : jsstring) (f F : nat) (s : State) :
  str = A ++ (P ++ js "]]" ++ run) ++ rest ->
  offset (pos s) = length A ->
  P <> [] ->
  nameText toLowerCase [124%N; 93%N] P = true ->
  Forall (fun c => isWordChar c = true) run ->
  noTrail rest = true ->
  isStartOfLine str (mkPos (length A) 0) = false ->
  backtrackOn s = [] ->
  link str lower toLowerCase
       (next str lower limit toLowerCase (S (length P + S f))) (S F) s =
  Ok (VObj (linkFields P run))
     (mkState (mkPos (length A + length P + 2 + length run) (lineNumber (pos s)))
              [] (backtrackingCount s) (stack s)).
Proof.
  intros Hstr Hoff Hne HP Hrun Hrest Hsol Hs.
  assert (Hchars : forall i x, nth_error (P ++ js "]]" ++ run) i = Some x ->
                     nth_error str (length A + i) = Some x).
  { intros i x Hi. rewrite Hstr. apply nth_error_middle. exact Hi. }
  assert (Hb1 : nth_error lower (length A + length P) = Some [93%N]).
  { apply (@lower_nth _ 93%N); [|reflexivity]. apply Hchars.
    rewrite nth_error_app2 by lia. rewrite Nat.sub_diag. reflexivity. }
  assert (Hb2 : nth_error lower (length A + length P + 1) = Some [93%N]).
  { apply (@lower_nth _ 93%N); [|reflexivity]. rewrite <- Nat.add_assoc. apply Hchars.
    rewrite nth_error_app2 by lia.
    replace (length P + 1 - length P) with 1 by lia. reflexivity. }
  set (s1 := mkState (mkPos (length A + length P) (lineNumber (pos s)))
                     [] (backtrackingCount s) (stack s)).
  assert (Hclose : startsWithP lower (js "]]") (pos s1) = true).
  { unfold startsWithP. change (js "]]") with [93%N; 93%N]. cbn [startsWithAt].
    subst s1. cbn [pos offset]. rewrite Hb1.
    replace (S (length A + length P)) with (length A + length P + 1) by lia.
    rewrite Hb2. reflexivity. }
  assert (Hpage : next str lower limit toLowerCase (S (length P + S f))
                    (withBacktrackOn (isEndOfLine str)
                       (withAllow (Some [js "nbsp"])
                          (withEndBefore [js "|"; js "]]"] noOpts))) s =
                  Ok (Some [VStr P]) s1).
  { rewrite (@next_name _ [124%N; 93%N] P 93%N f s); try reflexivity.
    - rewrite Hoff. destruct P; [congruence | reflexivity].
    - discriminate.
    - intros e [<-|[<-|[]]]; do 2 eexists; (split; [reflexivity|]); simpl; tauto.
    - right. reflexivity.
    - exact HP.
    - intros i x Hi. rewrite Hoff. apply Hchars.
      destruct (Nat.lt_ge_cases i (length P)) as [Hlt|Hge].
      + rewrite nth_error_app1 in Hi by exact Hlt. rewrite nth_error_app1 by exact Hlt.
        exact Hi.
      + rewrite nth_error_app2 in Hi by exact Hge. rewrite nth_error_app2 by exact Hge.
        destruct (i - length P) as [|[|k]]; cbn in Hi |- *; try discriminate; exact Hi.
    - unfold startsWithAnyP. cbn [opt_endBefore withBacktrackOn withAllow withEndBefore
        existsb].
      replace (pos (advancedText P s)) with
        (mkPos (length A + length P) (lineNumber (pos s) + countNewlines P))
        by (cbn [advancedText pos]; rewrite Hoff; reflexivity).
      unfold startsWithP in Hclose |- *. cbn [offset pos] in Hclose |- *.
      subst s1. cbn [pos offset] in Hclose. rewrite Hclose. apply orb_true_r.
    - rewrite Hoff. exact Hsol.
    - exact Hs. }
  unfold link. unfold bind at 1. rewrite Hpage. cbv iota beta.
  unfold bind at 1.
  rewrite parameterLoop_none
    by (eapply startsWithP_first; [exact Hb1 | reflexivity]).
  cbn [fst snd]. unfold bind at 1. rewrite (eat_hit _ false _ Hclose).
  cbn [negb]. cbv iota. cbn [elems emptyArray fst snd].
  unfold bind at 1.
  set (s2 := advancedText (js "]]") s1).
  assert (Hskip : skipn (offset (pos s2)) str = run ++ rest).
  { subst s2 s1. cbn [advancedText pos offset]. change (length (js "]]")) with 2.
    rewrite Hstr. rewrite <- !app_assoc.
    rewrite skipn_app, skipn_all2 by lia. cbn [app].
    replace (length A + length P + 2 - length A) with (length P + 2) by lia.
    rewrite skipn_app, skipn_all2 by lia. cbn [app].
    replace (length P + 2 - length P) with 2 by lia. reflexivity. }
  unfold arr at 1. rewrite linkTrail_run.
  2:{ rewrite Hskip, (@takeWhile_run isWordChar run rest Hrun Hrest).
      rewrite Hstr, !length_app. lia. }
  rewrite Hskip, (@takeWhile_run isWordChar run rest Hrun Hrest).
  unfold ret.
  pose proof (append_chars [] (nth 0 (splitOn 35 (strTrim P)) []) run) as Happ.
  cbn [app] in Happ. rewrite Happ.
  unfold linkFields. cbv zeta.
  subst s2 s1. unfold advanced.
  cbn [advancedText pos offset lineNumber backtrackOn backtrackingCount stack].
  change (length (js "]]")) with 2. change (countNewlines (js "]]")) with 0.
  rewrite Nat.add_0_r.
  cbn [length Nat.eqb negb optionalField]. rewrite !app_nil_r.
  reflexivity.
Qed.

(** A descriptor with a [func] that returns an object: the type is merged
    into it. *)
Lemma nodeEntry_production_obj_hit (nx : NextOpts -> M (option (list value)))
    (allow : option (list jsstring)) (disallow : list jsstring)
    (type start : string) (func : M value) (originalPos : Pos)
    (continue_ : M value) (s : State) (fs : list (jsstring * value)) (s2 : State) :
  startsWithP lower (js start) (pos s) = true ->
  typeFiltered (Some (js type)) allow disallow = false ->
  func (advancedText (js start) s) = Ok (VObj fs) s2 ->
  nodeEntry lower limit nx allow disallow
            (production type start false None None func None) originalPos
            continue_ s =
  Ok (VObj (assignFields [(js "type", VStr (js type))] fs)) s2.
Proof.
  intros Hs Hf Hfunc. unfold production. cbn [nodeEntry nt_start nt_type nt_preCondition
    nt_keepStart nt_postCondition nt_func nt_replaceWith nt_postProcess].
  unfold bind at 1, getPos at 1. rewrite Hs, Hf. cbn [negb orb].
  unfold bind at 1, eat at 1. unfold bind at 1, startsWith at 1.
  unfold bind at 1, getPos at 1, ret at 1. rewrite Hs.
  unfold bind at 1, advance at 1, ret at 1.
  unfold bind at 1, getPos at 1.
  fold (advancedText (js start) s).
  unfold bind at 1. rewrite Hfunc. reflexivity.
Qed.

Lemma assignFields_link (P run : jsstring) :
  assignFields [(js "type", VStr (js "link"))] (linkFields P run)
  = (js "type", VStr (js "link")) :: linkFields P run.
Proof.
  unfold linkFields. cbv zeta.
  match goal with |- context [optionalField ?b _ _] => destruct b end; reflexivity.
Qed.

(** [node] at a link without parameters. *)
Lemma node_link (A P run rest : jsstring) (F : nat) (s : State) :
  str = A ++ (js "[[" ++ P ++ js "]]" ++ run) ++ rest ->
  offset (pos s) = length A ->
  P <> [] ->
  nameText toLowerCase [124%N; 93%N] P = true ->
  Forall (fun c => isWordChar c = true) run ->
  noTrail rest = true ->
  backtrackOn s = [] ->
  length P + 3 <= F ->
  node str lower limit toLowerCase F None [] s =
  Ok (linkNode P run)
     (mkState (mkPos (length A + length (js "[[" ++ P ++ js "]]" ++ run))
                     (lineNumber (pos s)))
              [] (backtrackingCount s) (stack s)).
Proof.
  intros Hstr Hoff Hne HP Hrun Hrest Hs HF.
  replace F with (S (S (length P + S (F - length P - 3)))) by lia.
  set (f := F - length P - 3).
  assert (H0 : nth_error lower (offset (pos s)) = Some [91%N]).
  { apply (@lower_nth _ 91%N); [|reflexivity].
    rewrite Hoff, Hstr. rewrite nth_error_app2 by lia. rewrite Nat.sub_diag.
    reflexivity. }
  assert (H1 : nth_error lower (S (offset (pos s))) = Some [91%N]).
  { apply (@lower_nth _ 91%N); [|reflexivity].
    rewrite Hoff, Hstr. rewrite nth_error_app2 by lia.
    replace (S (length A) - length A) with 1 by lia. reflexivity. }
  assert (Hopen : startsWithP lower (js "[[") (pos s) = true).
  { unfold startsWithP. change (js "[[") with [91%N; 91%N]. cbn [startsWithAt].
    rewrite H0, H1. reflexivity. }
  cbn [node]. unfold nodeImpl. unfold bind at 1, getPos at 1. unfold grammar.
  rewrite nodeLoop_cons.
  rewrite (@nodeEntry_production_obj_hit _ None [] "link" "[[" _ _ _ s
             (linkFields P run)
             (mkState (mkPos (length A + length (js "[[" ++ P ++ js "]]" ++ run))
                             (lineNumber (pos s)))
                      [] (backtrackingCount s) (stack s)) Hopen eq_refl).
  - rewrite assignFields_link. reflexivity.
  - rewrite (@link_run (A ++ js "[[") P run rest f _ (advancedText (js "[[") s)).
    + cbn [advancedText pos lineNumber backtrackingCount stack].
      change (countNewlines (js "[[")) with 0.
      rewrite !length_app. change (length (js "[[")) with 2.
      change (length (js "]]")) with 2.
      f_equal. f_equal. f_equal; lia.
    + rewrite Hstr. rewrite <- !app_assoc. reflexivity.
    + cbn [advancedText pos offset]. rewrite Hoff, length_app. reflexivity.
    + exact Hne.
    + exact HP.
    + exact Hrun.
    + exact Hrest.
    + rewrite length_app. change (length (js "[[")) with 2.
      rewrite Nat.add_succ_r.
      rewrite (@isStartOfLine_next (length A + 1) 0 91%N); [reflexivity|].
      rewrite Hstr. rewrite nth_error_app2 by lia.
      replace (length A + 1 - length A) with 1 by lia. reflexivity.
    + exact Hs.
Qed.

(** [parse]'s [next] on plain text, a link without parameters with its
    trail, and plain text. *)
Lemma next_link_markup (pre P run rest : jsstring) (f : nat) :
  str = pre ++ (js "[[" ++ P ++ js "]]" ++ run) ++ rest ->
  P <> [] ->
  nameText toLowerCase [124%N; 93%N] P = true ->
  Forall (fun c => isWordChar c = true) run ->
  noTrail rest = true ->
  plainText toLowerCase true pre = true ->
  plainText toLowerCase false rest = true ->
  length pre + length P + length rest + 3 <= f ->
  exists s',
    next str lower limit toLowerCase (S f) (withEndAtEos true noOpts) initialState =
    Ok (Some (textNode pre ++ linkNode P run :: textNode rest)) s'.
Proof.
  intros Hstr Hne HP Hrun Hrest Hpre Hpost Hf.
  assert (Hlast : exists mid c0,
             js "[[" ++ P ++ js "]]" ++ run = mid ++ [c0] /\ N.eqb c0 10 = false).
  { destruct run as [|r0 run'] using rev_ind.
    - exists (js "[[" ++ P ++ [93%N]), 93%N. split; [|reflexivity].
      rewrite app_nil_r, <- !app_assoc. reflexivity.
    - exists (js "[[" ++ P ++ js "]]" ++ run'), r0. split.
      + rewrite <- !app_assoc. reflexivity.
      + rewrite N.eqb_sym. apply isWordChar_not_newline.
        apply Forall_app in Hrun. destruct Hrun as [_ Hr].
        inversion Hr; assumption. }
  destruct Hlast as (mid & c0 & Hmid & Hc0).
  assert (Hstr' : str = pre ++ (mid ++ [c0]) ++ rest) by (rewrite <- Hmid; exact Hstr).
  apply (@next_around_node pre mid rest _ c0 f (fun s => lineNumber (pos s))
           Hstr' Hc0 Hpre Hpost); [|lia].
  intros s Hoff Hs.
  rewrite (@node_link pre P run rest f s Hstr Hoff Hne HP Hrun Hrest Hs) by lia.
  rewrite <- Hmid, Hs. reflexivity.
Qed.

(** *** Templates without parameters *)

Lemma eatWhitespace_stay (newLine : bool) (s : State) (u : jsstring) :
  nth_error lower (offset (pos s)) = Some u ->
  jsstring_eqb u [32%N] = false ->
  jsstring_eqb u [9%N] = false ->
  jsstring_eqb u [10%N] = false ->
  eatWhitespace str lower newLine s = Ok tt s.
Proof.
  intros Hu H32 H9 H10.
  assert (Hm : forall c, jsstring_eqb u [c] = false ->
                         startsWithP lower [c] (pos s) = false).
  { intros c Hc. unfold startsWithP. cbn [startsWithAt]. rewrite Hu, Hc. reflexivity. }
  unfold eatWhitespace. cbn [eatWhitespaceLoop]. unfold eatAny.
  change (js " ") with [32%N].
  destruct newLine; cbn [app eatAnyFrom];
    unfold startsWith, bind, getPos, ret;
    rewrite (Hm 32%N H32); cbv beta iota; rewrite (Hm 9%N H9); cbv beta iota;
    rewrite ?(Hm 10%N H10); reflexivity.
Qed.

(** [template] on a name that [}}] closes. *)
Lemma template_run (A name : jsstring) (rest : jsstring) (f F : nat) (s : State) :
  str = A ++ (name ++ js "}}") ++ rest ->
  offset (pos s) = length A ->
  name <> [] ->
  nameText toLowerCase [124%N; 125%N] name = true ->
  toLowerCase (strTrim name) <> [] ->
  isStartOfLine str (mkPos (length A) 0) = false ->
  backtrackOn s = [] ->
  template str lower toLowerCase
           (next str lower limit toLowerCase (S (length name + S f))) (S F) None s =
  Ok (VObj [(js "name", VStr (toLowerCase (strTrim name)));
            (js "parameters", VDict []);
            (js "positionalParameters", arrayValue emptyArray)])
     (mkState (mkPos (length A + length name + 2) (lineNumber (pos s)))
              [] (backtrackingCount s) (stack s)).
Proof.
  intros Hstr Hoff Hne Hn Hlow Hsol Hs.
  assert (Hchars : forall i x, nth_error (name ++ js "}}") i = Some x ->
                     nth_error str (length A + i) = Some x).
  { intros i x Hi. rewrite Hstr. apply nth_error_middle. exact Hi. }
  assert (Hb1 : nth_error lower (length A + length name) = Some [125%N]).
  { apply (@lower_nth _ 125%N); [|reflexivity]. apply Hchars.
    rewrite nth_error_app2 by lia. rewrite Nat.sub_diag. reflexivity. }
  assert (Hb2 : nth_error lower (length A + length name + 1) = Some [125%N]).
  { apply (@lower_nth _ 125%N); [|reflexivity]. rewrite <- Nat.add_assoc. apply Hchars.
    rewrite nth_error_app2 by lia.
    replace (length name + 1 - length name) with 1 by lia. reflexivity. }
  set (s1 := mkState (mkPos (length A + length name) (lineNumber (pos s)))
                     [] (backtrackingCount s) (stack s)).
  assert (Hclose : startsWithP lower (js "}}") (pos s1) = true).
  { unfold startsWithP. change (js "}}") with [125%N; 125%N]. cbn [startsWithAt].
    subst s1. cbn [pos offset]. rewrite Hb1.
    replace (S (length A + length name)) with (length A + length name + 1) by lia.
    rewrite Hb2. reflexivity. }
  assert (Hraw : next str lower limit toLowerCase (S (length name + S f))
                   (withAllow (Some [js "comment"; js "template"])
                      (withEndBefore [js "|"; js "}}"] noOpts)) s =
                 Ok (Some [VStr name]) s1).
  { rewrite (@next_name _ [124%N; 125%N] name 125%N f s); try reflexivity.
    - rewrite Hoff. destruct name; [congruence | reflexivity].
    - discriminate.
    - intros e [<-|[<-|[]]]; do 2 eexists; (split; [reflexivity|]); simpl; tauto.
    - left. reflexivity.
    - exact Hn.
    - intros i x Hi. rewrite Hoff. apply Hchars.
      destruct (Nat.lt_ge_cases i (length name)) as [Hlt|Hge].
      + rewrite nth_error_app1 in Hi by exact Hlt. rewrite nth_error_app1 by exact Hlt.
        exact Hi.
      + rewrite nth_error_app2 in Hi by exact Hge. rewrite nth_error_app2 by exact Hge.
        destruct (i - length name) as [|[|k]]; cbn in Hi |- *; try discriminate;
          exact Hi.
    - unfold startsWithAnyP. cbn [opt_endBefore withAllow withEndBefore existsb].
      replace (pos (advancedText name s)) with
        (mkPos (length A + length name) (lineNumber (pos s) + countNewlines name))
        by (cbn [advancedText pos]; rewrite Hoff; reflexivity).
      unfold startsWithP in Hclose |- *. cbn [offset pos] in Hclose |- *.
      subst s1. cbn [pos offset] in Hclose. rewrite Hclose. apply orb_true_r.
    - rewrite Hoff. exact Hsol.
    - exact Hs. }
  unfold template. unfold bind at 1. rewrite Hraw. cbv iota beta.
  cbn [filter isComment negb trimLower].
  unfold bind at 1, ret at 1.
  destruct (toLowerCase (strTrim name)) as [|n0 n'] eqn:En; [congruence|].
  cbv iota. unfold bind at 1.
  rewrite (@eatWhitespace_stay true s1 [125%N] Hb1 eq_refl eq_refl eq_refl).
  unfold bind at 1.
  rewrite parameterLoop_none
    by (eapply startsWithP_first; [exact Hb1 | reflexivity]).
  cbn [fst snd]. unfold bind at 1. rewrite (eat_hit _ false _ Hclose).
  cbn [negb]. cbv iota. unfold ret.
  subst s1. unfold advancedText.
  cbn [pos offset lineNumber backtrackOn backtrackingCount stack].
  change (length (js "}}")) with 2. change (countNewlines (js "}}")) with 0.
  rewrite Nat.add_0_r. reflexivity.
Qed.

(** [node] at a template without parameters. *)
Lemma node_template (A name rest : jsstring) (F : nat) (s : State) :
  str = A ++ (js "{{" ++ name ++ js "}}") ++ rest ->
  offset (pos s) = length A ->
  name <> [] ->
  nameText toLowerCase [124%N; 125%N] name = true ->
  toLowerCase (strTrim name) <> [] ->
  backtrackOn s = [] ->
  length name + 3 <= F ->
  node str lower limit toLowerCase F None [] s =
  Ok (templateNode (toLowerCase (strTrim name)))
     (mkState (mkPos (length A + length (js "{{" ++ name ++ js "}}"))
                     (lineNumber (pos s)))
              [] (backtrackingCount s) (stack s)).
Proof.
  intros Hstr Hoff Hne Hn Hlow Hs HF.
  replace F with (S (S (length name + S (F - length name - 3)))) by lia.
  set (f := F - length name - 3).
  assert (H0 : nth_error lower (offset (pos s)) = Some [123%N]).
  { apply (@lower_nth _ 123%N); [|reflexivity].
    rewrite Hoff, Hstr. rewrite nth_error_app2 by lia. rewrite Nat.sub_diag.
    reflexivity. }
  assert (H1 : nth_error lower (S (offset (pos s))) = Some [123%N]).
  { apply (@lower_nth _ 123%N); [|reflexivity].
    rewrite Hoff, Hstr. rewrite nth_error_app2 by lia.
    replace (S (length A) - length A) with 1 by lia. reflexivity. }
  assert (Hopen : startsWithP lower (js "{{") (pos s) = true).
  { unfold startsWithP. change (js "{{") with [123%N; 123%N]. cbn [startsWithAt].
    rewrite H0, H1. reflexivity. }
  cbn [node]. unfold nodeImpl. unfold bind at 1, getPos at 1. unfold grammar.
  do 5 (rewrite nodeLoop_cons;
        rewrite nodeEntry_skip
          by (eapply startsWithP_first; [exact H0 | reflexivity])).
  rewrite nodeLoop_cons.
  rewrite (@nodeEntry_production_obj_hit _ None [] "template" "{{" _ _ _ s
             [(js "name", VStr (toLowerCase (strTrim name)));
              (js "parameters", VDict []);
              (js "positionalParameters", arrayValue emptyArray)]
             (mkState (mkPos (length A + length (js "{{" ++ name ++ js "}}"))
                             (lineNumber (pos s)))
                      [] (backtrackingCount s) (stack s)) Hopen eq_refl).
  - reflexivity.
  - rewrite (@template_run (A ++ js "{{") name rest f _ (advancedText (js "{{") s)).
    + cbn [advancedText pos lineNumber backtrackingCount stack].
      change (countNewlines (js "{{")) with 0.
      rewrite !length_app. change (length (js "{{")) with 2.
      change (length (js "}}")) with 2.
      f_equal. f_equal. f_equal; lia.
    + rewrite Hstr. rewrite <- !app_assoc. reflexivity.
    + cbn [advancedText pos offset]. rewrite Hoff, length_app. reflexivity.
    + exact Hne.
    + exact Hn.
    + exact Hlow.
    + rewrite length_app. change (length (js "{{")) with 2.
      rewrite Nat.add_succ_r.
      rewrite (@isStartOfLine_next (length A + 1) 0 123%N); [reflexivity|].
      rewrite Hstr. rewrite nth_error_app2 by lia.
      replace (length A + 1 - length A) with 1 by lia. reflexivity.
    + exact Hs.
Qed.

(** [parse]'s [next] on plain text, a template without parameters and
    plain text. *)
Lemma next_template_markup (pre name rest : jsstring) (f : nat) :
  str = pre ++ (js "{{" ++ name ++ js "}}") ++ rest ->
  name <> [] ->
  nameText toLowerCase [124%N; 125%N] name = true ->
  toLowerCase (strTrim name) <> [] ->
  plainText toLowerCase true pre = true ->
  plainText toLowerCase false rest = true ->
  length pre + length name + length rest + 3 <= f ->
  exists s',
    next str lower limit toLowerCase (S f) (withEndAtEos true noOpts) initialState =
    Ok (Some (textNode pre ++ templateNode (toLowerCase (strTrim name))
                :: textNode rest)) s'.
Proof.
  intros Hstr Hne Hn Hlow Hpre Hpost Hf.
  assert (Hmid : js "{{" ++ name ++ js "}}" = (js "{{" ++ name ++ [125%N]) ++ [125%N]).
  { rewrite <- !app_assoc. reflexivity. }
  assert (Hstr' : str = pre ++ ((js "{{" ++ name ++ [125%N]) ++ [125%N]) ++ rest)
    by (rewrite <- Hmid; exact Hstr).
  apply (@next_around_node pre (js "{{" ++ name ++ [125%N]) rest _ 125%N f
           (fun s => lineNumber (pos s)) Hstr' eq_refl Hpre Hpost); [|lia].
  intros s Hoff Hs.
  rewrite (@node_template pre name rest f s Hstr Hoff Hne Hn Hlow Hs) by lia.
  rewrite <- Hmid, Hs. reflexivity.
Qed.

(** *** Headings *)

Lemma startsWithAt_repeat (c : N) (n : nat) :
  forall off,
    (forall i, i < n -> nth_error lower (off + i) = Some [c]) ->
    startsWithAt lower (repeat c n) off = true.
Proof.
  induction n as [|n IH]; intros off H; cbn [repeat startsWithAt]; [reflexivity|].
  rewrite <- (Nat.add_0_r off) at 1. rewrite (H 0) by lia.
  cbn [jsstring_eqb]. rewrite N.eqb_refl. cbn [andb].
  apply IH. intros i Hi. replace (S off + i) with (off + S i) by lia.
  apply H. lia.
Qed.

(** [eatCount] on a run of [n] copies of a unit that is no newline. *)
Lemma eatCountLoop_exact (c : N) (n : nat) :
  forall (m count : nat) (s : State),
    N.eqb 10 c = false ->
    (forall i, i < n -> nth_error lower (offset (pos s) + i) = Some [c]) ->
    (forall u, nth_error lower (offset (pos s) + n) = Some u ->
               jsstring_eqb u [c] = false) ->
    eatCountLoop lower (S n + m) [c] count s =
    Ok (count + n)
       (mkState (mkPos (offset (pos s) + n) (lineNumber (pos s)))
                (backtrackOn s) (backtrackingCount s) (stack s)).
Proof.
  induction n as [|n IH]; intros m count s Hc Hrun Hstop.
  - cbn [Nat.add eatCountLoop]. unfold bind at 1, startsWith at 1.
    unfold bind at 1, getPos at 1, ret at 1.
    unfold startsWithP. cbn [startsWithAt].
    rewrite Nat.add_0_r in Hstop.
    destruct (nth_error lower (offset (pos s))) as [u|] eqn:E.
    + rewrite (Hstop u eq_refl). unfold ret. rewrite !Nat.add_0_r.
      destruct s as [[? ?] ? ? ?]. reflexivity.
    + unfold ret. rewrite !Nat.add_0_r. destruct s as [[? ?] ? ? ?]. reflexivity.
  - change (S (S n) + m) with (S (S n + m)). cbn [eatCountLoop].
    unfold bind at 1, startsWith at 1. unfold bind at 1, getPos at 1, ret at 1.
    assert (H0 : startsWithP lower [c] (pos s) = true).
    { unfold startsWithP. cbn [startsWithAt].
      rewrite <- (Nat.add_0_r (offset (pos s))). rewrite (Hrun 0) by lia.
      cbn [jsstring_eqb]. rewrite N.eqb_refl. reflexivity. }
    rewrite H0. unfold bind at 1, advance at 1.
    rewrite IH.
    + cbn [pos offset lineNumber backtrackOn backtrackingCount stack length].
      unfold countNewlines. cbn [filter]. rewrite Hc. cbn [length].
      f_equal; [lia|]. f_equal. f_equal; lia.
    + exact Hc.
    + intros i Hi. cbn [pos offset length].
      replace (offset (pos s) + 1 + i) with (offset (pos s) + S i) by lia.
      apply Hrun. lia.
    + intros u. cbn [pos offset length].
      replace (offset (pos s) + 1 + n) with (offset (pos s) + S n) by lia.
      apply Hstop.
Qed.

Lemma trim_single (t : jsstring) :
  trim (Some [VStr t]) = Some (textNode (strTrim t)).
Proof.
  unfold trim, trimFirst, strTrim.
  destruct (trimLeft t) as [|a t'] eqn:E.
  - reflexivity.
  - cbn [trimLast]. destruct (trimRight (a :: t')); reflexivity.
Qed.

Lemma repeatStr_unit (c : N) (n : nat) : repeatStr [c] n = repeat c n.
Proof.
  unfold repeatStr. induction n as [|n IH]; [reflexivity|].
  cbn [repeat concat app]. rewrite IH. reflexivity.
Qed.

Lemma countNewlines_repeat (c : N) (n : nat) :
  N.eqb 10 c = false -> countNewlines (repeat c n) = 0.
Proof.
  intros H. induction n as [|n IH]; [reflexivity|].
  cbn [repeat]. rewrite countNewlines_cons, IH. unfold countNewlines. cbn [filter].
  rewrite H. reflexivity.
Qed.

(** [heading] on a line of [n] equals signs, a text and [n] equals
    signs. *)
Lemma heading_run (A T rest : jsstring) (n f : nat) (s : State) :
  str = A ++ (repeat 61%N n ++ T ++ repeat 61%N n ++ [10%N]) ++ rest ->
  offset (pos s) = length A ->
  1 <= n ->
  T <> [] ->
  nameText toLowerCase [61%N] T = true ->
  backtrackOn s = [] ->
  heading str lower (next str lower limit toLowerCase (S (length T + S f))) s =
  Ok (VObj [(js "level", VNum (Z.of_nat n));
            (js "content", arr (textNode (strTrim T)))])
     (mkState (mkPos (length A + n + length T + n + 1) (lineNumber (pos s) + 1))
              [] (backtrackingCount s) (stack s)).
Proof.
  intros Hstr Hoff Hn Hne HT Hs.
  assert (Hchars : forall i x,
            nth_error (repeat 61%N n ++ T ++ repeat 61%N n ++ [10%N]) i = Some x ->
            nth_error str (length A + i) = Some x).
  { intros i x Hi. rewrite Hstr. apply nth_error_middle. exact Hi. }
  assert (Hopen : forall i, i < n -> nth_error lower (length A + i) = Some [61%N]).
  { intros i Hi. apply (@lower_nth _ 61%N); [|reflexivity]. apply Hchars.
    rewrite nth_error_app1 by (rewrite repeat_length; exact Hi).
    apply nth_error_repeat. exact Hi. }
  assert (HTi : forall i x, nth_error T i = Some x ->
                  nth_error str (length A + n + i) = Some x).
  { intros i x Hi. rewrite <- Nat.add_assoc. apply Hchars.
    rewrite nth_error_app2 by (rewrite repeat_length; lia).
    rewrite repeat_length. replace (n + i - n) with i by lia.
    rewrite nth_error_app1; [exact Hi|]. apply nth_error_Some. congruence. }
  assert (Hclose : forall i, i < n ->
            nth_error lower (length A + n + length T + i) = Some [61%N]).
  { intros i Hi. apply (@lower_nth _ 61%N); [|reflexivity].
    replace (length A + n + length T + i) with (length A + (n + length T + i)) by lia.
    apply Hchars.
    rewrite nth_error_app2 by (rewrite repeat_length; lia).
    rewrite repeat_length. rewrite nth_error_app2 by lia.
    replace (n + length T + i - n - length T) with i by lia.
    rewrite nth_error_app1 by (rewrite repeat_length; exact Hi).
    apply nth_error_repeat. exact Hi. }
  assert (Hnl : nth_error lower (length A + n + length T + n) = Some [10%N]).
  { apply (@lower_nth _ 10%N); [|reflexivity].
    replace (length A + n + length T + n) with (length A + (n + length T + n)) by lia.
    apply Hchars.
    rewrite nth_error_app2 by (rewrite repeat_length; lia).
    rewrite repeat_length. rewrite nth_error_app2 by lia.
    rewrite nth_error_app2 by (rewrite repeat_length; lia).
    rewrite repeat_length.
    replace (n + length T + n - n - length T - n) with 0 by lia. reflexivity. }
  destruct T as [|t0 T'] eqn:ET; [congruence|]. rewrite <- ET in *.
  assert (Ht0 : nth_error T 0 = Some t0) by (rewrite ET; reflexivity).
  destruct (nameText_nth [61%N] T 0 HT Ht0) as (_ & Ht0c & _).
  unfold heading. unfold bind at 1. unfold eatCount.
  replace (S (length str)) with (S n + (length str - n))
    by (rewrite Hstr, !length_app, !repeat_length; lia).
  change (js "=") with [61%N].
  rewrite (@eatCountLoop_exact 61%N n (length str - n) 0 s eq_refl).
  2:{ intros i Hi. rewrite Hoff. apply Hopen. exact Hi. }
  2:{ intros u Hu. rewrite Hoff in Hu.
      rewrite nth_error_map in Hu.
      replace (length A + n) with (length A + n + 0) in Hu by lia.
      rewrite (HTi 0 t0 Ht0) in Hu. injection Hu as <-.
      apply (unitAvoids_in [61%N]); [exact Ht0c | simpl; tauto]. }
  cbn [Nat.add].
  set (s1 := mkState (mkPos (offset (pos s) + n) (lineNumber (pos s)))
                     (backtrackOn s) (backtrackingCount s) (stack s)).
  set (s2 := mkState (mkPos (length A + n + length T) (lineNumber (pos s)))
                     [] (backtrackingCount s) (stack s)).
  assert (Hstop : startsWithP lower [61%N] (pos s2) = true).
  { apply startsWithP_one. subst s2. cbn [pos offset].
    rewrite <- (Nat.add_0_r (length A + n + length T)). apply Hclose. lia. }
  unfold bind at 1.
  rewrite (@next_name _ [61%N] T 61%N f s1); try reflexivity.
  - replace (mkState (mkPos (offset (pos s1) + length T) (lineNumber (pos s1)))
                     [] (backtrackingCount s1) (stack s1)) with s2
      by (subst s1 s2; cbn [pos offset lineNumber backtrackingCount stack];
          rewrite Hoff; reflexivity).
    cbv zeta. unfold bind at 1.
    rewrite repeatStr_unit.
    rewrite (@eat_hit (repeat 61%N n) false s2).
    2:{ unfold startsWithP. apply startsWithAt_repeat. intros i Hi.
        subst s2. cbn [pos offset]. apply Hclose. exact Hi. }
    cbn [negb]. cbv iota. unfold bind at 1.
    rewrite (@eat_hit [10%N] false (advancedText (repeat 61%N n) s2)).
    2:{ apply startsWithP_one. subst s2. cbn [advancedText pos offset].
        rewrite repeat_length. exact Hnl. }
    unfold ret.
    assert (Htn : textNode T = [VStr T]) by (rewrite ET; reflexivity).
    rewrite Htn, trim_single. cbn [ofNullable].
    subst s2. unfold advancedText.
    cbn [pos offset lineNumber backtrackOn backtrackingCount stack].
    rewrite repeat_length, (countNewlines_repeat 61 n eq_refl).
    change (countNewlines [10%N]) with 1. change (length [10%N]) with 1.
    rewrite Nat.add_0_r. reflexivity.
  - discriminate.
  - intros e [<-|[]]. do 2 eexists. split; [reflexivity|]. simpl; tauto.
  - right. reflexivity.
  - exact HT.
  - intros i x Hi. subst s1. cbn [pos offset]. rewrite Hoff.
    destruct (Nat.lt_ge_cases i (length T)) as [Hlt|Hge].
    + rewrite nth_error_app1 in Hi by exact Hlt. apply HTi. exact Hi.
    + rewrite nth_error_app2 in Hi by exact Hge.
      destruct (i - length T) as [|k] eqn:Ek; [|destruct k; discriminate].
      cbn in Hi. injection Hi as <-.
      replace i with (length T) by lia.
      assert (Hq : nth_error lower (length A + n + length T) = Some [61%N]).
      { rewrite <- (Nat.add_0_r (length A + n + length T)). apply Hclose. lia. }
      rewrite nth_error_map in Hq.
      destruct (nth_error str (length A + n + length T)) as [y|] eqn:Ey;
        [|discriminate].
      clear Hq. f_equal.
      assert (Hy : nth_error str (length A + (n + length T + 0)) = Some 61%N).
      { apply Hchars. rewrite nth_error_app2 by (rewrite repeat_length; lia).
        rewrite repeat_length. rewrite nth_error_app2 by lia.
        replace (n + length T + 0 - n - length T) with 0 by lia.
        destruct n; [lia | reflexivity]. }
      replace (length A + (n + length T + 0)) with (length A + n + length T) in Hy by lia.
      congruence.
  - unfold startsWithAnyP. cbn [opt_endBefore withBacktrackOn withEndBefore existsb].
    replace (pos (advancedText T s1)) with
      (mkPos (length A + n + length T) (lineNumber (pos s) + countNewlines T))
      by (subst s1; cbn [advancedText pos offset lineNumber]; rewrite Hoff; reflexivity).
    unfold startsWithP in Hstop |- *. subst s2. cbn [pos offset] in Hstop |- *.
    change (js "=") with [61%N]. rewrite Hstop. reflexivity.
  - subst s1. cbn [pos offset]. rewrite Hoff.
    destruct n as [|n']; [lia|]. rewrite Nat.add_succ_r.
    rewrite (@isStartOfLine_next (length A + n') 0 61%N); [reflexivity|].
    apply Hchars. rewrite nth_error_app1 by (rewrite repeat_length; lia).
    apply nth_error_repeat. lia.
  - exact Hs.
Qed.

(** A descriptor with a [func] that keeps its start and asks for the start
    of a line. *)
Lemma nodeEntry_production_line_hit (nx : NextOpts -> M (option (list value)))
    (allow : option (list jsstring)) (disallow : list jsstring)
    (type start : string) (pre : Pos -> bool) (func : M value) (originalPos : Pos)
    (continue_ : M value) (s : State) (fs : list (jsstring * value)) (s2 : State) :
  startsWithP lower (js start) (pos s) = true ->
  typeFiltered (Some (js type)) allow disallow = false ->
  pre (pos s) = true ->
  func s = Ok (VObj fs) s2 ->
  nodeEntry lower limit nx allow disallow
            (production type start true (Some pre) None func None) originalPos
            continue_ s =
  Ok (VObj (assignFields [(js "type", VStr (js type))] fs)) s2.
Proof.
  intros Hs Hf Hpre Hfunc. unfold production.
  cbn [nodeEntry nt_start nt_type nt_preCondition
    nt_keepStart nt_postCondition nt_func nt_replaceWith nt_postProcess].
  unfold bind at 1, getPos at 1. rewrite Hs, Hf, Hpre. cbn [negb orb].
  unfold bind at 1, ret at 1. unfold bind at 1, getPos at 1.
  unfold bind at 1. rewrite Hfunc. reflexivity.
Qed.

Lemma isStartOfLine_after (pre rest : jsstring) (ln : nat) :
  str = pre ++ rest ->
  endsLine pre = true ->
  isStartOfLine str (mkPos (length pre) ln) = true.
Proof.
  intros Hstr He. unfold isStartOfLine, isStart. cbn [offset].
  destruct pre as [|a pre'] using rev_ind; [apply orb_true_r|].
  unfold endsLine in He. rewrite rev_app_distr in He. cbn [rev app] in He.
  apply N.eqb_eq in He. subst a.
  rewrite length_app. cbn [length]. rewrite Nat.add_1_r.
  unfold charIs. rewrite Hstr. rewrite <- app_assoc.
  rewrite nth_error_app2 by lia. rewrite Nat.sub_diag. cbn [app nth_error].
  rewrite !length_app. cbn [length].
  replace (Nat.eqb (length pre' + S (length rest)) 0) with false
    by (symmetry; apply Nat.eqb_neq; lia).
  reflexivity.
Qed.

(** [node] at a heading line. *)
Lemma node_heading (A T rest : jsstring) (n F : nat) (s : State) :
  str = A ++ (repeat 61%N n ++ T ++ repeat 61%N n ++ [10%N]) ++ rest ->
  offset (pos s) = length A ->
  endsLine A = true ->
  1 <= n ->
  T <> [] ->
  nameText toLowerCase [61%N] T = true ->
  backtrackOn s = [] ->
  length T + 3 <= F ->
  node str lower limit toLowerCase F None [] s =
  Ok (headingNode n (textNode (strTrim T)))
     (mkState (mkPos (length A + length ((repeat 61%N n ++ T ++ repeat 61%N n)
                                         ++ [10%N]))
                     (lineNumber (pos s) + 1))
              [] (backtrackingCount s) (stack s)).
Proof.
  intros Hstr Hoff HA Hn Hne HT Hs HF.
  replace F with (S (S (length T + S (F - length T - 3)))) by lia.
  set (f := F - length T - 3).
  assert (H0 : nth_error lower (offset (pos s)) = Some [61%N]).
  { apply (@lower_nth _ 61%N); [|reflexivity].
    rewrite Hoff, Hstr. rewrite nth_error_app2 by lia. rewrite Nat.sub_diag.
    destruct n; [lia | reflexivity]. }
  assert (Hline : isStartOfLine str (pos s) = true).
  { destruct s as [[o l] bo bc st]. cbn [pos offset] in Hoff |- *. subst o.
    apply (isStartOfLine_after A _ l Hstr HA). }
  cbn [node]. unfold nodeImpl. unfold bind at 1, getPos at 1. unfold grammar.
  do 11 (rewrite nodeLoop_cons;
         rewrite nodeEntry_skip
           by (eapply startsWithP_first; [exact H0 | reflexivity])).
  rewrite nodeLoop_cons.
  rewrite (@nodeEntry_production_line_hit _ None [] "heading" "=" _ _ _ _ s
             [(js "level", VNum (Z.of_nat n));
              (js "content", arr (textNode (strTrim T)))]
             (mkState (mkPos (length A + length ((repeat 61%N n ++ T ++ repeat 61%N n)
                                                 ++ [10%N]))
                             (lineNumber (pos s) + 1))
                      [] (backtrackingCount s) (stack s))
             (startsWithP_one _ H0) eq_refl Hline).
  - reflexivity.
  - etransitivity; [exact (@heading_run A T rest n f s Hstr Hoff Hn Hne HT Hs)|].
    rewrite !length_app, !repeat_length. cbn [length].
    f_equal. f_equal. f_equal. lia.
Qed.

(** [parse]'s [next] on plain text that ends a line, a heading line and
    plain text. *)
Lemma next_heading_markup (pre T post : jsstring) (n f : nat) :
  str = pre ++ ((repeat 61%N n ++ T ++ repeat 61%N n) ++ [10%N]) ++ post ->
  endsLine pre = true ->
  1 <= n ->
  T <> [] ->
  nameText toLowerCase [61%N] T = true ->
  plainText toLowerCase true pre = true ->
  plainText toLowerCase true post = true ->
  length pre + length T + length post + 3 <= f ->
  exists s',
    next str lower limit toLowerCase (S f) (withEndAtEos true noOpts) initialState =
    Ok (Some (textNode pre ++ headingNode n (textNode (strTrim T)) :: textNode post))
       s'.
Proof.
  intros Hstr Hend Hn Hne HT Hpre Hpost Hf.
  apply (@next_around_line pre (repeat 61%N n ++ T ++ repeat 61%N n) post _ 10%N f
           (fun s => lineNumber (pos s) + 1) true Hstr (fun _ => eq_refl) Hpre Hpost);
    [|lia].
  intros s Hoff Hs.
  assert (Hstr' : str = pre ++ (repeat 61%N n ++ T ++ repeat 61%N n ++ [10%N]) ++ post).
  { rewrite Hstr. rewrite <- !app_assoc. reflexivity. }
  rewrite (@node_heading pre T post n f s Hstr' Hoff Hend Hn Hne HT Hs) by lia.
  rewrite Hs. reflexivity.
Qed.

(** A descriptor without [func] that asks for the start of a line. *)
Lemma nodeEntry_declarative_line_hit (nx : NextOpts -> M (option (list value)))
    (allow : option (list jsstring)) (disallow : list jsstring)
    (type start : string) (pre : Pos -> bool) (opts : NextOpts) (originalPos : Pos)
    (continue_ : M value) (s : State) (l : list value) (s2 : State) :
  startsWithP lower (js start) (pos s) = true ->
  typeFiltered (Some (js type)) allow disallow = false ->
  pre (pos s) = true ->
  nx opts (advancedText (js start) s) = Ok (Some l) s2 ->
  nodeEntry lower limit nx allow disallow
            (declarative type start (Some pre) None opts None) originalPos
            continue_ s = Ok (typedNode type l) s2.
Proof.
  intros Hs Hf Hpre Hnx. unfold declarative.
  cbn [nodeEntry nt_start nt_type nt_preCondition
    nt_keepStart nt_postCondition nt_func nt_replaceWith nt_postProcess nt_opts].
  unfold bind at 1, getPos at 1. rewrite Hs, Hf, Hpre. cbn [negb orb].
  unfold bind at 1, eat at 1. unfold bind at 1, startsWith at 1.
  unfold bind at 1, getPos at 1, ret at 1. rewrite Hs.
  unfold bind at 1, advance at 1, ret at 1.
  unfold bind at 1, getPos at 1.
  unfold bind at 1. unfold bind at 1.
  fold (advancedText (js start) s). rewrite Hnx.
  reflexivity.
Qed.

(** [node] at four hyphens that start a line. *)
Lemma node_rule (A rest : jsstring) (F : nat) (s : State) :
  str = A ++ js "----" ++ rest ->
  offset (pos s) = length A ->
  endsLine A = true ->
  2 <= F ->
  node str lower limit toLowerCase F None [] s =
  Ok (typedNode "horizontalRule" [])
     (mkState (mkPos (length A + 4) (lineNumber (pos s)))
              (backtrackOn s) (backtrackingCount s) (stack s)).
Proof.
  intros Hstr Hoff HA HF.
  replace F with (S (S (F - 2))) by lia.
  assert (Hi : forall i, i < 4 -> nth_error lower (offset (pos s) + i) = Some [45%N]).
  { intros i Hi. apply (@lower_nth _ 45%N); [|reflexivity].
    rewrite Hoff, Hstr. rewrite nth_error_app2 by lia.
    replace (length A + i - length A) with i by lia.
    destruct i as [|[|[|[|i]]]]; try reflexivity; lia. }
  assert (H0 : nth_error lower (offset (pos s)) = Some [45%N]).
  { rewrite <- (Nat.add_0_r (offset (pos s))). apply Hi. lia. }
  assert (Hline : isStartOfLine str (pos s) = true).
  { destruct s as [[o l] bo bc st]. cbn [pos offset] in Hoff |- *. subst o.
    apply (isStartOfLine_after A _ l Hstr HA). }
  cbn [node]. unfold nodeImpl. unfold bind at 1, getPos at 1. unfold grammar.
  do 18 (rewrite nodeLoop_cons;
         rewrite nodeEntry_skip
           by (eapply startsWithP_first; [exact H0 | reflexivity])).
  rewrite nodeLoop_cons.
  rewrite (@nodeEntry_declarative_line_hit _ None [] "horizontalRule" "----" _ _ _ _ s
             [] (advancedText (js "----") s)).
  - unfold advancedText. cbn [length countNewlines js]. rewrite Hoff.
    change (countNewlines (js "----")) with 0. rewrite Nat.add_0_r. reflexivity.
  - unfold startsWithP. apply (@startsWithAt_repeat 45%N 4). exact Hi.
  - reflexivity.
  - exact Hline.
  - reflexivity.
Qed.

(** [parse]'s [next] on plain text that ends a line, four hyphens and plain
    text. *)
Lemma next_rule_markup (pre post : jsstring) (f : nat) :
  str = pre ++ js "----" ++ post ->
  endsLine pre = true ->
  plainText toLowerCase true pre = true ->
  plainText toLowerCase false post = true ->
  length pre + length post + 2 <= f ->
  exists s',
    next str lower limit toLowerCase (S f) (withEndAtEos true noOpts) initialState =
    Ok (Some (textNode pre ++ typedNode "horizontalRule" [] :: textNode post)) s'.
Proof.
  intros Hstr Hend Hpre Hpost Hf.
  apply (@next_around_node pre (js "---") post _ 45%N f
           (fun s => lineNumber (pos s)) Hstr eq_refl Hpre Hpost); [|lia].
  intros s Hoff Hs.
  rewrite (@node_rule pre post f s Hstr Hoff Hend) by lia.
  reflexivity.
Qed.

(** [next] over the text of a line, for the options of a list item: the
    text is the content, and the newline is eaten. *)
Lemma next_line (t : jsstring) (f : nat) (s : State) :
  nameText toLowerCase [125%N; 10%N] t = true ->
  (forall i x, nth_error (t ++ [10%N]) i = Some x ->
               nth_error str (offset (pos s) + i) = Some x) ->
  isStartOfLine str (mkPos (offset (pos s)) 0) = false ->
  backtrackOn s = [] ->
  next str lower limit toLowerCase (S (length t + S f)) lineOpts s =
  Ok (Some (textNode t))
     (mkState (mkPos (offset (pos s) + length t + 1) (lineNumber (pos s) + 1))
              [] (backtrackingCount s) (stack s)).
Proof.
  intros Ht Hstr Hsol Hs.
  assert (Hstr1 : forall i x, nth_error t i = Some x ->
                              nth_error str (offset (pos s) + i) = Some x).
  { intros i x Hi. apply Hstr. rewrite nth_error_app1; [exact Hi|].
    apply nth_error_Some. congruence. }
  assert (Hc1 : nth_error str (offset (pos s) + length t) = Some 10%N).
  { apply Hstr. rewrite nth_error_app2 by lia. rewrite Nat.sub_diag. reflexivity. }
  change (next str lower limit toLowerCase (S (length t + S f)) lineOpts s)
    with (nextImpl str lower limit
            (node str lower limit toLowerCase (length t + S f)) (length t + S f)
            lineOpts s).
  unfold nextImpl. change (opt_end lineOpts) with [[10%N]]. cbv iota.
  unfold bind at 1, getPos at 1.
  change (opt_backtrackOn lineOpts) with (@None (Pos -> bool)). cbv iota.
  unfold bind at 1, ret at 1.
  rewrite (@nextLoop_text (node str lower limit toLowerCase (length t + S f))
             lineOpts (pos s) t).
  2:{ exact Hstr1. }
  2:{ intros s' Hbo' Hoff.
      destruct (@plainText_inert t (offset (pos s)) false Hstr1
                  (fun E => eq_trans (eq_sym Hsol) E)
                  (inlineText_plain t (nameText_inline [125%N; 10%N] t Ht)) s' Hoff)
        as (x & Hx & Hh & Hsf).
      assert (Hi : nth_error t (offset (pos s') - offset (pos s)) = Some x).
      { destruct (nth_error t (offset (pos s') - offset (pos s))) as [d|] eqn:E.
        - pose proof (Hstr1 _ _ E) as E'.
          replace (offset (pos s) + (offset (pos s') - offset (pos s)))
            with (offset (pos s')) in E' by lia.
          congruence.
        - apply nth_error_None in E. lia. }
      destruct (nameText_nth [125%N; 10%N] t _ Ht Hi) as (_ & Hcx & Hn).
      assert (Hl : nth_error lower (offset (pos s')) = Some (toLowerCase [x])).
      { rewrite nth_error_map, Hx. reflexivity. }
      split.
      - unfold quiet. rewrite Hbo', Hs.
        split; [reflexivity|]. split; [reflexivity|].
        split.
        { change (opt_end lineOpts) with [[10%N]].
          unfold startsWithAnyP at 1. cbn [existsb].
          rewrite (@startsWithP_unit (pos s') (toLowerCase [x]) 10%N [] Hl)
            by (apply (unitAvoids_in [125%N; 10%N]); [exact Hcx | cbn; tauto]).
          reflexivity. }
        split.
        { change (opt_endBefore lineOpts) with [js "}}"; js "</"].
          unfold startsWithAnyP. cbn [existsb].
          change (js "}}") with [125%N; 125%N]. change (js "</") with [60%N; 47%N].
          rewrite (@startsWithP_unit (pos s') (toLowerCase [x]) 125%N [125%N] Hl)
            by (apply (unitAvoids_in [125%N; 10%N]); [exact Hcx | left; reflexivity]).
          rewrite (@startsWithP_unit (pos s') (toLowerCase [x]) 60%N [47%N] Hl)
            by (apply (unitAvoids_in hardChars); [exact Hh | cbn; tauto]).
          reflexivity. }
        split; reflexivity.
      - replace (length t + S f) with (S (length t + f)) by lia.
        exact (@node_inert _ (opt_allow lineOpts) (opt_disallow lineOpts) s' x Hx Hh Hsf). }
  set (s1 := advancedText t s).
  assert (Hc1' : nth_error str (offset (pos s1)) = Some 10%N) by exact Hc1.
  assert (Hq : startsWithP lower [10%N] (pos s1) = true).
  { apply startsWithP_one. apply (@lower_nth _ 10%N); [exact Hc1' | reflexivity]. }
  cbn [nextLoop]. unfold bind at 1, getPos at 1.
  rewrite (isEnd_false _ Hc1'). cbn [andb].
  unfold bind at 1, someBacktrackOn at 1.
  change (backtrackOn s1) with (backtrackOn s). rewrite Hs. cbn [existsb].
  change (opt_backtrack lineOpts) with (@nil jsstring).
  change (startsWithAnyP lower [] (pos s1)) with false. cbn [orb].
  change (opt_end lineOpts) with [[10%N]].
  change (opt_notEnd lineOpts) with (@nil jsstring).
  assert (Hany : startsWithAnyP lower [[10%N]] (pos s1) = true).
  { unfold startsWithAnyP. cbn [existsb]. rewrite Hq. reflexivity. }
  rewrite Hany. change (startsWithAnyP lower [] (pos s1)) with false.
  cbn [orb andb negb].
  unfold bind at 1, eatAny at 1. cbn [eatAnyFrom].
  unfold bind at 1, startsWith at 1. unfold bind at 1, getPos at 1, ret at 1.
  rewrite Hq. unfold bind at 1, advance at 1, ret at 1.
  unfold nextFinish. unfold bind, when, popBacktrackOn, ret.
  change (opt_backtrackOn lineOpts) with (@None (Pos -> bool)). cbn [isSome]. cbv iota.
  subst s1. cbn [advancedText pos offset lineNumber backtrackOn backtrackingCount stack].
  rewrite Hs.
  rewrite (inlineText_countNewlines t (nameText_inline [125%N; 10%N] t Ht)).
  change (countNewlines [10%N]) with 1. cbn [length]. rewrite !Nat.add_0_r.
  destruct t as [|c0 t']; [reflexivity|].
  cbn [Nat.eqb length Nat.add].
  change (S (length t')) with (length (c0 :: t')).
  rewrite (@substr_at (c0 :: t') (offset (pos s)) Hstr1).
  reflexivity.
Qed.

Lemma trim_textNode (t : jsstring) :
  trim (Some (textNode t)) = Some (textNode (strTrim t)).
Proof.
  destruct t as [|c t]; [reflexivity|]. apply trim_single.
Qed.

Lemma append_textNode (t : jsstring) : append [] (textNode t) = textNode t.
Proof. destruct t; reflexivity. Qed.

Lemma endsLine_newline (A t : jsstring) : endsLine (A ++ t ++ [10%N]) = true.
Proof.
  unfold endsLine. rewrite app_assoc, rev_app_distr. reflexivity.
Qed.

(** One round of the loop of [list] on the line of an item. *)
Lemma listLoop_item (ch : N) (lv : nat) (t A rest : jsstring) (F1 fuel0 n : nat)
    (acc : list value) (s : State) :
  ch = 42%N \/ ch = 35%N ->
  str = A ++ (repeat ch lv ++ t ++ [10%N]) ++ rest ->
  offset (pos s) = length A ->
  endsLine A = true ->
  1 <= lv ->
  itemText toLowerCase ch t = true ->
  length t + 2 <= F1 ->
  backtrackOn s = [] ->
  listLoop str lower (next str lower limit toLowerCase F1) fuel0 (S n) [ch] acc s =
  listLoop str lower (next str lower limit toLowerCase F1) fuel0 n [ch]
    (acc ++ [itemNode (lv, t)])
    (mkState (mkPos (length A + length (repeat ch lv ++ t ++ [10%N]))
                    (lineNumber (pos s) + 1))
             [] (backtrackingCount s) (stack s)).
Proof.
  intros Hch Hstr Hoff HA Hlv Ht HF Hs.
  assert (Hch128 : (ch < 128)%N /\ asciiLower ch = ch /\ N.eqb 10 ch = false
                   /\ N.eqb ch 10 = false).
  { destruct Hch as [-> | ->]; repeat split; reflexivity. }
  destruct Hch128 as (Hlt & Hlow & H10 & H10').
  unfold itemText in Ht. apply andb_true_iff in Ht. destruct Ht as [Hname Hfirst].
  assert (Hchars : forall i x,
            nth_error (repeat ch lv ++ t ++ [10%N]) i = Some x ->
            nth_error str (length A + i) = Some x).
  { intros i x Hi. rewrite Hstr. apply nth_error_middle. exact Hi. }
  assert (Hopen : forall i, i < lv -> nth_error lower (length A + i) = Some [ch]).
  { intros i Hi. replace [ch] with [asciiLower ch] by (rewrite Hlow; reflexivity).
    apply (@lower_nth _ ch); [|exact Hlt].
    apply Hchars.
    rewrite nth_error_app1 by (rewrite repeat_length; exact Hi).
    apply nth_error_repeat. exact Hi. }
  assert (Hti : forall i x, nth_error (t ++ [10%N]) i = Some x ->
                  nth_error str (length A + lv + i) = Some x).
  { intros i x Hi. rewrite <- Nat.add_assoc. apply Hchars.
    rewrite nth_error_app2 by (rewrite repeat_length; lia).
    rewrite repeat_length. replace (lv + i - lv) with i by lia. exact Hi. }
  assert (Hnext : forall u x, nth_error lower (length A + lv) = Some u ->
                    In x [ch; 58%N] -> jsstring_eqb u [x] = false).
  { intros u x Hu Hx. rewrite nth_error_map in Hu.
    replace (length A + lv) with (length A + lv + 0) in Hu by lia.
    destruct t as [|t0 t'].
    - rewrite (Hti 0 10%N eq_refl) in Hu. injection Hu as <-.
      rewrite Hascii by reflexivity. change (asciiLower 10) with 10%N.
      cbn [jsstring_eqb]. destruct Hx as [<-|[<-|[]]]; [|reflexivity].
      rewrite H10. reflexivity.
    - rewrite (Hti 0 t0 eq_refl) in Hu. injection Hu as <-.
      apply (unitAvoids_in [ch; 58%N]); assumption. }
  assert (Hline : isStartOfLine str (pos s) = true).
  { destruct s as [[o l] bo bc st]. cbn [pos offset] in Hoff |- *. subst o.
    apply (isStartOfLine_after A _ l Hstr HA). }
  assert (H0 : startsWithP lower [ch] (pos s) = true).
  { apply startsWithP_one. rewrite Hoff, <- (Nat.add_0_r (length A)).
    apply Hopen. lia. }
  cbn [listLoop]. unfold bind at 1, getPos at 1. rewrite Hline, H0. cbn [andb].
  unfold bind at 1. unfold eatCount.
  replace (S (length str)) with (S lv + (length str - lv))
    by (rewrite Hstr, !length_app, !repeat_length; lia).
  rewrite (@eatCountLoop_exact ch lv (length str - lv) 0 s H10).
  2:{ intros i Hi. rewrite Hoff. apply Hopen. exact Hi. }
  2:{ intros u Hu. rewrite Hoff in Hu. apply (Hnext u ch Hu). left. reflexivity. }
  cbn [Nat.add].
  set (s1 := mkState (mkPos (offset (pos s) + lv) (lineNumber (pos s)))
                     (backtrackOn s) (backtrackingCount s) (stack s)).
  unfold bind at 1, startsWith at 1. unfold bind at 1, getPos at 1, ret at 1.
  assert (Hcolon : startsWithP lower (js ":") (pos s1) = false).
  { unfold startsWithP. subst s1. cbn [pos offset startsWithAt js]. rewrite Hoff.
    change (js ":") with [58%N]. cbn [startsWithAt].
    destruct (nth_error lower (length A + lv)) as [u|] eqn:Eu; [|reflexivity].
    rewrite (Hnext u 58%N eq_refl); [reflexivity | right; left; reflexivity]. }
  rewrite Hcolon. cbv iota.
  unfold bind at 1, ret at 1. unfold bind at 1.
  replace F1 with (S (length t + S (F1 - length t - 2))) by lia.
  rewrite (@next_line t (F1 - length t - 2) s1 Hname).
  - rewrite append_textNode, trim_textNode. cbn [ofNullable].
    subst s1. cbn [pos offset lineNumber backtrackingCount stack].
    rewrite Hoff, !length_app, repeat_length. cbn [length].
    replace (length A + lv + length t + 1) with (length A + (lv + (length t + 1)))
      by lia.
    reflexivity.
  - intros i x Hi. subst s1. cbn [pos offset]. rewrite Hoff. apply Hti. exact Hi.
  - subst s1. cbn [pos offset]. rewrite Hoff.
    destruct lv as [|lv']; [lia|]. rewrite Nat.add_succ_r.
    rewrite (@isStartOfLine_next (length A + lv') 0 ch); [exact H10'|].
    apply Hchars. rewrite nth_error_app1 by (rewrite repeat_length; lia).
    apply nth_error_repeat. lia.
  - subst s1. exact Hs.
Qed.

Lemma listSource_cons (ch : N) (it : nat * jsstring) (its : list (nat * jsstring)) :
  listSource ch (it :: its) = itemSource ch it ++ listSource ch its.
Proof. reflexivity. Qed.

(** The loop of [list] on the lines of a list: one item for each line. *)
Lemma listLoop_items (ch : N) (F1 fuel0 : nat) (rest : jsstring) :
  ch = 42%N \/ ch = 35%N ->
  match rest with
  | [] => true
  | c :: _ => unitAvoids toLowerCase [ch] c
  end = true ->
  forall (items : list (nat * jsstring)) (A : jsstring) (acc : list value)
         (n : nat) (s : State),
    str = A ++ listSource ch items ++ rest ->
    offset (pos s) = length A ->
    endsLine A = true ->
    forallb (goodItem toLowerCase ch) items = true ->
    (forall it, In it items -> length (snd it) + 2 <= F1) ->
    backtrackOn s = [] ->
    length items < n ->
    listLoop str lower (next str lower limit toLowerCase F1) fuel0 n [ch] acc s =
    Ok (acc ++ map itemNode items)
       (mkState (mkPos (length A + length (listSource ch items))
                       (lineNumber (pos s) + length items))
                [] (backtrackingCount s) (stack s)).
Proof.
  intros Hch Hrest. induction items as [|[lv t] its IH];
    intros A acc n s Hstr Hoff HA Hgood HF Hs Hn.
  - destruct n as [|n]; [cbn [length] in Hn; lia|].
    cbn [listLoop]. unfold bind at 1, getPos at 1.
    assert (H0 : startsWithP lower [ch] (pos s) = false).
    { unfold startsWithP. cbn [startsWithAt]. rewrite Hoff.
      rewrite nth_error_map, Hstr. cbn [listSource map concat app].
      rewrite nth_error_app2 by lia. rewrite Nat.sub_diag.
      destruct rest as [|c r]; [reflexivity|]. cbn [nth_error option_map].
      rewrite (@unitAvoids_in [ch] c ch Hrest); [reflexivity | left; reflexivity]. }
    rewrite H0, andb_false_r. unfold ret.
    cbn [map listSource concat length]. rewrite app_nil_r, !Nat.add_0_r.
    destruct s as [[o l] bo bc st]. cbn in *. subst. reflexivity.
  - destruct n as [|n]; [cbn [length] in Hn; lia|].
    cbn [forallb] in Hgood. apply andb_true_iff in Hgood.
    destruct Hgood as [Hit Hgood]. unfold goodItem in Hit. cbn [fst snd] in Hit.
    apply andb_true_iff in Hit. destruct Hit as [Hlv Ht].
    apply Nat.leb_le in Hlv.
    rewrite listSource_cons in Hstr. unfold itemSource in Hstr. cbn [fst snd] in Hstr.
    rewrite <- app_assoc in Hstr.
    rewrite (@listLoop_item ch lv t A (listSource ch its ++ rest) F1 fuel0 n acc s
               Hch Hstr Hoff HA Hlv Ht (HF (lv, t) (or_introl eq_refl)) Hs).
    rewrite (IH (A ++ repeat ch lv ++ t ++ [10%N])).
    + cbn [map pos lineNumber backtrackingCount stack length].
      rewrite <- app_assoc. cbn [app].
      rewrite listSource_cons. unfold itemSource. cbn [fst snd].
      rewrite !length_app. f_equal. f_equal. f_equal; lia.
    + rewrite Hstr. rewrite <- !app_assoc. reflexivity.
    + cbn [pos offset]. rewrite !length_app. reflexivity.
    + replace (A ++ repeat ch lv ++ t ++ [10%N])
        with (A ++ (repeat ch lv ++ t) ++ [10%N])
        by (rewrite <- (app_assoc (repeat ch lv)); reflexivity).
      apply endsLine_newline.
    + exact Hgood.
    + intros it Hin. apply HF. right. exact Hin.
    + reflexivity.
    + cbn [length] in Hn. lia.
Qed.

Lemma listSource_length (ch : N) (items : list (nat * jsstring)) :
  forallb (goodItem toLowerCase ch) items = true ->
  2 * length items <= length (listSource ch items)
  /\ forall it, In it items ->
       length items + length (snd it) + 1 <= length (listSource ch items).
Proof.
  induction items as [|[lv t] its IH]; intros Hgood.
  - split; [cbn; lia | intros it []].
  - cbn [forallb] in Hgood. apply andb_true_iff in Hgood.
    destruct Hgood as [Hit Hgood]. unfold goodItem in Hit. cbn [fst snd] in Hit.
    apply andb_true_iff in Hit. destruct Hit as [Hlv _]. apply Nat.leb_le in Hlv.
    destruct (IH Hgood) as [H2 Hall].
    rewrite listSource_cons. unfold itemSource. cbn [fst snd length].
    rewrite !length_app, repeat_length. cbn [length].
    split; [lia|]. intros it [<-|Hin]; cbn [snd]; [lia|].
    specialize (Hall it Hin). lia.
Qed.

Lemma listSource_last (ch : N) (items : list (nat * jsstring)) :
  items <> [] -> exists mid, listSource ch items = mid ++ [10%N].
Proof.
  induction items as [|[lv t] its IH]; [congruence|]. intros _.
  rewrite listSource_cons. unfold itemSource. cbn [fst snd].
  destruct its as [|it its'].
  - exists (repeat ch lv ++ t). cbn [listSource map concat].
    rewrite app_nil_r, app_assoc. reflexivity.
  - destruct IH as [mid Hmid]; [discriminate|]. rewrite Hmid.
    exists ((repeat ch lv ++ t ++ [10%N]) ++ mid). rewrite <- !app_assoc. reflexivity.
Qed.

(** [list] on the lines of a list. *)
Lemma list_run (ch : N) (items : list (nat * jsstring)) (A rest : jsstring)
    (F1 : nat) (s : State) :
  ch = 42%N \/ ch = 35%N ->
  str = A ++ listSource ch items ++ rest ->
  offset (pos s) = length A ->
  endsLine A = true ->
  items <> [] ->
  forallb (goodItem toLowerCase ch) items = true ->
  match rest with
  | [] => true
  | c :: _ => unitAvoids toLowerCase [ch] c
  end = true ->
  backtrackOn s = [] ->
  length (listSource ch items) <= F1 ->
  list_ str lower (next str lower limit toLowerCase F1) F1 [ch] s =
  Ok (VObj [(js "items", arr (map itemNode items))])
     (mkState (mkPos (length A + length (listSource ch items))
                     (lineNumber (pos s) + length items))
              [] (backtrackingCount s) (stack s)).
Proof.
  intros Hch Hstr Hoff HA Hne Hgood Hrest Hs HF.
  destruct (listSource_length ch items Hgood) as [H2 Hall].
  assert (Hk : 1 <= length items) by (destruct items; [congruence | cbn; lia]).
  unfold list_. unfold bind at 1.
  rewrite (@listLoop_items ch F1 F1 rest Hch Hrest items A [] F1 s Hstr Hoff HA Hgood).
  - reflexivity.
  - intros it Hin. specialize (Hall it Hin). lia.
  - exact Hs.
  - lia.
Qed.

(** [node] at the first line of a list. *)
Lemma node_list (ty : string) (ch : N) (items : list (nat * jsstring))
    (A rest : jsstring) (F : nat) (s : State) :
  In (ty, ch) listMarkup ->
  str = A ++ listSource ch items ++ rest ->
  offset (pos s) = length A ->
  endsLine A = true ->
  items <> [] ->
  forallb (goodItem toLowerCase ch) items = true ->
  match rest with
  | [] => true
  | c :: _ => unitAvoids toLowerCase [ch] c
  end = true ->
  backtrackOn s = [] ->
  length (listSource ch items) + 1 <= F ->
  node str lower limit toLowerCase F None [] s =
  Ok (listNode ty items)
     (mkState (mkPos (length A + length (listSource ch items))
                     (lineNumber (pos s) + length items))
              [] (backtrackingCount s) (stack s)).
Proof.
  intros Hin Hstr Hoff HA Hne Hgood Hrest Hs HF.
  replace F with (S (F - 1)) by lia.
  assert (HF1 : length (listSource ch items) <= F - 1) by lia.
  assert (Hch : ch = 42%N \/ ch = 35%N).
  { unfold listMarkup in Hin. cbn [In] in Hin.
    destruct Hin as [Hin|[Hin|[]]]; injection Hin as _ <-; auto. }
  pose proof (@list_run ch items A rest (F - 1) s Hch Hstr Hoff HA Hne Hgood Hrest
                Hs HF1) as Hrun.
  assert (H0 : nth_error lower (offset (pos s)) = Some [ch]).
  { replace [ch] with [asciiLower ch]
      by (destruct Hch as [-> | ->]; reflexivity).
    apply (@lower_nth _ ch); [|destruct Hch as [-> | ->]; reflexivity].
    rewrite Hoff, Hstr. rewrite nth_error_app2 by lia. rewrite Nat.sub_diag.
    destruct items as [|[lv t] its]; [congruence|].
    cbn [forallb] in Hgood. apply andb_true_iff in Hgood.
    destruct Hgood as [Hit _]. unfold goodItem in Hit. cbn [fst snd] in Hit.
    apply andb_true_iff in Hit. destruct Hit as [Hlv _]. apply Nat.leb_le in Hlv.
    rewrite listSource_cons. unfold itemSource. cbn [fst snd].
    destruct lv as [|lv]; [lia|]. reflexivity. }
  assert (Hline : isStartOfLine str (pos s) = true).
  { destruct s as [[o l] bo bc st]. cbn [pos offset] in Hoff |- *. subst o.
    apply (isStartOfLine_after A _ l Hstr HA). }
  cbn [node]. unfold nodeImpl. unfold bind at 1, getPos at 1. unfold grammar.
  unfold listMarkup in Hin. cbn [In] in Hin.
  destruct Hin as [Hin|[Hin|[]]]; injection Hin as <- <-.
  - do 7 (rewrite nodeLoop_cons;
          rewrite nodeEntry_skip
            by (eapply startsWithP_first; [exact H0 | reflexivity])).
    rewrite nodeLoop_cons.
    rewrite (@nodeEntry_production_line_hit _ None [] "unorderedList" "*" _ _ _ _ s
               [(js "items", arr (map itemNode items))]
               (mkState (mkPos (length A + length (listSource 42%N items))
                               (lineNumber (pos s) + length items))
                        [] (backtrackingCount s) (stack s))
               (startsWithP_one _ H0) eq_refl Hline).
    + reflexivity.
    + exact Hrun.
  - do 8 (rewrite nodeLoop_cons;
          rewrite nodeEntry_skip
            by (eapply startsWithP_first; [exact H0 | reflexivity])).
    rewrite nodeLoop_cons.
    rewrite (@nodeEntry_production_line_hit _ None [] "orderedList" "#" _ _ _ _ s
               [(js "items", arr (map itemNode items))]
               (mkState (mkPos (length A + length (listSource 35%N items))
                               (lineNumber (pos s) + length items))
                        [] (backtrackingCount s) (stack s))
               (startsWithP_one _ H0) eq_refl Hline).
    + reflexivity.
    + exact Hrun.
Qed.

Lemma unitAvoids_soft (ch c : N) :
  In ch softChars ->
  unitAvoids toLowerCase softChars c = true ->
  unitAvoids toLowerCase [ch] c = true.
Proof.
  intros Hin H. unfold unitAvoids. cbn [forallb].
  rewrite (@unitAvoids_in softChars c ch H Hin). reflexivity.
Qed.

(** [parse]'s [next] on plain text that ends a line, the lines of a list
    and plain text. *)
Lemma next_list_markup (ty : string) (ch : N) (items : list (nat * jsstring))
    (pre post : jsstring) (f : nat) :
  In (ty, ch) listMarkup ->
  str = pre ++ listSource ch items ++ post ->
  endsLine pre = true ->
  items <> [] ->
  forallb (goodItem toLowerCase ch) items = true ->
  plainText toLowerCase true pre = true ->
  plainText toLowerCase true post = true ->
  length pre + length (listSource ch items) + length post + 3 <= f ->
  exists s',
    next str lower limit toLowerCase (S f) (withEndAtEos true noOpts) initialState =
    Ok (Some (textNode pre ++ listNode ty items :: textNode post)) s'.
Proof.
  intros Hin Hstr Hend Hne Hgood Hpre Hpost Hf.
  destruct (@listSource_last ch items Hne) as [mid Hmid].
  assert (Hsoft : In ch softChars).
  { unfold listMarkup in Hin. cbn [In] in Hin.
    destruct Hin as [Hin|[Hin|[]]]; injection Hin as _ <-; cbn; tauto. }
  assert (Hrest : match post with
                  | [] => true
                  | c :: _ => unitAvoids toLowerCase [ch] c
                  end = true).
  { destruct post as [|c r]; [reflexivity|]. cbn [plainText] in Hpost.
    apply andb_true_iff in Hpost. destruct Hpost as [Hc _].
    unfold plainUnitAt in Hc. apply andb_true_iff in Hc. destruct Hc as [_ Hc].
    cbn [negb] in Hc. rewrite orb_false_r in Hc.
    apply (@unitAvoids_soft ch c Hsoft Hc). }
  assert (Hstr' : str = pre ++ (mid ++ [10%N]) ++ post) by (rewrite <- Hmid; exact Hstr).
  unfold listNode.
  apply (@next_around_line pre mid post _ 10%N f
           (fun s => lineNumber (pos s) + length items) true Hstr' (fun _ => eq_refl)
           Hpre Hpost); [|lia].
  intros s Hoff Hs.
  rewrite (@node_list ty ch items pre post f s Hin Hstr Hoff Hend Hne Hgood Hrest Hs)
    by lia.
  rewrite Hs, Hmid. reflexivity.
Qed.

End Entities.

Lemma lowerTable_ascii : asciiFaithful lowerTable.
Proof.
  intros c Hc.
  assert (Hall : checkBelow (fun c => jsstring_eqb (lowerTable [c]) [asciiLower c])
                            128 = true) by (vm_compute; reflexivity).
  apply (proj1 (jsstring_eqb_eq _ _)). exact (@checkBelow_spec _ 128 Hall c Hc).
Qed.



(* ================================================================== *)
(** ** Further properties of the parser *)

Lemma toUint16_intNum_mod (v : Z) :
  (0 <= v < 2 ^ 53)%Z -> toUint16 (intNum v) = Z.to_N (v mod 65536).
Proof.
  intros Hv. destruct (@intNum_spec v Hv) as (m & e & H1 & H2 & H3 & H4).
  rewrite H1. unfold toUint16.
  destruct (Z.leb_spec 0 e); [|lia].
  destruct (Z.leb_spec 16 e); [|rewrite H3; reflexivity].
  assert (Hd : (v mod 65536 = 0)%Z).
  { rewrite <- H3. replace e with ((e - 16) + 16)%Z by lia.
    rewrite Z.pow_add_r by lia. change (2 ^ 16)%Z with 65536%Z.
    rewrite Z.mul_assoc. apply Z_mod_mult. }
  rewrite Hd. reflexivity.
Qed.

(** X1. Text without markup comes back unchanged: when no unit of the input
    starts a descriptor of the grammar where it stands, [parse] returns the
    input as the only element of the list (and the empty list for the empty
    input), whatever the options and the lower-casing. *)
Theorem plain_text_unchanged (toLowerCase : jsstring -> jsstring)
    (text : jsstring) (o : Options) (fuel : nat) :
  plainText toLowerCase true text = true ->
  length text + 2 <= fuel ->
  parse toLowerCase fuel text o =
  Returned (arr (match text with [] => [] | _ :: _ => [VStr text] end)).
Proof.
  intros Hp Hfuel. destruct fuel as [|f]; [lia|].
  unfold parse, Parser_parse. cbv zeta. cbn [options newParser]. unfold run.
  rewrite (@next_plain text (backtrackingLimit o) toLowerCase f Hp) by lia.
  reflexivity.
Qed.

Lemma plain_text_unchanged_witness :
  parse lowerTable 40 (js "Cats: 2 - 1 = 1; see #3 *") kDefaultOptions =
  Returned (arr [VStr (js "Cats: 2 - 1 = 1; see #3 *")]).
Proof.
  apply (@plain_text_unchanged lowerTable (js "Cats: 2 - 1 = 1; see #3 *")
           kDefaultOptions 40).
  - reflexivity.
  - simpl. lia.
Defined.

(** X2. The named entities of the grammar ([&nbsp;], [&lt;], [&gt;],
    [&mdash;], [&ndash;], [&minus;], [&thinsp;]), written in any mix of
    capitals, are replaced by their character between two runs of plain
    text, and the three are joined into one string. *)
Theorem named_entity_replaced (toLowerCase : jsstring -> jsstring) (name : string)
    (repl spelled pre post : jsstring) (o : Options) (fuel : nat) :
  asciiFaithful toLowerCase ->
  In (name, repl) namedEntities ->
  map asciiLower spelled = js (String.append "&" (String.append name ";")) ->
  Forall (fun c => (c < 128)%N) spelled ->
  plainText toLowerCase true pre = true ->
  plainText toLowerCase false post = true ->
  length pre + length post + 5 <= fuel ->
  parse toLowerCase fuel (pre ++ spelled ++ post) o =
  Returned (arr [VStr (pre ++ repl ++ post)]).
Proof.
  intros Hascii Hin Hmap Hlt Hpre Hpost Hfuel. destruct fuel as [|f]; [lia|].
  destruct (@next_named (pre ++ spelled ++ post) (backtrackingLimit o) toLowerCase
              Hascii name repl spelled pre post f eq_refl Hin Hmap Hlt Hpre Hpost)
    as [s' Hs']; [lia|].
  unfold parse, Parser_parse. cbv zeta. cbn [options newParser]. unfold run.
  rewrite Hs'. reflexivity.
Qed.

Lemma named_entity_replaced_witness :
  parse lowerTable 20 (js "a " ++ js "&MDash;" ++ js " b") kDefaultOptions =
  Returned (arr [VStr (js "a " ++ [8212%N] ++ js " b")]).
Proof.
  apply (@named_entity_replaced lowerTable "mdash" [8212%N] (js "&MDash;")
           (js "a ") (js " b") kDefaultOptions 20).
  - exact lowerTable_ascii.
  - simpl. tauto.
  - reflexivity.
  - repeat constructor.
  - reflexivity.
  - reflexivity.
  - simpl. lia.
Defined.

(** X3. A numeric entity whose value does not fit sixteen bits is not
    rejected: [String.fromCharCode] keeps the low sixteen bits, so the
    entity becomes the code unit [value mod 65536] (for values below 2^53,
    which [parseInt] represents exactly). *)
Theorem numeric_entity_wraps (toLowerCase : jsstring -> jsstring) (k : EntityKind)
    (pre digits post : jsstring) (o : Options) (fuel : nat) :
  asciiFaithful toLowerCase ->
  digits <> [] ->
  Forall (fun c => digitOf k c = true) digits ->
  (digitsValue (radixOf k) digits < 2 ^ 53)%Z ->
  plainText toLowerCase true pre = true ->
  plainText toLowerCase false post = true ->
  length pre + length post + length digits + 6 <= fuel ->
  parse toLowerCase fuel (pre ++ entityText k digits ++ post) o =
  Returned (arr [VStr (pre ++ [Z.to_N (digitsValue (radixOf k) digits mod 65536)]
                           ++ post)]).
Proof.
  intros Hascii Hne Hd Hv Hpre Hpost Hfuel.
  destruct fuel as [|f]; [lia|].
  destruct (@next_entity (pre ++ entityText k digits ++ post) (backtrackingLimit o)
              toLowerCase Hascii k pre digits post f eq_refl Hne Hd Hpre Hpost)
    as [s' Hs']; [lia|].
  unfold parse, Parser_parse. cbv zeta. cbn [options newParser]. unfold run.
  rewrite Hs'. cbn [fst ofNullable]. unfold fromCharCode.
  rewrite toUint16_intNum_mod; [reflexivity|].
  split; [apply (@digitsValue_nonneg k _ Hd) | exact Hv].
Qed.

Lemma numeric_entity_wraps_witness :
  parse lowerTable 20 (js "x" ++ entityText Decimal (js "65601") ++ js "y")
        kDefaultOptions =
  Returned (arr [VStr (js "x" ++ [Z.to_N (digitsValue (radixOf Decimal) (js "65601")
                                          mod 65536)] ++ js "y")]).
Proof.
  apply (@numeric_entity_wraps lowerTable Decimal (js "x") (js "65601") (js "y")
           kDefaultOptions 20).
  - exact lowerTable_ascii.
  - discriminate.
  - repeat constructor.
  - vm_compute. reflexivity.
  - reflexivity.
  - reflexivity.
  - simpl. lia.
Defined.

(* ================================================================== *)
(** ** Backtracking restores the cursor *)

Section Backtracking.

Variable str : jsstring.
Variable lowercaseStr : list jsstring.
Variable limit : Z.

(** A descriptor that gives no node hands over to the rest of the loop,
    with the cursor as it was or set back to [originalPos]. *)
Lemma nodeEntry_null (nx : NextOpts -> M (option (list value)))
    (allow : option (list jsstring)) (disallow : list jsstring)
    (nt : NodeType) (originalPos : Pos) (continue_ : M value)
    (s s' : State) (v : value) :
  nodeEntry lowercaseStr limit nx allow disallow nt originalPos continue_ s = Ok v s' ->
  isNullish v = true ->
  continue_ s = Ok v s'
  \/ exists s1, pos s1 = originalPos /\ continue_ s1 = Ok v s'.
Proof.
  intros H Hv. destruct nt as [ty start keep pre post grp func repl pp opts].
  cbn [nodeEntry nt_start nt_type nt_preCondition nt_keepStart nt_postCondition
       nt_func nt_replaceWith nt_postProcess nt_opts] in H.
  unfold bind at 1, getPos at 1 in H.
  destruct (negb (startsWithP lowercaseStr start (pos s)) || typeFiltered ty allow disallow)%bool;
    [left; exact H|].
  right.
  destruct (match pre with Some pre0 => negb (pre0 (pos s)) | None => false end).
  { unfold bind, setPos in H. eexists. split; [|exact H]. reflexivity. }
  unfold bind at 1 in H.
  destruct ((if keep then ret true else eat lowercaseStr start true) s)
    as [b s1|e s1|]; try discriminate.
  unfold bind at 1, getPos at 1 in H.
  destruct (match post with Some post0 => negb (post0 (pos s1)) | None => false end).
  { unfold bind, setPos in H. eexists. split; [|exact H]. reflexivity. }
  destruct grp as [grp|].
  - unfold bind at 1 in H.
    match type of H with
    | context [match ?m s1 with _ => _ end] =>
        destruct (m s1) as [r s2|e s2|]; try discriminate
    end.
    destruct (isNullish r) eqn:Er.
    + unfold bind, setPos in H. eexists. split; [|exact H]. reflexivity.
    + unfold ret in H. injection H as <- <-. congruence.
  - unfold bind at 1 in H.
    destruct (match func with
              | Some func0 => func0
              | None => bind (nx opts) (fun r => ret (ofNullable r))
              end s1) as [content s2|e s2|]; try discriminate.
    destruct repl as [r|]; [unfold ret in H; injection H as <- <-; discriminate|].
    destruct (isNullish content).
    + unfold bind at 1 in H.
      destruct (countBacktrack limit s2) as [u s3|e s3|]; try discriminate.
      unfold bind, setPos in H. eexists. split; [|exact H]. reflexivity.
    + unfold bind at 1 in H.
      destruct (match pp with
                | Some f => f (wrapContent ty content)
                | None => ret (wrapContent ty content)
                end s2) as [processed s3|e s3|]; try discriminate.
      destruct (isNullish processed) eqn:Ep; [discriminate|].
      unfold ret in H. injection H as <- <-. congruence.
Qed.

Lemma nodeLoop_null (nx : NextOpts -> M (option (list value)))
    (allow : option (list jsstring)) (disallow : list jsstring)
    (originalPos : Pos) (g : list NodeType) :
  forall (s s' : State) (v : value),
    pos s = originalPos ->
    nodeLoop lowercaseStr limit nx allow disallow originalPos g s = Ok v s' ->
    isNullish v = true ->
    pos s' = originalPos.
Proof.
  induction g as [|nt g IH]; intros s s' v Hs H Hv.
  - cbn in H. injection H as <- <-. exact Hs.
  - change (nodeLoop lowercaseStr limit nx allow disallow originalPos (nt :: g))
      with (nodeEntry lowercaseStr limit nx allow disallow nt originalPos
              (nodeLoop lowercaseStr limit nx allow disallow originalPos g)) in H.
    destruct (nodeEntry_null _ _ _ _ _ _ _ H Hv) as [H1 | (s1 & Hs1 & H1)].
    + exact (IH s s' v Hs H1 Hv).
    + exact (IH s1 s' v Hs1 H1 Hv).
Qed.

Lemma nextLoop_null (nd : option (list jsstring) -> list jsstring -> M value)
    (o : NextOpts) (originalPos : Pos) (n : nat) :
  forall (cs cl : nat) (content : list value) (s s' : State),
    nextLoop str lowercaseStr limit nd n o originalPos cs cl content s = Ok None s' ->
    pos s' = originalPos.
Proof.
  induction n as [|n IH]; intros cs cl content s s' H; [discriminate|].
  cbn [nextLoop] in H. unfold bind at 1, getPos at 1 in H.
  assert (Hfin : forall a b c s0,
             nextFinish str o a b c s0 = Ok None s' -> pos s' = originalPos).
  { intros a b c s0 Hf. unfold nextFinish, bind, when, ret in Hf.
    destruct (isSome (opt_backtrackOn o)); discriminate. }
  destruct (isEnd str (pos s) && opt_endAtEos o)%bool; [eapply Hfin; exact H|].
  unfold bind at 1, someBacktrackOn at 1 in H.
  destruct (existsb _ _ || startsWithAnyP lowercaseStr (opt_backtrack o) (pos s)
            || isEnd str (pos s))%bool.
  { unfold bind at 1 in H.
    destruct (countBacktrack limit s) as [u s1|e s1|]; try discriminate.
    unfold bind, setPos, when, popBacktrackOn, ret in H.
    destruct (isSome (opt_backtrackOn o)); injection H as <-; reflexivity. }
  destruct (startsWithAnyP lowercaseStr (opt_end o) (pos s)
            && negb (startsWithAnyP lowercaseStr (opt_notEnd o) (pos s)))%bool.
  { unfold bind at 1 in H.
    destruct (eatAny lowercaseStr (opt_end o) true s) as [b s1|e s1|]; try discriminate.
    eapply Hfin; exact H. }
  destruct (startsWithAnyP lowercaseStr (opt_endBefore o) (pos s));
    [eapply Hfin; exact H|].
  destruct (holds (opt_endBeforeRegex o) (pos s)); [eapply Hfin; exact H|].
  destruct (holds (opt_endOn o) (pos s)); [eapply Hfin; exact H|].
  unfold bind at 1, pushStack at 1 in H. unfold bind at 1 in H.
  destruct (nd (opt_allow o) (opt_disallow o) _) as [v s1|e s1|]; try discriminate.
  unfold bind at 1, popStack at 1 in H.
  destruct (truthy v).
  - unfold bind at 1, getPos at 1 in H. eapply IH; exact H.
  - unfold bind at 1, getPos at 1 in H. unfold bind at 1 in H.
    destruct (advanceChar str _) as [c s2|e s2|]; try discriminate.
    eapply IH; exact H.
Qed.

End Backtracking.

(** X4. Backtracking restores the cursor: when [next] returns [null], and
    when [node] returns [null] (or [undefined]), the cursor is back where the
    call found it, whatever happened in between. *)
Theorem backtrack_restores_cursor (str : jsstring) (lowercaseStr : list jsstring)
    (limit : Z) (toLowerCase : jsstring -> jsstring) (fuel : nat) (s s' : State) :
  (forall o,
      next str lowercaseStr limit toLowerCase fuel o s = Ok None s' ->
      pos s' = pos s)
  /\ (forall allow disallow v,
        node str lowercaseStr limit toLowerCase fuel allow disallow s = Ok v s' ->
        isNullish v = true ->
        pos s' = pos s).
Proof.
  destruct fuel as [|f]; [split; intros; discriminate|]. split.
  - intros o H. cbn [next] in H. unfold nextImpl in H.
    destruct (opt_end o), (opt_endBefore o), (opt_endBeforeRegex o), (opt_endOn o),
      (opt_backtrack o), (opt_endAtEos o);
      try discriminate;
      unfold bind at 1, getPos at 1 in H; unfold bind at 1 in H;
      match type of H with
      | context [match ?m s with _ => _ end] =>
          destruct (m s) as [u s1|e s1|] eqn:E; try discriminate
      end;
      apply nextLoop_null in H;
      (destruct (opt_backtrackOn o);
       [unfold pushBacktrackOn in E | unfold ret in E];
       injection E as _ <-; exact H).
  - intros allow disallow v H Hv. cbn [node] in H. unfold nodeImpl in H.
    unfold bind at 1, getPos at 1 in H.
    eapply nodeLoop_null; [|exact H | exact Hv]. reflexivity.
Qed.

Lemma backtrack_restores_cursor_witness :
  let str := js "ab ''c" in
  let lower := map (fun c => lowerTable [c]) str in
  let s := mkState (mkPos 3 1) [] 0 [] in
  let s' := mkState (mkPos 3 1) [] 2 [] in
  node str lower 50000 lowerTable 10 None [] s = Ok VNull s' /\ pos s' = pos s.
Proof.
  intros str lower s s'.
  assert (H : node str lower 50000 lowerTable 10 None [] s = Ok VNull s')
    by (vm_compute; reflexivity).
  split; [exact H|].
  exact (proj2 (backtrack_restores_cursor str lower 50000 lowerTable 10 s s')
           None [] VNull H eq_refl).
Defined.


(* ================================================================== *)
(** ** [trim] *)

Lemma dropWhile_head (p : N -> bool) (s : jsstring) (c : N) (r : jsstring) :
  dropWhile p s = c :: r -> p c = false.
Proof.
  induction s as [|d s IH]; cbn [dropWhile]; [discriminate|].
  destruct (p d) eqn:E; [exact IH|]. intros H. injection H as <- _. exact E.
Qed.

Lemma dropWhile_snoc (p : N -> bool) (s : jsstring) (c : N) :
  p c = false -> dropWhile p (s ++ [c]) = dropWhile p s ++ [c].
Proof.
  intros Hc. induction s as [|d s IH]; cbn [dropWhile app].
  - rewrite Hc. reflexivity.
  - destruct (p d); [exact IH | reflexivity].
Qed.

Lemma dropWhileEnd_cons (p : N -> bool) (c : N) (s : jsstring) :
  p c = false -> dropWhileEnd p (c :: s) = c :: dropWhileEnd p s.
Proof.
  intros Hc. unfold dropWhileEnd. cbn [rev].
  rewrite dropWhile_snoc by exact Hc. rewrite rev_app_distr. reflexivity.
Qed.

Lemma dropWhileEnd_last (p : N -> bool) (s : jsstring) (d : N) (t : jsstring) :
  dropWhileEnd p s = d :: t ->
  exists r c, dropWhileEnd p s = r ++ [c] /\ p c = false.
Proof.
  unfold dropWhileEnd. intros H.
  destruct (dropWhile p (rev s)) as [|c r] eqn:E; [discriminate|].
  exists (rev r), c. split; [reflexivity|]. eapply dropWhile_head; exact E.
Qed.

Lemma dropWhileEnd_snoc (p : N -> bool) (s : jsstring) (c : N) :
  p c = false -> dropWhileEnd p (s ++ [c]) = s ++ [c].
Proof.
  intros Hc. unfold dropWhileEnd. rewrite rev_app_distr. cbn [rev app dropWhile].
  rewrite Hc. cbn [rev]. rewrite rev_involutive. reflexivity.
Qed.

Lemma trimFirst_start (l : list value) :
  noAdjacentStrings l -> trimmedStart (trimFirst l).
Proof.
  intros H. destruct l as [|x r]; [exact I|].
  destruct x as [| | b | n | s | l0 ps | fs | d]; try exact I.
  cbn [trimFirst]. destruct (trimLeft s) as [|c s'] eqn:E.
  - destruct r as [|y r']; [exact I|].
    destruct y; try exact I. contradiction.
  - exists c, s'. split; [reflexivity|]. eapply dropWhile_head; exact E.
Qed.

Lemma noAdjacentStrings_trimFirst (l : list value) :
  noAdjacentStrings l -> noAdjacentStrings (trimFirst l).
Proof.
  intros H. destruct l as [|x r]; [exact I|].
  destruct x as [| | b | n | s | l0 ps | fs | d]; try exact H.
  cbn [trimFirst]. destruct (trimLeft s) as [|c s'].
  - destruct r as [|y r']; [exact I|]. destruct y; first [exact H | contradiction].
  - destruct r as [|y r']; [exact I|]. destruct y; first [exact H | contradiction].
Qed.

Lemma trimLast_end (l : list value) :
  noAdjacentStrings l -> trimmedEnd (trimLast l).
Proof.
  induction l as [|x r IH]; intros H; [exact I|].
  destruct r as [|y r'].
  - destruct x as [| | b | n | s | l0 ps | fs | d]; try exact I.
    cbn [trimLast]. destruct (trimRight s) as [|c s'] eqn:E; [exact I|].
    unfold trimmedEnd. cbn [last]. rewrite <- E.
    unfold trimRight in *. eapply dropWhileEnd_last; exact E.
  - change (trimLast (x :: y :: r')) with (x :: trimLast (y :: r')).
    assert (Hr : noAdjacentStrings (y :: r')).
    { destruct x; try exact H. destruct y; first [exact H | contradiction]. }
    specialize (IH Hr). unfold trimmedEnd in *.
    destruct (trimLast (y :: r')) as [|z L] eqn:E.
    + cbn [last].
      destruct r' as [|w r'']; [|discriminate E].
      destruct x; try exact I. destruct y; try discriminate E. contradiction.
    + change (last (x :: z :: L) VNull) with (last (z :: L) VNull). exact IH.
Qed.

Lemma trimLast_start (l : list value) :
  trimmedStart l -> trimmedStart (trimLast l).
Proof.
  intros H. destruct l as [|x r]; [exact I|].
  destruct r as [|y r'].
  - destruct x as [| | b | n | s | l0 ps | fs | d]; try exact I.
    destruct H as (c & r & -> & Hc). cbn [trimLast]. unfold trimRight.
    rewrite dropWhileEnd_cons by exact Hc. exists c, (dropWhileEnd isWhiteSpace r).
    split; [reflexivity | exact Hc].
  - change (trimLast (x :: y :: r')) with (x :: trimLast (y :: r')).
    destruct x; try exact I. exact H.
Qed.

Lemma trimFirst_id (l : list value) : trimmedStart l -> trimFirst l = l.
Proof.
  intros H. destruct l as [|x r]; [reflexivity|].
  destruct x as [| | b | n | s | l0 ps | fs | d]; try reflexivity.
  destruct H as (c & r0 & -> & Hc). cbn [trimFirst trimLeft dropWhile].
  rewrite Hc. reflexivity.
Qed.

Lemma trimLast_id (l : list value) : trimmedEnd l -> trimLast l = l.
Proof.
  induction l as [|x r IH]; intros H; [reflexivity|].
  destruct r as [|y r'].
  - destruct x as [| | b | n | s | l0 ps | fs | d]; try reflexivity.
    unfold trimmedEnd in H. cbn [last] in H. destruct H as (r & c & -> & Hc).
    cbn [trimLast]. unfold trimRight. rewrite dropWhileEnd_snoc by exact Hc.
    destruct r; reflexivity.
  - change (trimLast (x :: y :: r')) with (x :: trimLast (y :: r')).
    f_equal. apply IH. exact H.
Qed.

(** X5. [trim] on a list without adjacent strings leaves a list whose first
    element, if a string, begins with a unit that is not white space and
    whose last element, if a string, ends with one (a string that was all
    white space is removed); trimming again changes nothing. *)
Theorem trim_trims (l : list value) :
  noAdjacentStrings l ->
  exists l',
    trim (Some l) = Some l'
    /\ trimmedStart l' /\ trimmedEnd l'
    /\ trim (Some l') = Some l'.
Proof.
  intros H.
  assert (Hgen : trimmedStart (trimLast (trimFirst l))
                 /\ trimmedEnd (trimLast (trimFirst l))).
  { split.
    - apply trimLast_start, trimFirst_start, H.
    - apply trimLast_end, noAdjacentStrings_trimFirst, H. }
  destruct Hgen as [Hs He].
  assert (Hid : forall l', trimmedStart l' -> trimmedEnd l' ->
                           trim (Some l') = Some l').
  { intros l' Hs' He'. destruct l' as [|x r]; [reflexivity|].
    cbn [trim]. rewrite trimFirst_id by exact Hs'. rewrite trimLast_id by exact He'.
    reflexivity. }
  destruct l as [|x r].
  - exists []. repeat split; reflexivity || exact I.
  - exists (trimLast (trimFirst (x :: r))).
    split; [reflexivity|]. split; [exact Hs|]. split; [exact He|].
    exact (Hid _ Hs He).
Qed.

Lemma trim_trims_witness :
  exists l',
    trim (Some [VStr (js "  a "); VObj [(js "type", VStr (js "bold"))];
                VStr (js "   ")]) = Some l'
    /\ trimmedStart l' /\ trimmedEnd l'
    /\ trim (Some l') = Some l'.
Proof.
  apply (trim_trims [VStr (js "  a "); VObj [(js "type", VStr (js "bold"))];
                     VStr (js "   ")]).
  simpl. exact I.
Defined.


(* ================================================================== *)
(** ** The text of a list *)

Lemma mapJoin_cons (f : value -> TextResult) (x : value) (l : list value) :
  mapJoin f [] [] (x :: l) = textThen (mapJoin f [] [] [x]) (mapJoin f [] [] l).
Proof.
  destruct l as [|y l].
  - cbn [mapJoin]. destruct (elemText f [] x) as [t|e| |]; cbn [textThen];
      [rewrite app_nil_r|..]; reflexivity.
  - change (mapJoin f [] [] (x :: y :: l))
      with (match elemText f [] x with
            | Text t => match mapJoin f [] [] (y :: l) with
                        | Text ts => Text (t ++ [] ++ ts)
                        | r => r
                        end
            | r => r
            end).
    change (mapJoin f [] [] [x])
      with (match elemText f [] x with Text t => Text t | r => r end).
    destruct (elemText f [] x) as [t|e| |]; cbn [textThen]; try reflexivity.
    destruct (mapJoin f [] [] (y :: l)); reflexivity.
Qed.

Lemma textThen_assoc (a b c : TextResult) :
  textThen (textThen a b) c = textThen a (textThen b c).
Proof.
  destruct a, b, c; cbn [textThen]; try reflexivity.
  rewrite app_assoc. reflexivity.
Qed.

Lemma mapJoin_app (f : value -> TextResult) (a b : list value) :
  mapJoin f [] [] (a ++ b) = textThen (mapJoin f [] [] a) (mapJoin f [] [] b).
Proof.
  induction a as [|x a IH]; cbn [app].
  - cbn [mapJoin textThen]. destruct (mapJoin f [] [] b); reflexivity.
  - rewrite mapJoin_cons, IH, <- textThen_assoc, <- mapJoin_cons. reflexivity.
Qed.

Lemma mapJoin_appendChunk (f : value -> TextResult) (content : list value)
    (chunk : value) :
  stringFaithful f ->
  mapJoin f [] [] (appendChunk content chunk) = mapJoin f [] [] (content ++ [chunk]).
Proof.
  intros Hf. induction content as [|x rest IH]; [reflexivity|].
  destruct rest as [|y r].
  - cbn [appendChunk app].
    destruct x as [| | b | n | t | l0 ps | fs | d]; try reflexivity.
    destruct chunk as [| | b | n | s | l0 ps | fs | d]; try reflexivity.
    cbn [mapJoin elemText].
    destruct Hf as [Hf | Hf]; rewrite !Hf; [|reflexivity].
    cbn [app]. rewrite !app_nil_r. reflexivity.
  - change (appendChunk (x :: y :: r) chunk) with (x :: appendChunk (y :: r) chunk).
    change ((x :: y :: r) ++ [chunk]) with (x :: ((y :: r) ++ [chunk])).
    rewrite mapJoin_cons, IH, <- mapJoin_cons. reflexivity.
Qed.

Lemma mapJoin_append (f : value -> TextResult) (chunks : list value) :
  stringFaithful f ->
  forall content,
    mapJoin f [] [] (append content chunks) = mapJoin f [] [] (content ++ chunks).
Proof.
  intros Hf. unfold append.
  induction chunks as [|c cs IH]; intros content; cbn [fold_left].
  - rewrite app_nil_r. reflexivity.
  - rewrite IH, mapJoin_app, (mapJoin_appendChunk _ _ Hf), <- mapJoin_app.
    rewrite <- app_assoc. reflexivity.
Qed.

Lemma nodeToText_stringFaithful (fuel : nat)
    (headingCallback : option (jsstring -> jsstring)) :
  stringFaithful (nodeToText fuel headingCallback).
Proof.
  destruct fuel as [|f]; [right | left]; reflexivity.
Qed.

(** X6. [append] changes how a list is cut into strings, not what it says:
    the list it returns has no two adjacent strings when [content] had none,
    and [nodeToText] gives for it what it gives for [content] followed by
    the chunks, be it a text or an exception. *)
Theorem append_keeps_text (fuel : nat)
    (headingCallback : option (jsstring -> jsstring))
    (content chunks : list value) (ps : list (jsnum * value)) :
  (noAdjacentStrings content -> noAdjacentStrings (append content chunks))
  /\ nodeToText fuel headingCallback (VArr (append content chunks) ps)
     = nodeToText fuel headingCallback (VArr (content ++ chunks) ps).
Proof.
  split.
  - unfold append. revert content.
    induction chunks as [|c cs IH]; intros content H; cbn [fold_left]; [exact H|].
    apply IH. apply noAdjacentStrings_appendChunk. exact H.
  - destruct fuel as [|f]; [reflexivity|]. cbn [nodeToText].
    apply mapJoin_append. apply nodeToText_stringFaithful.
Qed.

Lemma append_keeps_text_witness :
  noAdjacentStrings (append [VStr (js "a")] [VStr (js "b"); VNull; VStr (js "c")]).
Proof.
  apply (proj1 (append_keeps_text 0 None [VStr (js "a")]
                  [VStr (js "b"); VNull; VStr (js "c")] [])).
  exact I.
Defined.

(** X7. The text of a list is the texts of its parts one after the other:
    [nodeToText] of two lists joined is the text of the first followed by
    the text of the second, and the first exception met, if there is one. *)
Theorem text_of_concatenation (fuel : nat)
    (headingCallback : option (jsstring -> jsstring))
    (a b : list value) (ps : list (jsnum * value)) :
  nodeToText (S fuel) headingCallback (VArr (a ++ b) ps)
  = textThen (nodeToText (S fuel) headingCallback (VArr a ps))
             (nodeToText (S fuel) headingCallback (VArr b ps)).
Proof. cbn [nodeToText]. apply mapJoin_app. Qed.


(* ================================================================== *)
(** ** [astToText]: the replacement of blank lines *)

Lemma lastNewline_idx (w : jsstring) :
  forall (i : nat) (b : option nat),
    1 <= i ->
    lastNewline w i b = match lastNlIdx w with
                        | Some k => Some (i + k)
                        | None => b
                        end.
Proof.
  induction w as [|c r IH]; intros i b Hi; [reflexivity|].
  cbn [lastNewline lastNlIdx]. destruct (isWhiteSpace c); [|reflexivity].
  rewrite IH by lia.
  destruct (Nat.leb_spec 1 i) as [_|]; [|lia].
  destruct (lastNlIdx r) as [k|].
  - f_equal. lia.
  - destruct (N.eqb c 10); cbn [andb]; [f_equal; lia | reflexivity].
Qed.

Lemma lastNewline_top (w : jsstring) :
  lastNewline w 0 None =
  match w with
  | [] => None
  | c :: r => if isWhiteSpace c then
                match lastNlIdx r with
                | Some k => Some (S k)
                | None => None
                end
              else None
  end.
Proof.
  destruct w as [|c r]; [reflexivity|].
  cbn [lastNewline]. destruct (isWhiteSpace c); [|reflexivity].
  rewrite lastNewline_idx by lia. rewrite andb_false_r. reflexivity.
Qed.

Lemma lastNlIdx_rest (w : jsstring) (k : nat) :
  lastNlIdx w = Some k -> lastNlIdx (skipn (S k) w) = None.
Proof.
  revert k. induction w as [|c r IH]; intros k H; [discriminate|].
  cbn [lastNlIdx] in H. destruct (isWhiteSpace c); [|discriminate].
  destruct (lastNlIdx r) as [k'|] eqn:E.
  - injection H as <-. change (skipn (S (S k')) (c :: r)) with (skipn (S k') r).
    apply IH. reflexivity.
  - destruct (N.eqb c 10); [|discriminate]. injection H as <-. exact E.
Qed.

Lemma lastNlIdx_none_top (w : jsstring) :
  lastNlIdx w = None -> lastNewline w 0 None = None.
Proof.
  intros H. rewrite lastNewline_top. destruct w as [|c r]; [reflexivity|].
  cbn [lastNlIdx] in H. destruct (isWhiteSpace c); [|reflexivity].
  destruct (lastNlIdx r); [discriminate | reflexivity].
Qed.

Lemma newline_isWhiteSpace (c : N) : N.eqb c 10 = true -> isWhiteSpace c = true.
Proof. intros H. apply N.eqb_eq in H. subst c. reflexivity. Qed.

Lemma collapseBlank_noNl (u : jsstring) :
  lastNlIdx u = None -> lastNlIdx (collapseBlank 0 u) = None.
Proof.
  induction u as [|c r IH]; intros H; [reflexivity|].
  cbn [lastNlIdx] in H. cbn [collapseBlank].
  destruct (isWhiteSpace c) eqn:Ew.
  - destruct (lastNlIdx r) as [k|] eqn:E; [discriminate|].
    destruct (N.eqb c 10) eqn:Ec; [discriminate|].
    cbn [lastNlIdx]. rewrite Ew, (IH eq_refl), Ec. reflexivity.
  - destruct (N.eqb c 10) eqn:Ec.
    + rewrite (newline_isWhiteSpace _ Ec) in Ew. discriminate.
    + cbn [lastNlIdx]. rewrite Ew. reflexivity.
Qed.

Lemma collapseBlank_top (u : jsstring) :
  lastNewline u 0 None = None -> lastNewline (collapseBlank 0 u) 0 None = None.
Proof.
  intros H. rewrite lastNewline_top in H. destruct u as [|c r]; [reflexivity|].
  destruct (isWhiteSpace c) eqn:Ew.
  - destruct (lastNlIdx r) as [k|] eqn:E; [discriminate|].
    assert (Hout : collapseBlank 0 (c :: r) = c :: collapseBlank 0 r).
    { cbn [collapseBlank]. destruct (N.eqb c 10); [|reflexivity].
      rewrite (lastNlIdx_none_top _ E). reflexivity. }
    rewrite Hout, lastNewline_top, Ew, (collapseBlank_noNl _ E). reflexivity.
  - assert (Ec : N.eqb c 10 = false).
    { destruct (N.eqb c 10) eqn:Ec; [|reflexivity].
      rewrite (newline_isWhiteSpace _ Ec) in Ew. discriminate. }
    cbn [collapseBlank]. rewrite Ec, lastNewline_top, Ew. reflexivity.
Qed.

Lemma collapseBlank_skip (t : jsstring) :
  forall k, collapseBlank k t = collapseBlank 0 (skipn k t).
Proof.
  induction t as [|c r IH]; intros [|k]; try reflexivity.
  cbn [collapseBlank skipn]. apply IH.
Qed.

Lemma collapseBlank_fixed (n : nat) :
  forall t, length t <= n ->
            collapseBlank 0 (collapseBlank 0 t) = collapseBlank 0 t.
Proof.
  induction n as [|n IH]; intros t Hn.
  - destruct t; [reflexivity | cbn [length] in Hn; lia].
  - destruct t as [|c rest]; [reflexivity|]. cbn [length] in Hn.
    cbn [collapseBlank]. destruct (N.eqb c 10) eqn:Ec.
    + destruct (lastNewline rest 0 None) as [j|] eqn:El.
      * assert (Hrest : lastNlIdx (skipn (S j) rest) = None).
        { rewrite lastNewline_top in El. destruct rest as [|c' r]; [discriminate|].
          destruct (isWhiteSpace c'); [|discriminate].
          destruct (lastNlIdx r) as [k|] eqn:E; [|discriminate].
          injection El as <-. change (skipn (S (S k)) (c' :: r)) with (skipn (S k) r).
          exact (lastNlIdx_rest _ E). }
        rewrite (collapseBlank_skip rest (S j)).
        set (Y := collapseBlank 0 (skipn (S j) rest)).
        assert (HY : lastNlIdx Y = None) by (apply collapseBlank_noNl; exact Hrest).
        cbn [collapseBlank N.eqb Pos.eqb].
        rewrite (lastNewline_top (10%N :: Y)).
        change (isWhiteSpace 10) with true. cbv iota. rewrite HY.
        rewrite (lastNlIdx_none_top _ HY).
        f_equal. f_equal. subst Y. apply IH.
        rewrite length_skipn. lia.
      * apply N.eqb_eq in Ec. subst c.
        cbn [collapseBlank N.eqb Pos.eqb].
        rewrite (collapseBlank_top _ El). f_equal. apply IH. lia.
    + cbn [collapseBlank]. rewrite Ec. f_equal. apply IH. lia.
Qed.

(** X8. [astToText] leaves no blank line to collapse: the text it returns
    has no newline, white space, newline left in it, so that the replacement
    that it ends with finds nothing to do a second time. *)
Theorem astToText_collapsed (fuel : nat)
    (headingCallback : option (jsstring -> jsstring)) (ast : value) (t : jsstring) :
  astToText fuel headingCallback ast = Text t ->
  collapseBlank 0 t = t.
Proof.
  unfold astToText. intros H.
  destruct (nodeToText fuel headingCallback ast) as [u|e| |]; try discriminate.
  injection H as <-. apply (@collapseBlank_fixed (length u) u). lia.
Qed.

Lemma astToText_collapsed_witness :
  collapseBlank 0 [97; 10; 10; 98]%N = [97; 10; 10; 98]%N.
Proof.
  apply (@astToText_collapsed 3 None
           (arr [VStr [97; 10; 32; 10; 9; 10]%N; VStr [98%N]])).
  vm_compute. reflexivity.
Defined.

(** X9. From markup to text and nothing lost: for an input without markup,
    [parse] followed by [astToText] gives back the input, with every run of
    white space between two newlines collapsed. *)
Theorem plain_text_round_trip (toLowerCase : jsstring -> jsstring)
    (text : jsstring) (o : Options) (fuel textFuel : nat)
    (headingCallback : option (jsstring -> jsstring)) :
  plainText toLowerCase true text = true ->
  length text + 2 <= fuel ->
  exists ast,
    parse toLowerCase fuel text o = Returned ast
    /\ nodeToText (S (S textFuel)) headingCallback ast = Text text
    /\ astToText (S (S textFuel)) headingCallback ast = Text (collapseBlank 0 text).
Proof.
  intros Hp Hfuel. destruct fuel as [|f]; [lia|].
  exists (arr (match text with [] => [] | _ :: _ => [VStr text] end)).
  split.
  - unfold parse, Parser_parse. cbv zeta. cbn [options newParser]. unfold run.
    rewrite (@next_plain text (backtrackingLimit o) toLowerCase f Hp) by lia.
    reflexivity.
  - unfold astToText. destruct text as [|c r]; [split; reflexivity|].
    assert (H : nodeToText (S (S textFuel)) headingCallback (arr [VStr (c :: r)])
                = Text (c :: r)).
    { cbn [nodeToText arr mapJoin elemText]. rewrite app_nil_r. reflexivity. }
    rewrite H. split; reflexivity.
Qed.

Lemma plain_text_round_trip_witness :
  exists ast,
    parse lowerTable 20 [97; 10; 9; 10; 98]%N kDefaultOptions = Returned ast
    /\ nodeToText 2 None ast = Text [97; 10; 9; 10; 98]%N
    /\ astToText 2 None ast = Text (collapseBlank 0 [97; 10; 9; 10; 98]%N).
Proof.
  apply (@plain_text_round_trip lowerTable [97; 10; 9; 10; 98]%N kDefaultOptions
           20 0 None).
  - reflexivity.
  - simpl. lia.
Defined.


(* ================================================================== *)
(** ** [startsWith] and the case of letters *)

Section StartsWith.

Variable str : jsstring.
Variable toLowerCase : jsstring -> jsstring.

Local Abbreviation lower := (map (fun c => toLowerCase [c]) str).

Lemma startsWithAt_ascii (prefix : jsstring) :
  asciiFaithful toLowerCase ->
  Forall (fun c => (c < 128)%N) str ->
  forall i,
    startsWithAt lower prefix i = true
    <-> firstn (length prefix) (skipn i (map asciiLower str)) = prefix.
Proof.
  intros Hascii Hstr.
  induction prefix as [|c prefix IH]; intros i; [split; reflexivity|].
  cbn [startsWithAt length].
  destruct (nth_error str i) as [d|] eqn:E.
  - assert (Hd : (d < 128)%N).
    { rewrite Forall_forall in Hstr. apply Hstr. eapply nth_error_In. exact E. }
    rewrite nth_error_map, E. cbn [option_map]. rewrite (Hascii d Hd).
    rewrite (@skipn_nth N (map asciiLower str) i (asciiLower d))
      by (rewrite nth_error_map, E; reflexivity).
    cbn [firstn jsstring_eqb]. rewrite andb_true_r.
    destruct (N.eqb_spec (asciiLower d) c) as [->|Hne].
    + rewrite IH. split; [intros ->; reflexivity | intros H; injection H; auto].
    + split; [discriminate | intros H; injection H; intros; congruence].
  - rewrite nth_error_map, E. cbn [option_map].
    assert (Hnil : skipn i (map asciiLower str) = []).
    { apply skipn_all2. rewrite length_map. apply nth_error_None. exact E. }
    rewrite Hnil. cbn [firstn]. split; discriminate.
Qed.

Lemma startsWithAt_capital (pre : jsstring) (c : N) (rest : jsstring) :
  noCapitals toLowerCase ->
  inRange 65 90 c = true ->
  forall i, startsWithAt lower (pre ++ c :: rest) i = false.
Proof.
  intros Hno Hc. induction pre as [|d pre IH]; intros i; cbn [app startsWithAt].
  - destruct (nth_error lower i) as [u|] eqn:E; [|reflexivity].
    destruct (jsstring_eqb u [c]) eqn:Eu; [|reflexivity].
    apply jsstring_eqb_eq in Eu. subst u.
    rewrite nth_error_map in E. destruct (nth_error str i) as [x|]; [|discriminate].
    cbn [option_map] in E. injection E as E.
    rewrite (Hno x c E) in Hc. discriminate.
  - destruct (nth_error lower i) as [u|]; [|reflexivity].
    destruct (jsstring_eqb u [d]); [apply IH | reflexivity].
Qed.

End StartsWith.

(** X10. [startsWith] is blind to the case of ASCII letters in the input,
    not in the prefix: on an ASCII input it holds exactly when the prefix
    itself is what the input, with its capitals folded, has at the cursor.
    So a prefix in lower case matches every spelling, a prefix that runs
    past the end matches nothing, and a prefix with a capital never matches. *)
Theorem startsWith_folds_input (toLowerCase : jsstring -> jsstring)
    (str prefix : jsstring) (p : Pos) :
  asciiFaithful toLowerCase ->
  Forall (fun c => (c < 128)%N) str ->
  (startsWithP (map (fun c => toLowerCase [c]) str) prefix p = true
   <-> firstn (length prefix) (skipn (offset p) (map asciiLower str)) = prefix)
  /\ (existsb (inRange 65 90) prefix = true ->
      startsWithP (map (fun c => toLowerCase [c]) str) prefix p = false).
Proof.
  intros Hascii Hstr. split.
  - apply startsWithAt_ascii; assumption.
  - intros Hcap.
    destruct (startsWithP (map (fun c => toLowerCase [c]) str) prefix p) eqn:E;
      [|reflexivity].
    apply (startsWithAt_ascii prefix Hascii Hstr) in E.
    apply existsb_exists in Hcap. destruct Hcap as (c & Hin & Hc).
    assert (Hl : In c (map asciiLower str)).
    { rewrite <- E in Hin.
      rewrite <- (firstn_skipn (offset p) (map asciiLower str)). apply in_or_app. right.
      rewrite <- (firstn_skipn (length prefix) (skipn (offset p) (map asciiLower str))).
      apply in_or_app. left. exact Hin. }
    apply in_map_iff in Hl. destruct Hl as (x & Hx & _).
    unfold asciiLower, inRange in *. subst c.
    destruct (N.leb_spec 65 x), (N.leb_spec x 90); cbn [andb] in Hc;
      try discriminate;
      repeat match type of Hc with
             | context [N.leb ?a ?b] => destruct (N.leb_spec a b)
             end; cbn [andb] in Hc; try discriminate; lia.
Qed.

Lemma startsWith_folds_input_witness :
  (startsWithP (map (fun c => lowerTable [c]) (js "a<BR>b")) (js "<br") (mkPos 1 1)
   = true
   <-> firstn (length (js "<br")) (skipn 1 (map asciiLower (js "a<BR>b"))) = js "<br")
  /\ (existsb (inRange 65 90) (js "<br") = true ->
      startsWithP (map (fun c => lowerTable [c]) (js "a<BR>b")) (js "<br") (mkPos 1 1)
      = false).
Proof.
  apply (@startsWith_folds_input lowerTable (js "a<BR>b") (js "<br") (mkPos 1 1)).
  - exact lowerTable_ascii.
  - repeat constructor.
Defined.

(* ================================================================== *)
(** ** The descriptors of [__TOC__] and [__NOTOC__] *)

Section Toc.

Variable str : jsstring.
Variable limit : Z.
Variable toLowerCase : jsstring -> jsstring.
Hypothesis Hno : noCapitals toLowerCase.

Local Abbreviation lower := (map (fun c => toLowerCase [c]) str).

(** What comes after a descriptor matters only through what it returns. *)
Lemma nodeEntry_ext (nx : NextOpts -> M (option (list value)))
    (allow : option (list jsstring)) (disallow : list jsstring)
    (nt : NodeType) (originalPos : Pos) (k1 k2 : M value) :
  (forall s, k1 s = k2 s) ->
  forall s, nodeEntry lower limit nx allow disallow nt originalPos k1 s
            = nodeEntry lower limit nx allow disallow nt originalPos k2 s.
Proof.
  intros Hk s. destruct nt as [ty start keep pre post grp func repl pp opts].
  cbn [nodeEntry nt_start nt_type nt_preCondition nt_keepStart nt_postCondition
       nt_func nt_replaceWith nt_postProcess nt_opts].
  unfold bind, getPos, setPos, ret.
  repeat first
    [ apply Hk
    | reflexivity
    | match goal with
      | |- context [if ?b then _ else _] => destruct b
      | |- context [match ?x with _ => _ end] => destruct x
      end ].
Qed.

Lemma nodeLoop_app (nx : NextOpts -> M (option (list value)))
    (allow : option (list jsstring)) (disallow : list jsstring)
    (originalPos : Pos) (g1 g2 g2' : list NodeType) :
  (forall s, nodeLoop lower limit nx allow disallow originalPos g2 s
             = nodeLoop lower limit nx allow disallow originalPos g2' s) ->
  forall s, nodeLoop lower limit nx allow disallow originalPos (g1 ++ g2) s
            = nodeLoop lower limit nx allow disallow originalPos (g1 ++ g2') s.
Proof.
  intros H. induction g1 as [|nt g1 IH]; intros s; [apply H|].
  cbn [app]. rewrite !nodeLoop_cons. apply nodeEntry_ext. exact IH.
Qed.

Lemma toc_skipped (nx : NextOpts -> M (option (list value)))
    (allow : option (list jsstring)) (disallow : list jsstring)
    (nt : NodeType) (originalPos : Pos) (continue_ : M value) (s : State) :
  isTocType nt = true ->
  nt_start nt = js "__TOC__" \/ nt_start nt = js "__NOTOC__" ->
  nodeEntry lower limit nx allow disallow nt originalPos continue_ s = continue_ s.
Proof.
  intros _ Hstart. apply nodeEntry_skip. unfold startsWithP.
  destruct Hstart as [-> | ->].
  - apply (@startsWithAt_capital str toLowerCase (js "__") 84%N (js "OC__") Hno eq_refl).
  - apply (@startsWithAt_capital str toLowerCase (js "__") 78%N (js "OTOC__") Hno eq_refl).
Qed.

(** [node] runs as it would on the grammar without the two descriptors. *)
Lemma node_without_toc (fuel : nat) (allow : option (list jsstring))
    (disallow : list jsstring) (s : State) :
  node str lower limit toLowerCase (S fuel) allow disallow s =
  nodeImpl lower limit (next str lower limit toLowerCase fuel) allow disallow
    (filter (fun nt => negb (isTocType nt))
       (grammar str lower toLowerCase (next str lower limit toLowerCase fuel)
          (node str lower limit toLowerCase fuel) fuel)) s.
Proof.
  cbn [node]. unfold nodeImpl. unfold bind, getPos.
  set (g := grammar str lower toLowerCase _ _ fuel).
  assert (Hf : filter (fun nt => negb (isTocType nt)) g = firstn 13 g ++ skipn 15 g)
    by reflexivity.
  rewrite Hf. rewrite <- (firstn_skipn 13 g) at 1.
  apply nodeLoop_app. intros s1.
  change (skipn 13 g) with (nth 13 g (group "" false []) :: nth 14 g (group "" false [])
                            :: skipn 15 g).
  rewrite !nodeLoop_cons.
  rewrite toc_skipped by (try reflexivity; left; reflexivity).
  rewrite toc_skipped by (try reflexivity; right; reflexivity).
  reflexivity.
Qed.

End Toc.

Lemma inRange_true (lo hi c : N) :
  inRange lo hi c = true <-> (lo <= c <= hi)%N.
Proof.
  unfold inRange. rewrite andb_true_iff, !N.leb_le. tauto.
Qed.

Lemma inRange_false (lo hi c : N) :
  inRange lo hi c = false <-> (c < lo \/ hi < c)%N.
Proof.
  unfold inRange. rewrite andb_false_iff, !N.leb_gt. tauto.
Qed.

Lemma lowerTable_noCapitals : noCapitals lowerTable.
Proof.
  intros c d H. unfold lowerTable in H. cbn [map concat] in H.
  rewrite app_nil_r in H. unfold lowerUnit in H.
  repeat match type of H with
         | (if ?b then _ else _) = _ => destruct b eqn:?
         end;
    try discriminate; injection H as <-;
    repeat match goal with
           | H : (_ || _)%bool = true |- _ => apply orb_true_iff in H; destruct H
           | H : (_ || _)%bool = false |- _ => apply orb_false_iff in H; destruct H
           | H : inRange _ _ _ = true |- _ => apply inRange_true in H
           | H : inRange _ _ _ = false |- _ => apply inRange_false in H
           | H : N.eqb _ _ = true |- _ => apply N.eqb_eq in H
           | H : N.eqb _ _ = false |- _ => apply N.eqb_neq in H
           end;
    apply inRange_false; lia.
Qed.

(** X11. The descriptors of [__TOC__] and [__NOTOC__] are dead: their start
    has capitals and is compared with the lower-cased input, so they never
    match, and [node] runs exactly as on the grammar without them. *)
Theorem toc_descriptors_dead (toLowerCase : jsstring -> jsstring)
    (str : jsstring) (limit : Z) (fuel : nat) (allow : option (list jsstring))
    (disallow : list jsstring) (s : State) :
  noCapitals toLowerCase ->
  let lower := map (fun c => toLowerCase [c]) str in
  let nx := next str lower limit toLowerCase fuel in
  let nd := node str lower limit toLowerCase fuel in
  node str lower limit toLowerCase (S fuel) allow disallow s =
  nodeImpl lower limit nx allow disallow
    (filter (fun nt => negb (isTocType nt))
            (grammar str lower toLowerCase nx nd fuel)) s.
Proof.
  intros Hno lower nx nd. apply node_without_toc. exact Hno.
Qed.

Lemma toc_descriptors_dead_witness :
  let str := js "__TOC__" in
  let lower := map (fun c => lowerTable [c]) str in
  let nx := next str lower 50000 lowerTable 3 in
  let nd := node str lower 50000 lowerTable 3 in
  node str lower 50000 lowerTable 4 None [] initialState =
  nodeImpl lower 50000 nx None []
    (filter (fun nt => negb (isTocType nt))
            (grammar str lower lowerTable nx nd 3)) initialState.
Proof.
  apply (@toc_descriptors_dead lowerTable (js "__TOC__") 50000 3 None []
           initialState).
  exact lowerTable_noCapitals.
Defined.

(* ================================================================== *)
(** ** The faults of a parse *)

Section Safety.

Variable str : jsstring.
Variable lowercaseStr : list jsstring.
Variable limit : Z.
Variable toLowerCase : jsstring -> jsstring.

Lemma framed_refl (s : State) : framed s s.
Proof. split; reflexivity. Qed.

Lemma framed_trans (s1 s2 s3 : State) : framed s1 s2 -> framed s2 s3 -> framed s1 s3.
Proof. intros [A1 A2] [B1 B2]. split; congruence. Qed.

Lemma safeP_bind {A B} (P : State -> Prop) (m : M A) (k : A -> M B)
    (R : A -> State -> Prop) (Q : B -> State -> Prop) :
  safeP P m R -> (forall a, safeP (R a) (k a) Q) -> safeP P (bind m k) Q.
Proof.
  intros Hm Hk s HP. unfold bind. specialize (Hm s HP).
  destruct (m s) as [a s1|e s1|]; auto.
  destruct Hm as [F HR]. specialize (Hk a s1 HR).
  destruct (k a s1) as [b s2|e s2|]; auto.
  destruct Hk as [G HQ]. split; [eapply framed_trans; eassumption | exact HQ].
Qed.

Lemma safeP_conseq {A} (P P' : State -> Prop) (m : M A) (Q Q' : A -> State -> Prop) :
  safeP P m Q -> (forall s, P' s -> P s) -> (forall a s, Q a s -> Q' a s) ->
  safeP P' m Q'.
Proof.
  intros H HP HQ s Hs. specialize (H s (HP s Hs)).
  destruct (m s); auto. destruct H; split; auto.
Qed.

Lemma safe_pre {A} (P : State -> Prop) (m : M A) :
  safe m -> safeP P m (fun _ _ => True).
Proof. intros H. eapply safeP_conseq; [exact H | intros; exact I | intros; exact I]. Qed.

Lemma safeP_safe {A} (P : State -> Prop) (m : M A) (Q : A -> State -> Prop) :
  safeP (fun _ => True) m Q -> safeP P m (fun _ _ => True).
Proof. intros H. eapply safeP_conseq; [exact H | intros; exact I | intros; exact I]. Qed.

Lemma safe_bind {A B} (m : M A) (k : A -> M B) :
  safe m -> (forall a, safe (k a)) -> safe (bind m k).
Proof.
  intros Hm Hk. eapply safeP_bind; [exact Hm|]. intros a. apply Hk.
Qed.

Lemma safe_ret {A} (a : A) : safe (ret a).
Proof. intros s _. simpl. split; [apply framed_refl | exact I]. Qed.

Lemma safeP_ret {A} (P : State -> Prop) (a : A) (Q : A -> State -> Prop) :
  (forall s, P s -> Q a s) -> safeP P (ret a) Q.
Proof. intros H s Hs. simpl. split; [apply framed_refl | auto]. Qed.

Lemma safe_throw_TypeError {A} : safe (@throw A TypeError).
Proof. intros s _. simpl. right. reflexivity. Qed.

Lemma safe_outOfFuel {A} : safe (@outOfFuel A).
Proof. intros s _. exact I. Qed.

(** The cursor is read: the rest of the computation knows it. *)
Lemma safeP_getPos {B} (P : State -> Prop) (k : Pos -> M B) (Q : B -> State -> Prop) :
  (forall p, safeP (fun s => P s /\ pos s = p) (k p) Q) ->
  safeP P (bind getPos k) Q.
Proof.
  intros H s Hs. unfold bind, getPos. apply (H (pos s)). split; [exact Hs | reflexivity].
Qed.

Lemma safeP_startsWith {B} (P : State -> Prop) (chunk : jsstring) (k : bool -> M B)
    (Q : B -> State -> Prop) :
  (forall b, safeP (fun s => P s /\ startsWithP lowercaseStr chunk (pos s) = b) (k b) Q) ->
  safeP P (bind (startsWith lowercaseStr chunk) k) Q.
Proof.
  intros H s Hs. unfold bind, startsWith, getPos, ret.
  apply (H (startsWithP lowercaseStr chunk (pos s))). split; [exact Hs | reflexivity].
Qed.

Lemma safe_getPos : safe getPos.
Proof. intros s _. simpl. split; [apply framed_refl | exact I]. Qed.

Lemma safe_setPos (p : Pos) : safe (setPos p).
Proof. intros s _. simpl. split; [split; reflexivity | exact I]. Qed.

Lemma safe_someBacktrackOn : safe someBacktrackOn.
Proof. intros s _. simpl. split; [apply framed_refl | exact I]. Qed.

Lemma safe_startsWith (prefix : jsstring) : safe (startsWith lowercaseStr prefix).
Proof. intros s _. simpl. split; [apply framed_refl | exact I]. Qed.

Lemma safe_startsWithAny (prefixes : list jsstring) :
  safe (startsWithAny lowercaseStr prefixes).
Proof. intros s _. simpl. split; [apply framed_refl | exact I]. Qed.

Lemma safe_advance (chunk : jsstring) : safe (advance chunk).
Proof. intros s _. simpl. split; [split; reflexivity | exact I]. Qed.

Lemma safe_countBacktrack : safe (countBacktrack limit).
Proof.
  intros s _. unfold countBacktrack.
  destruct (limit <? backtrackingCount s + 1)%Z.
  - left. reflexivity.
  - split; [split; reflexivity | exact I].
Qed.

Lemma safe_throw_TypeError_bind {A B} (k : A -> M B) : safe (x <- throw TypeError;; k x).
Proof. intros s _. simpl. right. reflexivity. Qed.

Create HintDb safe.
#[local] Hint Resolve safe_ret safe_throw_TypeError safe_outOfFuel safe_getPos
  safe_setPos safe_someBacktrackOn safe_startsWith safe_startsWithAny safe_advance
  safe_countBacktrack : safe.

Ltac sstep :=
  lazymatch goal with
  | |- safe (bind _ _) =>
      apply safe_bind;
      [first [solve [eauto with safe] | solve [repeat sstep; eauto with safe]]
      | cbv beta; intros]
  | |- safe (ret _) => apply safe_ret
  | |- safe (throw TypeError) => apply safe_throw_TypeError
  | |- safe outOfFuel => apply safe_outOfFuel
  | |- safe (if ?b then _ else _) => destruct b eqn:?
  | |- safe (match ?x with _ => _ end) => destruct x eqn:?
  end.

Ltac ssteps := repeat sstep; try solve [eauto with safe].

Lemma safe_advanceChar : safe (advanceChar str).
Proof. unfold advanceChar. ssteps. Qed.

Lemma safe_when (b : bool) (m : M unit) : safe m -> safe (when b m).
Proof. intros H. destruct b; simpl; [assumption | apply safe_ret]. Qed.

(** [eat] without the error of [error()]. *)
Lemma safe_eat (chunk : jsstring) : safe (eat lowercaseStr chunk false).
Proof. unfold eat. ssteps. Qed.

(** [eat] where the input starts with the chunk. *)
Lemma safeP_eat (P : State -> Prop) (chunk : jsstring) (err : bool) :
  (forall s, P s -> startsWithP lowercaseStr chunk (pos s) = true) ->
  safeP P (eat lowercaseStr chunk err) (fun _ _ => True).
Proof.
  intros H s Hs. unfold eat, startsWith, bind, getPos, ret. rewrite (H s Hs).
  simpl. split; [split; reflexivity | exact I].
Qed.

Lemma safe_eatAnyFrom (all chunks : list jsstring) :
  safe (eatAnyFrom lowercaseStr all chunks false).
Proof.
  induction chunks as [|c cs IH]; cbn [eatAnyFrom]; ssteps.
Qed.

Lemma safe_eatAny (chunks : list jsstring) : safe (eatAny lowercaseStr chunks false).
Proof. apply safe_eatAnyFrom. Qed.

Lemma safeP_eatAnyFrom (P : State -> Prop) (all chunks : list jsstring) (err : bool) :
  (forall s, P s -> startsWithAnyP lowercaseStr chunks (pos s) = true) ->
  safeP P (eatAnyFrom lowercaseStr all chunks err) (fun _ _ => True).
Proof.
  intros H s Hs. specialize (H s Hs). clear Hs. revert H.
  induction chunks as [|c cs IH]; cbn [eatAnyFrom]; intros H.
  - discriminate.
  - unfold startsWith, bind, getPos, ret. fold (@bind bool bool).
    unfold startsWithAnyP in H. cbn [existsb] in H.
    destruct (startsWithP lowercaseStr c (pos s)) eqn:E.
    + simpl. split; [split; reflexivity | exact I].
    + apply IH. exact H.
Qed.

#[local] Hint Resolve safe_advanceChar safe_when safe_eat safe_eatAny : safe.

Lemma safe_eatCountLoop (n : nat) (chunk : jsstring) (count : nat) :
  safe (eatCountLoop lowercaseStr n chunk count).
Proof.
  revert count. induction n as [|n IH]; intros count; cbn [eatCountLoop]; ssteps.
Qed.

Lemma safe_eatCount (chunk : jsstring) : safe (eatCount str lowercaseStr chunk).
Proof. apply safe_eatCountLoop. Qed.

Lemma safe_eatWhitespaceLoop (n : nat) (newLine : bool) :
  safe (eatWhitespaceLoop lowercaseStr n newLine).
Proof. induction n as [|n IH]; cbn [eatWhitespaceLoop]; ssteps. Qed.

Lemma safe_eatWhitespace (newLine : bool) : safe (eatWhitespace str lowercaseStr newLine).
Proof. apply safe_eatWhitespaceLoop. Qed.

#[local] Hint Resolve safe_eatCount safe_eatWhitespace : safe.


(** *** [next] *)

Section SafeNext.

Variable node : option (list jsstring) -> list jsstring -> M value.
Hypothesis Hnode : forall allow disallow, safe (node allow disallow).

Lemma nextFinish_eq (o : NextOpts) (chunkStart chunkLength : nat)
    (content : list value) (s : State) :
  exists c,
    nextFinish str o chunkStart chunkLength content s =
    Ok (Some c)
       (mkState (pos s)
          (if isSome (opt_backtrackOn o) then removelast (backtrackOn s)
           else backtrackOn s)
          (backtrackingCount s) (stack s)).
Proof.
  unfold nextFinish, when, bind, popBacktrackOn, ret.
  destruct (opt_backtrackOn o); simpl; eexists; [reflexivity|].
  destruct s; reflexivity.
Qed.

Lemma existsb_nil_false {A} (f : A -> bool) (l : list A) :
  existsb f l = true -> l <> [].
Proof. destruct l; [discriminate | discriminate]. Qed.

(** The loop of [next]: it pops the predicate that [next] pushed, leaves the
    stack as it was, throws nothing but the limit error or a TypeError, and
    returns [null] only where a reason to backtrack exists. *)
Lemma nextLoop_safe (n : nat) (o : NextOpts) (originalPos : Pos)
    (chunkStart chunkLength : nat) (content : list value) (s : State) :
  match nextLoop str lowercaseStr limit node n o originalPos chunkStart chunkLength
          content s with
  | Ok r s' =>
      backtrackOn s' = (if isSome (opt_backtrackOn o) then removelast (backtrackOn s)
                        else backtrackOn s)
      /\ stack s' = stack s
      /\ (r = None ->
          backtrackOn s <> [] \/ opt_backtrack o <> [] \/ opt_endAtEos o = false)
  | Throw e _ => okFault e
  | OutOfFuel => True
  end.
Proof.
  revert chunkStart chunkLength content s.
  induction n as [|n IH]; intros chunkStart chunkLength content s; cbn [nextLoop].
  - exact I.
  - assert (Hfin : match nextFinish str o chunkStart chunkLength content s with
                   | Ok r s' =>
                       backtrackOn s' = (if isSome (opt_backtrackOn o)
                                         then removelast (backtrackOn s)
                                         else backtrackOn s)
                       /\ stack s' = stack s
                       /\ (r = None ->
                           backtrackOn s <> [] \/ opt_backtrack o <> []
                           \/ opt_endAtEos o = false)
                   | Throw e _ => okFault e
                   | OutOfFuel => True
                   end).
    { destruct (nextFinish_eq o chunkStart chunkLength content s) as [c ->].
      simpl. repeat split. discriminate. }
    unfold bind at 1, getPos at 1.
    destruct (isEnd str (pos s) && opt_endAtEos o) eqn:E1; [exact Hfin|].
    unfold bind at 1, someBacktrackOn at 1.
    match goal with |- context [if ?c then _ else _] => destruct c eqn:E2 end.
    { unfold bind, countBacktrack, setPos, when, popBacktrackOn, ret.
      destruct (limit <? backtrackingCount s + 1)%Z; [left; reflexivity|].
      assert (Hwhy : backtrackOn s <> [] \/ opt_backtrack o <> []
                     \/ opt_endAtEos o = false).
      { apply orb_true_iff in E2. destruct E2 as [E2|E2].
        - apply orb_true_iff in E2. destruct E2 as [E2|E2].
          + left. eapply existsb_nil_false. exact E2.
          + right. left. eapply existsb_nil_false. exact E2.
        - right. right. rewrite E2 in E1. simpl in E1. exact E1. }
      destruct (opt_backtrackOn o); simpl; repeat split; intros; exact Hwhy. }
    match goal with |- context [if ?c then _ else _] => destruct c eqn:E3 end.
    { apply andb_true_iff in E3. destruct E3 as [E3 _].
      unfold bind at 1.
      pose proof (@safeP_eatAnyFrom (fun s0 => s0 = s) (opt_end o) (opt_end o) true) as He.
      assert (Hp : forall s0, s0 = s ->
                startsWithAnyP lowercaseStr (opt_end o) (pos s0) = true)
        by (intros s0 ->; exact E3).
      specialize (He Hp s eq_refl). unfold eatAny.
      destruct (eatAnyFrom lowercaseStr (opt_end o) (opt_end o) true s)
        as [b s1|e s1|]; [|exact He|exact I].
      destruct He as [[F1 F2] _].
      destruct (nextFinish_eq o chunkStart chunkLength content s1) as [c ->].
      simpl. rewrite F1, F2. repeat split. discriminate. }
    match goal with |- context [if ?c then _ else _] => destruct c eqn:E4 end;
      [exact Hfin|].
    match goal with |- context [if ?c then _ else _] => destruct c eqn:E5 end;
      [exact Hfin|].
    match goal with |- context [if ?c then _ else _] => destruct c eqn:E6 end;
      [exact Hfin|].
    unfold bind at 1, pushStack at 1. unfold bind at 1.
    pose proof (@Hnode (opt_allow o) (opt_disallow o)
                  (mkState (pos s) (backtrackOn s) (backtrackingCount s)
                     (stack s ++ [pos s])) I) as Hn.
    destruct (node (opt_allow o) (opt_disallow o)
                (mkState (pos s) (backtrackOn s) (backtrackingCount s)
                   (stack s ++ [pos s]))) as [n1 s1|e s1|]; [|exact Hn|exact I].
    destruct Hn as [[F1 F2] _]. cbn [backtrackOn stack] in F1, F2.
    unfold bind at 1, popStack at 1.
    destruct (truthy n1).
    + unfold bind at 1, getPos at 1. cbn [pos].
      match goal with |- match nextLoop _ _ _ _ _ _ _ ?cs ?cl ?ct ?st with _ => _ end =>
        specialize (IH cs cl ct st);
        destruct (nextLoop str lowercaseStr limit node n o originalPos cs cl ct st)
          as [r s2|e s2|]; [|exact IH|exact I]
      end.
      cbn [backtrackOn stack] in IH. rewrite F1, F2, removelast_last in IH. exact IH.
    + unfold bind at 1, getPos at 1. cbn [pos]. unfold bind at 1.
      match goal with |- context [advanceChar str ?st] =>
        pose proof (@safe_advanceChar st I) as Ha;
        destruct (advanceChar str st) as [c s2|e s2|]; [|exact Ha|exact I]
      end.
      destruct Ha as [[G1 G2] _]. cbn [backtrackOn stack] in G1, G2.
      match goal with |- match nextLoop _ _ _ _ _ _ _ ?cs ?cl ?ct ?st with _ => _ end =>
        specialize (IH cs cl ct st);
        destruct (nextLoop str lowercaseStr limit node n o originalPos cs cl ct st)
          as [r s3|e s3|]; [|exact IH|exact I]
      end.
      rewrite G1, G2, F1, F2, removelast_last in IH. exact IH.
Qed.

Lemma safe_nextImpl (n : nat) (o : NextOpts) :
  safeP (fun _ => True) (nextImpl str lowercaseStr limit node n o) (nextPost o).
Proof.
  assert (Hrun : safeP (fun _ => True)
            (p <- getPos;;
             match opt_backtrackOn o with
             | Some f => pushBacktrackOn f
             | None => ret tt
             end;;
             nextLoop str lowercaseStr limit node n o p (offset p) 0 []) (nextPost o)).
  { intros s _. unfold bind at 1, getPos at 1. unfold bind at 1.
    destruct (opt_backtrackOn o) as [f|] eqn:Eb.
    - unfold pushBacktrackOn.
      match goal with |- match nextLoop _ _ _ _ _ _ _ ?cs ?cl ?ct ?st with _ => _ end =>
        pose proof (nextLoop_safe n o (pos s) cs cl ct st) as H;
        destruct (nextLoop str lowercaseStr limit node n o (pos s) cs cl ct st)
          as [r s1|e s1|]; [|exact H|exact I]
      end.
      rewrite Eb in H. cbn [isSome backtrackOn stack] in H.
      rewrite removelast_last in H. destruct H as (H1 & H2 & _).
      split; [split; assumption|]. intros _. right. left. rewrite Eb. discriminate.
    - unfold ret.
      match goal with |- match nextLoop _ _ _ _ _ _ _ ?cs ?cl ?ct ?st with _ => _ end =>
        pose proof (nextLoop_safe n o (pos s) cs cl ct st) as H;
        destruct (nextLoop str lowercaseStr limit node n o (pos s) cs cl ct st)
          as [r s1|e s1|]; [|exact H|exact I]
      end.
      rewrite Eb in H. cbn [isSome] in H. destruct H as (H1 & H2 & H3).
      split; [split; assumption|]. intros E. specialize (H3 E).
      unfold mayBacktrack. rewrite H1. tauto. }
  unfold nextImpl.
  destruct (opt_end o), (opt_endBefore o), (opt_endBeforeRegex o), (opt_endOn o),
    (opt_backtrack o), (opt_endAtEos o); try exact Hrun.
  apply safeP_ret. intros s _ E. discriminate.
Qed.

End SafeNext.


(** *** The productions *)

Section SafeProductions.

Variable next : NextOpts -> M (option (list value)).
Variable node : option (list jsstring) -> list jsstring -> M value.
Variable fuel : nat.

Hypothesis Hnext : forall o, safe (next o).
Hypothesis Hnode : forall allow disallow, safe (node allow disallow).

Lemma safe_trimLower (x : value) : safe (trimLower toLowerCase x).
Proof. destruct x; simpl; auto with safe. Qed.

#[local] Hint Resolve safe_trimLower : safe.

Lemma safe_parameterLoop (n : nat) (close : jsstring) (allow : option (list jsstring))
    (parameters : list (jsstring * value)) (positionalParameters : jsarray) :
  safe (parameterLoop str lowercaseStr toLowerCase next n close allow parameters
          positionalParameters).
Proof.
  revert parameters positionalParameters.
  induction n as [|n IH]; intros parameters positionalParameters;
    cbn [parameterLoop]; ssteps.
Qed.

#[local] Hint Resolve safe_parameterLoop : safe.

Lemma safe_template (allow : option (list jsstring)) :
  safe (template str lowercaseStr toLowerCase next fuel allow).
Proof. unfold template. ssteps. Qed.

Lemma safe_appendTo (content : value) (chunk : jsstring) : safe (appendTo content chunk).
Proof. destruct content; simpl; auto with safe. Qed.

#[local] Hint Resolve safe_appendTo : safe.

Lemma safe_linkTrail (n : nat) (content : value) : safe (linkTrail str n content).
Proof.
  revert content. induction n as [|n IH]; intros content; cbn [linkTrail]; ssteps.
Qed.

#[local] Hint Resolve safe_linkTrail : safe.

Lemma safe_link : safe (link str lowercaseStr toLowerCase next fuel).
Proof. unfold link. ssteps. Qed.

Lemma safe_externalLink : safe (externalLink str next).
Proof. unfold externalLink. ssteps. Qed.


(** The input starts with the first unit of what it starts with, and with
    no other unit. *)
Lemma startsWithP_first_unit (c : N) (rest : jsstring) (p : Pos) :
  startsWithP lowercaseStr (c :: rest) p = true ->
  startsWithP lowercaseStr [c] p = true.
Proof.
  unfold startsWithP. cbn [startsWithAt].
  destruct (nth_error lowercaseStr (offset p)) as [u|]; [|discriminate].
  destruct (jsstring_eqb u [c]); [reflexivity | discriminate].
Qed.

Lemma startsWithP_other_unit (c d : N) (rest rest' : jsstring) (p : Pos) :
  startsWithP lowercaseStr (c :: rest) p = true -> c <> d ->
  startsWithP lowercaseStr (d :: rest') p = false.
Proof.
  unfold startsWithP. cbn [startsWithAt]. intros H Hcd.
  destruct (nth_error lowercaseStr (offset p)) as [u|]; [|discriminate].
  destruct (jsstring_eqb u [c]) eqn:E; [|discriminate].
  apply jsstring_eqb_eq in E. subst u. cbn [jsstring_eqb].
  destruct (N.eqb c d) eqn:E'; [|reflexivity].
  apply N.eqb_eq in E'. contradiction.
Qed.

Lemma safeP_quotedString (closeQuoteOnNewline : bool) :
  safeP (fun s => startsWithP lowercaseStr [34%N] (pos s) = true)
    (quotedString lowercaseStr next closeQuoteOnNewline) (fun _ _ => True).
Proof.
  unfold quotedString. eapply safeP_bind.
  - apply safeP_eat. auto.
  - intros ?. apply safe_pre. ssteps.
Qed.

Lemma safe_attributesLoop (n : nat) (endBefore : list jsstring)
    (closeQuoteOnNewline : bool) (attrs : list (jsstring * value)) :
  safe (attributesLoop str lowercaseStr next n endBefore closeQuoteOnNewline attrs).
Proof.
  revert attrs. induction n as [|n IH]; intros attrs; cbn [attributesLoop];
    [apply safe_outOfFuel|].
  sstep. sstep; [apply safe_ret|]. sstep. sstep. sstep.
  sstep; [|apply safe_ret].
  sstep; [apply safe_ret|].
  sstep. sstep; [apply IH|]. sstep.
  apply safeP_startsWith. intros quoted. eapply safeP_bind with (R := fun _ _ => True).
  - destruct quoted.
    + eapply safeP_conseq; [apply safeP_quotedString | | auto].
      intros s [_ H]. exact H.
    + apply safe_pre. ssteps.
  - intros value. apply safe_pre. ssteps.
Qed.

#[local] Hint Resolve safe_attributesLoop : safe.

Lemma safe_attributes (endBefore : list jsstring) (closeQuoteOnNewline : bool) :
  safe (attributes str lowercaseStr next fuel endBefore closeQuoteOnNewline).
Proof. unfold attributes. ssteps. Qed.

#[local] Hint Resolve safe_attributes : safe.

Lemma safeP_tag (t : TagOpts) :
  safeP (fun s => startsWithP lowercaseStr (js "<") (pos s) = true)
    (tag str lowercaseStr toLowerCase next fuel t) (fun _ _ => True).
Proof.
  unfold tag. eapply safeP_bind.
  - apply safeP_eat. auto.
  - intros ?. apply safe_pre. ssteps.
Qed.

Lemma safe_indentLoop (n : nat) (start : bool) (items : list value) :
  safe (indentLoop str lowercaseStr next n start items).
Proof.
  revert items. induction n as [|n IH]; intros items; cbn [indentLoop]; ssteps.
Qed.

#[local] Hint Resolve safe_indentLoop : safe.

Lemma safe_indent (start : bool) : safe (indent str lowercaseStr next fuel start).
Proof. unfold indent. ssteps. Qed.

#[local] Hint Resolve safe_indent : safe.

Lemma safe_listLoop (n : nat) (character : jsstring) (items : list value) :
  safe (listLoop str lowercaseStr next fuel n character items).
Proof.
  revert items. induction n as [|n IH]; intros items; cbn [listLoop]; ssteps.
Qed.

#[local] Hint Resolve safe_listLoop : safe.

Lemma safe_list_ (character : jsstring) :
  safe (list_ str lowercaseStr next fuel character).
Proof. unfold list_. ssteps. Qed.

Lemma safe_description : safe (description lowercaseStr next).
Proof. unfold description. ssteps. Qed.

Lemma safe_heading : safe (heading str lowercaseStr next).
Proof. unfold heading. ssteps. Qed.

Lemma safe_preformattedLoop (n : nat) (content : list value) :
  safe (preformattedLoop str lowercaseStr next n content).
Proof.
  revert content. induction n as [|n IH]; intros content; cbn [preformattedLoop];
    [apply safe_outOfFuel|].
  apply safeP_getPos. intros p.
  destruct (isStartOfLine str p && startsWithP lowercaseStr (js " ") p) eqn:E.
  - apply andb_true_iff in E. destruct E as [_ E].
    eapply safeP_bind.
    + apply safeP_eat. intros s [_ Hp]. rewrite Hp. exact E.
    + intros ?. apply safe_pre. ssteps.
  - apply safe_pre. apply safe_ret.
Qed.

#[local] Hint Resolve safe_preformattedLoop : safe.

Lemma safe_preformatted : safe (preformatted str lowercaseStr next fuel).
Proof. unfold preformatted. ssteps. Qed.

Lemma safe_htmlEntity : safe (htmlEntity str lowercaseStr next).
Proof. unfold htmlEntity. ssteps. Qed.

Lemma safe_eatCommentsLoop (n : nat) (comments : list value) :
  safe (eatCommentsLoop str lowercaseStr node n comments).
Proof.
  revert comments. induction n as [|n IH]; intros comments; cbn [eatCommentsLoop];
    ssteps.
Qed.

#[local] Hint Resolve safe_eatCommentsLoop : safe.

Lemma safe_eatComments (comments : list value) :
  safe (eatComments str lowercaseStr node fuel comments).
Proof. unfold eatComments. ssteps. Qed.

#[local] Hint Resolve safe_eatComments : safe.

Lemma safe_eatNewlines (n : nat) : safe (eatNewlines lowercaseStr n).
Proof.
  induction n as [|n IH]; cbn [eatNewlines]; [apply safe_outOfFuel|].
  apply safeP_startsWith. intros [|].
  - eapply safeP_bind.
    + apply safeP_eat. intros s [_ H]. exact H.
    + intros ?. apply safe_pre. exact IH.
  - apply safe_pre. apply safe_ret.
Qed.

#[local] Hint Resolve safe_eatNewlines : safe.


(** [eat] that found nothing has left the cursor where it was. *)
Lemma safeP_eat_at (p : Pos) (chunk : jsstring) :
  safeP (fun s => pos s = p) (eat lowercaseStr chunk false)
    (fun b s' => b = false -> pos s' = p /\ startsWithP lowercaseStr chunk p = false).
Proof.
  intros s Hs. unfold eat, startsWith, bind, getPos, ret. rewrite Hs.
  destruct (startsWithP lowercaseStr chunk p) eqn:E; simpl.
  - split; [split; reflexivity | discriminate].
  - split; [apply framed_refl | auto].
Qed.

Lemma safe_tableCells (n : nat) (content : list value) :
  safe (tableCells str lowercaseStr next fuel n content).
Proof.
  revert content. induction n as [|n IH]; intros content; cbn [tableCells];
    [apply safe_outOfFuel|].
  sstep. apply safeP_getPos. intros p.
  match goal with |- context [if ?c then _ else _] => destruct c eqn:E end;
    [apply safe_pre, safe_ret|].
  apply orb_false_iff in E. destruct E as [E1 E2]. apply negb_false_iff in E1.
  eapply safeP_bind.
  { eapply safeP_conseq; [apply (@safeP_eat_at p (js "!")) | | intros ? ? H; exact H].
    intros s [_ H]. exact H. }
  intros header. eapply safeP_bind with (R := fun _ _ => True).
  { destruct header; [apply safe_pre, safe_ret|].
    apply safeP_eat. intros s H. destruct (H eq_refl) as [Hp Hb]. rewrite Hp.
    unfold startsWithAnyP in E1. cbn [existsb] in E1. rewrite Hb in E1.
    rewrite !orb_false_r in E1. exact E1. }
  intros ?. apply safe_pre.
  do 8 sstep.
  sstep; [|apply safe_ret].
  apply safeP_startsWith. intros bars.
  eapply safeP_bind with (R := fun _ _ => True).
  { destruct bars.
    - apply safeP_eat. intros s [_ H]. eapply startsWithP_first_unit. exact H.
    - apply safeP_startsWith. intros bangs. destruct bangs.
      + apply safeP_eat. intros s [_ H]. eapply startsWithP_first_unit. exact H.
      + apply safe_pre, safe_ret. }
  intros ?. apply safe_pre. ssteps.
Qed.

#[local] Hint Resolve safe_tableCells : safe.

Lemma safeP_tableRow (started : bool) :
  safeP (fun s => started = false ->
                  startsWithP lowercaseStr (js "|-") (pos s) = true)
    (tableRow str lowercaseStr next node fuel started) (fun _ _ => True).
Proof.
  unfold tableRow. destruct started.
  - apply safe_pre. ssteps.
  - eapply safeP_bind.
    + apply safeP_eat. auto.
    + intros ?. apply safe_pre. ssteps.
Qed.

(** Where a row starts there is neither white space nor a comment. *)
Lemma eatComments_at_row (comments : list value) (s : State) :
  startsWithP lowercaseStr (js "|-") (pos s) = true ->
  match eatComments str lowercaseStr node fuel comments s with
  | Ok _ s' => s' = s
  | Throw _ _ => False
  | OutOfFuel => True
  end.
Proof.
  intros H. unfold eatComments, eatWhitespace. cbn [eatWhitespaceLoop].
  unfold eatAny. cbn [app eatAnyFrom].
  unfold startsWith, bind, getPos, ret. change (js " ") with [32%N].
  rewrite (@startsWithP_other_unit 124 32 (js "-") [] (pos s) H) by discriminate.
  cbv beta iota.
  rewrite (@startsWithP_other_unit 124 9 (js "-") [] (pos s) H) by discriminate.
  cbv beta iota.
  rewrite (@startsWithP_other_unit 124 10 (js "-") [] (pos s) H) by discriminate.
  cbv beta iota.
  destruct fuel as [|f]; cbn [eatCommentsLoop]; [exact I|].
  unfold startsWith, bind, getPos, ret.
  change (js "<!--") with (60%N :: js "!--").
  rewrite (@startsWithP_other_unit 124 60 (js "-") (js "!--") (pos s) H)
    by discriminate.
  reflexivity.
Qed.

Lemma safe_tableRows (n : nat) (attrs caption : value) (content : list value) :
  safeP (fun s => content <> [] -> startsWithP lowercaseStr (js "|-") (pos s) = true)
    (tableRows str lowercaseStr next node fuel n attrs caption content)
    (fun _ _ => True).
Proof.
  revert content. induction n as [|n IH]; intros content; cbn [tableRows];
    [apply safe_pre, safe_outOfFuel|].
  eapply safeP_bind
    with (R := fun _ s => content <> [] ->
                          startsWithP lowercaseStr (js "|-") (pos s) = true).
  { intros s Hs.
    destruct content as [|c0 content'].
    - pose proof (@safe_eatComments [] s I) as H.
      destruct (eatComments str lowercaseStr node fuel [] s); auto.
      destruct H as [F _]. split; [exact F|]. intros E. contradiction.
    - assert (Hrow : startsWithP lowercaseStr (js "|-") (pos s) = true)
        by (apply Hs; discriminate).
      pose proof (@eatComments_at_row [] s Hrow) as H.
      destruct (eatComments str lowercaseStr node fuel [] s) as [r s'|e s'|];
        [|contradiction|exact I].
      subst s'. split; [apply framed_refl | intros _; exact Hrow]. }
  intros commentsBefore. apply safeP_startsWith. intros rowStart.
  eapply safeP_bind with (R := fun _ _ => True).
  { eapply safeP_conseq; [apply safeP_tableRow | | auto].
    intros s [Hc Hr] E. apply andb_false_iff in E. destruct E as [E|E].
    - apply Hc. intros ->. discriminate.
    - apply negb_false_iff in E. rewrite E in Hr. exact Hr. }
  intros row. destruct row; try (apply safe_pre; apply safe_ret).
  eapply safeP_bind with (R := fun _ _ => True);
    [apply safe_pre; apply safe_eatComments|].
  intros after. apply safeP_startsWith. intros again. destruct again.
  - eapply safeP_conseq; [apply IH | | auto]. intros s [_ H] _. exact H.
  - apply safe_pre. ssteps.
Qed.

Lemma safe_table : safe (table str lowercaseStr next node fuel).
Proof.
  unfold table. do 5 sstep. unfold safe.
  eapply safeP_conseq; [apply safe_tableRows | | auto].
  intros s _ E. contradiction.
Qed.

Lemma safe_galleryLoop (n : nat) (attrs : value) (items : list value) :
  safe (galleryLoop str lowercaseStr next n attrs items).
Proof.
  revert items. induction n as [|n IH]; intros items; cbn [galleryLoop]; ssteps.
Qed.

#[local] Hint Resolve safe_galleryLoop : safe.

Lemma safe_gallery : safe (gallery str lowercaseStr next fuel).
Proof. unfold gallery. ssteps. Qed.


(** *** The post-processors return a node *)

Lemma safe_stripAll (l : list value) : safe (stripAll l).
Proof.
  induction l as [|x rest IH]; cbn [stripAll]; [apply safe_ret|].
  destruct x; ssteps.
Qed.

Lemma safeP_throw_TypeError {A} (P : State -> Prop) (Q : A -> State -> Prop) :
  safeP P (throw TypeError) Q.
Proof. intros s _. simpl. right. reflexivity. Qed.

Lemma postProcess_node (pp : value -> M value) (w : value) :
  pp = retypeTemplate \/ pp = stripComment \/ pp = dropContent
  \/ pp = nowikiContent ->
  safeP (fun _ => True) (pp w) (fun p _ => isNullish p = false).
Proof.
  intros [ -> | [ -> | [ -> | -> ] ] ].
  - unfold retypeTemplate. destruct w; apply safeP_ret; reflexivity.
  - unfold stripComment. destruct w; try apply safeP_throw_TypeError.
    match goal with |- context [match ?x with _ => _ end] => destruct x end;
      try apply safeP_throw_TypeError.
    eapply safeP_bind; [apply safe_stripAll|].
    intros l'. apply safeP_ret. reflexivity.
  - unfold dropContent. destruct w; apply safeP_ret; reflexivity.
  - unfold nowikiContent. destruct w; apply safeP_ret; try reflexivity.
    intros s _. match goal with |- context [if ?b then _ else _] => destruct b end;
      reflexivity.
Qed.

Lemma isNullish_wrapContent (t : option jsstring) (content : value) :
  isNullish content = false -> isNullish (wrapContent t content) = false.
Proof. destruct content; simpl; auto. Qed.

(** *** [node]: the loop over a table of descriptors *)

(** The part of [nodeEntry] that every descriptor shares: [start] is eaten
    only where the input starts with it. *)
Lemma safe_entryHead (ty : option jsstring) (start : jsstring) (keep : bool)
    (pre post : option (Pos -> bool)) (allow : option (list jsstring))
    (disallow : list jsstring) (originalPos : Pos) (continue_ : M value)
    (body : Pos -> M value) :
  safe continue_ ->
  (forall p1,
      safeP (fun s => keep = true -> startsWithP lowercaseStr start (pos s) = true)
        (body p1) (fun _ _ => True)) ->
  safe (p <- getPos;;
        if negb (startsWithP lowercaseStr start p) || typeFiltered ty allow disallow
        then continue_
        else if match pre with
                | Some pre0 => negb (pre0 p)
                | None => false
                end
        then setPos originalPos;; continue_
        else
          (if keep then ret true else eat lowercaseStr start true);;
          p1 <- getPos;;
          if match post with
             | Some post0 => negb (post0 p1)
             | None => false
             end
          then setPos originalPos;; continue_
          else body p1).
Proof.
  intros Hcont Hbody.
  assert (Hback : safe (setPos originalPos;; continue_)) by ssteps.
  apply safeP_getPos. intros p.
  match goal with |- context [if ?c then _ else _] => destruct c eqn:E1 end;
    [apply safe_pre; exact Hcont|].
  apply orb_false_iff in E1. destruct E1 as [Estart _].
  apply negb_false_iff in Estart.
  match goal with |- context [if ?c then _ else _] => destruct c eqn:E2 end;
    [apply safe_pre; exact Hback|].
  eapply safeP_bind
    with (R := fun _ s => keep = true -> startsWithP lowercaseStr start (pos s) = true).
  - destruct keep.
    + apply safeP_ret. intros s [_ Hp] _. rewrite Hp. exact Estart.
    + eapply safeP_conseq; [apply (@safeP_eat (fun s => pos s = p)) | | ].
      * intros s Hp. rewrite Hp. exact Estart.
      * intros s [_ Hp]. exact Hp.
      * intros; discriminate.
  - intros ?. apply safeP_getPos. intros p1.
    match goal with |- context [if ?c then _ else _] => destruct c eqn:E3 end;
      [apply safe_pre; exact Hback|].
    eapply safeP_conseq; [apply (Hbody p1) | | auto]. intros s [H _]. exact H.
Qed.

Lemma safe_leaf (allow : option (list jsstring)) (disallow : list jsstring)
    (nt : NodeType) (originalPos : Pos) (continue_ : M value) :
  leafSafe lowercaseStr next nt -> safe continue_ ->
  safe (nodeEntry lowercaseStr limit next allow disallow nt originalPos continue_).
Proof.
  intros (Hg & Hrun & Hpost) Hcont.
  destruct nt as [ty start keep pre post grp func repl pp opts].
  simpl in Hg. subst grp.
  cbn [nodeEntry nt_start nt_type nt_preCondition nt_keepStart
         nt_postCondition nt_func nt_replaceWith nt_postProcess nt_opts].
  eapply safe_entryHead with (body := fun _ => _); [exact Hcont|].
  intros _. cbn [nt_keepStart nt_start] in Hrun.
  eapply safeP_bind; [exact Hrun|].
  intros content. apply safe_pre.
  destruct repl as [r|]; [apply safe_ret|].
  destruct (isNullish content) eqn:En; [ssteps|].
  eapply safeP_bind.
  - apply (Hpost (wrapContent ty content)). apply isNullish_wrapContent. exact En.
  - intros processed s Hs. cbv beta in Hs. rewrite Hs. simpl.
    split; [apply framed_refl | exact I].
Qed.

Lemma safe_leaves (allow : option (list jsstring)) (disallow : list jsstring)
    (originalPos : Pos) (g : list NodeType) :
  Forall (leafSafe lowercaseStr next) g ->
  safe (fold_right
          (fun nt k => nodeEntry lowercaseStr limit next allow disallow nt originalPos k)
          (ret VNull) g).
Proof.
  induction g as [|nt rest IH]; intros H; simpl.
  - apply safe_ret.
  - inversion H; subst. apply safe_leaf; auto.
Qed.

Lemma safe_group (allow : option (list jsstring)) (disallow : list jsstring)
    (nt : NodeType) (originalPos : Pos) (continue_ : M value) :
  groupSafe lowercaseStr next nt -> safe continue_ ->
  safe (nodeEntry lowercaseStr limit next allow disallow nt originalPos continue_).
Proof.
  intros (grp & Hg & Hleaves) Hcont.
  destruct nt as [ty start keep pre post grp' func repl pp opts].
  simpl in Hg. subst grp'.
  cbn [nodeEntry nt_start nt_type nt_preCondition nt_keepStart
         nt_postCondition nt_func nt_replaceWith nt_postProcess nt_opts].
  eapply safe_entryHead with (body := fun p1 => _); [exact Hcont|].
  intros p1. apply safe_pre.
  apply safe_bind; [apply safe_leaves; exact Hleaves|].
  intros result. ssteps.
Qed.

Lemma safe_nodeLoop (allow : option (list jsstring)) (disallow : list jsstring)
    (originalPos : Pos) (g : list NodeType) :
  Forall (entrySafe lowercaseStr next) g ->
  safe (nodeLoop lowercaseStr limit next allow disallow originalPos g).
Proof.
  unfold nodeLoop. induction g as [|nt rest IH]; intros H; simpl.
  - apply safe_ret.
  - inversion H as [|? ? [Hl|Hg] Hrest]; subst.
    + apply safe_leaf; auto.
    + apply safe_group; auto.
Qed.

Lemma safe_nodeImpl (allow : option (list jsstring)) (disallow : list jsstring)
    (g : list NodeType) :
  Forall (entrySafe lowercaseStr next) g ->
  safe (nodeImpl lowercaseStr limit next allow disallow g).
Proof.
  intros H. unfold nodeImpl. sstep. apply safe_nodeLoop. exact H.
Qed.

(** *** The descriptors of the grammar *)

Lemma postOf_node (nt : NodeType) (w : value) :
  match nt_postProcess nt with
  | Some pp => pp = retypeTemplate \/ pp = stripComment \/ pp = dropContent
               \/ pp = nowikiContent
  | None => True
  end ->
  isNullish w = false ->
  safeP (fun _ => True) (postOf nt w) (fun p _ => isNullish p = false).
Proof.
  unfold postOf. destruct (nt_postProcess nt) as [pp|]; intros H Hw.
  - apply postProcess_node. exact H.
  - apply safeP_ret. intros; exact Hw.
Qed.

Lemma leafSafe_production (type start : string) (keepStart : bool)
    (pre post : option (Pos -> bool)) (func : M value)
    (pp : option (value -> M value)) :
  safeP (fun s => keepStart = true ->
                  startsWithP lowercaseStr (js start) (pos s) = true)
    func (fun _ _ => True) ->
  match pp with
  | Some pp => pp = retypeTemplate \/ pp = stripComment \/ pp = dropContent
               \/ pp = nowikiContent
  | None => True
  end ->
  leafSafe lowercaseStr next (production type start keepStart pre post func pp).
Proof.
  intros Hf Hpp. split; [reflexivity|]. split; [exact Hf|].
  intros w Hw. apply postOf_node; assumption.
Qed.

Lemma leafSafe_declarative (type start : string)
    (pre post : option (Pos -> bool)) (opts : NextOpts)
    (pp : option (value -> M value)) :
  match pp with
  | Some pp => pp = retypeTemplate \/ pp = stripComment \/ pp = dropContent
               \/ pp = nowikiContent
  | None => True
  end ->
  leafSafe lowercaseStr next (declarative type start pre post opts pp).
Proof.
  intros Hpp. split; [reflexivity|]. split.
  - apply safe_pre. unfold runOf, declarative. cbn [nt_func nt_opts]. ssteps.
  - intros w Hw. apply postOf_node; assumption.
Qed.

Lemma leafSafe_replacement (type start : string) (r : jsstring) :
  leafSafe lowercaseStr next (replacement type start r).
Proof.
  split; [reflexivity|]. split.
  - apply safe_pre. unfold runOf, replacement. cbn [nt_func nt_opts]. ssteps.
  - intros w Hw. apply postOf_node; [exact I | assumption].
Qed.

Lemma safeP_tag_of (start : string) (t : TagOpts) :
  (exists rest, js start = 60%N :: rest) ->
  safeP (fun s => true = true -> startsWithP lowercaseStr (js start) (pos s) = true)
    (tag str lowercaseStr toLowerCase next fuel t) (fun _ _ => True).
Proof.
  intros [rest E]. eapply safeP_conseq; [apply safeP_tag | | auto].
  intros s H. specialize (H eq_refl). rewrite E in H.
  eapply startsWithP_first_unit. exact H.
Qed.

Lemma grammar_safe :
  Forall (entrySafe lowercaseStr next)
    (grammar str lowercaseStr toLowerCase next node fuel).
Proof.
  unfold grammar, rawTag, tagDefaults.
  repeat lazymatch goal with
  | |- Forall _ (_ :: _) => apply Forall_cons
  | |- Forall _ [] => apply Forall_nil
  | |- entrySafe _ _ (group _ _ _) => right; eexists; split; [reflexivity|]
  | |- entrySafe _ _ _ => left
  | |- leafSafe _ _ (replacement _ _ _) => apply leafSafe_replacement
  | |- leafSafe _ _ (declarative _ _ _ _ _ _) =>
      apply leafSafe_declarative; tauto
  | |- leafSafe _ _ (production _ _ _ _ _ (tag _ _ _ _ _ _) _) =>
      apply leafSafe_production;
      [apply safeP_tag_of; eexists; reflexivity | tauto]
  | |- leafSafe _ _ (production _ _ _ _ _ _ _) =>
      apply leafSafe_production; [apply safe_pre | tauto]
  end.
  - apply safe_link.
  - apply safe_externalLink.
  - apply safe_template.
  - apply safe_template.
  - apply safe_list_.
  - apply safe_list_.
  - apply safe_indent.
  - apply safe_description.
  - apply safe_heading.
  - apply safe_htmlEntity.
  - apply safe_preformatted.
  - apply safe_gallery.
  - apply safe_table.
Qed.

End SafeProductions.

(** *** [next] and [node], by induction on the fuel *)

Lemma safe_next_node (fuel : nat) :
  (forall o, safeP (fun _ => True)
               (next str lowercaseStr limit toLowerCase fuel o) (nextPost o))
  /\ (forall allow disallow,
         safe (node str lowercaseStr limit toLowerCase fuel allow disallow)).
Proof.
  induction fuel as [|f [IHnext IHnode]]; split; intros; simpl.
  - intros s _. exact I.
  - apply safe_outOfFuel.
  - apply safe_nextImpl. exact IHnode.
  - apply safe_nodeImpl. apply grammar_safe; [|assumption].
    intros o'. eapply safeP_safe. apply IHnext.
Qed.

End Safety.

Lemma run_safe (toLowerCase : jsstring -> jsstring) (fuel : nat) (limit : Z)
    (str : jsstring) :
  match run toLowerCase fuel limit str with
  | Ok r s => r <> None
  | Throw e _ => okFault e
  | OutOfFuel => True
  end.
Proof.
  unfold run.
  pose proof (proj1 (safe_next_node str (map (fun c => toLowerCase [c]) str)
                       limit toLowerCase fuel) (withEndAtEos true noOpts)
                initialState I) as H.
  destruct (next _ _ _ _ _ _ _) as [r s|e s|]; auto.
  destruct H as [[F1 _] H]. intros E. specialize (H E).
  unfold mayBacktrack in H. rewrite F1 in H. simpl in H.
  destruct H as [H|[H|[H|H]]]; try discriminate; contradiction H; reflexivity.
Qed.



(** The TypeError is reached: the name of a template that is itself a
    template is an object, and [trim] is called on it. *)
Lemma nested_template_name_throws :
  parse lowerTable 30 (js "{{{{a}}}}") (mkOptions 50000 true false false)
  = Raised TypeError.
Proof. vm_compute. reflexivity. Qed.

(** X13. [parse] returns an array whenever the body of its [try] returns:
    the [next] that [parse] calls never returns [null]. [parse] returns
    [null] only after a fault. *)
Theorem parse_null_is_failure (toLowerCase : jsstring -> jsstring) (fuel : nat)
    (str : jsstring) (o : Options) (v : value) :
  parse toLowerCase fuel str o = Returned v ->
  (exists l s, v = arr l
               /\ run toLowerCase fuel (backtrackingLimit o) str = Ok (Some l) s)
  \/ (v = VNull
      /\ exists e s, run toLowerCase fuel (backtrackingLimit o) str = Throw e s).
Proof.
  unfold parse, Parser_parse. cbv zeta. cbn [options newParser].
  pose proof (run_safe toLowerCase fuel (backtrackingLimit o) str) as H.
  destruct (run toLowerCase fuel (backtrackingLimit o) str) as [r s|e' s|]; cbn [fst].
  - intros E. injection E as <-. left. destruct r as [l|]; [|contradiction H; reflexivity].
    exists l, s. split; reflexivity.
  - destruct (throwError o); [discriminate|].
    destruct (returnError o); [discriminate|].
    intros E. injection E as <-. right. split; [reflexivity|]. exists e', s. reflexivity.
  - discriminate.
Qed.

Lemma parse_null_is_failure_witness :
  parse lowerTable 10 (js "{{{{a}}}}") kDefaultOptions = Returned VNull
  /\ ((exists l s, VNull = arr l
                   /\ run lowerTable 10 (backtrackingLimit kDefaultOptions)
                        (js "{{{{a}}}}") = Ok (Some l) s)
      \/ (VNull = VNull
          /\ exists e s, run lowerTable 10 (backtrackingLimit kDefaultOptions)
                           (js "{{{{a}}}}") = Throw e s)).
Proof.
  split; [vm_compute; reflexivity|].
  apply (@parse_null_is_failure lowerTable 10 (js "{{{{a}}}}") kDefaultOptions VNull).
  vm_compute. reflexivity.
Defined.

(* ================================================================== *)
(** ** Quote markup *)

(** X14. Bold, italic and bold-italic markup: between two runs of plain
    text, a non-empty text without markup and without a line end that stands
    between two runs of five, three or two apostrophes becomes one node of
    type [boldItalics], [bold] or [italics] whose content is that text. *)
Theorem quote_markup_parsed (toLowerCase : jsstring -> jsstring) (ty : string)
    (n : nat) (pre t post : jsstring) (o : Options) (fuel : nat) :
  asciiFaithful toLowerCase ->
  In (ty, n) quoteMarkup ->
  t <> [] ->
  inlineText toLowerCase t = true ->
  plainText toLowerCase true pre = true ->
  plainText toLowerCase false post = true ->
  length pre + length t + length post + 4 <= fuel ->
  parse toLowerCase fuel (pre ++ (repeat 39%N n ++ t ++ repeat 39%N n) ++ post) o =
  Returned (arr (textNode pre ++ typedNode ty [VStr t] :: textNode post)).
Proof.
  intros Hascii Hin Hne Ht Hpre Hpost Hfuel. destruct fuel as [|f]; [lia|].
  destruct (@next_quote_markup
              (pre ++ (repeat 39%N n ++ t ++ repeat 39%N n) ++ post)
              (backtrackingLimit o) toLowerCase Hascii ty n pre t post f eq_refl
              Hin Hne Ht Hpre Hpost)
    as [s' Hs']; [lia|].
  unfold parse, Parser_parse. cbv zeta. cbn [options newParser]. unfold run.
  rewrite Hs'. reflexivity.
Qed.

Lemma quote_markup_parsed_witness :
  parse lowerTable 20 (js "a " ++ (repeat 39%N 3 ++ js "b c" ++ repeat 39%N 3) ++ js " d")
        kDefaultOptions =
  Returned (arr (textNode (js "a ") ++ typedNode "bold" [VStr (js "b c")]
                   :: textNode (js " d"))).
Proof.
  apply (@quote_markup_parsed lowerTable "bold" 3 (js "a ") (js "b c") (js " d")
           kDefaultOptions 20).
  - exact lowerTable_ascii.
  - simpl. tauto.
  - discriminate.
  - reflexivity.
  - reflexivity.
  - reflexivity.
  - simpl. lia.
Defined.

(** X15. The text of quote markup is the text between the apostrophes:
    [nodeToText] of the parse of such an input is the input without the
    apostrophes. *)
Theorem quote_markup_text (toLowerCase : jsstring -> jsstring) (ty : string)
    (n : nat) (pre t post : jsstring) (o : Options) (fuel textFuel : nat)
    (headingCallback : option (jsstring -> jsstring)) :
  asciiFaithful toLowerCase ->
  In (ty, n) quoteMarkup ->
  t <> [] ->
  inlineText toLowerCase t = true ->
  plainText toLowerCase true pre = true ->
  plainText toLowerCase false post = true ->
  length pre + length t + length post + 4 <= fuel ->
  exists ast,
    parse toLowerCase fuel (pre ++ (repeat 39%N n ++ t ++ repeat 39%N n) ++ post) o
    = Returned ast
    /\ nodeToText (4 + textFuel) headingCallback ast = Text (pre ++ t ++ post).
Proof.
  intros Hascii Hin Hne Ht Hpre Hpost Hfuel.
  eexists. split.
  - destruct fuel as [|f]; [lia|].
    destruct (@next_quote_markup
                (pre ++ (repeat 39%N n ++ t ++ repeat 39%N n) ++ post)
                (backtrackingLimit o) toLowerCase Hascii ty n pre t post f eq_refl
                Hin Hne Ht Hpre Hpost)
      as [s' Hs']; [lia|].
    unfold parse, Parser_parse. cbv zeta. cbn [options newParser]. unfold run.
    rewrite Hs'. reflexivity.
  - destruct Hin as [E|[E|[E|[]]]]; injection E as <- <-;
      destruct pre as [|a pre'], post as [|b post'];
      cbn [nodeToText Nat.add arr textNode app typedNode mapJoin elemText hasKey];
      cbn; rewrite ?app_nil_r; reflexivity.
Qed.

Lemma quote_markup_text_witness :
  exists ast,
    parse lowerTable 20
          (js "a " ++ (repeat 39%N 2 ++ js "b c" ++ repeat 39%N 2) ++ js " d")
          kDefaultOptions = Returned ast
    /\ nodeToText (4 + 0) None ast = Text (js "a " ++ js "b c" ++ js " d").
Proof.
  apply (@quote_markup_text lowerTable "italics" 2 (js "a ") (js "b c") (js " d")
           kDefaultOptions 20 0 None).
  - exact lowerTable_ascii.
  - simpl. tauto.
  - discriminate.
  - reflexivity.
  - reflexivity.
  - reflexivity.
  - simpl. lia.
Defined.

(* ================================================================== *)
(** ** Comments and the empty [allow] list *)

(** X16. A comment between two runs of plain text becomes one node of type
    [comment]. Its text may hold any markup, which is not parsed, and any
    line ends, as long as [-->] does not occur in it; the content of the
    node is the text without the white space and the dashes at its two
    ends. *)
Theorem comment_parsed (toLowerCase : jsstring -> jsstring)
    (pre c post : jsstring) (o : Options) (fuel : nat) :
  asciiFaithful toLowerCase ->
  occursLower toLowerCase (js "-->") c = false ->
  plainText toLowerCase true pre = true ->
  plainText toLowerCase false post = true ->
  length pre + length c + length post + 4 <= fuel ->
  parse toLowerCase fuel (pre ++ (js "<!--" ++ c ++ js "-->") ++ post) o =
  Returned (arr (textNode pre ++ typedNode "comment" (commentContent c)
                   :: textNode post)).
Proof.
  intros Hascii Hc Hpre Hpost Hfuel. destruct fuel as [|f]; [lia|].
  destruct (@next_comment_markup
              (pre ++ (js "<!--" ++ c ++ js "-->") ++ post)
              (backtrackingLimit o) toLowerCase Hascii pre c post f eq_refl
              Hc Hpre Hpost)
    as [s' Hs']; [lia|].
  unfold parse, Parser_parse. cbv zeta. cbn [options newParser]. unfold run.
  rewrite Hs'. reflexivity.
Qed.

Lemma comment_parsed_witness :
  parse lowerTable 30
        (js "a " ++ (js "<!--" ++ js " [[x]] ''y'' -- " ++ js "-->") ++ js " b")
        kDefaultOptions =
  Returned (arr (textNode (js "a ")
                   ++ typedNode "comment" (commentContent (js " [[x]] ''y'' -- "))
                   :: textNode (js " b"))).
Proof.
  apply (@comment_parsed lowerTable (js "a ") (js " [[x]] ''y'' -- ") (js " b")
           kDefaultOptions 30).
  - exact lowerTable_ascii.
  - reflexivity.
  - reflexivity.
  - reflexivity.
  - simpl. lia.
Defined.

(** X17. A comment leaves nothing in the text: [nodeToText] of the parse of
    plain text, a comment and plain text is the two plain texts. *)
Theorem comment_text (toLowerCase : jsstring -> jsstring)
    (pre c post : jsstring) (o : Options) (fuel textFuel : nat)
    (headingCallback : option (jsstring -> jsstring)) :
  asciiFaithful toLowerCase ->
  occursLower toLowerCase (js "-->") c = false ->
  plainText toLowerCase true pre = true ->
  plainText toLowerCase false post = true ->
  length pre + length c + length post + 4 <= fuel ->
  exists ast,
    parse toLowerCase fuel (pre ++ (js "<!--" ++ c ++ js "-->") ++ post) o
    = Returned ast
    /\ nodeToText (2 + textFuel) headingCallback ast = Text (pre ++ post).
Proof.
  intros Hascii Hc Hpre Hpost Hfuel.
  eexists. split.
  - destruct fuel as [|f]; [lia|].
    destruct (@next_comment_markup
                (pre ++ (js "<!--" ++ c ++ js "-->") ++ post)
                (backtrackingLimit o) toLowerCase Hascii pre c post f eq_refl
                Hc Hpre Hpost)
      as [s' Hs']; [lia|].
    unfold parse, Parser_parse. cbv zeta. cbn [options newParser]. unfold run.
    rewrite Hs'. reflexivity.
  - destruct pre as [|a pre'], post as [|b post'];
      cbn [nodeToText Nat.add arr textNode app typedNode mapJoin elemText hasKey];
      cbn; rewrite ?app_nil_r; reflexivity.
Qed.

Lemma comment_text_witness :
  exists ast,
    parse lowerTable 30
          (js "a " ++ (js "<!--" ++ js " [[x]] ''y'' -- " ++ js "-->") ++ js " b")
          kDefaultOptions = Returned ast
    /\ nodeToText (2 + 0) None ast = Text (js "a " ++ js " b").
Proof.
  apply (@comment_text lowerTable (js "a ") (js " [[x]] ''y'' -- ") (js " b")
           kDefaultOptions 30 0 None).
  - exact lowerTable_ascii.
  - reflexivity.
  - reflexivity.
  - reflexivity.
  - simpl. lia.
Defined.

(** X18. With an empty [allow] list [node] never finds a node: on every
    input and in every state it returns [null] and leaves the state as it
    is. Every descriptor of the grammar has a type, or is a group without
    conditions whose descriptors all have one. This is what keeps markup
    inert inside comments, quoted attribute values and the tags that pass
    [allow: kEmpty]. *)
Theorem allow_nothing_inert (toLowerCase : jsstring -> jsstring) (str : jsstring)
    (limit : Z) (fuel : nat) (disallow : list jsstring) (s : State) :
  node str (map (fun c => toLowerCase [c]) str) limit toLowerCase (S fuel)
       (Some []) disallow s = Ok VNull s.
Proof.
  cbn [node]. unfold nodeImpl, bind, getPos.
  apply nodeLoop_allTyped. apply grammar_allTyped.
Qed.

(* ================================================================== *)
(** ** Links without parameters *)

(** X19. A link without parameters between two runs of plain text: for a
    non-empty page name without markup, pipe, closing bracket or line end,
    followed by a trail of word characters, [parse] returns one node of type
    [link] whose [to] is the trimmed name up to the first [#], whose
    [anchor] (when it is not empty) is what stands between the first and
    the second [#], and whose content is [to] with the trail appended. *)
Theorem link_parsed (toLowerCase : jsstring -> jsstring)
    (pre page trail rest : jsstring) (o : Options) (fuel : nat) :
  asciiFaithful toLowerCase ->
  page <> [] ->
  nameText toLowerCase [124%N; 93%N] page = true ->
  Forall (fun c => isWordChar c = true) trail ->
  noTrail rest = true ->
  plainText toLowerCase true pre = true ->
  plainText toLowerCase false rest = true ->
  length pre + length page + length rest + 4 <= fuel ->
  parse toLowerCase fuel (pre ++ (js "[[" ++ page ++ js "]]" ++ trail) ++ rest) o =
  Returned (arr (textNode pre ++ linkNode page trail :: textNode rest)).
Proof.
  intros Hascii Hne Hp Htrail Hrest Hpre Hpost Hfuel. destruct fuel as [|f]; [lia|].
  destruct (@next_link_markup
              (pre ++ (js "[[" ++ page ++ js "]]" ++ trail) ++ rest)
              (backtrackingLimit o) toLowerCase Hascii pre page trail rest f eq_refl
              Hne Hp Htrail Hrest Hpre Hpost)
    as [s' Hs']; [lia|].
  unfold parse, Parser_parse. cbv zeta. cbn [options newParser]. unfold run.
  rewrite Hs'. reflexivity.
Qed.

Lemma link_parsed_witness :
  parse lowerTable 30
        (js "small " ++ (js "[[" ++ js " Mammal#Teeth " ++ js "]]" ++ js "s") ++ js ".")
        kDefaultOptions =
  Returned (arr (textNode (js "small ") ++ linkNode (js " Mammal#Teeth ") (js "s")
                   :: textNode (js "."))).
Proof.
  apply (@link_parsed lowerTable (js "small ") (js " Mammal#Teeth ") (js "s") (js ".")
           kDefaultOptions 30).
  - exact lowerTable_ascii.
  - discriminate.
  - reflexivity.
  - repeat constructor.
  - reflexivity.
  - reflexivity.
  - reflexivity.
  - simpl. lia.
Defined.

(** The node of the example: the name is trimmed and split at [#]. *)
Lemma linkNode_example :
  linkNode (js " Mammal#Teeth ") (js "s") =
  VObj [(js "type", VStr (js "link")); (js "to", VStr (js "Mammal"));
        (js "content", arr [VStr (js "Mammals")]); (js "anchor", VStr (js "Teeth"))].
Proof. reflexivity. Qed.

(** X20. The text of a link without parameters is its target with the
    trail: [nodeToText] of the parse of such an input is the plain text
    before, the trimmed page name up to the first [#], the trail and the
    plain text after. *)
Theorem link_text (toLowerCase : jsstring -> jsstring)
    (pre page trail rest : jsstring) (o : Options) (fuel textFuel : nat)
    (headingCallback : option (jsstring -> jsstring)) :
  asciiFaithful toLowerCase ->
  page <> [] ->
  nameText toLowerCase [124%N; 93%N] page = true ->
  Forall (fun c => isWordChar c = true) trail ->
  noTrail rest = true ->
  plainText toLowerCase true pre = true ->
  plainText toLowerCase false rest = true ->
  length pre + length page + length rest + 4 <= fuel ->
  exists ast,
    parse toLowerCase fuel (pre ++ (js "[[" ++ page ++ js "]]" ++ trail) ++ rest) o
    = Returned ast
    /\ nodeToText (4 + textFuel) headingCallback ast
       = Text (pre ++ nth 0 (splitOn 35 (strTrim page)) [] ++ trail ++ rest).
Proof.
  intros Hascii Hne Hp Htrail Hrest Hpre Hpost Hfuel.
  eexists. split.
  - destruct fuel as [|f]; [lia|].
    destruct (@next_link_markup
                (pre ++ (js "[[" ++ page ++ js "]]" ++ trail) ++ rest)
                (backtrackingLimit o) toLowerCase Hascii pre page trail rest f eq_refl
                Hne Hp Htrail Hrest Hpre Hpost)
      as [s' Hs']; [lia|].
    unfold parse, Parser_parse. cbv zeta. cbn [options newParser]. unfold run.
    rewrite Hs'. reflexivity.
  - unfold linkNode, linkFields. cbv zeta.
    match goal with |- context [optionalField ?b _ _] => destruct b end;
      destruct pre as [|a pre'], rest as [|b rest'];
      cbn [nodeToText Nat.add arr textNode app typedNode mapJoin elemText hasKey
             optionalField];
      cbn; rewrite ?app_nil_r, <- ?app_assoc; reflexivity.
Qed.

Lemma link_text_witness :
  exists ast,
    parse lowerTable 30
          (js "small " ++ (js "[[" ++ js " Mammal#Teeth " ++ js "]]" ++ js "s") ++ js ".")
          kDefaultOptions = Returned ast
    /\ nodeToText (4 + 0) None ast
       = Text (js "small " ++ nth 0 (splitOn 35 (strTrim (js " Mammal#Teeth "))) []
                 ++ js "s" ++ js ".").
Proof.
  apply (@link_text lowerTable (js "small ") (js " Mammal#Teeth ") (js "s") (js ".")
           kDefaultOptions 30 0 None).
  - exact lowerTable_ascii.
  - discriminate.
  - reflexivity.
  - repeat constructor.
  - reflexivity.
  - reflexivity.
  - reflexivity.
  - simpl. lia.
Defined.

(* ================================================================== *)
(** ** Templates without parameters *)

(** X21. A template without parameters between two runs of plain text: for
    a name without markup, pipe, closing brace or line end whose trimmed,
    lower-cased form is not empty, [parse] returns one node of type
    [template] with that form as [name], no [parameters] and no
    [positionalParameters]. *)
Theorem template_parsed (toLowerCase : jsstring -> jsstring)
    (pre name rest : jsstring) (o : Options) (fuel : nat) :
  asciiFaithful toLowerCase ->
  name <> [] ->
  nameText toLowerCase [124%N; 125%N] name = true ->
  toLowerCase (strTrim name) <> [] ->
  plainText toLowerCase true pre = true ->
  plainText toLowerCase false rest = true ->
  length pre + length name + length rest + 4 <= fuel ->
  parse toLowerCase fuel (pre ++ (js "{{" ++ name ++ js "}}") ++ rest) o =
  Returned (arr (textNode pre ++ templateNode (toLowerCase (strTrim name))
                   :: textNode rest)).
Proof.
  intros Hascii Hne Hn Hlow Hpre Hpost Hfuel. destruct fuel as [|f]; [lia|].
  destruct (@next_template_markup
              (pre ++ (js "{{" ++ name ++ js "}}") ++ rest)
              (backtrackingLimit o) toLowerCase Hascii pre name rest f eq_refl
              Hne Hn Hlow Hpre Hpost)
    as [s' Hs']; [lia|].
  unfold parse, Parser_parse. cbv zeta. cbn [options newParser]. unfold run.
  rewrite Hs'. reflexivity.
Qed.

Lemma template_parsed_witness :
  parse lowerTable 30 (js "a " ++ (js "{{" ++ js " Citation Needed " ++ js "}}") ++ js " b")
        kDefaultOptions =
  Returned (arr (textNode (js "a ")
                   ++ templateNode (lowerTable (strTrim (js " Citation Needed ")))
                   :: textNode (js " b"))).
Proof.
  apply (@template_parsed lowerTable (js "a ") (js " Citation Needed ") (js " b")
           kDefaultOptions 30).
  - exact lowerTable_ascii.
  - discriminate.
  - reflexivity.
  - discriminate.
  - reflexivity.
  - reflexivity.
  - simpl. lia.
Defined.

(** The name of the example. *)
Lemma templateNode_example :
  lowerTable (strTrim (js " Citation Needed ")) = js "citation needed".
Proof. reflexivity. Qed.

Lemma templateText_bare (recur : value -> TextResult) (name : jsstring) :
  templateText recur [(js "type", VStr (js "template")); (js "name", VStr name);
                      (js "parameters", VDict []);
                      (js "positionalParameters", arrayValue emptyArray)]
  = Text [].
Proof.
  unfold templateText. cbv zeta.
  change (getField (js "name") _) with (VStr name).
  change (getField (js "parameters") _) with (VDict []).
  change (getField (js "positionalParameters") _) with (arrayValue emptyArray).
  destruct (isStr (VStr name) (js "zh") || isStr (VStr name) (js "lang-zh"))%bool;
    [reflexivity|].
  destruct (langName name); [reflexivity|].
  destruct (jsstring_eqb name (js "bibleverse")); [reflexivity|].
  destruct (existsb (jsstring_eqb name) [js "audio"; js "audio-nohelp"; js "lang"]);
    reflexivity.
Qed.

(** X22. A template without parameters leaves nothing in the text, whatever
    its name: [nodeToText] of the parse of plain text, such a template and
    plain text is the two plain texts. *)
Theorem template_text (toLowerCase : jsstring -> jsstring)
    (pre name rest : jsstring) (o : Options) (fuel textFuel : nat)
    (headingCallback : option (jsstring -> jsstring)) :
  asciiFaithful toLowerCase ->
  name <> [] ->
  nameText toLowerCase [124%N; 125%N] name = true ->
  toLowerCase (strTrim name) <> [] ->
  plainText toLowerCase true pre = true ->
  plainText toLowerCase false rest = true ->
  length pre + length name + length rest + 4 <= fuel ->
  exists ast,
    parse toLowerCase fuel (pre ++ (js "{{" ++ name ++ js "}}") ++ rest) o
    = Returned ast
    /\ nodeToText (2 + textFuel) headingCallback ast = Text (pre ++ rest).
Proof.
  intros Hascii Hne Hn Hlow Hpre Hpost Hfuel.
  eexists. split.
  - destruct fuel as [|f]; [lia|].
    destruct (@next_template_markup
                (pre ++ (js "{{" ++ name ++ js "}}") ++ rest)
                (backtrackingLimit o) toLowerCase Hascii pre name rest f eq_refl
                Hne Hn Hlow Hpre Hpost)
      as [s' Hs']; [lia|].
    unfold parse, Parser_parse. cbv zeta. cbn [options newParser]. unfold run.
    rewrite Hs'. reflexivity.
  - assert (Ht : forall fl, nodeToText (S fl) headingCallback
                              (templateNode (toLowerCase (strTrim name))) = Text []).
    { intros fl. unfold templateNode. cbn [nodeToText].
      change (hasKey (js "items") _) with false.
      change (hasKey (js "content") _) with false.
      change (isStr (getField (js "type") _) (js "template")) with true.
      cbv iota. apply templateText_bare. }
    assert (Hs : forall fl x, nodeToText (S fl) headingCallback (VStr x) = Text x)
      by reflexivity.
    assert (Ha : forall fl l, nodeToText (S fl) headingCallback (arr l)
                              = mapJoin (nodeToText fl headingCallback) [] [] l)
      by reflexivity.
    cbn [ofNullable]. change (2 + textFuel) with (S (S textFuel)). rewrite Ha.
    unfold templateNode in *.
    destruct pre as [|a pre'], rest as [|b rest'];
      cbn [textNode app mapJoin elemText]; rewrite ?Hs, ?Ht; cbn [app];
      rewrite ?app_nil_r; reflexivity.
Qed.

Lemma template_text_witness :
  exists ast,
    parse lowerTable 30 (js "a " ++ (js "{{" ++ js " Citation Needed " ++ js "}}") ++ js " b")
          kDefaultOptions = Returned ast
    /\ nodeToText (2 + 0) None ast = Text (js "a " ++ js " b").
Proof.
  apply (@template_text lowerTable (js "a ") (js " Citation Needed ") (js " b")
           kDefaultOptions 30 0 None).
  - exact lowerTable_ascii.
  - discriminate.
  - reflexivity.
  - discriminate.
  - reflexivity.
  - reflexivity.
  - simpl. lia.
Defined.

(* ================================================================== *)
(** ** Heading lines *)

(** X23. A heading line after plain text that ends a line (or at the start
    of the input): [n >= 1] equals signs, a non-empty text without markup,
    equals sign or line end, [n] equals signs and a newline become one node
    of type [heading] with level [n] and the trimmed text as content; the
    newline is consumed, and the text after it starts a line. *)
Theorem heading_parsed (toLowerCase : jsstring -> jsstring)
    (pre title post : jsstring) (n : nat) (o : Options) (fuel : nat) :
  asciiFaithful toLowerCase ->
  endsLine pre = true ->
  1 <= n ->
  title <> [] ->
  nameText toLowerCase [61%N] title = true ->
  plainText toLowerCase true pre = true ->
  plainText toLowerCase true post = true ->
  length pre + length title + length post + 4 <= fuel ->
  parse toLowerCase fuel
        (pre ++ ((repeat 61%N n ++ title ++ repeat 61%N n) ++ [10%N]) ++ post) o =
  Returned (arr (textNode pre ++ headingNode n (textNode (strTrim title))
                   :: textNode post)).
Proof.
  intros Hascii Hend Hn Hne HT Hpre Hpost Hfuel. destruct fuel as [|f]; [lia|].
  destruct (@next_heading_markup
              (pre ++ ((repeat 61%N n ++ title ++ repeat 61%N n) ++ [10%N]) ++ post)
              (backtrackingLimit o) toLowerCase Hascii pre title post n f eq_refl
              Hend Hn Hne HT Hpre Hpost)
    as [s' Hs']; [lia|].
  unfold parse, Parser_parse. cbv zeta. cbn [options newParser]. unfold run.
  rewrite Hs'. reflexivity.
Qed.

Lemma heading_parsed_witness :
  parse lowerTable 40
        ((js "intro" ++ [10%N])
         ++ ((repeat 61%N 2 ++ js " Early life " ++ repeat 61%N 2) ++ [10%N])
         ++ js "Born in 1900.")
        kDefaultOptions =
  Returned (arr (textNode (js "intro" ++ [10%N])
                   ++ headingNode 2 (textNode (strTrim (js " Early life ")))
                   :: textNode (js "Born in 1900."))).
Proof.
  apply (@heading_parsed lowerTable (js "intro" ++ [10%N]) (js " Early life ")
           (js "Born in 1900.") 2 kDefaultOptions 40).
  - exact lowerTable_ascii.
  - reflexivity.
  - lia.
  - discriminate.
  - reflexivity.
  - reflexivity.
  - reflexivity.
  - simpl. lia.
Defined.

Lemma headingText (fl : nat) (headingCallback : option (jsstring -> jsstring))
    (n : nat) (t : jsstring) :
  nodeToText (S (S (S fl))) headingCallback (headingNode n (textNode t))
  = Text (match headingCallback with
          | Some callback => callback t
          | None => t
          end ++ [10%N; 10%N]).
Proof.
  destruct t as [|c r]; cbv - [app]; rewrite ?app_nil_r; reflexivity.
Qed.

(** X24. The text of a heading line is its trimmed title, passed through
    [headingCallback] when there is one, followed by two newlines. *)
Theorem heading_text (toLowerCase : jsstring -> jsstring)
    (pre title post : jsstring) (n : nat) (o : Options) (fuel textFuel : nat)
    (headingCallback : option (jsstring -> jsstring)) :
  asciiFaithful toLowerCase ->
  endsLine pre = true ->
  1 <= n ->
  title <> [] ->
  nameText toLowerCase [61%N] title = true ->
  plainText toLowerCase true pre = true ->
  plainText toLowerCase true post = true ->
  length pre + length title + length post + 4 <= fuel ->
  exists ast,
    parse toLowerCase fuel
          (pre ++ ((repeat 61%N n ++ title ++ repeat 61%N n) ++ [10%N]) ++ post) o
    = Returned ast
    /\ nodeToText (4 + textFuel) headingCallback ast
       = Text (pre
               ++ match headingCallback with
                  | Some callback => callback (strTrim title)
                  | None => strTrim title
                  end ++ [10%N; 10%N] ++ post).
Proof.
  intros Hascii Hend Hn Hne HT Hpre Hpost Hfuel.
  eexists. split.
  - destruct fuel as [|f]; [lia|].
    destruct (@next_heading_markup
                (pre ++ ((repeat 61%N n ++ title ++ repeat 61%N n) ++ [10%N]) ++ post)
                (backtrackingLimit o) toLowerCase Hascii pre title post n f eq_refl
                Hend Hn Hne HT Hpre Hpost)
      as [s' Hs']; [lia|].
    unfold parse, Parser_parse. cbv zeta. cbn [options newParser]. unfold run.
    rewrite Hs'. reflexivity.
  - pose proof (fun fl => headingText fl headingCallback n (strTrim title)) as Hh.
    assert (Hs : forall fl x, nodeToText (S fl) headingCallback (VStr x) = Text x)
      by reflexivity.
    assert (Ha : forall fl l, nodeToText (S fl) headingCallback (arr l)
                              = mapJoin (nodeToText fl headingCallback) [] [] l)
      by reflexivity.
    cbn [ofNullable]. change (4 + textFuel) with (S (S (S (S textFuel)))). rewrite Ha.
    unfold headingNode in *.
    destruct pre as [|a pre'], post as [|b post'];
      cbn [textNode app mapJoin elemText]; rewrite ?Hs, ?Hh; cbn [app];
      rewrite ?app_nil_r, <- ?app_assoc; reflexivity.
Qed.

Lemma heading_text_witness :
  exists ast,
    parse lowerTable 40
          ((js "intro" ++ [10%N])
           ++ ((repeat 61%N 2 ++ js " Early life " ++ repeat 61%N 2) ++ [10%N])
           ++ js "Born in 1900.")
          kDefaultOptions = Returned ast
    /\ nodeToText (4 + 0) (Some (fun t => js "# " ++ t)) ast
       = Text ((js "intro" ++ [10%N])
               ++ (js "# " ++ strTrim (js " Early life ")) ++ [10%N; 10%N]
               ++ js "Born in 1900.").
Proof.
  apply (@heading_text lowerTable (js "intro" ++ [10%N]) (js " Early life ")
           (js "Born in 1900.") 2 kDefaultOptions 40 0 (Some (fun t => js "# " ++ t))).
  - exact lowerTable_ascii.
  - reflexivity.
  - lia.
  - discriminate.
  - reflexivity.
  - reflexivity.
  - reflexivity.
  - simpl. lia.
Defined.

(* ================================================================== *)
(** ** Horizontal rules *)

(** X25. Four hyphens at the start of the input or after plain text that
    ends with a newline become one node of type [horizontalRule] with an
    empty content; the text after them, further hyphens included, is kept as
    text of the same line. *)
Theorem rule_parsed (toLowerCase : jsstring -> jsstring)
    (pre post : jsstring) (o : Options) (fuel : nat) :
  asciiFaithful toLowerCase ->
  endsLine pre = true ->
  plainText toLowerCase true pre = true ->
  plainText toLowerCase false post = true ->
  length pre + length post + 3 <= fuel ->
  parse toLowerCase fuel (pre ++ js "----" ++ post) o =
  Returned (arr (textNode pre ++ typedNode "horizontalRule" [] :: textNode post)).
Proof.
  intros Hascii Hend Hpre Hpost Hfuel. destruct fuel as [|f]; [lia|].
  destruct (@next_rule_markup (pre ++ js "----" ++ post)
              (backtrackingLimit o) toLowerCase Hascii pre post f eq_refl
              Hend Hpre Hpost)
    as [s' Hs']; [lia|].
  unfold parse, Parser_parse. cbv zeta. cbn [options newParser]. unfold run.
  rewrite Hs'. reflexivity.
Qed.

Lemma rule_parsed_witness :
  parse lowerTable 30 ((js "above" ++ [10%N]) ++ js "----" ++ (js "-" ++ [10%N] ++ js "below"))
        kDefaultOptions =
  Returned (arr (textNode (js "above" ++ [10%N])
                   ++ typedNode "horizontalRule" []
                   :: textNode (js "-" ++ [10%N] ++ js "below"))).
Proof.
  apply (@rule_parsed lowerTable (js "above" ++ [10%N]) (js "-" ++ [10%N] ++ js "below")
           kDefaultOptions 30).
  - exact lowerTable_ascii.
  - reflexivity.
  - reflexivity.
  - reflexivity.
  - simpl. lia.
Defined.

(** X26. A horizontal rule leaves nothing in the text: [nodeToText] of the
    parse of plain text that ends a line, four hyphens and plain text is the
    two plain texts. *)
Theorem rule_text (toLowerCase : jsstring -> jsstring)
    (pre post : jsstring) (o : Options) (fuel textFuel : nat)
    (headingCallback : option (jsstring -> jsstring)) :
  asciiFaithful toLowerCase ->
  endsLine pre = true ->
  plainText toLowerCase true pre = true ->
  plainText toLowerCase false post = true ->
  length pre + length post + 3 <= fuel ->
  exists ast,
    parse toLowerCase fuel (pre ++ js "----" ++ post) o = Returned ast
    /\ nodeToText (3 + textFuel) headingCallback ast = Text (pre ++ post).
Proof.
  intros Hascii Hend Hpre Hpost Hfuel.
  eexists. split.
  - destruct fuel as [|f]; [lia|].
    destruct (@next_rule_markup (pre ++ js "----" ++ post)
                (backtrackingLimit o) toLowerCase Hascii pre post f eq_refl
                Hend Hpre Hpost)
      as [s' Hs']; [lia|].
    unfold parse, Parser_parse. cbv zeta. cbn [options newParser]. unfold run.
    rewrite Hs'. reflexivity.
  - assert (Hr : forall fl, nodeToText (S (S fl)) headingCallback
                              (typedNode "horizontalRule" []) = Text [])
      by reflexivity.
    assert (Hs : forall fl x, nodeToText (S fl) headingCallback (VStr x) = Text x)
      by reflexivity.
    assert (Ha : forall fl l, nodeToText (S fl) headingCallback (arr l)
                              = mapJoin (nodeToText fl headingCallback) [] [] l)
      by reflexivity.
    cbn [ofNullable]. change (3 + textFuel) with (S (S (S textFuel))). rewrite Ha.
    unfold typedNode in *.
    destruct pre as [|a pre'], post as [|b post'];
      cbn [textNode app mapJoin elemText]; rewrite ?Hs, ?Hr; cbn [app];
      rewrite ?app_nil_r, <- ?app_assoc; reflexivity.
Qed.

Lemma rule_text_witness :
  exists ast,
    parse lowerTable 30 ((js "above" ++ [10%N]) ++ js "----" ++ ([10%N] ++ js "below"))
          kDefaultOptions = Returned ast
    /\ nodeToText (3 + 0) None ast
       = Text ((js "above" ++ [10%N]) ++ ([10%N] ++ js "below")).
Proof.
  apply (@rule_text lowerTable (js "above" ++ [10%N]) ([10%N] ++ js "below")
           kDefaultOptions 30 0 None).
  - exact lowerTable_ascii.
  - reflexivity.
  - reflexivity.
  - reflexivity.
  - simpl. lia.
Defined.

(* ================================================================== *)
(** ** Lists *)

(** X27. The lines of a list at the start of the input or after plain text
    that ends with a newline: each line is [n >= 1] markers ([*] for an
    unordered, [#] for an ordered list), a text without markup, closing
    brace or leading colon, and a newline. They become one node whose
    [items] hold, line by line, the level [n] and the trimmed text; the list
    ends where a line does not begin with the marker. *)
Theorem list_parsed (toLowerCase : jsstring -> jsstring) (type : string) (marker : N)
    (items : list (nat * jsstring)) (pre post : jsstring) (o : Options)
    (fuel : nat) :
  asciiFaithful toLowerCase ->
  In (type, marker) listMarkup ->
  items <> [] ->
  forallb (goodItem toLowerCase marker) items = true ->
  endsLine pre = true ->
  plainText toLowerCase true pre = true ->
  plainText toLowerCase true post = true ->
  length pre + length (listSource marker items) + length post + 4 <= fuel ->
  parse toLowerCase fuel (pre ++ listSource marker items ++ post) o =
  Returned (arr (textNode pre ++ listNode type items :: textNode post)).
Proof.
  intros Hascii Hin Hne Hgood Hend Hpre Hpost Hfuel. destruct fuel as [|f]; [lia|].
  destruct (@next_list_markup (pre ++ listSource marker items ++ post)
              (backtrackingLimit o) toLowerCase Hascii type marker items pre post f
              Hin eq_refl Hend Hne Hgood Hpre Hpost)
    as [s' Hs']; [lia|].
  unfold parse, Parser_parse. cbv zeta. cbn [options newParser]. unfold run.
  rewrite Hs'. reflexivity.
Qed.

Lemma list_parsed_witness :
  parse lowerTable 40
        ((js "Fruit:" ++ [10%N])
         ++ listSource 42%N [(1, js " apples"); (2, js " red ones "); (1, [])]
         ++ js "end")
        kDefaultOptions =
  Returned (arr (textNode (js "Fruit:" ++ [10%N])
                   ++ listNode "unorderedList"
                        [(1, js " apples"); (2, js " red ones "); (1, [])]
                   :: textNode (js "end"))).
Proof.
  apply (@list_parsed lowerTable "unorderedList" 42%N
           [(1, js " apples"); (2, js " red ones "); (1, [])]
           (js "Fruit:" ++ [10%N]) (js "end") kDefaultOptions 40).
  - exact lowerTable_ascii.
  - left. reflexivity.
  - discriminate.
  - reflexivity.
  - reflexivity.
  - reflexivity.
  - reflexivity.
  - simpl. lia.
Defined.

Lemma itemsText (fl : nat) (headingCallback : option (jsstring -> jsstring))
    (items : list (nat * jsstring)) :
  mapJoin (nodeToText (S (S (S fl))) headingCallback) [10%N] [] (map itemNode items)
  = Text (listText items).
Proof.
  induction items as [|[lv t] its IH]; [reflexivity|].
  assert (Hit : elemText (nodeToText (S (S (S fl))) headingCallback) [10%N]
                  (itemNode (lv, t)) = Text (strTrim t ++ [10%N])).
  { unfold itemNode. cbn [fst snd].
    destruct (strTrim t) as [|c r]; cbv - [app]; rewrite ?app_nil_r; reflexivity. }
  cbn [map mapJoin]. rewrite Hit.
  destruct its as [|it its'].
  - cbn [map]. unfold listText. cbn [map concat snd]. rewrite app_nil_r. reflexivity.
  - change (map itemNode (it :: its')) with (itemNode it :: map itemNode its') in *.
    cbv iota. rewrite IH. cbn [app]. reflexivity.
Qed.

(** X28. The markers of a list leave nothing in the text: [nodeToText] of
    such a parse is the text before, the trimmed text of each item followed
    by a newline, and the text after. *)
Theorem list_text (toLowerCase : jsstring -> jsstring) (type : string) (marker : N)
    (items : list (nat * jsstring)) (pre post : jsstring) (o : Options)
    (fuel textFuel : nat) (headingCallback : option (jsstring -> jsstring)) :
  asciiFaithful toLowerCase ->
  In (type, marker) listMarkup ->
  items <> [] ->
  forallb (goodItem toLowerCase marker) items = true ->
  endsLine pre = true ->
  plainText toLowerCase true pre = true ->
  plainText toLowerCase true post = true ->
  length pre + length (listSource marker items) + length post + 4 <= fuel ->
  exists ast,
    parse toLowerCase fuel (pre ++ listSource marker items ++ post) o = Returned ast
    /\ nodeToText (5 + textFuel) headingCallback ast
       = Text (pre ++ listText items ++ post).
Proof.
  intros Hascii Hin Hne Hgood Hend Hpre Hpost Hfuel.
  eexists. split.
  - destruct fuel as [|f]; [lia|].
    destruct (@next_list_markup (pre ++ listSource marker items ++ post)
                (backtrackingLimit o) toLowerCase Hascii type marker items pre post f
                Hin eq_refl Hend Hne Hgood Hpre Hpost)
      as [s' Hs']; [lia|].
    unfold parse, Parser_parse. cbv zeta. cbn [options newParser]. unfold run.
    rewrite Hs'. reflexivity.
  - assert (Hl : forall fl, nodeToText (S (S (S (S fl)))) headingCallback
                              (listNode type items) = Text (listText items)).
    { intros fl. rewrite <- (itemsText fl headingCallback items). reflexivity. }
    assert (Hs : forall fl x, nodeToText (S fl) headingCallback (VStr x) = Text x)
      by reflexivity.
    assert (Ha : forall fl l, nodeToText (S fl) headingCallback (arr l)
                              = mapJoin (nodeToText fl headingCallback) [] [] l)
      by reflexivity.
    cbn [ofNullable]. change (5 + textFuel) with (S (S (S (S (S textFuel))))).
    rewrite Ha. unfold listNode in *.
    destruct pre as [|a pre'], post as [|b post'];
      cbn [textNode app mapJoin elemText]; rewrite ?Hs, ?Hl; cbn [app];
      rewrite ?app_nil_r, <- ?app_assoc; reflexivity.
Qed.

Lemma list_text_witness :
  exists ast,
    parse lowerTable 40
          ((js "Steps:" ++ [10%N])
           ++ listSource 35%N [(1, js " mix"); (1, js " bake ")]
           ++ js "done")
          kDefaultOptions = Returned ast
    /\ nodeToText (5 + 0) None ast
       = Text ((js "Steps:" ++ [10%N])
               ++ listText [(1, js " mix"); (1, js " bake ")] ++ js "done").
Proof.
  apply (@list_text lowerTable "orderedList" 35%N [(1, js " mix"); (1, js " bake ")]
           (js "Steps:" ++ [10%N]) (js "done") kDefaultOptions 40 0 None).
  - exact lowerTable_ascii.
  - right. left. reflexivity.
  - discriminate.
  - reflexivity.
  - reflexivity.
  - reflexivity.
  - reflexivity.
  - simpl. lia.
Defined.
